(** * CPU Guardian: the telemetry -> anomaly pipeline, embedded and verified

    A shallow embedding of the C sources of CPU Guardian
    (ringbuffer.c, telemetry.c, anomaly.c, correlation.c, ipc_socket.c,
    logger.c, pmu.c, config.c and their headers) together with the
    properties the design document states about them (Part II) and further
    properties of the code (Part III).

    Conventions of the embedding.
    - [uint64_t] / [size_t] / [uint32_t] values are [Z] with the wrap-around
      written out ([wrap64], [wrap32]).
    - [double] and [float] values are IEEE-754 binary64 / binary32 numbers,
      represented by [spec_float] and computed with the executable
      operations of [SpecFloat] (round to nearest, ties to even).  There is a
      single NaN.
    - C arrays are lists accessed with stdpp's lookup and insert; an access
      outside the array, or a division by zero, is undefined behaviour in C
      and makes the embedded function return [None].
    - Bytes on the wire are [Byte.byte]; little-endian integers use
      coqutil's [le_split] and [le_combine].
    - A C string is the list of its bytes up to the terminating NUL.
    - The C library and the kernel are parameters: the conversions of
      [printf] and [strtoul], the content of files, the options [getopt]
      finds, and the answers to system calls (a function of the calls made
      so far). *)

From Stdlib Require Import ZArith Lia Bool List Reals Lra.
From Stdlib Require Strings.String.
From Stdlib Require Import Floats.SpecFloat.
From coqutil Require Import Byte Word.LittleEndianList.
From stdpp Require Import base list.

Local Open Scope Z_scope.

(* ===================================================================== *)
(** * Part I. The embedding                                               *)
(* ===================================================================== *)

(** ** Machine integers *)

Definition wrap64 (z : Z) : Z := z mod 2 ^ 64.
Definition wrap32 (z : Z) : Z := z mod 2 ^ 32.

(** ** IEEE-754 numbers *)

Module Float.

Definition is_nan (x : spec_float) : bool :=
  match x with S754_nan => true | _ => false end.

Definition is_finite (x : spec_float) : bool :=
  match x with S754_zero _ | S754_finite _ _ _ => true | _ => false end.

(** [x] is a number (not NaN) whose sign bit is [s]. *)
Definition has_sign (s : bool) (x : spec_float) : Prop :=
  match x with
  | S754_zero s' | S754_infinity s' | S754_finite s' _ _ => s' = s
  | S754_nan => False
  end.

Section Format.
Variables prec emax : Z.

(** Conversion of an integer: [(float)u] or [(double)u]. *)
Definition of_Z (z : Z) : spec_float := binary_normalize prec emax z 0 false.

(** Conversion of a number of another format into this one. *)
Definition round (x : spec_float) : spec_float :=
  match x with
  | S754_finite s m e => binary_round prec emax s m e
  | _ => x
  end.
End Format.

End Float.

(** [double]: binary64. *)
Module Double.
Definition prec : Z := 53.
Definition emax : Z := 1024.
Definition add := SFadd prec emax.
Definition sub := SFsub prec emax.
Definition mul := SFmul prec emax.
Definition div := SFdiv prec emax.
Definition sqrt := SFsqrt prec emax.
Definition opp := SFopp.
Definition fabs := SFabs.
Definition ltb := SFltb.
Definition leb := SFleb.
Definition of_Z := Float.of_Z prec emax.
(** [(double)f] for a [float] f (exact). *)
Definition of_single := Float.round prec emax.
Definition valid := valid_binary prec emax.
Definition zero : spec_float := S754_zero false.
Definition one : spec_float := Eval vm_compute in of_Z 1.
(** The literal [1e-12]. *)
Definition c1e_12 : spec_float := Eval vm_compute in div (of_Z 1) (of_Z (10 ^ 12)).
(** The literals [3.5], [0.5], [0.8] and [0.95]. *)
Definition c3_5 : spec_float := Eval vm_compute in div (of_Z 7) (of_Z 2).
Definition c0_5 : spec_float := Eval vm_compute in div (of_Z 1) (of_Z 2).
Definition c0_8 : spec_float := Eval vm_compute in div (of_Z 8) (of_Z 10).
Definition c0_95 : spec_float := Eval vm_compute in div (of_Z 95) (of_Z 100).
End Double.

(** [float]: binary32. *)
Module Single.
Definition prec : Z := 24.
Definition emax : Z := 128.
Definition add := SFadd prec emax.
Definition sub := SFsub prec emax.
Definition mul := SFmul prec emax.
Definition div := SFdiv prec emax.
Definition ltb := SFltb.
Definition leb := SFleb.
Definition of_Z := Float.of_Z prec emax.
(** [(float)d] for a [double] d (rounds). *)
Definition of_double := Float.round prec emax.
Definition valid := valid_binary prec emax.
Definition zero : spec_float := S754_zero false.
Definition one : spec_float := Eval vm_compute in of_Z 1.
(** The literals [0.3f], [0.5f] and [0.001f]. *)
Definition c0_3 : spec_float := Eval vm_compute in div (of_Z 3) (of_Z 10).
Definition c0_5 : spec_float := Eval vm_compute in div (of_Z 1) (of_Z 2).
Definition c0_001 : spec_float := Eval vm_compute in div (of_Z 1) (of_Z 1000).

(** The IEEE-754 binary32 interchange encoding of a [float] (the 32-bit
    word that sits in memory).  [spec_float] has one NaN, without the sign
    and the payload that the word of a C NaN carries: for a NaN the word
    in memory is not determined by the model, [bits] gives the default
    quiet NaN 0x7fc00000, and the properties of the encoding are stated
    for numbers only (see [sample_wf]). *)
Definition sign_bit (s : bool) : Z := if s then 2 ^ 31 else 0.

Definition bits (x : spec_float) : Z :=
  match x with
  | S754_zero s => sign_bit s
  | S754_infinity s => sign_bit s + 255 * 2 ^ 23
  | S754_nan => 255 * 2 ^ 23 + 2 ^ 22
  | S754_finite s m e =>
      if Zpos (digits2_pos m) =? prec
      then sign_bit s + (e + 150) * 2 ^ 23 + (Zpos m - 2 ^ 23)
      else sign_bit s + Zpos m
  end.

Definition of_bits (w : Z) : spec_float :=
  let s := Z.testbit w 31 in
  let e := (w / 2 ^ 23) mod 256 in
  let frac := w mod 2 ^ 23 in
  if e =? 255 then (if frac =? 0 then S754_infinity s else S754_nan)
  else if e =? 0 then
    match frac with
    | Zpos m => S754_finite s m (-149)
    | _ => S754_zero s
    end
  else
    match frac + 2 ^ 23 with
    | Zpos m => S754_finite s m (e - 150)
    | _ => S754_nan
    end.
End Single.

(** ** telemetry.h: the telemetry sample *)

Record telemetry_sample : Type := {
  timestamp_ns : Z;
  cache_references : Z;
  cache_misses : Z;
  branch_instructions : Z;
  branch_misses : Z;
  cycles : Z;
  instructions : Z;
  cache_miss_rate : spec_float;   (* float *)
  branch_miss_rate : spec_float;  (* float *)
  ipc : spec_float                (* float *)
}.

(** A zero-filled sample ([calloc], [memset(.., 0, ..)]). *)
Definition zero_sample : telemetry_sample :=
  {| timestamp_ns := 0; cache_references := 0; cache_misses := 0;
     branch_instructions := 0; branch_misses := 0; cycles := 0;
     instructions := 0; cache_miss_rate := Single.zero;
     branch_miss_rate := Single.zero; ipc := Single.zero |}.

(** ** ringbuffer.c *)

Record ringbuffer : Type := {
  buffer : list telemetry_sample;
  capacity : Z;   (* size_t *)
  head : Z;       (* atomic_size_t, written by the producer *)
  tail : Z        (* atomic_size_t, written by the consumer *)
}.

Definition next_power_of_two (v : Z) : Z :=
  let v := wrap64 (v - 1) in
  let v := Z.lor v (Z.shiftr v 1) in
  let v := Z.lor v (Z.shiftr v 2) in
  let v := Z.lor v (Z.shiftr v 4) in
  let v := Z.lor v (Z.shiftr v 8) in
  let v := Z.lor v (Z.shiftr v 16) in
  let v := Z.lor v (Z.shiftr v 32) in
  wrap64 (v + 1).

(** [calloc_ok n] tells whether [calloc(n, sizeof(telemetry_sample_t))]
    returns a block; [None] is the [-1] return. *)
Definition ringbuffer_init (calloc_ok : Z -> bool) (capacity : Z) : option ringbuffer :=
  if capacity =? 0 then None
  else
    let capacity := next_power_of_two capacity in
    if calloc_ok capacity then
      Some {| buffer := replicate (Z.to_nat capacity) zero_sample;
              capacity := capacity; head := 0; tail := 0 |}
    else None.

(** [Some (rb', true)]: stored; [Some (rb, false)]: full. *)
Definition ringbuffer_push (rb : ringbuffer) (sample : telemetry_sample)
  : option (ringbuffer * bool) :=
  let h := head rb in
  let t := tail rb in
  let next := Z.land (wrap64 (h + 1)) (wrap64 (capacity rb - 1)) in
  if next =? t then Some (rb, false)
  else
    match buffer rb !! Z.to_nat h with
    | Some _ =>
        Some ({| buffer := <[Z.to_nat h := sample]> (buffer rb);
                 capacity := capacity rb; head := next; tail := t |}, true)
    | None => None
    end.

(** [Some (rb', Some s)]: popped [s]; [Some (rb, None)]: empty. *)
Definition ringbuffer_pop (rb : ringbuffer)
  : option (ringbuffer * option telemetry_sample) :=
  let t := tail rb in
  let h := head rb in
  if t =? h then Some (rb, None)
  else
    match buffer rb !! Z.to_nat t with
    | Some out =>
        let next := Z.land (wrap64 (t + 1)) (wrap64 (capacity rb - 1)) in
        Some ({| buffer := buffer rb; capacity := capacity rb;
                 head := h; tail := next |}, Some out)
    | None => None
    end.

Definition ringbuffer_count (rb : ringbuffer) : Z :=
  Z.land (wrap64 (head rb - tail rb)) (wrap64 (capacity rb - 1)).

Definition ringbuffer_empty (rb : ringbuffer) : bool :=
  ringbuffer_count rb =? 0.

(** The producer pushing a list of samples one after the other, and the
    consumer popping [k] times; the results of the calls are collected. *)
Fixpoint push_all (rb : ringbuffer) (l : list telemetry_sample)
  : option (ringbuffer * list bool) :=
  match l with
  | [] => Some (rb, [])
  | s :: l' =>
      match ringbuffer_push rb s with
      | Some (rb1, b) =>
          match push_all rb1 l' with
          | Some (rb2, bs) => Some (rb2, b :: bs)
          | None => None
          end
      | None => None
      end
  end.

Fixpoint pop_n (rb : ringbuffer) (k : nat)
  : option (ringbuffer * list (option telemetry_sample)) :=
  match k with
  | O => Some (rb, [])
  | S k' =>
      match ringbuffer_pop rb with
      | Some (rb1, r) =>
          match pop_n rb1 k' with
          | Some (rb2, rs) => Some (rb2, r :: rs)
          | None => None
          end
      | None => None
      end
  end.

(** The representation invariant established by [ringbuffer_init]. *)
Definition rb_wf (rb : ringbuffer) : Prop :=
  (exists k, 0 <= k <= 63 /\ capacity rb = 2 ^ k) /\
  length (buffer rb) = Z.to_nat (capacity rb) /\
  0 <= head rb < capacity rb /\
  0 <= tail rb < capacity rb.

(** The queue a ring buffer represents: the slots from [tail] up to [head]. *)
Definition rb_contents (rb : ringbuffer) : list telemetry_sample :=
  map (fun i : nat =>
         default zero_sample
           (buffer rb !! Z.to_nat ((tail rb + Z.of_nat i) mod capacity rb)))
      (seq 0 (Z.to_nat (ringbuffer_count rb))).

(** ** pmu.h: one reading of the six counters *)

Module Pmu.
Record reading : Type := {
  cache_references : Z;
  cache_misses : Z;
  branch_instructions : Z;
  branch_misses : Z;
  instructions : Z;
  cycles : Z
}.
End Pmu.

(** ** telemetry.c *)

(** The body of [compute_derived]: the six counters are copied and the three
    ratios are computed in [float], each guarded by its denominator. *)
Definition compute_derived (s : telemetry_sample) (r : Pmu.reading) : telemetry_sample :=
  {| timestamp_ns := timestamp_ns s;
     cache_references := Pmu.cache_references r;
     cache_misses := Pmu.cache_misses r;
     branch_instructions := Pmu.branch_instructions r;
     branch_misses := Pmu.branch_misses r;
     cycles := Pmu.cycles r;
     instructions := Pmu.instructions r;
     cache_miss_rate :=
       if 0 <? Pmu.instructions r
       then Single.div (Single.of_Z (Pmu.cache_misses r)) (Single.of_Z (Pmu.instructions r))
       else Single.zero;
     branch_miss_rate :=
       if 0 <? Pmu.branch_instructions r
       then Single.div (Single.of_Z (Pmu.branch_misses r)) (Single.of_Z (Pmu.branch_instructions r))
       else Single.zero;
     ipc :=
       if 0 <? Pmu.cycles r
       then Single.div (Single.of_Z (Pmu.instructions r)) (Single.of_Z (Pmu.cycles r))
       else Single.zero |}.

(** The delta of two cumulative readings, as [sampling_loop] builds it. *)
Definition delta_reading (cur prev : Pmu.reading) : Pmu.reading :=
  {| Pmu.cache_references := wrap64 (Pmu.cache_references cur - Pmu.cache_references prev);
     Pmu.cache_misses := wrap64 (Pmu.cache_misses cur - Pmu.cache_misses prev);
     Pmu.branch_instructions := wrap64 (Pmu.branch_instructions cur - Pmu.branch_instructions prev);
     Pmu.branch_misses := wrap64 (Pmu.branch_misses cur - Pmu.branch_misses prev);
     Pmu.instructions := wrap64 (Pmu.instructions cur - Pmu.instructions prev);
     Pmu.cycles := wrap64 (Pmu.cycles cur - Pmu.cycles prev) |}.

(** The sample [sampling_loop] pushes for one tick: zero-filled, stamped with
    the monotonic clock [now], then filled by [compute_derived]. *)
Definition make_sample (now : Z) (cur prev : Pmu.reading) : telemetry_sample :=
  compute_derived
    {| timestamp_ns := now; cache_references := 0; cache_misses := 0;
       branch_instructions := 0; branch_misses := 0; cycles := 0;
       instructions := 0; cache_miss_rate := Single.zero;
       branch_miss_rate := Single.zero; ipc := Single.zero |}
    (delta_reading cur prev).

(** A counter value as the PMU delivers it. *)
Definition is_u64 (z : Z) : Prop := 0 <= z < 2 ^ 64.

Definition reading_wf (r : Pmu.reading) : Prop :=
  is_u64 (Pmu.cache_references r) /\ is_u64 (Pmu.cache_misses r) /\
  is_u64 (Pmu.branch_instructions r) /\ is_u64 (Pmu.branch_misses r) /\
  is_u64 (Pmu.instructions r) /\ is_u64 (Pmu.cycles r).

(** ** anomaly.h / anomaly.c *)

Definition ANOMALY_NONE : Z := 0.
Definition ANOMALY_CACHE_MISS_SPIKE : Z := Z.shiftl 1 0.
Definition ANOMALY_BRANCH_MISS_SPIKE : Z := Z.shiftl 1 1.
Definition ANOMALY_IPC_COLLAPSE : Z := Z.shiftl 1 2.
Definition ANOMALY_BURST_PATTERN : Z := Z.shiftl 1 3.
Definition ANOMALY_OSCILLATION : Z := Z.shiftl 1 4.

Record baseline_profile : Type := {
  mean_cache_miss_rate : spec_float;
  std_cache_miss_rate : spec_float;
  mean_branch_miss_rate : spec_float;
  std_branch_miss_rate : spec_float;
  mean_ipc : spec_float;
  std_ipc : spec_float;
  sample_count : Z;
  ready : bool
}.

Record anomaly_result : Type := {
  z_cache_miss : spec_float;
  z_branch_miss : spec_float;
  z_ipc : spec_float;
  composite_score : spec_float;
  anomaly_flags : Z;      (* uint32_t *)
  sustained_count : Z     (* uint32_t *)
}.

Record anomaly_engine : Type := {
  baseline : baseline_profile;
  z_threshold : spec_float;
  burst_window : Z;       (* uint32_t *)
  sum_cmr : spec_float;
  sum_cmr2 : spec_float;
  sum_bmr : spec_float;
  sum_bmr2 : spec_float;
  sum_ipc : spec_float;
  sum_ipc2 : spec_float;
  n : Z;                  (* size_t *)
  consecutive_anomalies : Z;     (* uint32_t *)
  recent_cmr : list spec_float;  (* float[recent_cap] *)
  recent_idx : Z;         (* size_t *)
  recent_cap : Z          (* size_t *)
}.

Definition zero_baseline : baseline_profile :=
  {| mean_cache_miss_rate := Double.zero; std_cache_miss_rate := Double.zero;
     mean_branch_miss_rate := Double.zero; std_branch_miss_rate := Double.zero;
     mean_ipc := Double.zero; std_ipc := Double.zero;
     sample_count := 0; ready := false |}.

Definition zero_result : anomaly_result :=
  {| z_cache_miss := Double.zero; z_branch_miss := Double.zero;
     z_ipc := Double.zero; composite_score := Double.zero;
     anomaly_flags := 0; sustained_count := 0 |}.

(** [anomaly_init] on its success path ([calloc] returned the window). *)
Definition anomaly_init (z_threshold : spec_float) (burst_window : Z) : anomaly_engine :=
  {| baseline := zero_baseline;
     z_threshold := z_threshold;
     burst_window := burst_window;
     sum_cmr := Double.zero; sum_cmr2 := Double.zero;
     sum_bmr := Double.zero; sum_bmr2 := Double.zero;
     sum_ipc := Double.zero; sum_ipc2 := Double.zero;
     n := 0;
     consecutive_anomalies := 0;
     recent_cmr := replicate (Z.to_nat burst_window) Single.zero;
     recent_idx := 0;
     recent_cap := burst_window |}.

Definition anomaly_learn (eng : anomaly_engine) (s : telemetry_sample) : anomaly_engine :=
  let cmr := Double.of_single (cache_miss_rate s) in
  let bmr := Double.of_single (branch_miss_rate s) in
  let ipc := Double.of_single (ipc s) in
  {| baseline := baseline eng;
     z_threshold := z_threshold eng;
     burst_window := burst_window eng;
     sum_cmr := Double.add (sum_cmr eng) cmr;
     sum_cmr2 := Double.add (sum_cmr2 eng) (Double.mul cmr cmr);
     sum_bmr := Double.add (sum_bmr eng) bmr;
     sum_bmr2 := Double.add (sum_bmr2 eng) (Double.mul bmr bmr);
     sum_ipc := Double.add (sum_ipc eng) ipc;
     sum_ipc2 := Double.add (sum_ipc2 eng) (Double.mul ipc ipc);
     n := wrap64 (n eng + 1);
     consecutive_anomalies := consecutive_anomalies eng;
     recent_cmr := recent_cmr eng;
     recent_idx := recent_idx eng;
     recent_cap := recent_cap eng |}.

(** [if (var < 0.0) var = 0.0;] *)
Definition clamp_variance (var : spec_float) : spec_float :=
  if Double.ltb var Double.zero then Double.zero else var.

(** The variance of one metric as [anomaly_finalize_baseline] computes it
    from the sum of squares [sum2], the mean and the sample count. *)
Definition variance (count : Z) (sum2 mean : spec_float) : spec_float :=
  if 2 <=? count
  then clamp_variance (Double.sub (Double.div sum2 (Double.of_Z count)) (Double.mul mean mean))
  else Double.zero.

Definition set_baseline (eng : anomaly_engine) (b : baseline_profile) : anomaly_engine :=
  {| baseline := b;
     z_threshold := z_threshold eng;
     burst_window := burst_window eng;
     sum_cmr := sum_cmr eng; sum_cmr2 := sum_cmr2 eng;
     sum_bmr := sum_bmr eng; sum_bmr2 := sum_bmr2 eng;
     sum_ipc := sum_ipc eng; sum_ipc2 := sum_ipc2 eng;
     n := n eng;
     consecutive_anomalies := consecutive_anomalies eng;
     recent_cmr := recent_cmr eng;
     recent_idx := recent_idx eng;
     recent_cap := recent_cap eng |}.

Definition anomaly_finalize_baseline (eng : anomaly_engine) : anomaly_engine :=
  if n eng <? 1 then eng
  else
    let n' := Double.of_Z (n eng) in
    let mean_cmr := Double.div (sum_cmr eng) n' in
    let mean_bmr := Double.div (sum_bmr eng) n' in
    let mean_ipc := Double.div (sum_ipc eng) n' in
    let var_cmr := variance (n eng) (sum_cmr2 eng) mean_cmr in
    let var_bmr := variance (n eng) (sum_bmr2 eng) mean_bmr in
    let var_ipc := variance (n eng) (sum_ipc2 eng) mean_ipc in
    set_baseline eng
      {| mean_cache_miss_rate := mean_cmr;
         std_cache_miss_rate := Double.sqrt var_cmr;
         mean_branch_miss_rate := mean_bmr;
         std_branch_miss_rate := Double.sqrt var_bmr;
         mean_ipc := mean_ipc;
         std_ipc := Double.sqrt var_ipc;
         sample_count := n eng;
         ready := true |}.

Definition compute_z (value mean std : spec_float) : spec_float :=
  if Double.ltb std Double.c1e_12 then Double.zero
  else Double.div (Double.sub value mean) std.

(** [(diff > 0.0f) ? 1 : ((diff < 0.0f) ? -1 : 0)] *)
Definition direction (diff : spec_float) : Z :=
  if Single.ltb Single.zero diff then 1
  else if Single.ltb diff Single.zero then -1
  else 0.

Definition window_at (buf : list spec_float) (i : Z) : spec_float :=
  default Single.zero (buf !! Z.to_nat i).

(** One iteration of the loop of [detect_oscillation]; the state is
    [(direction_changes, prev_dir)]. *)
Definition oscillation_step (buf : list spec_float) (cap idx : Z)
    (st : Z * Z) (i : nat) : Z * Z :=
  let '(direction_changes, prev_dir) := st in
  let a := wrap64 (idx + cap - Z.of_nat i) mod cap in
  let b := wrap64 (idx + cap - Z.of_nat i - 1) mod cap in
  let diff := Single.sub (window_at buf a) (window_at buf b) in
  let dir := direction diff in
  let direction_changes :=
    if negb (dir =? 0) && negb (dir =? prev_dir) && negb (prev_dir =? 0)
    then direction_changes + 1 else direction_changes in
  let prev_dir := if negb (dir =? 0) then dir else prev_dir in
  (direction_changes, prev_dir).

Definition detect_oscillation (buf : list spec_float) (cap idx : Z) : bool :=
  if cap <? 4 then false
  else
    let '(direction_changes, _) :=
      fold_left (oscillation_step buf cap idx) (seq 1 (Z.to_nat cap - 1)) (0, 0) in
    cap / 2 <=? direction_changes.

(** [max_z]: the running maximum of the three absolute z-scores. *)
Definition max_abs_z (z1 z2 z3 : spec_float) : spec_float :=
  let max_z := Double.fabs z1 in
  let max_z := if Double.ltb max_z (Double.fabs z2) then Double.fabs z2 else max_z in
  let max_z := if Double.ltb max_z (Double.fabs z3) then Double.fabs z3 else max_z in
  max_z.

(** The last three statements of [anomaly_detect]. *)
Definition composite (max_z threshold : spec_float) : spec_float :=
  let score :=
    Double.sub Double.one
      (Double.div Double.one (Double.add Double.one (Double.div max_z threshold))) in
  let score := if Double.ltb Double.one score then Double.one else score in
  let score := if Double.ltb score Double.zero then Double.zero else score in
  score.

(** The window of [eng] is the array [anomaly_init] allocated and the write
    index lies inside it; otherwise [anomaly_detect] divides by zero or
    accesses memory outside the array. *)
Definition window_ok (eng : anomaly_engine) : bool :=
  (0 <? recent_cap eng) && (Z.of_nat (length (recent_cmr eng)) =? recent_cap eng)
  && (0 <=? recent_idx eng) && (recent_idx eng <? recent_cap eng).

Definition anomaly_detect (eng : anomaly_engine) (s : telemetry_sample)
  : option (anomaly_engine * anomaly_result) :=
  if negb (ready (baseline eng)) then Some (eng, zero_result)
  else if negb (window_ok eng) then None
  else
    let b := baseline eng in
    let cmr := Double.of_single (cache_miss_rate s) in
    let bmr := Double.of_single (branch_miss_rate s) in
    let ipc := Double.of_single (ipc s) in
    let z_cm := compute_z cmr (mean_cache_miss_rate b) (std_cache_miss_rate b) in
    let z_bm := compute_z bmr (mean_branch_miss_rate b) (std_branch_miss_rate b) in
    let z_ip := compute_z ipc (mean_ipc b) (std_ipc b) in
    let cache_spike := Double.ltb (z_threshold eng) z_cm in
    let branch_spike := Double.ltb (z_threshold eng) z_bm in
    let ipc_collapse := Double.ltb z_ip (Double.opp (z_threshold eng)) in
    let flags := 0 in
    let flags := if cache_spike then Z.lor flags ANOMALY_CACHE_MISS_SPIKE else flags in
    let flags := if branch_spike then Z.lor flags ANOMALY_BRANCH_MISS_SPIKE else flags in
    let flags := if ipc_collapse then Z.lor flags ANOMALY_IPC_COLLAPSE else flags in
    let anomalous := cache_spike || branch_spike || ipc_collapse in
    let recent := <[Z.to_nat (recent_idx eng) := Single.of_double cmr]> (recent_cmr eng) in
    let idx := wrap64 (recent_idx eng + 1) mod recent_cap eng in
    let '(consecutive, flags) :=
      if anomalous then
        let consecutive := wrap32 (consecutive_anomalies eng + 1) in
        (consecutive,
         if burst_window eng <=? consecutive
         then Z.lor flags ANOMALY_BURST_PATTERN else flags)
      else (0, flags) in
    let flags :=
      if detect_oscillation recent (recent_cap eng) idx
      then Z.lor flags ANOMALY_OSCILLATION else flags in
    Some ({| baseline := b;
             z_threshold := z_threshold eng;
             burst_window := burst_window eng;
             sum_cmr := sum_cmr eng; sum_cmr2 := sum_cmr2 eng;
             sum_bmr := sum_bmr eng; sum_bmr2 := sum_bmr2 eng;
             sum_ipc := sum_ipc eng; sum_ipc2 := sum_ipc2 eng;
             n := n eng;
             consecutive_anomalies := consecutive;
             recent_cmr := recent;
             recent_idx := idx;
             recent_cap := recent_cap eng |},
          {| z_cache_miss := z_cm;
             z_branch_miss := z_bm;
             z_ipc := z_ip;
             composite_score := composite (max_abs_z z_cm z_bm z_ip) (z_threshold eng);
             anomaly_flags := flags;
             sustained_count := consecutive |}).

(** The engine as the orchestrator drives it. *)
Inductive engine_op : Type :=
| OpLearn (s : telemetry_sample)
| OpFinalize
| OpDetect (s : telemetry_sample).

Definition engine_step (eng : anomaly_engine) (op : engine_op) : option anomaly_engine :=
  match op with
  | OpLearn s => Some (anomaly_learn eng s)
  | OpFinalize => Some (anomaly_finalize_baseline eng)
  | OpDetect s => fst <$> anomaly_detect eng s
  end.

(** Running a list of operations; the result lists the engine after each
    operation. *)
Fixpoint engine_run (eng : anomaly_engine) (ops : list engine_op)
  : option (list anomaly_engine) :=
  match ops with
  | [] => Some []
  | op :: ops' =>
      match engine_step eng op with
      | Some eng1 =>
          match engine_run eng1 ops' with
          | Some trace => Some (eng1 :: trace)
          | None => None
          end
      | None => None
      end
  end.



(** The operations of one run of the orchestrator: a learning phase, the
    finalization, a detection phase. *)
Definition orchestrator_ops (learned detected : list telemetry_sample) : list engine_op :=
  map OpLearn learned ++ OpFinalize :: map OpDetect detected.

(** ** correlation.h / correlation.c *)

Definition CORR_MAX_TRACKED : Z := 256.

Record process_risk : Type := {
  pid : Z;                 (* pid_t *)
  tid : Z;                 (* pid_t *)
  comm : list Byte.byte;   (* char[64], up to the terminating NUL *)
  anomaly_score : spec_float;   (* float *)
  suspicious_samples : Z;  (* uint64_t *)
  total_samples : Z;       (* uint64_t *)
  last_seen_ns : Z;        (* uint64_t *)
  active : bool
}.

Record correlation_engine : Type := {
  entries : list process_risk;   (* process_risk_t[CORR_MAX_TRACKED] *)
  count : Z;                     (* size_t *)
  decay_factor : spec_float;     (* double *)
  window_sec : Z                 (* uint32_t *)
}.

Definition zero_entry : process_risk :=
  {| pid := 0; tid := 0; comm := []; anomaly_score := Single.zero;
     suspicious_samples := 0; total_samples := 0; last_seen_ns := 0;
     active := false |}.

Definition correlation_init (decay_factor : spec_float) (window_sec : Z) : correlation_engine :=
  {| entries := replicate (Z.to_nat CORR_MAX_TRACKED) zero_entry;
     count := 0;
     decay_factor := decay_factor;
     window_sec := window_sec |}.

(** The exponential moving average of [correlation_update], written once
    for any arithmetic: [alpha * score + (1 - alpha) * old]. *)
Section EMA.
Context {A : Type} (mul add sub : A -> A -> A) (one alpha : A).

Definition ema (score old : A) : A :=
  add (mul alpha score) (mul (sub one alpha) old).

(** The score after [k] updates with the same input [v]. *)
Fixpoint ema_iter (k : nat) (v s : A) : A :=
  match k with
  | O => s
  | S k' => ema v (ema_iter k' v s)
  end.
End EMA.

(** [float] arithmetic with [alpha = 0.3f], as the C code evaluates it. *)
Definition ema_single : spec_float -> spec_float -> spec_float :=
  ema Single.mul Single.add Single.sub Single.one Single.c0_3.

(** The same expression over the real numbers, with [alpha = 0.3]. *)
Definition ema_exact : R -> R -> R :=
  ema Rmult Rplus Rminus 1%R (3 / 10)%R.

Section Correlation.
(** What [fgets] reads from [/proc/<pid>/comm]; [None] when the file
    cannot be opened or read. *)
Variable proc_comm : Z -> option (list Byte.byte).

Definition unknown_comm : list Byte.byte :=
  [Byte.x3c; Byte.x75; Byte.x6e; Byte.x6b; Byte.x6e; Byte.x6f; Byte.x77;
   Byte.x6e; Byte.x3e].

(** Strip one trailing newline. *)
Fixpoint strip_newline (s : list Byte.byte) : list Byte.byte :=
  match s with
  | [] => []
  | [c] => if Byte.eqb c Byte.x0a then [] else [c]
  | c :: s' => c :: strip_newline s'
  end.

Definition correlation_resolve_comm (entry : process_risk) : process_risk :=
  let name :=
    if pid entry <=? 0 then unknown_comm
    else
      match proc_comm (pid entry) with
      | None => unknown_comm
      | Some line => strip_newline line
      end in
  {| pid := pid entry; tid := tid entry; comm := name;
     anomaly_score := anomaly_score entry;
     suspicious_samples := suspicious_samples entry;
     total_samples := total_samples entry;
     last_seen_ns := last_seen_ns entry;
     active := active entry |}.

(** A slot as [find_or_create] initialises it. *)
Definition new_entry (p t : Z) : process_risk :=
  correlation_resolve_comm
    {| pid := p; tid := t; comm := []; anomaly_score := Single.zero;
       suspicious_samples := 0; total_samples := 0; last_seen_ns := 0;
       active := true |}.

(** The index of the first element satisfying [f]. *)
Fixpoint find_index {A : Type} (f : A -> bool) (l : list A) : option nat :=
  match l with
  | [] => None
  | x :: l' => if f x then Some 0%nat else S <$> find_index f l'
  end.

Definition set_entries (eng : correlation_engine) (es : list process_risk) (c : Z)
  : correlation_engine :=
  {| entries := es; count := c;
     decay_factor := decay_factor eng; window_sec := window_sec eng |}.

(** [find_or_create]: the engine after the call and the index of the slot
    the returned pointer designates; [None] is the NULL return. *)
Definition find_or_create (eng : correlation_engine) (p t : Z)
  : option (correlation_engine * nat) :=
  let used := take (Z.to_nat (count eng)) (entries eng) in
  match find_index (fun e => (pid e =? p) && active e) used with
  | Some i => Some (eng, i)
  | None =>
      match find_index (fun e => negb (active e)) used with
      | Some i => Some (set_entries eng (<[i := new_entry p t]> (entries eng)) (count eng), i)
      | None =>
          if CORR_MAX_TRACKED <=? count eng then None
          else
            let i := Z.to_nat (count eng) in
            Some (set_entries eng (<[i := new_entry p t]> (entries eng))
                              (wrap64 (count eng + 1)), i)
      end
  end.

(** The statements of [correlation_update] on the selected entry. *)
Definition update_entry (entry : process_risk) (score : spec_float) (timestamp : Z)
  : process_risk :=
  {| pid := pid entry; tid := tid entry; comm := comm entry;
     anomaly_score := ema_single score (anomaly_score entry);
     suspicious_samples :=
       if Single.ltb Single.c0_5 score
       then wrap64 (suspicious_samples entry + 1)
       else suspicious_samples entry;
     total_samples := wrap64 (total_samples entry + 1);
     last_seen_ns := timestamp;
     active := active entry |}.

Definition correlation_update (eng : correlation_engine) (p t : Z)
    (score : spec_float) (timestamp : Z) : correlation_engine :=
  match find_or_create eng p t with
  | None => eng
  | Some (eng1, i) =>
      match entries eng1 !! i with
      | Some entry =>
          set_entries eng1 (<[i := update_entry entry score timestamp]> (entries eng1))
                      (count eng1)
      | None => eng1
      end
  end.
End Correlation.

Definition set_score (e : process_risk) (sc : spec_float) : process_risk :=
  {| pid := pid e; tid := tid e; comm := comm e; anomaly_score := sc;
     suspicious_samples := suspicious_samples e;
     total_samples := total_samples e;
     last_seen_ns := last_seen_ns e; active := active e |}.

Definition deactivate (e : process_risk) : process_risk :=
  {| pid := pid e; tid := tid e; comm := comm e;
     anomaly_score := anomaly_score e;
     suspicious_samples := suspicious_samples e;
     total_samples := total_samples e;
     last_seen_ns := last_seen_ns e; active := false |}.

(** [e->anomaly_score *= (float)decay; if (e->anomaly_score < 0.001f) e->anomaly_score = 0.0f;] *)
Definition decayed_score (factor : spec_float) (sc : spec_float) : spec_float :=
  let sc := Single.mul sc (Single.of_double factor) in
  if Single.ltb sc Single.c0_001 then Single.zero else sc.

(** The body of the loop of [correlation_decay] for one entry. *)
Definition decay_entry (window_ns : Z) (factor : spec_float) (now_ns : Z)
    (e : process_risk) : process_risk :=
  if negb (active e) then e
  else
    let age := wrap64 (now_ns - last_seen_ns e) in
    if window_ns <? age then deactivate e
    else set_score e (decayed_score factor (anomaly_score e)).

Definition correlation_decay (eng : correlation_engine) (now_ns : Z) : correlation_engine :=
  let window_ns := wrap64 (window_sec eng * 1000000000) in
  let used := Z.to_nat (count eng) in
  {| entries :=
       map (decay_entry window_ns (decay_factor eng) now_ns) (take used (entries eng))
       ++ drop used (entries eng);
     count := count eng;
     decay_factor := decay_factor eng;
     window_sec := window_sec eng |}.

(** ** ipc_socket.h / ipc_socket.c: the wire record *)

Module Wire.
(** [ipc_sample_wire_t], declared [__attribute__((packed))]. *)
Record ipc_sample_wire : Type := {
  timestamp_ns : Z;
  cache_references : Z;
  cache_misses : Z;
  branch_instructions : Z;
  branch_misses : Z;
  cycles : Z;
  instructions : Z;
  cache_miss_rate : spec_float;
  branch_miss_rate : spec_float;
  ipc : spec_float
}.
End Wire.

(** The field-by-field copy at the start of [ipc_socket_send]. *)
Definition wire_of_sample (sample : telemetry_sample) : Wire.ipc_sample_wire :=
  {| Wire.timestamp_ns := timestamp_ns sample;
     Wire.cache_references := cache_references sample;
     Wire.cache_misses := cache_misses sample;
     Wire.branch_instructions := branch_instructions sample;
     Wire.branch_misses := branch_misses sample;
     Wire.cycles := cycles sample;
     Wire.instructions := instructions sample;
     Wire.cache_miss_rate := cache_miss_rate sample;
     Wire.branch_miss_rate := branch_miss_rate sample;
     Wire.ipc := ipc sample |}.

(** The bytes [send(fd, &wire, sizeof(wire), ..)] hands to the socket: the
    memory image of the packed struct on the little-endian target, the
    fields in declaration order without padding.  For a ratio that is NaN
    the four bytes in memory depend on the sign and payload of that NaN,
    which the model does not carry (see [Single.bits]); what is proved of
    the datagram is proved for ratios that are numbers. *)
Definition wire_bytes (w : Wire.ipc_sample_wire) : list Byte.byte :=
  le_split 8 (Wire.timestamp_ns w) ++
  le_split 8 (Wire.cache_references w) ++
  le_split 8 (Wire.cache_misses w) ++
  le_split 8 (Wire.branch_instructions w) ++
  le_split 8 (Wire.branch_misses w) ++
  le_split 8 (Wire.cycles w) ++
  le_split 8 (Wire.instructions w) ++
  le_split 4 (Single.bits (Wire.cache_miss_rate w)) ++
  le_split 4 (Single.bits (Wire.branch_miss_rate w)) ++
  le_split 4 (Single.bits (Wire.ipc w)).

(** The datagram of one sample. *)
Definition encode_sample (sample : telemetry_sample) : list Byte.byte :=
  wire_bytes (wire_of_sample sample).

(** The bytes of a datagram from offset [off], [width] of them. *)
Definition field (off width : nat) (bs : list Byte.byte) : list Byte.byte :=
  take width (drop off bs).

(** Modelled from the spec: the decoder is the ML analyzer, which is not
    among the C sources; it reads the 68-byte record of the wire-format
    table (offsets 0, 8, .., 48 unsigned 64-bit little-endian; offsets 56,
    60, 64 32-bit floats). *)
Definition decode_sample (bs : list Byte.byte) : option telemetry_sample :=
  if (length bs =? 68)%nat then
    Some {| timestamp_ns := le_combine (field 0 8 bs);
            cache_references := le_combine (field 8 8 bs);
            cache_misses := le_combine (field 16 8 bs);
            branch_instructions := le_combine (field 24 8 bs);
            branch_misses := le_combine (field 32 8 bs);
            cycles := le_combine (field 40 8 bs);
            instructions := le_combine (field 48 8 bs);
            cache_miss_rate := Single.of_bits (le_combine (field 56 4 bs));
            branch_miss_rate := Single.of_bits (le_combine (field 60 4 bs));
            ipc := Single.of_bits (le_combine (field 64 4 bs)) |}
  else None.

(** A sample whose counters are 64-bit values and whose ratios are binary32
    numbers: none is NaN, as is the case of every sample that
    [compute_derived] fills. *)
Definition sample_wf (s : telemetry_sample) : Prop :=
  is_u64 (timestamp_ns s) /\ is_u64 (cache_references s) /\
  is_u64 (cache_misses s) /\ is_u64 (branch_instructions s) /\
  is_u64 (branch_misses s) /\ is_u64 (cycles s) /\ is_u64 (instructions s) /\
  Single.valid (cache_miss_rate s) = true /\
  Single.valid (branch_miss_rate s) = true /\
  Single.valid (ipc s) = true /\
  Float.is_nan (cache_miss_rate s) = false /\
  Float.is_nan (branch_miss_rate s) = false /\
  Float.is_nan (ipc s) = false.

(** The calls of the producer ([ringbuffer_push]) and of the consumer
    ([ringbuffer_pop]) and what they answer. *)
Inductive rb_call : Type :=
| CallPush (s : telemetry_sample)
| CallPop.

Inductive rb_answer : Type :=
| Pushed (stored : bool)
| Popped (out : option telemetry_sample).

Definition rb_step (rb : ringbuffer) (c : rb_call) : option (ringbuffer * rb_answer) :=
  match c with
  | CallPush s =>
      match ringbuffer_push rb s with
      | Some (rb', b) => Some (rb', Pushed b)
      | None => None
      end
  | CallPop =>
      match ringbuffer_pop rb with
      | Some (rb', r) => Some (rb', Popped r)
      | None => None
      end
  end.

(** A sequence of calls, one after the other, with the answers. *)
Fixpoint rb_run (rb : ringbuffer) (cs : list rb_call)
  : option (ringbuffer * list rb_answer) :=
  match cs with
  | [] => Some (rb, [])
  | c :: cs' =>
      match rb_step rb c with
      | Some (rb1, a) =>
          match rb_run rb1 cs' with
          | Some (rb2, answers) => Some (rb2, a :: answers)
          | None => None
          end
      | None => None
      end
  end.

(** ** telemetry.c: the clock and the sampling loop *)

(** [get_timestamp_ns] (and [now_ns] of main.c, [get_ns] of logger.c) for
    the [struct timespec] the monotonic clock returns. *)
Definition get_timestamp_ns (tv_sec tv_nsec : Z) : Z :=
  wrap64 (wrap64 (wrap64 tv_sec * 1000000000) + wrap64 tv_nsec).

(** The [sleep_ts] of [sampling_loop]: [(tv_sec, tv_nsec)]. *)
Definition sleep_ts (interval_us : Z) : Z * Z :=
  (interval_us / 1000000, (interval_us mod 1000000) * 1000).

Definition zero_reading : Pmu.reading :=
  {| Pmu.cache_references := 0; Pmu.cache_misses := 0;
     Pmu.branch_instructions := 0; Pmu.branch_misses := 0;
     Pmu.instructions := 0; Pmu.cycles := 0 |}.

(** The variables of the loop of [sampling_loop]. *)
Record sampler : Type := {
  prev : Pmu.reading;
  have_prev : bool;
  rb : ringbuffer
}.

Definition sampler_start (ring : ringbuffer) : sampler :=
  {| prev := zero_reading; have_prev := false; rb := ring |}.

(** One iteration of the loop after the sleep: [cur] is what [pmu_read]
    delivered ([None] when it failed) and [now] the clock. *)
Definition sampling_iteration (st : sampler) (cur : option Pmu.reading) (now : Z)
  : option sampler :=
  match cur with
  | None => Some st
  | Some cur =>
      if have_prev st then
        match ringbuffer_push (rb st) (make_sample now cur (prev st)) with
        | Some (ring, _) => Some {| prev := cur; have_prev := true; rb := ring |}
        | None => None
        end
      else Some {| prev := cur; have_prev := true; rb := rb st |}
  end.

Fixpoint sampling_loop (st : sampler) (ticks : list (option Pmu.reading * Z))
  : option sampler :=
  match ticks with
  | [] => Some st
  | (cur, now) :: ticks' =>
      match sampling_iteration st cur now with
      | Some st1 => sampling_loop st1 ticks'
      | None => None
      end
  end.

(** ** C strings

    A C string is the list of its bytes up to the terminating NUL. *)
Module Str.
Import Stdlib.Strings.String.

Definition lit (s : string) : list Byte.byte := list_byte_of_string s.

(** The string literals of [anomaly_flags_str]. *)
Definition none : list Byte.byte := Eval vm_compute in lit "none".
Definition cache_miss_spike : list Byte.byte := Eval vm_compute in lit "cache_miss_spike ".
Definition branch_miss_spike : list Byte.byte := Eval vm_compute in lit "branch_miss_spike ".
Definition ipc_collapse : list Byte.byte := Eval vm_compute in lit "ipc_collapse ".
Definition burst_pattern : list Byte.byte := Eval vm_compute in lit "burst_pattern ".
Definition oscillation : list Byte.byte := Eval vm_compute in lit "oscillation ".
Definition space : Byte.byte := Byte.x20.
End Str.

(** [strncat(dest, src, n)]: at most [n] bytes of [src] are appended. *)
Definition strncat (dest src : list Byte.byte) (n : Z) : list Byte.byte :=
  dest ++ take (Z.to_nat n) src.

(** [strlen] *)
Definition strlen (s : list Byte.byte) : Z := Z.of_nat (length s).

(** [anomaly_flags_str]: the contents of the 256-byte buffer it returns. *)
Definition anomaly_flags_str (flags : Z) : list Byte.byte :=
  let sizeof_buf := 256 in
  if flags =? 0 then Str.none
  else
    let append (cond : bool) (name buf : list Byte.byte) :=
      if cond then strncat buf name (wrap64 (sizeof_buf - strlen buf - 1)) else buf in
    let buf := [] in
    let buf := append (negb (Z.land flags ANOMALY_CACHE_MISS_SPIKE =? 0))
                 Str.cache_miss_spike buf in
    let buf := append (negb (Z.land flags ANOMALY_BRANCH_MISS_SPIKE =? 0))
                 Str.branch_miss_spike buf in
    let buf := append (negb (Z.land flags ANOMALY_IPC_COLLAPSE =? 0))
                 Str.ipc_collapse buf in
    let buf := append (negb (Z.land flags ANOMALY_BURST_PATTERN =? 0))
                 Str.burst_pattern buf in
    let buf := append (negb (Z.land flags ANOMALY_OSCILLATION =? 0))
                 Str.oscillation buf in
    let len := strlen buf in
    if (0 <? len) && Byte.eqb (nth (Z.to_nat (len - 1)) buf Byte.x00) Str.space
    then take (Z.to_nat (len - 1)) buf
    else buf.

(** The detection phase of the orchestrator: the samples are analysed one
    after the other, each call leaving the engine for the next. *)
Fixpoint detect_all (eng : anomaly_engine) (ss : list telemetry_sample)
  : option (anomaly_engine * list anomaly_result) :=
  match ss with
  | [] => Some (eng, [])
  | s :: ss' =>
      match anomaly_detect eng s with
      | Some (eng1, r) =>
          match detect_all eng1 ss' with
          | Some (eng2, rs) => Some (eng2, r :: rs)
          | None => None
          end
      | None => None
      end
  end.

(** [correlation_lookup]: the entry the returned pointer designates; [None]
    is the NULL return. *)
Definition correlation_lookup (eng : correlation_engine) (p : Z) : option process_risk :=
  List.find (fun e => (pid e =? p) && active e)
            (take (Z.to_nat (count eng)) (entries eng)).

(** The body of the loop of [correlation_top_risk]. *)
Definition top_risk_step (best : option process_risk) (e : process_risk)
  : option process_risk :=
  if negb (active e) then best
  else
    match best with
    | None => Some e
    | Some b => if Single.ltb (anomaly_score b) (anomaly_score e) then Some e else best
    end.

Definition correlation_top_risk (eng : correlation_engine) : option process_risk :=
  if count eng =? 0 then None
  else fold_left top_risk_step (take (Z.to_nat (count eng)) (entries eng)) None.

(** The calls the orchestrator makes on the correlation engine. *)
Inductive corr_call : Type :=
| CallUpdate (p t : Z) (score : spec_float) (timestamp : Z)
| CallDecay (now_ns : Z).

Definition corr_step (proc_comm : Z -> option (list Byte.byte))
    (eng : correlation_engine) (c : corr_call) : correlation_engine :=
  match c with
  | CallUpdate p t score timestamp => correlation_update proc_comm eng p t score timestamp
  | CallDecay now_ns => correlation_decay eng now_ns
  end.

Definition corr_run (proc_comm : Z -> option (list Byte.byte))
    (eng : correlation_engine) (cs : list corr_call) : correlation_engine :=
  fold_left (corr_step proc_comm) cs eng.

(** ** logger.c *)

(** The characters [json_escape] tells apart. *)
Module Chr.
Definition nul : Byte.byte := Byte.x00.
Definition quote : Byte.byte := Byte.x22.
Definition backslash : Byte.byte := Byte.x5c.
Definition u : Byte.byte := Byte.x75.
Definition zero : Byte.byte := Byte.x30.
(** The hexadecimal digit of [d], in lower case as [%x] prints it. *)
Definition hex (d : Z) : Byte.byte := byte.of_Z (if d <? 10 then 48 + d else 87 + d).
End Chr.

(** What [snprintf(.., "\\u%04x", c)] would print for a character. *)
Definition u_escape (c : Byte.byte) : list Byte.byte :=
  [Chr.backslash; Chr.u; Chr.zero; Chr.zero;
   Chr.hex (byte.unsigned c / 16); Chr.hex (byte.unsigned c mod 16)].

(** The body of the loop of [json_escape].  The state is the string
    written so far and the index [j]; [snprintf(out + j, out_size - j, ..)]
    stores at most [out_size - j - 1] bytes of its text and returns the
    length of the whole text. *)
Definition json_escape_step (out_size : Z) (st : list Byte.byte * Z) (c : Byte.byte)
  : list Byte.byte * Z :=
  let '(out, j) := st in
  if Byte.eqb c Chr.quote || Byte.eqb c Chr.backslash then
    (out ++ [Chr.backslash; c], wrap64 (j + 2))
  else if byte.unsigned c <? 32 then
    (out ++ take (Z.to_nat (wrap64 (out_size - j) - 1)) (u_escape c),
     wrap64 (j + Z.of_nat (length (u_escape c))))
  else (out ++ [c], wrap64 (j + 1)).

Fixpoint json_escape_loop (out_size : Z) (input : list Byte.byte)
    (st : list Byte.byte * Z) : list Byte.byte * Z :=
  match input with
  | [] => st
  | c :: input' =>
      if negb (Byte.eqb c Chr.nul) && (wrap64 (snd st + 2) <? out_size)
      then json_escape_loop out_size input' (json_escape_step out_size st c)
      else st
  end.

(** [json_escape(in, out, out_size)]: the string left in [out], which held
    [out0] before; [None] when the final [out[j] = '\0'] falls outside the
    [out_size] bytes of the buffer. *)
Definition json_escape (input out0 : list Byte.byte) (out_size : Z)
  : option (list Byte.byte) :=
  if out_size =? 0 then Some out0
  else
    let '(out, j) := json_escape_loop out_size input ([], 0) in
    if j <? out_size then Some out else None.

Module Logger.
Import Stdlib.Strings.String.

(** [log_level_t] *)
Definition ALERT_INFO : Z := 0.
Definition ALERT_WARNING : Z := 1.
Definition ALERT_CRITICAL : Z := 2.

(** The priorities of [<syslog.h>]. *)
Definition LOG_CRIT : Z := 2.
Definition LOG_WARNING : Z := 4.
Definition LOG_NOTICE : Z := 5.
Definition LOG_INFO : Z := 6.

(** [logger_t]; [file_handle] tells whether the handle is non-NULL. *)
Record logger : Type := {
  to_stdout : bool;
  to_file : bool;
  to_syslog : bool;
  filepath : list Byte.byte;   (* char[256] *)
  file_handle : bool;          (* void * *)
  cooldown_sec : Z;            (* uint32_t *)
  last_alert_ns : Z            (* uint64_t *)
}.

(** Where a line goes. *)
Inductive sink : Type :=
| Stdout
| File
| Syslog (priority : Z).

Definition level_str (level : Z) : list Byte.byte :=
  if level =? ALERT_INFO then Str.lit "INFO"
  else if level =? ALERT_WARNING then Str.lit "WARNING"
  else if level =? ALERT_CRITICAL then Str.lit "CRITICAL"
  else Str.lit "UNKNOWN".

Definition level_to_syslog_prio (level : Z) : Z :=
  if level =? ALERT_INFO then LOG_INFO
  else if level =? ALERT_WARNING then LOG_WARNING
  else if level =? ALERT_CRITICAL then LOG_CRIT
  else LOG_NOTICE.

(** [logger_init]; [path] is [None] for a NULL pointer, [fopen_ok] tells
    whether [fopen(filepath, "a")] succeeds; [None] is the [-1] return. *)
Definition logger_init (fopen_ok : bool) (path : option (list Byte.byte))
    (file syslog : bool) (cooldown : Z) : option logger :=
  let stored := match path with Some p => take 255 p | None => [] end in
  let opens := file && match path with Some _ => true | None => false end in
  if opens && negb fopen_ok then None
  else Some {| to_stdout := true; to_file := file; to_syslog := syslog;
               filepath := stored; file_handle := opens;
               cooldown_sec := cooldown; last_alert_ns := 0 |}.

(** A text between double quotes. *)
Definition quoted (s : list Byte.byte) : list Byte.byte :=
  Chr.quote :: s ++ [Chr.quote].

Section Alert.
(** What [printf] makes of [%lu], [%d] and [%.4f]. *)
Variable fmt_lu : Z -> list Byte.byte.
Variable fmt_d : Z -> list Byte.byte.
Variable fmt_f4 : spec_float -> list Byte.byte.

(** The text [snprintf] composes in [logger_alert]. *)
Definition alert_json (level timestamp_ns p : Z) (comm_esc : list Byte.byte)
    (anomaly_score : spec_float) (reason_esc : list Byte.byte) : list Byte.byte :=
  Str.lit "{" ++ quoted (Str.lit "level") ++ Str.lit ":" ++ quoted (level_str level) ++
  Str.lit "," ++ quoted (Str.lit "timestamp") ++ Str.lit ":" ++ fmt_lu timestamp_ns ++
  Str.lit "," ++ quoted (Str.lit "pid") ++ Str.lit ":" ++ fmt_d p ++
  Str.lit "," ++ quoted (Str.lit "comm") ++ Str.lit ":" ++ quoted comm_esc ++
  Str.lit "," ++ quoted (Str.lit "anomaly_score") ++ Str.lit ":" ++ fmt_f4 anomaly_score ++
  Str.lit "," ++ quoted (Str.lit "reason") ++ Str.lit ":" ++ quoted reason_esc ++
  Str.lit "}" ++ [Byte.x0a].

(** The sinks a line is written to. *)
Definition sinks (log : logger) (level : Z) : list sink :=
  (if to_stdout log then [Stdout] else []) ++
  (if to_file log && file_handle log then [File] else []) ++
  (if to_syslog log then [Syslog (level_to_syslog_prio level)] else []).

Definition set_last_alert (log : logger) (now : Z) : logger :=
  {| to_stdout := to_stdout log; to_file := to_file log; to_syslog := to_syslog log;
     filepath := filepath log; file_handle := file_handle log;
     cooldown_sec := cooldown_sec log; last_alert_ns := now |}.

(** [logger_alert] at the clock value [now]; [comm] and [reason] are [None]
    for NULL pointers.  The result is the logger afterwards and the line
    with the sinks it went to, if any; [None] is undefined behaviour. *)
Definition logger_alert (log : logger) (now : Z) (level timestamp_ns p : Z)
    (comm : option (list Byte.byte)) (anomaly_score : spec_float)
    (reason : option (list Byte.byte))
  : option (logger * option (list sink * list Byte.byte)) :=
  if (0 <? cooldown_sec log) && (0 <? last_alert_ns log) &&
     (wrap64 (now - last_alert_ns log) <? wrap64 (cooldown_sec log * 1000000000))
  then Some (log, None)
  else
    let log := set_last_alert log now in
    match json_escape (default (Str.lit "unknown") comm) [] 256,
          json_escape (default (Str.lit "unspecified") reason) [] 512 with
    | Some comm_esc, Some reason_esc =>
        let json := alert_json level timestamp_ns p comm_esc anomaly_score reason_esc in
        let n := strlen json in
        if 1024 <=? n then Some (log, None)
        else Some (log, Some (sinks log level, json))
    | _, _ => None
    end.


End Alert.
End Logger.

(** ** pmu.c: the counters

    The kernel is a parameter: it answers each system call, knowing the
    calls made before.  The two diagnostics at the start of [pmu_open]
    ([warn_perf_paranoid], [detect_hypervisor]) only read files of /proc and
    print; they are left out, as are the messages on [stderr]. *)

(** [(int)x] for a [long] x. *)
Definition to_int (z : Z) : Z :=
  let w := z mod 2 ^ 32 in if w <? 2 ^ 31 then w else w - 2 ^ 32.

(** [(uint64_t)x] for a [double] x: truncation towards zero, undefined
    ([None]) when the truncated value is not a [uint64_t]. *)
Definition to_uint64 (x : spec_float) : option Z :=
  match x with
  | S754_zero _ => Some 0
  | S754_finite s m e =>
      let mag := if 0 <=? e then Zpos m * 2 ^ e else Zpos m / 2 ^ (- e) in
      let v := if s then - mag else mag in
      if (0 <=? v) && (v <? 2 ^ 64) then Some v else None
  | _ => None
  end.

Module Perf.

Definition PMU_NUM_COUNTERS : nat := 6.
Definition PMU_IDX_CYCLES : nat := 0.
Definition PMU_IDX_INSTRUCTIONS : nat := 1.
Definition PMU_IDX_CACHE_MISS : nat := 2.
Definition PMU_IDX_BRANCH_MISS : nat := 3.
Definition PMU_IDX_BRANCH_INST : nat := 4.
Definition PMU_IDX_CACHE_REF : nat := 5.
Definition PMU_CRITICAL_MIN : Z := 2.

(** The values of [<linux/perf_event.h>] and [<errno.h>]. *)
Definition PERF_TYPE_HARDWARE : Z := 0.
Definition PERF_TYPE_SOFTWARE : Z := 1.
Definition PERF_COUNT_HW_CPU_CYCLES : Z := 0.
Definition PERF_COUNT_HW_INSTRUCTIONS : Z := 1.
Definition PERF_COUNT_HW_CACHE_REFERENCES : Z := 2.
Definition PERF_COUNT_HW_CACHE_MISSES : Z := 3.
Definition PERF_COUNT_HW_BRANCH_INSTRUCTIONS : Z := 4.
Definition PERF_COUNT_HW_BRANCH_MISSES : Z := 5.
Definition PERF_COUNT_SW_CPU_CLOCK : Z := 0.
Definition PERF_FORMAT_TOTAL_TIME_ENABLED : Z := 1.
Definition PERF_FORMAT_TOTAL_TIME_RUNNING : Z := 2.
Definition PERF_EVENT_IOC_ENABLE : Z := 9216.
Definition PERF_EVENT_IOC_DISABLE : Z := 9217.
Definition PERF_EVENT_IOC_RESET : Z := 9219.
Definition PERF_IOC_FLAG_GROUP : Z := 1.
Definition ENOENT : Z := 2.

(** [pmu_context_t] *)
Record pmu_context : Type := {
  fds : list Z;      (* int[PMU_NUM_COUNTERS] *)
  cpu : Z;           (* int *)
  pid : Z;           (* pid_t *)
  group_fd : Z       (* int *)
}.

(** The fields of [struct perf_event_attr] that [fill_attr] sets to a value
    other than zero, and the two it names. *)
Record perf_event_attr : Type := {
  attr_type : Z;
  attr_config : Z;
  attr_disabled : Z;
  attr_exclude_kernel : Z;
  attr_exclude_hv : Z;
  attr_inherit : Z;
  attr_read_format : Z
}.

Definition fill_attr (type config : Z) : perf_event_attr :=
  {| attr_type := type; attr_config := config; attr_disabled := 1;
     attr_exclude_kernel := 0; attr_exclude_hv := 0; attr_inherit := 1;
     attr_read_format :=
       Z.lor PERF_FORMAT_TOTAL_TIME_ENABLED PERF_FORMAT_TOTAL_TIME_RUNNING |}.

(** The system calls of pmu.c. *)
Inductive syscall : Type :=
| SysPerfEventOpen (attr : perf_event_attr) (pid cpu group_fd flags : Z)
| SysClose (fd : Z)
| SysIoctl (fd request arg : Z)
| SysRead (fd count : Z).

(** What a call gives back: its return value, [errno], and for [read] the
    three words it stores (value, time enabled, time running). *)
Record answer : Type := {
  ret : Z;
  errno : Z;
  raw : Z * Z * Z
}.

(** The calls made so far, the latest first. *)
Definition trace : Type := list (syscall * answer).
Definition kernel : Type := trace -> syscall -> answer.

(** How [pmu_open] ends: each failure prints its own message. *)
Inductive open_status : Type :=
| Opened
| NoCycles
| NoInstructions
| InsufficientCounters
| NotEnabled.

(** The value [pmu_open] returns. *)
Definition open_ret (s : open_status) : Z :=
  match s with Opened => 0 | _ => -1 end.

Definition set_fd (ctx : pmu_context) (i : nat) (fd : Z) : pmu_context :=
  {| fds := <[i := fd]> (fds ctx); cpu := cpu ctx; pid := pid ctx;
     group_fd := group_fd ctx |}.

Definition set_group_fd (ctx : pmu_context) (fd : Z) : pmu_context :=
  {| fds := fds ctx; cpu := cpu ctx; pid := pid ctx; group_fd := fd |}.

Definition set_cpu (ctx : pmu_context) (c : Z) : pmu_context :=
  {| fds := fds ctx; cpu := c; pid := pid ctx; group_fd := group_fd ctx |}.

(** [if (fd >= 0) ctx->fds[i] = fd;] *)
Definition store_if_open (ctx : pmu_context) (i : nat) (fd : Z) : pmu_context :=
  if 0 <=? fd then set_fd ctx i fd else ctx.

Fixpoint count_open (l : list Z) : Z :=
  match l with
  | [] => 0
  | fd :: l' => (if 0 <=? fd then 1 else 0) + count_open l'
  end.

Definition pmu_count_open (ctx : pmu_context) : Z := count_open (fds ctx).

Section Kernel.
Variable k : kernel.

Definition sys (c : syscall) (tr : trace) : answer * trace :=
  let a := k tr c in (a, (c, a) :: tr).

Definition open_one (pe : perf_event_attr) (pid cpu group_fd : Z) (tr : trace)
  : Z * trace :=
  let '(a, tr) := sys (SysPerfEventOpen pe pid cpu group_fd 0) tr in
  if ret a <? 0 then (-1, tr) else (to_int (ret a), tr).

(** [alternatives] pairs [types[i]] with [configs[i]]. *)
Fixpoint open_event_with_fallback (pid cpu group_fd : Z)
    (alternatives : list (Z * Z)) (tr : trace) : Z * trace :=
  match alternatives with
  | [] => (-1, tr)
  | (type, config) :: rest =>
      let '(fd, tr) := open_one (fill_attr type config) pid cpu group_fd tr in
      if 0 <=? fd then (fd, tr)
      else open_event_with_fallback pid cpu group_fd rest tr
  end.

(** The loop of [pmu_close]. *)
Fixpoint close_all (l : list Z) (tr : trace) : list Z * trace :=
  match l with
  | [] => ([], tr)
  | fd :: l' =>
      if 0 <=? fd then
        let '(_, tr) := sys (SysClose fd) tr in
        let '(l'', tr) := close_all l' tr in (-1 :: l'', tr)
      else
        let '(l'', tr) := close_all l' tr in (fd :: l'', tr)
  end.

Definition pmu_close (ctx : pmu_context) (tr : trace) : pmu_context * trace :=
  let '(l, tr) := close_all (fds ctx) tr in
  ({| fds := l; cpu := cpu ctx; pid := pid ctx; group_fd := -1 |}, tr).

(** The block of [pmu_open] that tries [cpu = -1] first. *)
Definition probe_any_cpu (ctx : pmu_context) (tr : trace) : pmu_context * trace :=
  if cpu ctx =? -1 then
    let '(a, tr) :=
      sys (SysPerfEventOpen (fill_attr PERF_TYPE_HARDWARE PERF_COUNT_HW_CPU_CYCLES)
             (pid ctx) (-1) (-1) 0) tr in
    if (ret a <? 0) && (errno a =? ENOENT) then (set_cpu ctx 0, tr)
    else if 0 <=? ret a then (ctx, snd (sys (SysClose (to_int (ret a))) tr))
    else (ctx, tr)
  else (ctx, tr).

Definition pmu_open (cpu0 pid0 : Z) (tr : trace)
  : open_status * pmu_context * trace :=
  let '(pid1, cpu1) :=
    if (pid0 =? -1) && (cpu0 =? -1) then (0, -1) else (pid0, cpu0) in
  let ctx := {| fds := replicate PMU_NUM_COUNTERS (-1); cpu := cpu1; pid := pid1;
                group_fd := -1 |} in
  let '(ctx, tr) := probe_any_cpu ctx tr in
  let use_cpu := cpu ctx in
  let '(fd, tr) :=
    open_one (fill_attr PERF_TYPE_HARDWARE PERF_COUNT_HW_CPU_CYCLES) pid1 use_cpu (-1) tr in
  if fd <? 0 then let '(ctx, tr) := pmu_close ctx tr in (NoCycles, ctx, tr)
  else
  let ctx := set_group_fd (set_fd ctx PMU_IDX_CYCLES fd) fd in
  let '(fd, tr) :=
    open_one (fill_attr PERF_TYPE_HARDWARE PERF_COUNT_HW_INSTRUCTIONS) pid1 use_cpu
      (group_fd ctx) tr in
  if fd <? 0 then let '(ctx, tr) := pmu_close ctx tr in (NoInstructions, ctx, tr)
  else
  let ctx := set_fd ctx PMU_IDX_INSTRUCTIONS fd in
  let '(fd, tr) :=
    open_event_with_fallback pid1 use_cpu (group_fd ctx)
      [(PERF_TYPE_HARDWARE, PERF_COUNT_HW_CACHE_MISSES);
       (PERF_TYPE_HARDWARE, PERF_COUNT_HW_CACHE_REFERENCES);
       (PERF_TYPE_SOFTWARE, PERF_COUNT_SW_CPU_CLOCK)] tr in
  let ctx := store_if_open ctx PMU_IDX_CACHE_MISS fd in
  let '(fd, tr) :=
    open_one (fill_attr PERF_TYPE_HARDWARE PERF_COUNT_HW_BRANCH_MISSES) pid1 use_cpu
      (group_fd ctx) tr in
  let ctx := store_if_open ctx PMU_IDX_BRANCH_MISS fd in
  let '(fd, tr) :=
    open_one (fill_attr PERF_TYPE_HARDWARE PERF_COUNT_HW_BRANCH_INSTRUCTIONS) pid1 use_cpu
      (group_fd ctx) tr in
  let ctx := store_if_open ctx PMU_IDX_BRANCH_INST fd in
  let '(fd, tr) :=
    open_one (fill_attr PERF_TYPE_HARDWARE PERF_COUNT_HW_CACHE_REFERENCES) pid1 use_cpu
      (group_fd ctx) tr in
  let ctx := store_if_open ctx PMU_IDX_CACHE_REF fd in
  if pmu_count_open ctx <? PMU_CRITICAL_MIN then
    let '(ctx, tr) := pmu_close ctx tr in (InsufficientCounters, ctx, tr)
  else if 0 <=? group_fd ctx then
    let '(_, tr) :=
      sys (SysIoctl (group_fd ctx) PERF_EVENT_IOC_RESET PERF_IOC_FLAG_GROUP) tr in
    let '(a, tr) :=
      sys (SysIoctl (group_fd ctx) PERF_EVENT_IOC_ENABLE PERF_IOC_FLAG_GROUP) tr in
    if negb (ret a =? 0) then let '(ctx, tr) := pmu_close ctx tr in (NotEnabled, ctx, tr)
    else (Opened, ctx, tr)
  else (Opened, ctx, tr).

(** [read_scaled]: [Some None] is the return value -1, [Some (Some v)] is 0
    with [v] stored, [None] is undefined behaviour.  [sizeof(raw)] is 24. *)
Definition read_scaled (fd : Z) (tr : trace) : option (option Z) * trace :=
  if fd <? 0 then (Some None, tr)
  else
    let '(a, tr) := sys (SysRead fd 24) tr in
    if negb (ret a =? 24) then (Some None, tr)
    else
      let '(value, time_enabled, time_running) := raw a in
      if time_running =? 0 then (Some (Some 0), tr)
      else if time_running <? time_enabled then
        (match to_uint64 (Double.mul (Double.of_Z value)
                            (Double.div (Double.of_Z time_enabled)
                                        (Double.of_Z time_running))) with
         | Some v => Some (Some v)
         | None => None
         end, tr)
      else (Some (Some value), tr).

(** The loop of [pmu_read] over the descriptors; [vals] are the values
    gathered so far. *)
Fixpoint read_all (l : list Z) (vals : list Z) (tr : trace)
  : option (option (list Z)) * trace :=
  match l with
  | [] => (Some (Some vals), tr)
  | fd :: l' =>
      if 0 <=? fd then
        match read_scaled fd tr with
        | (Some (Some v), tr) => read_all l' (vals ++ [v]) tr
        | (Some None, tr) => (Some None, tr)
        | (None, tr) => (None, tr)
        end
      else read_all l' (vals ++ [0]) tr
  end.

Definition reading_of (vals : list Z) : Pmu.reading :=
  {| Pmu.cache_references := nth PMU_IDX_CACHE_REF vals 0;
     Pmu.cache_misses := nth PMU_IDX_CACHE_MISS vals 0;
     Pmu.branch_instructions := nth PMU_IDX_BRANCH_INST vals 0;
     Pmu.branch_misses := nth PMU_IDX_BRANCH_MISS vals 0;
     Pmu.instructions := nth PMU_IDX_INSTRUCTIONS vals 0;
     Pmu.cycles := nth PMU_IDX_CYCLES vals 0 |}.

(** [pmu_read]: the return value and [*out]; [None] is undefined
    behaviour. *)
Definition pmu_read (ctx : pmu_context) (tr : trace)
  : option (Z * Pmu.reading) * trace :=
  match read_all (fds ctx) [] tr with
  | (Some (Some vals), tr) => (Some (0, reading_of vals), tr)
  | (Some None, tr) => (Some (-1, zero_reading), tr)
  | (None, tr) => (None, tr)
  end.

Definition group_ioctl (request : Z) (ctx : pmu_context) (tr : trace) : Z * trace :=
  if group_fd ctx <? 0 then (-1, tr)
  else let '(a, tr) := sys (SysIoctl (group_fd ctx) request PERF_IOC_FLAG_GROUP) tr in
       (ret a, tr).

Definition pmu_reset := group_ioctl PERF_EVENT_IOC_RESET.
Definition pmu_enable := group_ioctl PERF_EVENT_IOC_ENABLE.
Definition pmu_disable := group_ioctl PERF_EVENT_IOC_DISABLE.

End Kernel.
End Perf.

(** ** config.c

    The conversions of the C library ([strtoul], [strtol], [strtod]), the
    contents of the configuration file and the options [getopt] finds are
    parameters. *)

(** [isspace] in the C locale. *)
Definition isspace (c : Byte.byte) : bool :=
  let n := byte.unsigned c in (n =? 32) || ((9 <=? n) && (n <=? 13)).

(** The C string that starts a buffer: its bytes up to the first NUL. *)
Fixpoint until_nul (s : list Byte.byte) : list Byte.byte :=
  match s with
  | [] => []
  | c :: s' => if Byte.eqb c Byte.x00 then [] else c :: until_nul s'
  end.

(** [strcmp(a, b) == 0] *)
Fixpoint streq (a b : list Byte.byte) : bool :=
  match a, b with
  | [], [] => true
  | x :: a', y :: b' => Byte.eqb x y && streq a' b'
  | _, _ => false
  end.

(** [strchr]: the index of the first [c]. *)
Fixpoint strchr (s : list Byte.byte) (c : Byte.byte) : option nat :=
  match s with
  | [] => None
  | x :: s' => if Byte.eqb x c then Some 0%nat
               else match strchr s' c with Some i => Some (S i) | None => None end
  end.

Module Config.
Import Stdlib.Strings.String.

Definition CONFIG_MAX_PATH : nat := 256.
Definition CONFIG_MAX_LINE : nat := 512.
Definition INT_MAX : Z := 2 ^ 31 - 1.

(** [guardian_config_t]; the two paths are C strings. *)
Record guardian_config : Type := {
  sampling_interval_us : Z  (* uint32_t *);
  learning_duration_sec : Z  (* uint32_t *);
  z_threshold : spec_float  (* double *);
  burst_window : Z  (* uint32_t *);
  ringbuffer_capacity : Z  (* uint32_t *);
  target_cpu : Z  (* int *);
  target_pid : Z  (* pid_t *);
  log_file : list Byte.byte  (* char[CONFIG_MAX_PATH] *);
  log_to_file : bool  (* bool *);
  log_to_syslog : bool  (* bool *);
  verbose : bool  (* bool *);
  per_process_mode : bool  (* bool *);
  risk_decay_factor : spec_float  (* double *);
  correlation_window_sec : Z  (* uint32_t *);
  alert_cooldown_sec : Z  (* uint32_t *);
  pmu_test : bool  (* bool *);
  socket_path : list Byte.byte  (* char[CONFIG_MAX_PATH] *);
  enable_ml_output : bool  (* bool *)
}.

Definition set_sampling_interval_us (cfg : guardian_config) (x : Z) : guardian_config :=
  {| sampling_interval_us := x; learning_duration_sec := learning_duration_sec cfg;
     z_threshold := z_threshold cfg; burst_window := burst_window cfg;
     ringbuffer_capacity := ringbuffer_capacity cfg; target_cpu := target_cpu cfg;
     target_pid := target_pid cfg; log_file := log_file cfg;
     log_to_file := log_to_file cfg; log_to_syslog := log_to_syslog cfg;
     verbose := verbose cfg; per_process_mode := per_process_mode cfg;
     risk_decay_factor := risk_decay_factor cfg;
     correlation_window_sec := correlation_window_sec cfg;
     alert_cooldown_sec := alert_cooldown_sec cfg; pmu_test := pmu_test cfg;
     socket_path := socket_path cfg; enable_ml_output := enable_ml_output cfg |}.

Definition set_learning_duration_sec (cfg : guardian_config) (x : Z) : guardian_config :=
  {| sampling_interval_us := sampling_interval_us cfg; learning_duration_sec := x;
     z_threshold := z_threshold cfg; burst_window := burst_window cfg;
     ringbuffer_capacity := ringbuffer_capacity cfg; target_cpu := target_cpu cfg;
     target_pid := target_pid cfg; log_file := log_file cfg;
     log_to_file := log_to_file cfg; log_to_syslog := log_to_syslog cfg;
     verbose := verbose cfg; per_process_mode := per_process_mode cfg;
     risk_decay_factor := risk_decay_factor cfg;
     correlation_window_sec := correlation_window_sec cfg;
     alert_cooldown_sec := alert_cooldown_sec cfg; pmu_test := pmu_test cfg;
     socket_path := socket_path cfg; enable_ml_output := enable_ml_output cfg |}.

Definition set_z_threshold (cfg : guardian_config) (x : spec_float) : guardian_config :=
  {| sampling_interval_us := sampling_interval_us cfg;
     learning_duration_sec := learning_duration_sec cfg; z_threshold := x;
     burst_window := burst_window cfg; ringbuffer_capacity := ringbuffer_capacity cfg;
     target_cpu := target_cpu cfg; target_pid := target_pid cfg;
     log_file := log_file cfg; log_to_file := log_to_file cfg;
     log_to_syslog := log_to_syslog cfg; verbose := verbose cfg;
     per_process_mode := per_process_mode cfg;
     risk_decay_factor := risk_decay_factor cfg;
     correlation_window_sec := correlation_window_sec cfg;
     alert_cooldown_sec := alert_cooldown_sec cfg; pmu_test := pmu_test cfg;
     socket_path := socket_path cfg; enable_ml_output := enable_ml_output cfg |}.

Definition set_burst_window (cfg : guardian_config) (x : Z) : guardian_config :=
  {| sampling_interval_us := sampling_interval_us cfg;
     learning_duration_sec := learning_duration_sec cfg;
     z_threshold := z_threshold cfg; burst_window := x;
     ringbuffer_capacity := ringbuffer_capacity cfg; target_cpu := target_cpu cfg;
     target_pid := target_pid cfg; log_file := log_file cfg;
     log_to_file := log_to_file cfg; log_to_syslog := log_to_syslog cfg;
     verbose := verbose cfg; per_process_mode := per_process_mode cfg;
     risk_decay_factor := risk_decay_factor cfg;
     correlation_window_sec := correlation_window_sec cfg;
     alert_cooldown_sec := alert_cooldown_sec cfg; pmu_test := pmu_test cfg;
     socket_path := socket_path cfg; enable_ml_output := enable_ml_output cfg |}.

Definition set_ringbuffer_capacity (cfg : guardian_config) (x : Z) : guardian_config :=
  {| sampling_interval_us := sampling_interval_us cfg;
     learning_duration_sec := learning_duration_sec cfg;
     z_threshold := z_threshold cfg; burst_window := burst_window cfg;
     ringbuffer_capacity := x; target_cpu := target_cpu cfg;
     target_pid := target_pid cfg; log_file := log_file cfg;
     log_to_file := log_to_file cfg; log_to_syslog := log_to_syslog cfg;
     verbose := verbose cfg; per_process_mode := per_process_mode cfg;
     risk_decay_factor := risk_decay_factor cfg;
     correlation_window_sec := correlation_window_sec cfg;
     alert_cooldown_sec := alert_cooldown_sec cfg; pmu_test := pmu_test cfg;
     socket_path := socket_path cfg; enable_ml_output := enable_ml_output cfg |}.

Definition set_target_cpu (cfg : guardian_config) (x : Z) : guardian_config :=
  {| sampling_interval_us := sampling_interval_us cfg;
     learning_duration_sec := learning_duration_sec cfg;
     z_threshold := z_threshold cfg; burst_window := burst_window cfg;
     ringbuffer_capacity := ringbuffer_capacity cfg; target_cpu := x;
     target_pid := target_pid cfg; log_file := log_file cfg;
     log_to_file := log_to_file cfg; log_to_syslog := log_to_syslog cfg;
     verbose := verbose cfg; per_process_mode := per_process_mode cfg;
     risk_decay_factor := risk_decay_factor cfg;
     correlation_window_sec := correlation_window_sec cfg;
     alert_cooldown_sec := alert_cooldown_sec cfg; pmu_test := pmu_test cfg;
     socket_path := socket_path cfg; enable_ml_output := enable_ml_output cfg |}.

Definition set_target_pid (cfg : guardian_config) (x : Z) : guardian_config :=
  {| sampling_interval_us := sampling_interval_us cfg;
     learning_duration_sec := learning_duration_sec cfg;
     z_threshold := z_threshold cfg; burst_window := burst_window cfg;
     ringbuffer_capacity := ringbuffer_capacity cfg; target_cpu := target_cpu cfg;
     target_pid := x; log_file := log_file cfg; log_to_file := log_to_file cfg;
     log_to_syslog := log_to_syslog cfg; verbose := verbose cfg;
     per_process_mode := per_process_mode cfg;
     risk_decay_factor := risk_decay_factor cfg;
     correlation_window_sec := correlation_window_sec cfg;
     alert_cooldown_sec := alert_cooldown_sec cfg; pmu_test := pmu_test cfg;
     socket_path := socket_path cfg; enable_ml_output := enable_ml_output cfg |}.

Definition set_log_file (cfg : guardian_config) (x : list Byte.byte) : guardian_config :=
  {| sampling_interval_us := sampling_interval_us cfg;
     learning_duration_sec := learning_duration_sec cfg;
     z_threshold := z_threshold cfg; burst_window := burst_window cfg;
     ringbuffer_capacity := ringbuffer_capacity cfg; target_cpu := target_cpu cfg;
     target_pid := target_pid cfg; log_file := x; log_to_file := log_to_file cfg;
     log_to_syslog := log_to_syslog cfg; verbose := verbose cfg;
     per_process_mode := per_process_mode cfg;
     risk_decay_factor := risk_decay_factor cfg;
     correlation_window_sec := correlation_window_sec cfg;
     alert_cooldown_sec := alert_cooldown_sec cfg; pmu_test := pmu_test cfg;
     socket_path := socket_path cfg; enable_ml_output := enable_ml_output cfg |}.

Definition set_log_to_file (cfg : guardian_config) (x : bool) : guardian_config :=
  {| sampling_interval_us := sampling_interval_us cfg;
     learning_duration_sec := learning_duration_sec cfg;
     z_threshold := z_threshold cfg; burst_window := burst_window cfg;
     ringbuffer_capacity := ringbuffer_capacity cfg; target_cpu := target_cpu cfg;
     target_pid := target_pid cfg; log_file := log_file cfg; log_to_file := x;
     log_to_syslog := log_to_syslog cfg; verbose := verbose cfg;
     per_process_mode := per_process_mode cfg;
     risk_decay_factor := risk_decay_factor cfg;
     correlation_window_sec := correlation_window_sec cfg;
     alert_cooldown_sec := alert_cooldown_sec cfg; pmu_test := pmu_test cfg;
     socket_path := socket_path cfg; enable_ml_output := enable_ml_output cfg |}.

Definition set_log_to_syslog (cfg : guardian_config) (x : bool) : guardian_config :=
  {| sampling_interval_us := sampling_interval_us cfg;
     learning_duration_sec := learning_duration_sec cfg;
     z_threshold := z_threshold cfg; burst_window := burst_window cfg;
     ringbuffer_capacity := ringbuffer_capacity cfg; target_cpu := target_cpu cfg;
     target_pid := target_pid cfg; log_file := log_file cfg;
     log_to_file := log_to_file cfg; log_to_syslog := x; verbose := verbose cfg;
     per_process_mode := per_process_mode cfg;
     risk_decay_factor := risk_decay_factor cfg;
     correlation_window_sec := correlation_window_sec cfg;
     alert_cooldown_sec := alert_cooldown_sec cfg; pmu_test := pmu_test cfg;
     socket_path := socket_path cfg; enable_ml_output := enable_ml_output cfg |}.

Definition set_verbose (cfg : guardian_config) (x : bool) : guardian_config :=
  {| sampling_interval_us := sampling_interval_us cfg;
     learning_duration_sec := learning_duration_sec cfg;
     z_threshold := z_threshold cfg; burst_window := burst_window cfg;
     ringbuffer_capacity := ringbuffer_capacity cfg; target_cpu := target_cpu cfg;
     target_pid := target_pid cfg; log_file := log_file cfg;
     log_to_file := log_to_file cfg; log_to_syslog := log_to_syslog cfg; verbose := x;
     per_process_mode := per_process_mode cfg;
     risk_decay_factor := risk_decay_factor cfg;
     correlation_window_sec := correlation_window_sec cfg;
     alert_cooldown_sec := alert_cooldown_sec cfg; pmu_test := pmu_test cfg;
     socket_path := socket_path cfg; enable_ml_output := enable_ml_output cfg |}.

Definition set_risk_decay_factor (cfg : guardian_config) (x : spec_float) : guardian_config :=
  {| sampling_interval_us := sampling_interval_us cfg;
     learning_duration_sec := learning_duration_sec cfg;
     z_threshold := z_threshold cfg; burst_window := burst_window cfg;
     ringbuffer_capacity := ringbuffer_capacity cfg; target_cpu := target_cpu cfg;
     target_pid := target_pid cfg; log_file := log_file cfg;
     log_to_file := log_to_file cfg; log_to_syslog := log_to_syslog cfg;
     verbose := verbose cfg; per_process_mode := per_process_mode cfg;
     risk_decay_factor := x; correlation_window_sec := correlation_window_sec cfg;
     alert_cooldown_sec := alert_cooldown_sec cfg; pmu_test := pmu_test cfg;
     socket_path := socket_path cfg; enable_ml_output := enable_ml_output cfg |}.

Definition set_correlation_window_sec (cfg : guardian_config) (x : Z) : guardian_config :=
  {| sampling_interval_us := sampling_interval_us cfg;
     learning_duration_sec := learning_duration_sec cfg;
     z_threshold := z_threshold cfg; burst_window := burst_window cfg;
     ringbuffer_capacity := ringbuffer_capacity cfg; target_cpu := target_cpu cfg;
     target_pid := target_pid cfg; log_file := log_file cfg;
     log_to_file := log_to_file cfg; log_to_syslog := log_to_syslog cfg;
     verbose := verbose cfg; per_process_mode := per_process_mode cfg;
     risk_decay_factor := risk_decay_factor cfg; correlation_window_sec := x;
     alert_cooldown_sec := alert_cooldown_sec cfg; pmu_test := pmu_test cfg;
     socket_path := socket_path cfg; enable_ml_output := enable_ml_output cfg |}.

Definition set_alert_cooldown_sec (cfg : guardian_config) (x : Z) : guardian_config :=
  {| sampling_interval_us := sampling_interval_us cfg;
     learning_duration_sec := learning_duration_sec cfg;
     z_threshold := z_threshold cfg; burst_window := burst_window cfg;
     ringbuffer_capacity := ringbuffer_capacity cfg; target_cpu := target_cpu cfg;
     target_pid := target_pid cfg; log_file := log_file cfg;
     log_to_file := log_to_file cfg; log_to_syslog := log_to_syslog cfg;
     verbose := verbose cfg; per_process_mode := per_process_mode cfg;
     risk_decay_factor := risk_decay_factor cfg;
     correlation_window_sec := correlation_window_sec cfg; alert_cooldown_sec := x;
     pmu_test := pmu_test cfg; socket_path := socket_path cfg;
     enable_ml_output := enable_ml_output cfg |}.

Definition set_pmu_test (cfg : guardian_config) (x : bool) : guardian_config :=
  {| sampling_interval_us := sampling_interval_us cfg;
     learning_duration_sec := learning_duration_sec cfg;
     z_threshold := z_threshold cfg; burst_window := burst_window cfg;
     ringbuffer_capacity := ringbuffer_capacity cfg; target_cpu := target_cpu cfg;
     target_pid := target_pid cfg; log_file := log_file cfg;
     log_to_file := log_to_file cfg; log_to_syslog := log_to_syslog cfg;
     verbose := verbose cfg; per_process_mode := per_process_mode cfg;
     risk_decay_factor := risk_decay_factor cfg;
     correlation_window_sec := correlation_window_sec cfg;
     alert_cooldown_sec := alert_cooldown_sec cfg; pmu_test := x;
     socket_path := socket_path cfg; enable_ml_output := enable_ml_output cfg |}.

Definition set_socket_path (cfg : guardian_config) (x : list Byte.byte) : guardian_config :=
  {| sampling_interval_us := sampling_interval_us cfg;
     learning_duration_sec := learning_duration_sec cfg;
     z_threshold := z_threshold cfg; burst_window := burst_window cfg;
     ringbuffer_capacity := ringbuffer_capacity cfg; target_cpu := target_cpu cfg;
     target_pid := target_pid cfg; log_file := log_file cfg;
     log_to_file := log_to_file cfg; log_to_syslog := log_to_syslog cfg;
     verbose := verbose cfg; per_process_mode := per_process_mode cfg;
     risk_decay_factor := risk_decay_factor cfg;
     correlation_window_sec := correlation_window_sec cfg;
     alert_cooldown_sec := alert_cooldown_sec cfg; pmu_test := pmu_test cfg;
     socket_path := x; enable_ml_output := enable_ml_output cfg |}.

Definition set_enable_ml_output (cfg : guardian_config) (x : bool) : guardian_config :=
  {| sampling_interval_us := sampling_interval_us cfg;
     learning_duration_sec := learning_duration_sec cfg;
     z_threshold := z_threshold cfg; burst_window := burst_window cfg;
     ringbuffer_capacity := ringbuffer_capacity cfg; target_cpu := target_cpu cfg;
     target_pid := target_pid cfg; log_file := log_file cfg;
     log_to_file := log_to_file cfg; log_to_syslog := log_to_syslog cfg;
     verbose := verbose cfg; per_process_mode := per_process_mode cfg;
     risk_decay_factor := risk_decay_factor cfg;
     correlation_window_sec := correlation_window_sec cfg;
     alert_cooldown_sec := alert_cooldown_sec cfg; pmu_test := pmu_test cfg;
     socket_path := socket_path cfg; enable_ml_output := x |}.

Definition config_set_defaults : guardian_config :=
  {| sampling_interval_us := 1000; learning_duration_sec := 60;
     z_threshold := Double.c3_5; burst_window := 10; ringbuffer_capacity := 8192;
     target_cpu := -1; target_pid := -1;
     log_file := Str.lit "/var/log/cpu-guardian.log";
     log_to_file := false; log_to_syslog := false; verbose := false;
     per_process_mode := false; risk_decay_factor := Double.c0_95;
     correlation_window_sec := 30; alert_cooldown_sec := 5; pmu_test := false;
     socket_path := Str.lit "/tmp/cpu-guardian.sock"; enable_ml_output := true |}.

(** The first loop of [trim]. *)
Fixpoint skip_space (s : list Byte.byte) : list Byte.byte :=
  match s with
  | c :: s' => if isspace c then skip_space s' else s
  | [] => []
  end.

(** The second loop of [trim]: where [end] stops, starting at index [e]. *)
Fixpoint trim_end (s : list Byte.byte) (e : nat) : nat :=
  match e with
  | O => O
  | S e' => if isspace (nth (S e') s Byte.x00) then trim_end s e' else S e'
  end.

(** [trim] of the C string in the buffer [s]: the string it returns. *)
Definition trim (s : list Byte.byte) : list Byte.byte :=
  let s := until_nul (skip_space s) in
  match List.length s with
  | O => s
  | S n => take (S (trim_end s n)) s
  end.

(** [strcmp(val, "true") == 0 || strcmp(val, "1") == 0] *)
Definition is_true (val : list Byte.byte) : bool :=
  streq val (Str.lit "true") || streq val (Str.lit "1").

(** [strncpy(dst, src, CONFIG_MAX_PATH - 1); dst[CONFIG_MAX_PATH - 1] = 0] *)
Definition copy_path (src : list Byte.byte) : list Byte.byte :=
  take (CONFIG_MAX_PATH - 1) src.

Section Parsers.
Variable strtoul : list Byte.byte -> Z.
Variable strtol : list Byte.byte -> Z.
Variable strtod : list Byte.byte -> spec_float.

(** [parse_kv]: the return value and the configuration afterwards. *)
Definition parse_kv (cfg : guardian_config) (key val : list Byte.byte)
  : Z * guardian_config :=
  if streq key (Str.lit "sampling_interval_us") then
    (0, set_sampling_interval_us cfg (wrap32 (strtoul val)))
  else if streq key (Str.lit "learning_duration_sec") then
    (0, set_learning_duration_sec cfg (wrap32 (strtoul val)))
  else if streq key (Str.lit "z_threshold") then
    (0, set_z_threshold cfg (strtod val))
  else if streq key (Str.lit "burst_window") then
    (0, set_burst_window cfg (wrap32 (strtoul val)))
  else if streq key (Str.lit "ringbuffer_capacity") then
    (0, set_ringbuffer_capacity cfg (wrap32 (strtoul val)))
  else if streq key (Str.lit "target_cpu") then
    (0, set_target_cpu cfg (to_int (strtol val)))
  else if streq key (Str.lit "target_pid") then
    (0, set_target_pid cfg (to_int (strtol val)))
  else if streq key (Str.lit "log_file") then
    (0, set_log_to_file (set_log_file cfg (copy_path val)) true)
  else if streq key (Str.lit "log_to_syslog") then
    (0, set_log_to_syslog cfg (is_true val))
  else if streq key (Str.lit "verbose") then
    (0, set_verbose cfg (is_true val))
  else if streq key (Str.lit "risk_decay_factor") then
    (0, set_risk_decay_factor cfg (strtod val))
  else if streq key (Str.lit "correlation_window_sec") then
    (0, set_correlation_window_sec cfg (wrap32 (strtoul val)))
  else if streq key (Str.lit "alert_cooldown_sec") then
    (0, set_alert_cooldown_sec cfg (wrap32 (strtoul val)))
  else if streq key (Str.lit "socket_path") then
    (0, set_socket_path cfg (copy_path val))
  else if streq key (Str.lit "enable_ml_output") then
    (0, set_enable_ml_output cfg (is_true val))
  else (-1, cfg).

(** The body of the loop of [config_load_file] for the buffer [line] that
    [fgets] filled: the configuration afterwards and whether the line
    counts as an error. *)
Definition config_line (cfg : guardian_config) (line : list Byte.byte)
  : guardian_config * bool :=
  let s := trim line in
  match s with
  | [] => (cfg, false)
  | c :: _ =>
      if Byte.eqb c Byte.x23 then (cfg, false)
      else
        match strchr s Byte.x3d with
        | None => (cfg, true)
        | Some eq =>
            let key := trim (take eq s) in
            let val := trim (drop (S eq) s) in
            let '(r, cfg') := parse_kv cfg key val in
            (cfg', negb (r =? 0))
        end
  end.

(** What successive calls of [fgets(line, CONFIG_MAX_LINE, fp)] deliver
    from the rest [s] of the file: [cur] is the part of the line read so
    far and [room] the number of bytes that still fit. *)
Fixpoint fgets_all (room : nat) (cur s : list Byte.byte) : list (list Byte.byte) :=
  match s with
  | [] => match cur with [] => [] | _ => [cur] end
  | c :: s' =>
      if Byte.eqb c Byte.x0a then (cur ++ [c]) :: fgets_all (CONFIG_MAX_LINE - 1) [] s'
      else
        match room with
        | S O => (cur ++ [c]) :: fgets_all (CONFIG_MAX_LINE - 1) [] s'
        | _ => fgets_all (room - 1) (cur ++ [c]) s'
        end
  end.

(** The loop of [config_load_file]; [None] is the overflow of [lineno]. *)
Fixpoint load_lines (cfg : guardian_config) (lines : list (list Byte.byte))
    (lineno errors : Z) : option (guardian_config * Z) :=
  match lines with
  | [] => Some (cfg, errors)
  | line :: rest =>
      if lineno =? INT_MAX then None
      else
        let '(cfg', err) := config_line cfg line in
        load_lines cfg' rest (lineno + 1) (if err then errors + 1 else errors)
  end.

(** [config_load_file]; [file] is the content of the file, [None] when it
    cannot be opened. *)
Definition config_load_file (cfg : guardian_config) (file : option (list Byte.byte))
  : option (Z * guardian_config) :=
  match file with
  | None => Some (-1, cfg)
  | Some content =>
      match load_lines cfg (fgets_all (CONFIG_MAX_LINE - 1) [] content) 0 0 with
      | Some (cfg', errors) => Some (if 0 <? errors then -1 else 0, cfg')
      | None => None
      end
  end.

(** The loop of [config_parse_args] over the options [getopt] finds, each
    with its argument: [inl] when the loop ends, [inr] at a [return -1]. *)
Fixpoint parse_options (cfg : guardian_config) (config_path : option (list Byte.byte))
    (opts : list (Byte.byte * list Byte.byte))
  : guardian_config * option (list Byte.byte) + guardian_config :=
  match opts with
  | [] => inl (cfg, config_path)
  | (opt, optarg) :: rest =>
      match opt with
      | Byte.x63 (* c *) => parse_options cfg (Some optarg) rest
      | Byte.x69 (* i *) =>
          parse_options (set_sampling_interval_us cfg (wrap32 (strtoul optarg)))
            config_path rest
      | Byte.x6c (* l *) =>
          parse_options (set_learning_duration_sec cfg (wrap32 (strtoul optarg)))
            config_path rest
      | Byte.x7a (* z *) =>
          parse_options (set_z_threshold cfg (strtod optarg)) config_path rest
      | Byte.x43 (* C *) =>
          parse_options (set_target_cpu cfg (to_int (strtol optarg))) config_path rest
      | Byte.x70 (* p *) =>
          parse_options (set_target_pid cfg (to_int (strtol optarg))) config_path rest
      | Byte.x6f (* o *) =>
          parse_options (set_log_to_file (set_log_file cfg (copy_path optarg)) true)
            config_path rest
      | Byte.x53 (* S *) =>
          parse_options (set_socket_path cfg (copy_path optarg)) config_path rest
      | Byte.x73 (* s *) => parse_options (set_log_to_syslog cfg true) config_path rest
      | Byte.x76 (* v *) => parse_options (set_verbose cfg true) config_path rest
      | Byte.x54 (* T *) => parse_options (set_pmu_test cfg true) config_path rest
      | Byte.x4d (* M *) => parse_options (set_enable_ml_output cfg false) config_path rest
      | _ => inr cfg
      end
  end.

(** [config_parse_args]; [read_file] gives the content of a file. *)
Definition config_parse_args (read_file : list Byte.byte -> option (list Byte.byte))
    (cfg : guardian_config) (opts : list (Byte.byte * list Byte.byte))
  : option (Z * guardian_config) :=
  match parse_options cfg None opts with
  | inr cfg' => Some (-1, cfg')
  | inl (cfg', None) => Some (0, cfg')
  | inl (cfg', Some path) =>
      match config_load_file cfg' (read_file path) with
      | Some (_, cfg'') => Some (0, cfg'')
      | None => None
      end
  end.

End Parsers.
End Config.

(* ===================================================================== *)
(** * Part I (continued). Vocabulary of the properties and sample data    *)
(* ===================================================================== *)

Definition sample_reading : Pmu.reading :=
  {| Pmu.cache_references := 4000; Pmu.cache_misses := 120;
     Pmu.branch_instructions := 0; Pmu.branch_misses := 0;
     Pmu.instructions := 12000; Pmu.cycles := 8000 |}.

(** Bit [i] of [y] is set exactly when one of the [w] bits of [x] from
    position [i] upwards is set. *)
Definition smeared (x y w : Z) : Prop :=
  forall i, 0 <= i ->
    (Z.testbit y i = true <-> exists j, 0 <= j < w /\ Z.testbit x (i + j) = true).

(** A sample told apart by its time stamp. *)
Definition stamped (t : Z) : telemetry_sample :=
  {| timestamp_ns := t; cache_references := 0; cache_misses := 0;
     branch_instructions := 0; branch_misses := 0; cycles := 0;
     instructions := 0; cache_miss_rate := Single.zero;
     branch_miss_rate := Single.zero; ipc := Single.zero |}.

Definition always_allocates (n : Z) : bool := true.

(** The buffer [ringbuffer_init] returns for a request of 5 to 8 slots. *)
Definition rb8 : ringbuffer :=
  {| buffer := replicate 8 zero_sample; capacity := 8; head := 0; tail := 0 |}.

(** The results of pushing the samples [l] and then popping [k] times. *)
Definition push_then_pop (rb : ringbuffer) (l : list telemetry_sample) (k : nat)
  : option (list bool * list (option telemetry_sample)) :=
  match push_all rb l with
  | Some (rb1, pushed) =>
      match pop_n rb1 k with
      | Some (_, popped) => Some (pushed, popped)
      | None => None
      end
  | None => None
  end.

Definition rb4 : ringbuffer :=
  {| buffer := replicate 4 zero_sample; capacity := 4; head := 0; tail := 0 |}.

Definition four_samples : list telemetry_sample :=
  [stamped 1; stamped 2; stamped 3; stamped 4].

(** [flags & f] as a condition. *)
Definition has_flag (flags f : Z) : bool := negb (Z.land flags f =? 0).

(** One of the three primary flags is set. *)
Definition primary_fired (flags : Z) : bool :=
  has_flag flags ANOMALY_CACHE_MISS_SPIKE || has_flag flags ANOMALY_BRANCH_MISS_SPIKE
  || has_flag flags ANOMALY_IPC_COLLAPSE.

(** The flag word with the given five conditions. *)
Definition flag_word (cache branch collapse burst oscillation : bool) : Z :=
  (if cache then ANOMALY_CACHE_MISS_SPIKE else 0) +
  (if branch then ANOMALY_BRANCH_MISS_SPIKE else 0) +
  (if collapse then ANOMALY_IPC_COLLAPSE else 0) +
  (if burst then ANOMALY_BURST_PATTERN else 0) +
  (if oscillation then ANOMALY_OSCILLATION else 0).

(** The engine as [anomaly_init] leaves it and every operation keeps it:
    the window has [burst_window] slots, at least one, the write index lies
    inside it and the counter is a 32-bit value. *)
Definition engine_wf (eng : anomaly_engine) : Prop :=
  window_ok eng = true /\ burst_window eng = recent_cap eng /\
  0 <= consecutive_anomalies eng < 2 ^ 32 /\ recent_cap eng < 2 ^ 32.

Definition idle_engine : anomaly_engine :=
  anomaly_finalize_baseline (anomaly_learn (anomaly_init Double.c3_5 10) (stamped 1)).


(** The window in chronological order, oldest sample first: after the
    append the write index [idx] designates the oldest slot. *)
Definition window_chronological (buf : list spec_float) (cap idx : Z) : list spec_float :=
  map (fun j : nat => window_at buf ((idx + Z.of_nat j) mod cap)) (seq 0 (Z.to_nat cap)).

(** The first difference of a series: each value minus its predecessor. *)
Fixpoint differences (prev : spec_float) (l : list spec_float) : list spec_float :=
  match l with
  | [] => []
  | x :: l' => Single.sub x prev :: differences x l'
  end.

Definition first_difference (w : list spec_float) : list spec_float :=
  match w with
  | [] => []
  | x :: w' => differences x w'
  end.

(** The number of sign changes in a series of directions: a zero direction
    neither counts as a change nor resets the previous direction [prev]. *)
Fixpoint sign_changes_from (prev : Z) (dirs : list Z) : Z :=
  match dirs with
  | [] => 0
  | d :: dirs' =>
      if d =? 0 then sign_changes_from prev dirs'
      else (if negb (prev =? 0) && negb (d =? prev) then 1 else 0)
           + sign_changes_from d dirs'
  end.

Definition sign_changes (dirs : list Z) : Z := sign_changes_from 0 dirs.

(** The sign changes of the first difference over the window. *)
Definition window_sign_changes (buf : list spec_float) (cap idx : Z) : Z :=
  sign_changes (map direction (first_difference (window_chronological buf cap idx))).

(** The number of adjacent pairs of unequal elements. *)
Fixpoint adjacent_changes (l : list Z) : Z :=
  match l with
  | x :: (y :: _) as t => (if x =? y then 0 else 1) + adjacent_changes t
  | _ => 0
  end.

Definition nonzero (d : Z) : bool := negb (d =? 0).

(** The update of [(direction_changes, prev_dir)] for one direction. *)
Definition direction_step (st : Z * Z) (dir : Z) : Z * Z :=
  let '(direction_changes, prev_dir) := st in
  (if negb (dir =? 0) && negb (dir =? prev_dir) && negb (prev_dir =? 0)
   then direction_changes + 1 else direction_changes,
   if negb (dir =? 0) then dir else prev_dir).

(** A sample with the given cache miss rate. *)
Definition with_cmr (c : spec_float) : telemetry_sample :=
  {| timestamp_ns := 0; cache_references := 0; cache_misses := 0;
     branch_instructions := 0; branch_misses := 0; cycles := 0;
     instructions := 0; cache_miss_rate := c;
     branch_miss_rate := Single.zero; ipc := Single.zero |}.

(** The [float] literals [0.01f] and [0.05f]. *)
Definition cmr_0_01 : spec_float := Eval vm_compute in Single.div (Single.of_Z 1) (Single.of_Z 100).

Definition cmr_0_05 : spec_float := Eval vm_compute in Single.div (Single.of_Z 5) (Single.of_Z 100).

(** An engine with a window of three slots, after a learning phase of two
    samples and the alternating detection samples 0.01, 0.05. *)
Definition narrow_engine : anomaly_engine :=
  let e0 := anomaly_init Double.c3_5 3 in
  let e1 := anomaly_learn (anomaly_learn e0 (with_cmr cmr_0_01)) (with_cmr cmr_0_05) in
  let e2 := anomaly_finalize_baseline e1 in
  let e3 := default e2 (fst <$> anomaly_detect e2 (with_cmr cmr_0_01)) in
  default e3 (fst <$> anomaly_detect e3 (with_cmr cmr_0_05)).


(** [1 - 1 / (1 + m / Z)] *)
Definition severity (m threshold : spec_float) : spec_float :=
  Double.sub Double.one
    (Double.div Double.one (Double.add Double.one (Double.div m threshold))).

(** Clamping to [0, 1]. *)
Definition clamp_unit (x : spec_float) : spec_float :=
  if Double.ltb Double.one x then Double.one
  else if Double.ltb x Double.zero then Double.zero
  else x.

(** A threshold as configurations give it: finite and positive. *)
Definition positive_finite (x : spec_float) : Prop :=
  exists m e, x = S754_finite false m e.

(** The [double] value 2^-53, half of [DBL_EPSILON]: the largest [q] for
    which [1.0 + q] is still [1.0]. *)
Definition dbl_half_epsilon : spec_float := S754_finite false 4503599627370496 (-105).

(** A learning phase: the engine after learning the samples in order. *)
Definition learn_all (eng : anomaly_engine) (ls : list telemetry_sample) : anomaly_engine :=
  fold_left anomaly_learn ls eng.

(** The [float] literals [0.1f] and [0.2f]. *)
Definition cmr_0_1 : spec_float := Eval vm_compute in Single.div (Single.of_Z 1) (Single.of_Z 10).

Definition cmr_0_2 : spec_float := Eval vm_compute in Single.div (Single.of_Z 2) (Single.of_Z 10).

(** The engine after a learning phase of 51 identical samples
    (cache_miss_rate = 0.1f, the other ratios 0) and finalization. *)
Definition flat_engine : anomaly_engine :=
  anomaly_finalize_baseline
    (learn_all (anomaly_init Double.c3_5 10) (replicate 51 (with_cmr cmr_0_1))).



(** The engine above after nine detection samples with cache_miss_rate
    0.2f, each of which raises CACHE_MISS_SPIKE. *)
Definition spiking_engine : anomaly_engine :=
  default flat_engine (fst <$> detect_all flat_engine (replicate 9 (with_cmr cmr_0_2))).

(** A sample with the given instructions-per-cycle ratio. *)
Definition with_ipc (c : spec_float) : telemetry_sample :=
  {| timestamp_ns := 0; cache_references := 0; cache_misses := 0;
     branch_instructions := 0; branch_misses := 0; cycles := 0;
     instructions := 0; cache_miss_rate := Single.zero;
     branch_miss_rate := Single.zero; ipc := c |}.

(** The [float] values 2.0 and 2^-51. *)
Definition ipc_2 : spec_float := Eval vm_compute in Single.of_Z 2.

Definition ipc_tiny : spec_float :=
  Eval vm_compute in Single.div (Single.of_Z 1) (Single.of_Z (2 ^ 51)).

(** With the default threshold 3.5: the baseline learned from ipc = 2.0 and
    ipc = 2^-51 has mean 1 + 2^-52. *)
Definition near_one_engine : anomaly_engine :=
  anomaly_finalize_baseline
    (learn_all (anomaly_init Double.c3_5 10) [with_ipc ipc_2; with_ipc ipc_tiny]).

(** With a threshold of 0 and a single learned sample. *)
Definition zero_threshold_engine : anomaly_engine :=
  anomaly_finalize_baseline (learn_all (anomaly_init Double.zero 10) [stamped 1]).

(** The table as [correlation_init] leaves it and every operation keeps
    it. *)
Definition corr_wf (eng : correlation_engine) : Prop :=
  Z.of_nat (length (entries eng)) = CORR_MAX_TRACKED /\
  0 <= count eng <= CORR_MAX_TRACKED.

(** The literal [0.7f]. *)
Definition single_0_7 : spec_float := Eval vm_compute in Single.div (Single.of_Z 7) (Single.of_Z 10).

(** The scores of an entry under [k] updates with the same input, in
    [float] arithmetic and in exact arithmetic. *)
Definition ema_single_iter : nat -> spec_float -> spec_float -> spec_float :=
  ema_iter Single.mul Single.add Single.sub Single.one Single.c0_3.

Definition ema_exact_iter : nat -> R -> R -> R :=
  ema_iter Rmult Rplus Rminus 1%R (3 / 10)%R.

Definition no_proc (p : Z) : option (list Byte.byte) := None.

(** The real number that a [float] or a [double] denotes; the infinities
    and NaN denote none and are given 0. *)
Definition real_of (x : spec_float) : R :=
  match x with
  | S754_finite s m e => ((if s then -1 else 1) * IZR (Zpos m) * powerRZ 2 e)%R
  | _ => 0%R
  end.

(** A [float] that is zero or a positive number of the format. *)
Definition nonneg_single (x : spec_float) : Prop :=
  Single.valid x = true /\ Float.is_finite x = true /\ Float.has_sign false x.

(** A score as the detector gives it: a [float] between 0 and 1. *)
Definition unit_score (x : spec_float) : Prop :=
  nonneg_single x /\ (real_of x <= 1)%R.

(** The entry after updates with the same score [v] at the times [tss]. *)
Definition updated_entry (entry : process_risk) (v : spec_float) (tss : list Z)
  : process_risk :=
  fold_left (fun e ts => update_entry e v ts) tss entry.

(** The [float] literals [0.9f] and [0.95f]. *)
Definition score_0_9 : spec_float := Eval vm_compute in Single.div (Single.of_Z 9) (Single.of_Z 10).

Definition score_0_95 : spec_float := Eval vm_compute in Single.div (Single.of_Z 95) (Single.of_Z 100).

(** The table after [k] updates of process 42 with the score 0.9f. *)
Definition updated (k : nat) : correlation_engine :=
  Nat.iter k (fun eng => correlation_update no_proc eng 42 0 score_0_9 1000)
    (correlation_init Double.c0_95 30).

Definition score_of (eng : correlation_engine) (i : nat) : option spec_float :=
  anomaly_score <$> entries eng !! i.

(** A sample as the sampler builds it (12000 instructions in 8000 cycles,
    120 cache misses). *)
Definition wire_sample : telemetry_sample :=
  Eval vm_compute in make_sample 123456789
    {| Pmu.cache_references := 4000; Pmu.cache_misses := 120;
       Pmu.branch_instructions := 3000; Pmu.branch_misses := 30;
       Pmu.instructions := 12000; Pmu.cycles := 8000 |}
    {| Pmu.cache_references := 0; Pmu.cache_misses := 0;
       Pmu.branch_instructions := 0; Pmu.branch_misses := 0;
       Pmu.instructions := 0; Pmu.cycles := 0 |}.

(** The reference: a FIFO queue with room for [bound] samples. *)
Definition queue_step (bound : Z) (q : list telemetry_sample) (c : rb_call)
  : list telemetry_sample * rb_answer :=
  match c with
  | CallPush s =>
      if Z.of_nat (length q) <? bound then (q ++ [s], Pushed true) else (q, Pushed false)
  | CallPop =>
      match q with
      | [] => ([], Popped None)
      | x :: q' => (q', Popped (Some x))
      end
  end.

Fixpoint queue_run (bound : Z) (q : list telemetry_sample) (cs : list rb_call)
  : list telemetry_sample * list rb_answer :=
  match cs with
  | [] => (q, [])
  | c :: cs' =>
      let '(q1, a) := queue_step bound q c in
      let '(q2, answers) := queue_run bound q1 cs' in
      (q2, a :: answers)
  end.

(** A push followed by a pop, and a pop followed by a push. *)
Definition push_pop (rb : ringbuffer) (s : telemetry_sample)
  : option (ringbuffer * bool * option telemetry_sample) :=
  match ringbuffer_push rb s with
  | Some (rb1, b) =>
      match ringbuffer_pop rb1 with
      | Some (rb2, r) => Some (rb2, b, r)
      | None => None
      end
  | None => None
  end.

Definition pop_push (rb : ringbuffer) (s : telemetry_sample)
  : option (ringbuffer * bool * option telemetry_sample) :=
  match ringbuffer_pop rb with
  | Some (rb1, r) =>
      match ringbuffer_push rb1 s with
      | Some (rb2, b) => Some (rb2, b, r)
      | None => None
      end
  | None => None
  end.

(** A buffer of capacity 8 holding one sample. *)
Definition rb8_one : ringbuffer :=
  {| buffer := <[0%nat := stamped 1]> (replicate 8 zero_sample);
     capacity := 8; head := 1; tail := 0 |}.

(** The ticks at which [pmu_read] succeeded. *)
Fixpoint successful (ticks : list (option Pmu.reading * Z)) : list (Pmu.reading * Z) :=
  match ticks with
  | [] => []
  | (Some r, now) :: ticks' => (r, now) :: successful ticks'
  | (None, _) :: ticks' => successful ticks'
  end.

(** The samples of the deltas between each reading and the one before. *)
Fixpoint delta_samples (before : Pmu.reading) (l : list (Pmu.reading * Z))
  : list telemetry_sample :=
  match l with
  | [] => []
  | (r, now) :: l' => make_sample now r before :: delta_samples r l'
  end.

Definition delta_series (l : list (Pmu.reading * Z)) : list telemetry_sample :=
  match l with
  | [] => []
  | (r, _) :: l' => delta_samples r l'
  end.

(** The sum of a counter over a list of samples, as a [uint64_t]. *)
Definition sum_u64 (f : telemetry_sample -> Z) (l : list telemetry_sample) : Z :=
  wrap64 (fold_right (fun s acc => f s + acc) 0 l).

(** The names of the flags set in a flag word, in the order of the bits. *)
Definition flag_names (flags : Z) : list (list Byte.byte) :=
  (if has_flag flags ANOMALY_CACHE_MISS_SPIKE then [removelast Str.cache_miss_spike] else []) ++
  (if has_flag flags ANOMALY_BRANCH_MISS_SPIKE then [removelast Str.branch_miss_spike] else []) ++
  (if has_flag flags ANOMALY_IPC_COLLAPSE then [removelast Str.ipc_collapse] else []) ++
  (if has_flag flags ANOMALY_BURST_PATTERN then [removelast Str.burst_pattern] else []) ++
  (if has_flag flags ANOMALY_OSCILLATION then [removelast Str.oscillation] else []).

(** Words separated by single spaces. *)
Fixpoint join_words (ws : list (list Byte.byte)) : list Byte.byte :=
  match ws with
  | [] => []
  | [w] => w
  | w :: ws' => w ++ Str.space :: join_words ws'
  end.

Fixpoint bytes_eqb (a b : list Byte.byte) : bool :=
  match a, b with
  | [], [] => true
  | x :: a', y :: b' => Byte.eqb x y && bytes_eqb a' b'
  | _, _ => false
  end.

(** The value [anomaly_detect] stores in the window for a sample. *)
Definition window_value (s : telemetry_sample) : spec_float :=
  Single.of_double (Double.of_single (cache_miss_rate s)).

(** The three z-scores and the composite score of a sample against a
    baseline and a threshold. *)
Definition scores_against (b : baseline_profile) (threshold : spec_float)
    (s : telemetry_sample) (r : anomaly_result) : Prop :=
  z_cache_miss r =
    compute_z (Double.of_single (cache_miss_rate s))
      (mean_cache_miss_rate b) (std_cache_miss_rate b) /\
  z_branch_miss r =
    compute_z (Double.of_single (branch_miss_rate s))
      (mean_branch_miss_rate b) (std_branch_miss_rate b) /\
  z_ipc r = compute_z (Double.of_single (ipc s)) (mean_ipc b) (std_ipc b) /\
  composite_score r =
    composite (max_abs_z (z_cache_miss r) (z_branch_miss r) (z_ipc r)) threshold.

(** The slots in use. *)
Definition used_entries (eng : correlation_engine) : list process_risk :=
  take (Z.to_nat (count eng)) (entries eng).

(** No slot can be found or created for a new process: every slot in use is
    active and the table has reached [CORR_MAX_TRACKED]. *)
Definition table_full (eng : correlation_engine) : bool :=
  forallb active (used_entries eng) && (CORR_MAX_TRACKED <=? count eng).

(** At most one active element per process in a list of entries. *)
Definition unique_active (l : list process_risk) : Prop :=
  forall i j ei ej,
    l !! i = Some ei -> l !! j = Some ej ->
    active ei = true -> active ej = true -> pid ei = pid ej -> i = j.

(** At most one active entry per process among the slots in use. *)
Definition corr_unique (eng : correlation_engine) : Prop :=
  unique_active (used_entries eng).

(** The scores of the active entries are numbers. *)
Definition scores_are_numbers (l : list process_risk) : Prop :=
  forall e, In e l -> active e = true -> Float.is_nan (anomaly_score e) = false.

(** The escape of one character: a quote or a backslash is preceded by a
    backslash, a control character becomes [\u00XX], any other character
    stands for itself. *)
Definition escape_char (c : Byte.byte) : list Byte.byte :=
  if Byte.eqb c Chr.quote || Byte.eqb c Chr.backslash then [Chr.backslash; c]
  else if byte.unsigned c <? 32 then u_escape c
  else [c].

Definition escape_string (s : list Byte.byte) : list Byte.byte :=
  flat_map escape_char s.

(** A control character other than the terminator. *)
Definition is_control (c : Byte.byte) : bool :=
  negb (Byte.eqb c Chr.nul) && (byte.unsigned c <? 32).

(** A C string: no NUL inside. *)
Definition c_string (s : list Byte.byte) : Prop := ~ In Chr.nul s.

(** A logger with a cooldown of five seconds, and three alerts raised one,
    three and seven seconds after the clock's origin. *)
Definition logger_5s : Logger.logger :=
  default (Logger.set_last_alert
             {| Logger.to_stdout := true; Logger.to_file := false;
                Logger.to_syslog := false; Logger.filepath := [];
                Logger.file_handle := false; Logger.cooldown_sec := 5;
                Logger.last_alert_ns := 0 |} 0)
          (Logger.logger_init true None false true 5).



(** A stand-in for [printf]'s conversions that prints one digit. *)
Definition one_digit {A : Type} (x : A) : list Byte.byte := [Chr.zero].

(** ** Descriptors (pmu.c) *)

(** The descriptors the kernel handed out in the calls [tr], and the ones
    that were closed. *)
Definition opened (tr : Perf.trace) : list Z :=
  flat_map (fun ca : Perf.syscall * Perf.answer =>
              match fst ca with
              | Perf.SysPerfEventOpen _ _ _ _ _ =>
                  if Perf.ret (snd ca) <? 0 then [] else [Perf.ret (snd ca)]
              | _ => []
              end) tr.

Definition closed (tr : Perf.trace) : list Z :=
  flat_map (fun ca : Perf.syscall * Perf.answer =>
              match fst ca with
              | Perf.SysClose fd => [fd]
              | _ => []
              end) tr.

(** The descriptors a context holds. *)
Definition held (l : list Z) : list Z := List.filter (fun fd => 0 <=? fd) l.

(** Since [tr0], every descriptor handed out is closed or held in [l]:
    none is lost and none is closed twice. *)
Definition accounted_since (tr0 : Perf.trace) (l : list Z) (tr : Perf.trace) : Prop :=
  exists calls, tr = calls ++ tr0 /\ Permutation (opened calls) (closed calls ++ held l).

(** Descriptors are [int]s. *)
Definition descriptors_fit (k : Perf.kernel) : Prop :=
  forall tr c, Perf.ret (k tr c) < 2 ^ 31.

(** A kernel that grants every request, numbering its descriptors from 3. *)
Definition granting_kernel : Perf.kernel :=
  fun tr c =>
    {| Perf.ret := match c with
                   | Perf.SysPerfEventOpen _ _ _ _ _ =>
                       Z.min (3 + Z.of_nat (length tr)) 1000
                   | _ => 0
                   end;
       Perf.errno := 0; Perf.raw := (0, 0, 0) |}.

(** ** Requests to the kernel (pmu.c) *)






(** ** Configuration lines (config.c) *)

(** White space only. *)
Definition blank (ws : list Byte.byte) : Prop := Forall (fun c => isspace c = true) ws.

(** A C string with no white space at either end. *)
Definition trimmed (t : list Byte.byte) : Prop :=
  c_string t /\
  (forall c, hd_error t = Some c -> isspace c = false) /\
  (forall c, last t = Some c -> isspace c = false).

(** The options [config_parse_args] accepts, apart from [-h]:
    c i l z C p o S s v T M. *)
Definition option_letters : list Byte.byte :=
  [Byte.x63; Byte.x69; Byte.x6c; Byte.x7a; Byte.x43; Byte.x70; Byte.x6f; Byte.x53;
   Byte.x73; Byte.x76; Byte.x54; Byte.x4d].

Definition accepted (o : Byte.byte * list Byte.byte) : Prop := In (fst o) option_letters.

(** The argument of the last [-c] among the options. *)
Fixpoint last_config_path (opts : list (Byte.byte * list Byte.byte))
  : option (list Byte.byte) :=
  match opts with
  | [] => None
  | (o, a) :: rest =>
      match last_config_path rest with
      | Some p => Some p
      | None => if Byte.eqb o Byte.x63 then Some a else None
      end
  end.

(** The argument of the last [-i] among the options. *)
Fixpoint last_interval (opts : list (Byte.byte * list Byte.byte))
  : option (list Byte.byte) :=
  match opts with
  | [] => None
  | (o, a) :: rest =>
      match last_interval rest with
      | Some p => Some p
      | None => if Byte.eqb o Byte.x69 then Some a else None
      end
  end.

Module Key.
Import Stdlib.Strings.String.
Definition sampling_interval_us : list Byte.byte := Str.lit "sampling_interval_us".
Definition verbose : list Byte.byte := Str.lit "verbose".
End Key.

(** A stand-in for [strtoul] and [strtol] on decimal digits, and one for
    [strtod]. *)
Definition decimal (s : list Byte.byte) : Z :=
  fold_left (fun acc c => 10 * acc + (byte.unsigned c - 48)) s 0.

Definition no_double (s : list Byte.byte) : spec_float := S754_zero false.

(** The options [-i 5 -s -c f -i 7] and the file [f], which holds the lines
    [verbose=1] and [sampling_interval_us = 250]. *)
Definition options_around_file : list (Byte.byte * list Byte.byte) :=
  [(Byte.x69, [Byte.x35]); (Byte.x73, []); (Byte.x63, [Byte.x66]); (Byte.x69, [Byte.x37])].

Definition file_250 (path : list Byte.byte) : option (list Byte.byte) :=
  Some ((Key.verbose ++ [Byte.x3d; Byte.x31; Byte.x0a]) ++
        ([] ++ Key.sampling_interval_us ++ [Byte.x20] ++ [Byte.x3d] ++ [Byte.x20] ++
         [Byte.x32; Byte.x35; Byte.x30] ++ []) ++ [Byte.x0a]).

(* ===================================================================== *)
(** * Part II. Properties                                                 *)
(* ===================================================================== *)

(** ** Facts about the IEEE-754 operations *)

Section RoundingFacts.
Variables prec emax : Z.
Hypothesis prec_pos : 0 < prec.
Hypothesis prec_le_emax : prec <= emax.
Hypothesis emax_big : 65 <= emax.

Lemma iter_pos_invariant {A : Type} (P : A -> Prop) (f : A -> A) :
  (forall x, P x -> P (f x)) -> forall k x, P x -> P (SpecFloat.iter_pos f k x).
Proof.
  intros Hf k. induction k as [k IH | k IH | ]; intros x Hx; simpl.
  - apply IH, IH, Hf, Hx.
  - apply IH, IH, Hx.
  - apply Hf, Hx.
Qed.

Lemma shr_1_div2 (r : shr_record) :
  0 <= shr_m r -> shr_m (shr_1 r) = Z.div2 (shr_m r).
Proof.
  destruct r as [m b s]. simpl. destruct m as [ | p | p ]; [reflexivity | | lia].
  intros _. destruct p; reflexivity.
Qed.

Lemma shr_1_nonneg (r : shr_record) : 0 <= shr_m r -> 0 <= shr_m (shr_1 r).
Proof.
  intros H. rewrite shr_1_div2 by exact H.
  rewrite Z.div2_div. apply Z.div_pos; lia.
Qed.

Lemma iter_shr_1_shiftr (k : positive) :
  forall r, 0 <= shr_m r ->
    shr_m (SpecFloat.iter_pos shr_1 k r) = Z.shiftr (shr_m r) (Zpos k).
Proof.
  induction k as [k IH | k IH | ]; intros r Hr; simpl SpecFloat.iter_pos.
  - assert (H1 : 0 <= shr_m (shr_1 r)) by (apply shr_1_nonneg, Hr).
    assert (H2 : 0 <= shr_m (SpecFloat.iter_pos shr_1 k (shr_1 r))).
    { apply (iter_pos_invariant (fun x => 0 <= shr_m x)); auto using shr_1_nonneg. }
    rewrite IH by exact H2. rewrite IH by exact H1.
    rewrite shr_1_div2 by exact Hr. rewrite Z.div2_spec.
    rewrite !Z.shiftr_shiftr by lia. f_equal. lia.
  - assert (H2 : 0 <= shr_m (SpecFloat.iter_pos shr_1 k r)).
    { apply (iter_pos_invariant (fun x => 0 <= shr_m x)); auto using shr_1_nonneg. }
    rewrite IH by exact H2. rewrite IH by exact Hr.
    rewrite Z.shiftr_shiftr by lia. f_equal. lia.
  - rewrite shr_1_div2 by exact Hr. apply Z.div2_spec.
Qed.

(** The mantissa and exponent [shr] produces. *)
Lemma shr_spec (r : shr_record) (e k : Z) :
  0 <= shr_m r ->
  shr_m (fst (shr r e k)) = Z.shiftr (shr_m r) (Z.max 0 k) /\
  snd (shr r e k) = e + Z.max 0 k.
Proof.
  intros Hr. destruct k as [ | k | k ]; simpl.
  - split; [reflexivity | lia].
  - split; [apply iter_shr_1_shiftr, Hr | reflexivity].
  - split; [reflexivity | lia].
Qed.

Lemma shr_m_of_loc (m : Z) (l : location) : shr_m (shr_record_of_loc m l) = m.
Proof. destruct l as [ | [ | | ]]; reflexivity. Qed.

Lemma shr_fexp_spec (m e : Z) (l : location) :
  0 <= m ->
  let k := Z.max 0 (fexp prec emax (Zdigits2 m + e) - e) in
  shr_m (fst (shr_fexp prec emax m e l)) = Z.shiftr m k /\
  snd (shr_fexp prec emax m e l) = e + k.
Proof.
  intros Hm k. unfold shr_fexp.
  destruct (shr_spec (shr_record_of_loc m l) e
              (fexp prec emax (Zdigits2 m + e) - e)) as [H1 H2].
  { rewrite shr_m_of_loc. exact Hm. }
  rewrite shr_m_of_loc in H1. split; assumption.
Qed.

Lemma round_nearest_even_bounds (m : Z) (l : location) :
  m <= round_nearest_even m l <= m + 1.
Proof.
  unfold round_nearest_even. destruct l as [ | [ | | ]]; try lia.
  destruct (Z.even m); lia.
Qed.

(** A rounded result is a number carrying the requested sign. *)
Lemma binary_round_aux_sign (s : bool) (mx ex : Z) (lx : location) :
  0 <= mx -> Float.has_sign s (binary_round_aux prec emax s mx ex lx).
Proof.
  intros Hm. unfold binary_round_aux.
  destruct (shr_fexp_spec mx ex lx Hm) as [H1 _].
  destruct (shr_fexp prec emax mx ex lx) as [mrs' e'] eqn:E1. simpl in H1.
  assert (Hm1 : 0 <= shr_m mrs') by (rewrite H1; apply Z.shiftr_nonneg, Hm).
  pose proof (round_nearest_even_bounds (shr_m mrs') (loc_of_shr_record mrs')) as Hr.
  set (m2 := round_nearest_even (shr_m mrs') (loc_of_shr_record mrs')) in *.
  assert (Hm2 : 0 <= m2) by lia.
  destruct (shr_fexp_spec m2 e' loc_Exact Hm2) as [H3 _].
  destruct (shr_fexp prec emax m2 e' loc_Exact) as [mrs'' e''] eqn:E2. simpl in H3.
  assert (Hm3 : 0 <= shr_m mrs'') by (rewrite H3; apply Z.shiftr_nonneg, Hm2).
  destruct (shr_m mrs'') as [ | p | p ]; simpl; [reflexivity | | lia].
  destruct (e'' <=? emax - prec); reflexivity.
Qed.

Lemma binary_round_sign (s : bool) (m : positive) (e : Z) :
  Float.has_sign s (binary_round prec emax s m e).
Proof.
  unfold binary_round.
  destruct (shl_align m e (fexp prec emax (Z.pos (digits2_pos m) + e))) as [mz ez].
  apply binary_round_aux_sign. lia.
Qed.

Lemma binary_normalize_not_nan (m e : Z) (sz : bool) :
  Float.is_nan (binary_normalize prec emax m e sz) = false.
Proof.
  destruct m as [ | p | p ]; simpl; [reflexivity | | ].
  - pose proof (binary_round_sign false p e) as H.
    destruct (binary_round prec emax false p e); simpl in *; tauto.
  - pose proof (binary_round_sign true p e) as H.
    destruct (binary_round prec emax true p e); simpl in *; tauto.
Qed.

Lemma of_Z_sign (z : Z) : 0 <= z -> Float.has_sign false (Float.of_Z prec emax z).
Proof.
  intros Hz. unfold Float.of_Z. destruct z as [ | p | p ]; simpl; [reflexivity | | lia].
  apply binary_round_sign.
Qed.

Lemma has_sign_not_nan (s : bool) (x : spec_float) :
  Float.has_sign s x -> Float.is_nan x = false.
Proof. destruct x; simpl; tauto. Qed.
End RoundingFacts.

Section FiniteResults.
Variables prec emax : Z.
Hypothesis prec_pos : 0 < prec.
Hypothesis prec_le_emax : prec <= emax.
Hypothesis emax_big : 65 <= emax.

Lemma digits2_pos_size (p : positive) : digits2_pos p = Pos.size p.
Proof. induction p as [p IH | p IH | ]; simpl; congruence. Qed.

Lemma Zdigits2_log2 (m : Z) : 0 < m -> Zdigits2 m = Z.log2 m + 1.
Proof.
  destruct m as [ | p | p ]; try lia. intros _. simpl.
  rewrite digits2_pos_size. destruct p; simpl; lia.
Qed.

Lemma shiftr_pos (m k : Z) : 0 < m -> 0 <= k <= Z.log2 m -> 0 < Z.shiftr m k.
Proof.
  intros Hm Hk. rewrite Z.shiftr_div_pow2 by lia.
  apply Z.div_str_pos. split; [apply Z.pow_pos_nonneg; lia | ].
  etransitivity; [ | apply Z.log2_spec; lia ].
  apply Z.pow_le_mono_r; lia.
Qed.

Lemma log2_shiftr_le (m k : Z) :
  0 < m -> 0 <= k <= Z.log2 m -> Z.log2 (Z.shiftr m k) = Z.log2 m - k.
Proof. intros Hm Hk. rewrite Z.log2_shiftr by lia. lia. Qed.

(** Rounding a positive mantissa that lies in the exponent range gives a
    finite nonzero number. *)
Lemma binary_round_aux_finite (s : bool) (m e : Z) (l : location) (B : Z) :
  0 < m -> emin prec emax <= e -> e <= emax - prec ->
  Zdigits2 m + e <= B -> B + 1 <= emax ->
  exists m' e', binary_round_aux prec emax s m e l = S754_finite s m' e'.
Proof.
  intros Hm He1 He2 HB HBe. unfold binary_round_aux.
  destruct (shr_fexp_spec prec emax m e l ltac:(lia)) as [H1 H1e].
  destruct (shr_fexp prec emax m e l) as [mrs' e'] eqn:E1. simpl in H1, H1e.
  rewrite (Zdigits2_log2 m Hm) in *.
  pose proof (Z.log2_nonneg m) as Hlog.
  unfold fexp, emin in *.
  set (k1 := Z.max 0 (Z.max (Z.log2 m + 1 + e - prec) (3 - emax - prec) - e)) in *.
  assert (Hk1 : 0 <= k1 <= Z.log2 m) by lia.
  pose proof (shiftr_pos m k1 Hm Hk1) as Hm1.
  pose proof (log2_shiftr_le m k1 Hm Hk1) as Hl1.
  rewrite <- H1 in Hm1, Hl1.
  pose proof (round_nearest_even_bounds (shr_m mrs') (loc_of_shr_record mrs')) as Hr.
  set (m2 := round_nearest_even (shr_m mrs') (loc_of_shr_record mrs')) in *.
  assert (Hm2 : 0 < m2) by lia.
  assert (Hl2 : Z.log2 m2 <= Z.log2 (shr_m mrs') + 1).
  { etransitivity; [apply (Z.log2_le_mono m2 (Z.succ (shr_m mrs'))); lia | ].
    pose proof (Z.log2_succ_le (shr_m mrs')). lia. }
  destruct (shr_fexp_spec prec emax m2 e' loc_Exact ltac:(lia)) as [H3 H3e].
  destruct (shr_fexp prec emax m2 e' loc_Exact) as [mrs'' e''] eqn:E2.
  simpl in H3, H3e.
  rewrite (Zdigits2_log2 m2 Hm2) in *.
  pose proof (Z.log2_nonneg m2) as Hlog2.
  unfold fexp, emin in *.
  set (k2 := Z.max 0 (Z.max (Z.log2 m2 + 1 + e' - prec) (3 - emax - prec) - e')) in *.
  assert (Hk2 : 0 <= k2 <= Z.log2 m2) by lia.
  pose proof (shiftr_pos m2 k2 Hm2 Hk2) as Hm3.
  rewrite <- H3 in Hm3.
  destruct (shr_m mrs'') as [ | p | p ]; try lia.
  assert (Hle : e'' <= emax - prec) by lia.
  apply Z.leb_le in Hle. rewrite Hle. eauto.
Qed.

Lemma iter_xO_mul (d p : positive) :
  Zpos (Pos.iter xO p d) = Zpos p * 2 ^ Zpos d.
Proof.
  induction d as [ | d IH ] using Pos.peano_ind.
  - simpl. lia.
  - rewrite Pos.iter_succ, Pos2Z.inj_xO, IH, Pos2Z.inj_succ, Z.pow_succ_r; lia.
Qed.

(** The conversion of a positive 64-bit integer is finite and nonzero. *)
Lemma of_Z_finite (z : Z) :
  0 < z < 2 ^ 64 ->
  exists m e, Float.of_Z prec emax z = S754_finite false m e.
Proof.
  intros Hz. destruct z as [ | p | p ]; try lia.
  unfold Float.of_Z, binary_normalize, binary_round.
  assert (Hd : Z.log2 (Zpos p) + 1 <= 64).
  { assert (Z.log2 (Zpos p) < 64) by (apply Z.log2_lt_pow2; lia). lia. }
  pose proof (Z.log2_nonneg (Zpos p)) as Hlog.
  pose proof (Zdigits2_log2 (Zpos p) ltac:(lia)) as Hdig.
  change (Zdigits2 (Zpos p)) with (Zpos (digits2_pos p)) in Hdig.
  rewrite Hdig. unfold shl_align.
  remember (Z.log2 (Zpos p)) as lg eqn:Elg.
  destruct (fexp prec emax (lg + 1 + 0) - 0) as [ | q | q ] eqn:Ef;
    unfold fexp, emin in Ef.
  - apply (binary_round_aux_finite false (Zpos p) 0 loc_Exact 64);
      unfold emin; rewrite ?Zdigits2_log2; lia.
  - apply (binary_round_aux_finite false (Zpos p) 0 loc_Exact 64);
      unfold emin; rewrite ?Zdigits2_log2; lia.
  - pose proof (iter_xO_mul q p) as Hmul.
    apply (binary_round_aux_finite false _ _ loc_Exact 64);
      unfold fexp, emin; rewrite ?Zdigits2_log2 by lia; try lia.
    rewrite Hmul, Z.log2_mul_pow2 by lia. lia.
Qed.
End FiniteResults.

Section OperationFacts.
Variables prec emax : Z.

Lemma SFdiv_core_nonneg (m1 m2 : positive) (e1 e2 : Z) :
  0 <= fst (fst (SFdiv_core_binary prec emax (Zpos m1) e1 (Zpos m2) e2)).
Proof.
  unfold SFdiv_core_binary.
  set (s := _ - _ - _).
  set (m' := match s with Z0 => Zpos m1 | Zpos _ => Z.shiftl (Zpos m1) s | Zneg _ => 0 end).
  assert (Hm' : 0 <= m').
  { subst m'. destruct s; try lia. apply Z.shiftl_nonneg. lia. }
  pose proof (Z.div_pos m' (Zpos m2) Hm' ltac:(lia)) as Hq.
  unfold Z.div in Hq. destruct (Z.div_eucl m' (Zpos m2)) as [q r]. exact Hq.
Qed.

Lemma SFdiv_finite_sign (sx sy : bool) (mx my : positive) (ex ey : Z) :
  Float.has_sign (xorb sx sy)
    (SFdiv prec emax (S754_finite sx mx ex) (S754_finite sy my ey)).
Proof.
  simpl. pose proof (SFdiv_core_nonneg mx my ex ey) as Hq.
  destruct (SFdiv_core_binary prec emax (Zpos mx) ex (Zpos my) ey) as [[mz ez] lz].
  apply binary_round_aux_sign. exact Hq.
Qed.

(** Dividing a number by a finite nonzero number gives a number. *)
Lemma SFdiv_sign_finite_r (sx sy : bool) (x : spec_float) (my : positive) (ey : Z) :
  Float.has_sign sx x ->
  Float.has_sign (xorb sx sy) (SFdiv prec emax x (S754_finite sy my ey)).
Proof.
  destruct x as [s | s | | s m e]; simpl Float.has_sign; intros H; try tauto; subst s.
  - reflexivity.
  - reflexivity.
  - apply SFdiv_finite_sign.
Qed.

(** Dividing a finite nonzero number by any number gives a number. *)
Lemma SFdiv_sign_finite_l (sx sy : bool) (mx : positive) (ex : Z) (y : spec_float) :
  Float.has_sign sy y ->
  Float.has_sign (xorb sx sy) (SFdiv prec emax (S754_finite sx mx ex) y).
Proof.
  destruct y as [s | s | | s m e]; simpl Float.has_sign; intros H; try tauto; subst s.
  - reflexivity.
  - reflexivity.
  - apply SFdiv_finite_sign.
Qed.

Lemma SFadd_nonneg (x y : spec_float) :
  Float.has_sign false x -> Float.has_sign false y ->
  Float.has_sign false (SFadd prec emax x y).
Proof.
  destruct x as [sx | sx | | sx mx ex]; destruct y as [sy | sy | | sy my ey];
    simpl Float.has_sign; intros Hx Hy; try tauto; subst; try reflexivity.
  simpl. apply binary_round_sign.
Qed.

Lemma SFsub_finite_not_nan (s : bool) (m : positive) (e : Z) (y : spec_float) :
  Float.is_nan y = false ->
  Float.is_nan (SFsub prec emax (S754_finite s m e) y) = false.
Proof.
  destruct y as [sy | sy | | sy my ey]; simpl; intros H; try congruence.
  apply binary_normalize_not_nan.
Qed.


End OperationFacts.

Section ComparisonFacts.

Lemma SFcompare_antisym (x y : spec_float) :
  SFcompare y x = CompOpp <$> SFcompare x y.
Proof.
  destruct x as [sx | sx | | sx mx ex]; destruct y as [sy | sy | | sy my ey];
    simpl; try reflexivity;
    try (destruct sx; reflexivity); try (destruct sy; reflexivity);
    try (destruct sx, sy; reflexivity).
  destruct sx, sy; simpl; try reflexivity;
    rewrite (Z.compare_antisym ex ey);
    destruct (ex ?= ey) eqn:E; simpl; try reflexivity;
    rewrite (Pos.compare_cont_antisym mx my Eq); reflexivity.
Qed.

Lemma SFcompare_number (x y : spec_float) :
  Float.is_nan x = false -> Float.is_nan y = false ->
  exists c, SFcompare x y = Some c.
Proof.
  destruct x, y; simpl; intros Hx Hy; try congruence; eauto.
Qed.

(** On numbers, [not (x < y)] is [y <= x]. *)
Lemma SFltb_false_leb (x y : spec_float) :
  Float.is_nan x = false -> Float.is_nan y = false ->
  SFltb x y = false -> SFleb y x = true.
Proof.
  intros Hx Hy. unfold SFltb, SFleb. rewrite (SFcompare_antisym x y).
  destruct (SFcompare_number x y Hx Hy) as [c ->]. simpl.
  destruct c; simpl; congruence.
Qed.

Lemma SFltb_true_number (x y : spec_float) :
  SFltb x y = true -> Float.is_nan x = false /\ Float.is_nan y = false.
Proof.
  unfold SFltb. destruct x, y; simpl; try congruence; auto.
Qed.

Lemma has_sign_false_nonneg (x : spec_float) :
  Float.has_sign false x -> SFleb (S754_zero false) x = true.
Proof.
  destruct x as [s | s | | s m e]; simpl; intros H; try tauto; subst; reflexivity.
Qed.

End ComparisonFacts.

(** ** Rounded results are numbers of the format *)

Section ValidResults.
Variables prec emax : Z.
Hypothesis prec_pos : 0 < prec.
Hypothesis prec_le_emax : prec <= emax.
Hypothesis emax_big : 65 <= emax.

Lemma Zdigits2_nonneg (m : Z) : 0 <= Zdigits2 m.
Proof. destruct m; simpl; lia. Qed.

Lemma Zdigits2_succ_le (m : Z) : 0 <= m -> Zdigits2 (m + 1) <= Zdigits2 m + 1.
Proof.
  intros Hm. destruct (Z.eq_dec m 0) as [-> | Hne]; [simpl; lia | ].
  rewrite !(Zdigits2_log2) by lia.
  pose proof (Z.log2_succ_le m). unfold Z.succ in *. lia.
Qed.

Lemma Zdigits2_mono (a b : Z) : 0 <= a <= b -> Zdigits2 a <= Zdigits2 b.
Proof.
  intros H. destruct (Z.eq_dec a 0) as [-> | Hne].
  - apply Zdigits2_nonneg.
  - rewrite !Zdigits2_log2 by lia. pose proof (Z.log2_le_mono a b). lia.
Qed.

(** Rounding a mantissa that is at least as fine as the format gives a
    valid number. *)
Lemma binary_round_aux_valid (s : bool) (m e : Z) (l : location) :
  0 <= m -> e <= fexp prec emax (Zdigits2 m + e) ->
  valid_binary prec emax (binary_round_aux prec emax s m e l) = true.
Proof.
  intros Hm He. unfold binary_round_aux.
  destruct (shr_fexp_spec prec emax m e l Hm) as [H1 H1e].
  destruct (shr_fexp prec emax m e l) as [mrs' e1] eqn:E1. simpl in H1, H1e.
  set (k1 := Z.max 0 (fexp prec emax (Zdigits2 m + e) - e)) in *.
  assert (Hk1 : k1 = fexp prec emax (Zdigits2 m + e) - e) by lia.
  pose proof (round_nearest_even_bounds (shr_m mrs') (loc_of_shr_record mrs')) as Hr.
  set (m2 := round_nearest_even (shr_m mrs') (loc_of_shr_record mrs')) in *.
  assert (Hm1 : 0 <= shr_m mrs') by (rewrite H1; apply Z.shiftr_nonneg, Hm).
  assert (Hm2 : 0 <= m2) by lia.
  destruct (shr_fexp_spec prec emax m2 e1 loc_Exact Hm2) as [H3 H3e].
  destruct (shr_fexp prec emax m2 e1 loc_Exact) as [mrs'' e2] eqn:E2.
  simpl in H3, H3e.
  set (k2 := Z.max 0 (fexp prec emax (Zdigits2 m2 + e1) - e1)) in *.
  destruct (shr_m mrs'') as [ | p | p ] eqn:Ep; [reflexivity | | reflexivity].
  destruct (e2 <=? emax - prec) eqn:Eb; [ | reflexivity ].
  simpl. unfold bounded. rewrite Eb, andb_true_r.
  unfold canonical_mantissa. apply Z.eqb_eq.
  change (Zpos (digits2_pos p)) with (Zdigits2 (Zpos p)). rewrite H3.
  (* the first shift leaves a canonical mantissa, or nothing at the least exponent *)
  assert (Hcanon1 : fexp prec emax (Zdigits2 (shr_m mrs') + e1) = e1 \/
                    (shr_m mrs' = 0 /\ e1 = emin prec emax)).
  { destruct (Z.eq_dec m 0) as [-> | Hm0].
    - right. rewrite H1, Z.shiftr_0_l. split; [reflexivity | ].
      simpl Zdigits2 in *. unfold fexp, emin in *. lia.
    - assert (Hmpos : 0 < m) by lia.
      pose proof (Z.log2_nonneg m) as Hlog.
      rewrite (Zdigits2_log2 m Hmpos) in *.
      destruct (Z_le_gt_dec k1 (Z.log2 m)) as [Hle | Hgt].
      + left. rewrite H1.
        rewrite (Zdigits2_log2 (Z.shiftr m k1)) by (apply shiftr_pos; lia).
        rewrite log2_shiftr_le by lia. rewrite H1e.
        replace (Z.log2 m - k1 + 1 + (e + k1)) with (Z.log2 m + 1 + e) by lia. lia.
      + right. split.
        * rewrite H1. apply Z.shiftr_eq_0; lia.
        * unfold fexp, emin in *. lia. }
  assert (Hm2pos : 0 < m2).
  { destruct (Z.eq_dec m2 0) as [Hz | Hnz]; [ | lia ].
    rewrite Hz, Z.shiftr_0_l in H3. discriminate. }
  pose proof (Z.log2_nonneg m2) as Hlog2.
  pose proof (Zdigits2_log2 m2 Hm2pos) as Hd2.
  assert (Hd21 : Zdigits2 (shr_m mrs') <= Zdigits2 m2 <= Zdigits2 (shr_m mrs') + 1).
  { split; [apply Zdigits2_mono; lia | ].
    etransitivity; [apply (Zdigits2_mono m2 (shr_m mrs' + 1)); lia | ].
    apply Zdigits2_succ_le. lia. }
  assert (Hk2 : 0 <= k2 <= Z.log2 m2).
  { subst k2. unfold fexp, emin in *. 
    destruct Hcanon1 as [Hc | (Hz & Hmin)].
    - destruct (Z.eq_dec (shr_m mrs') 0) as [Hz | Hnz].
      + rewrite Hz in *. simpl Zdigits2 in *. lia.
      + rewrite (Zdigits2_log2 (shr_m mrs')) in * by lia.
        pose proof (Z.log2_nonneg (shr_m mrs')). lia.
    - rewrite Hz in *. simpl Zdigits2 in *. lia. }
  rewrite (Zdigits2_log2 (Z.shiftr m2 k2)) by (apply shiftr_pos; lia).
  rewrite log2_shiftr_le by lia. rewrite H3e.
  unfold fexp, emin in *. rewrite Hd2 in *. lia.
Qed.

Lemma fexp_mono (a b : Z) : a <= b -> fexp prec emax a <= fexp prec emax b.
Proof. unfold fexp. lia. Qed.

(** The quotient [SFdiv_core_binary] hands to the rounding is fine enough. *)
Lemma SFdiv_core_fine (m1 m2 : positive) (e1 e2 : Z) :
  let '(q, e', _) := SFdiv_core_binary prec emax (Zpos m1) e1 (Zpos m2) e2 in
  0 <= q /\ e' <= fexp prec emax (Zdigits2 q + e').
Proof.
  pose proof (SFdiv_core_nonneg prec emax m1 m2 e1 e2) as Hq0.
  unfold SFdiv_core_binary in *.
  rewrite !(Zdigits2_log2 (Zpos _)) in * by lia.
  set (d1 := Z.log2 (Zpos m1) + 1) in *. set (d2 := Z.log2 (Zpos m2) + 1) in *.
  set (e' := Z.min (fexp prec emax (d1 + e1 - (d2 + e2))) (e1 - e2)) in *.
  set (s := e1 - e2 - e') in *.
  assert (Hs : 0 <= s) by (subst s e'; lia).
  set (m' := match s with Z0 => Zpos m1 | Zpos _ => Z.shiftl (Zpos m1) s | Zneg _ => 0 end) in *.
  assert (Hm' : m' = Zpos m1 * 2 ^ s).
  { subst m'. destruct s as [ | p | p ] eqn:Es; [lia | | lia].
    rewrite Z.shiftl_mul_pow2; lia. }
  pose proof (Z.log2_spec (Zpos m1) ltac:(lia)) as [Hlo1 Hhi1].
  pose proof (Z.log2_spec (Zpos m2) ltac:(lia)) as [Hlo2 Hhi2].
  pose proof (Z.log2_nonneg (Zpos m1)) as Hl1.
  pose proof (Z.log2_nonneg (Zpos m2)) as Hl2.
  assert (Hdiv : fst (Z.div_eucl m' (Zpos m2)) = m' / Zpos m2) by reflexivity.
  destruct (Z.div_eucl m' (Zpos m2)) as [q r]. simpl in Hq0, Hdiv.
  split; [exact Hq0 | ].
  assert (Hdig : d1 + s - d2 <= Zdigits2 q).
  { destruct (Z_lt_le_dec (d1 + s - d2 - 1) 0) as [Hneg | Hpos].
    - pose proof (Zdigits2_nonneg q). lia.
    - assert (Hq : 2 ^ (d1 + s - d2 - 1) <= q).
      { rewrite Hdiv. apply Z.div_le_lower_bound; [lia | ].
        rewrite Hm'. 
        apply Z.le_trans with (2 ^ d2 * 2 ^ (d1 + s - d2 - 1)).
        - apply Z.mul_le_mono_nonneg_r; [apply Z.pow_nonneg; lia | ].
          subst d2. unfold Z.succ in Hhi2. replace (Z.log2 (Zpos m2) + 1) with (Z.succ (Z.log2 (Zpos m2))) by lia. lia.
        - rewrite <- Z.pow_add_r by lia.
          replace (d2 + (d1 + s - d2 - 1)) with (Z.log2 (Zpos m1) + s) by (subst d1; lia).
          rewrite Z.pow_add_r by lia.
          apply Z.mul_le_mono_nonneg_r; [apply Z.pow_nonneg; lia | exact Hlo1]. }
      assert (Hqpos : 0 < q).
      { apply Z.lt_le_trans with (2 ^ (d1 + s - d2 - 1)); [apply Z.pow_pos_nonneg; lia | exact Hq]. }
      rewrite Zdigits2_log2 by lia.
      apply Z.log2_le_pow2 in Hq; lia. }
  apply Z.le_trans with (fexp prec emax (d1 + e1 - (d2 + e2))); [subst e'; lia | ].
  apply fexp_mono. subst s. lia.
Qed.

(** A quotient is always a valid number of the format (or NaN). *)
Lemma SFdiv_valid (x y : spec_float) : valid_binary prec emax (SFdiv prec emax x y) = true.
Proof.
  destruct x as [sx | sx | | sx mx ex]; destruct y as [sy | sy | | sy my ey];
    try reflexivity.
  simpl SFdiv. pose proof (SFdiv_core_fine mx my ex ey) as Hc.
  destruct (SFdiv_core_binary prec emax (Zpos mx) ex (Zpos my) ey) as [[q e'] l].
  destruct Hc as [Hq He]. apply binary_round_aux_valid; assumption.
Qed.
End ValidResults.

(** ** The shape of a rounded result *)

Section RoundShape.
Variables prec emax : Z.
Hypothesis prec_pos : 0 < prec.

Lemma binary_round_aux_shape (s : bool) (m e : Z) (l : location) :
  0 <= m ->
  exists m2,
    let k := Z.max 0 (fexp prec emax (Zdigits2 m + e) - e) in
    let k2 := Z.max 0 (fexp prec emax (Zdigits2 m2 + (e + k)) - (e + k)) in
    Z.shiftr m k <= m2 <= Z.shiftr m k + 1 /\
    (l = loc_Exact -> k = 0 -> m2 = m) /\
    binary_round_aux prec emax s m e l =
      match Z.shiftr m2 k2 with
      | Z0 => S754_zero s
      | Zpos p =>
          if e + k + k2 <=? emax - prec then S754_finite s p (e + k + k2)
          else S754_infinity s
      | Zneg _ => S754_nan
      end.
Proof.
  intros Hm. unfold binary_round_aux.
  destruct (shr_fexp_spec prec emax m e l Hm) as [H1 H1e].
  assert (Hexact : l = loc_Exact ->
            Z.max 0 (fexp prec emax (Zdigits2 m + e) - e) = 0 ->
            round_nearest_even (shr_m (fst (shr_fexp prec emax m e l)))
              (loc_of_shr_record (fst (shr_fexp prec emax m e l))) = m).
  { intros -> Hk. unfold shr_fexp, shr.
    destruct (fexp prec emax (Zdigits2 m + e) - e) as [ | p | p ]; try lia; reflexivity. }
  destruct (shr_fexp prec emax m e l) as [mrs' e1] eqn:E1. cbn [fst snd] in H1, H1e, Hexact.
  pose proof (round_nearest_even_bounds (shr_m mrs') (loc_of_shr_record mrs')) as Hr.
  set (m2 := round_nearest_even (shr_m mrs') (loc_of_shr_record mrs')) in *.
  assert (Hm2 : 0 <= m2).
  { assert (0 <= shr_m mrs') by (rewrite H1; apply Z.shiftr_nonneg, Hm). lia. }
  destruct (shr_fexp_spec prec emax m2 e1 loc_Exact Hm2) as [H3 H3e].
  destruct (shr_fexp prec emax m2 e1 loc_Exact) as [mrs'' e2] eqn:E2.
  cbn [fst snd] in H3, H3e.
  exists m2. cbv zeta. rewrite <- H1, <- H1e, <- H3, <- H3e.
  split; [exact Hr | ]. split; [exact Hexact | reflexivity].
Qed.

(** Rounding a mantissa at least as fine as the format: the mantissa is cut
    to the exponent [e1] of its binade and rounded to [m2]; the result is
    [m2] at [e1], or the next power of two when [m2] reaches it. *)
Lemma binary_round_aux_fine (s : bool) (m e : Z) (l : location) :
  0 <= m -> e <= fexp prec emax (Zdigits2 m + e) ->
  exists m2,
    let e1 := fexp prec emax (Zdigits2 m + e) in
    m / 2 ^ (e1 - e) <= m2 <= m / 2 ^ (e1 - e) + 1 /\ m2 <= 2 ^ prec /\
    (l = loc_Exact -> e1 = e -> m2 = m) /\
    binary_round_aux prec emax s m e l =
      if m2 =? 0 then S754_zero s
      else if m2 <? 2 ^ prec then
        (if e1 <=? emax - prec then S754_finite s (Z.to_pos m2) e1 else S754_infinity s)
      else
        (if e1 + 1 <=? emax - prec then S754_finite s (Z.to_pos (2 ^ (prec - 1))) (e1 + 1)
         else S754_infinity s).
Proof.
  intros Hm He.
  destruct (binary_round_aux_shape s m e l Hm) as (m2 & Hm2 & Hex & ->).
  exists m2. cbv zeta.
  set (e1 := fexp prec emax (Zdigits2 m + e)) in *.
  replace (Z.max 0 (e1 - e)) with (e1 - e) in * by lia.
  replace (e + (e1 - e)) with e1 in * by lia.
  rewrite Z.shiftr_div_pow2 in Hm2 by lia.
  assert (Hpow : 0 < 2 ^ (e1 - e)) by (apply Z.pow_pos_nonneg; lia).
  assert (Hm1 : m / 2 ^ (e1 - e) < 2 ^ prec).
  { apply Z.div_lt_upper_bound; [exact Hpow | ].
    rewrite <- Z.pow_add_r by lia.
    destruct (Z.eq_dec m 0) as [-> | Hne]; [apply Z.pow_pos_nonneg; lia | ].
    assert (Hlog := Z.log2_spec m ltac:(lia)).
    pose proof (Zdigits2_log2 m ltac:(lia)) as Hdig.
    eapply Z.lt_le_trans; [apply Hlog | ].
    apply Z.pow_le_mono_r; [lia | ]. subst e1. unfold fexp in *. lia. }
  assert (Hmin : emin prec emax <= e1) by (subst e1; unfold fexp; lia).
  split; [exact Hm2 | ]. split; [lia | ].
  split; [intros Hl He1; apply Hex; [exact Hl | lia] | ].
  destruct (Z.eqb_spec m2 0) as [-> | Hne].
  { rewrite Z.shiftr_0_l. reflexivity. }
  assert (Hpos : 0 < m2).
  { assert (0 <= m / 2 ^ (e1 - e)) by (apply Z.div_pos; lia). lia. }
  rewrite (Zdigits2_log2 m2 Hpos).
  destruct (Z.ltb_spec m2 (2 ^ prec)) as [Hlt | Hge].
  - assert (Hlog : Z.log2 m2 < prec) by (apply Z.log2_lt_pow2; lia).
    replace (Z.max 0 (fexp prec emax (Z.log2 m2 + 1 + e1) - e1)) with 0
      by (unfold fexp; lia).
    rewrite Z.shiftr_0_r, Z.add_0_r.
    destruct m2 as [ | p | p ]; try lia. reflexivity.
  - assert (Heq : m2 = 2 ^ prec) by lia. rewrite Heq.
    rewrite Z.log2_pow2 by lia.
    replace (Z.max 0 (fexp prec emax (prec + 1 + e1) - e1)) with 1
      by (unfold fexp; lia).
    rewrite Z.shiftr_div_pow2 by lia.
    replace (2 ^ prec / 2 ^ 1) with (2 ^ (prec - 1)).
    2:{ replace prec with (prec - 1 + 1) at 2 by lia.
        rewrite Z.pow_add_r by lia. rewrite Z.div_mul by lia. reflexivity. }
    assert (Hp : 0 < 2 ^ (prec - 1)) by (apply Z.pow_pos_nonneg; lia).
    destruct (2 ^ (prec - 1)) as [ | p | p ]; try lia. reflexivity.
Qed.

(** [binary_round] first brings the mantissa to the exponent of its binade
    when it is coarser. *)
Lemma binary_round_fine (s : bool) (m : positive) (e : Z) :
  exists mz ez,
    binary_round prec emax s m e = binary_round_aux prec emax s mz ez loc_Exact /\
    0 < mz /\ ez <= e /\ mz = Zpos m * 2 ^ (e - ez) /\
    Zdigits2 mz + ez = Zdigits2 (Zpos m) + e /\
    ez <= fexp prec emax (Zdigits2 mz + ez) /\
    ez = Z.min e (fexp prec emax (Zdigits2 (Zpos m) + e)).
Proof.
  unfold binary_round, shl_align.
  change (Zpos (digits2_pos m)) with (Zdigits2 (Zpos m)).
  set (f := fexp prec emax (Zdigits2 (Zpos m) + e)).
  destruct (f - e) as [ | d | d ] eqn:Ed.
  - exists (Zpos m), e. rewrite Z.sub_diag, Z.mul_1_r. repeat split; try fold f; lia.
  - exists (Zpos m), e. rewrite Z.sub_diag, Z.mul_1_r. repeat split; try fold f; lia.
  - exists (Zpos (Pos.iter xO m d)), f.
    pose proof (iter_xO_mul d m) as Hmul.
    assert (Hd : e - f = Zpos d) by lia.
    assert (Hdig : Zdigits2 (Zpos (Pos.iter xO m d)) + f = Zdigits2 (Zpos m) + e).
    { rewrite Hmul, !Zdigits2_log2 by lia. rewrite Z.log2_mul_pow2 by lia. lia. }
    split; [reflexivity | ]. split; [lia | ]. split; [lia | ].
    split; [rewrite Hd; exact Hmul | ]. split; [exact Hdig | ].
    rewrite Hdig. fold f. split; lia.
Qed.

(** Every sum, difference and conversion is a number of the format. *)
Lemma binary_normalize_valid (m e : Z) (sz : bool) :
  valid_binary prec emax (binary_normalize prec emax m e sz) = true.
Proof.
  destruct m as [ | p | p ]; cbn [binary_normalize]; [reflexivity | | ].
  - destruct (binary_round_fine false p e) as (mz & ez & -> & Hmz & _ & _ & _ & Hfine & _).
    apply binary_round_aux_valid; [exact prec_pos | lia | exact Hfine].
  - destruct (binary_round_fine true p e) as (mz & ez & -> & Hmz & _ & _ & _ & Hfine & _).
    apply binary_round_aux_valid; [exact prec_pos | lia | exact Hfine].
Qed.

End RoundShape.

(** ** The value of a rounded result *)

Section RoundedValue.
Variables prec emax : Z.
Hypothesis prec_pos : 0 < prec.

Lemma bpow_add (a b : Z) : (powerRZ 2 (a + b) = powerRZ 2 a * powerRZ 2 b)%R.
Proof. apply powerRZ_add. lra. Qed.

Lemma bpow_pos (a : Z) : (0 < powerRZ 2 a)%R.
Proof. apply powerRZ_lt. lra. Qed.

Lemma bpow_IZR (k : Z) : 0 <= k -> powerRZ 2 k = IZR (2 ^ k).
Proof.
  intros Hk. destruct k as [ | p | p ]; try lia.
  - reflexivity.
  - unfold powerRZ. rewrite pow_IZR. f_equal.
    rewrite positive_nat_Z. reflexivity.
Qed.

Lemma bpow_le (a b : Z) : a <= b -> (powerRZ 2 a <= powerRZ 2 b)%R.
Proof.
  intros H. replace b with (a + (b - a)) by lia.
  rewrite bpow_add, (bpow_IZR (b - a)) by lia.
  assert (H1 : (1 <= IZR (2 ^ (b - a)))%R).
  { apply IZR_le. pose proof (Z.pow_pos_nonneg 2 (b - a) ltac:(lia) ltac:(lia)). lia. }
  pose proof (bpow_pos a). nra.
Qed.

(** A positive mantissa of at most [t - e] digits denotes less than 2^t,
    and conversely. *)
Lemma digits_of_value (m e t : Z) :
  0 < m -> (IZR m * powerRZ 2 e < powerRZ 2 t)%R -> Zdigits2 m + e <= t.
Proof.
  intros Hm Hlt. destruct (Z_le_gt_dec (Zdigits2 m + e) t) as [H | H]; [exact H | exfalso].
  rewrite Zdigits2_log2 in H by lia.
  pose proof (Z.log2_spec m Hm) as [Hlo _]. pose proof (Z.log2_nonneg m) as Hl0.
  apply IZR_le in Hlo. rewrite <- bpow_IZR in Hlo by lia.
  pose proof (bpow_pos e) as He.
  assert (Hge : (powerRZ 2 (Z.log2 m + e) <= IZR m * powerRZ 2 e)%R).
  { rewrite bpow_add. apply Rmult_le_compat_r; lra. }
  pose proof (bpow_le t (Z.log2 m + e) ltac:(lia)). lra.
Qed.

(** Rounding a positive mantissa, as fine as the format and denoting less
    than 2^t, gives a finite number at a distance of at most one unit of
    the binade of 2^t. *)
Lemma binary_round_aux_value (m e t : Z) :
  0 < m -> e <= fexp prec emax (Zdigits2 m + e) ->
  Zdigits2 m + e <= t -> fexp prec emax t < emax - prec ->
  let r := binary_round_aux prec emax false m e loc_Exact in
  Float.is_finite r = true /\ Float.has_sign false r /\
  (Rabs (real_of r - IZR m * powerRZ 2 e) <= powerRZ 2 (fexp prec emax t))%R /\
  (fexp prec emax (Zdigits2 m + e) = e -> real_of r = (IZR m * powerRZ 2 e)%R).
Proof.
  intros Hm Hfine Ht Hover. cbv zeta.
  destruct (binary_round_aux_fine prec emax prec_pos false m e loc_Exact ltac:(lia) Hfine)
    as (m2 & Hm2 & Hm2le & Hex & ->).
  cbv zeta in Hm2.
  set (e1 := fexp prec emax (Zdigits2 m + e)) in *.
  assert (He1 : e1 <= fexp prec emax t) by (apply fexp_mono; exact Ht).
  set (k := e1 - e) in *.
  assert (Hk : 0 <= k) by (subst k; lia).
  assert (Hpow : 0 < 2 ^ k) by (apply Z.pow_pos_nonneg; lia).
  pose proof (Z.div_mod m (2 ^ k) ltac:(lia)) as Hdm.
  pose proof (Z.mod_pos_bound m (2 ^ k) Hpow) as Hmod.
  assert (Hm1 : 0 <= m / 2 ^ k) by (apply Z.div_pos; lia).
  assert (Hval : forall r,
            r = (if m2 =? 0 then S754_zero false
                 else if m2 <? 2 ^ prec
                      then if e1 <=? emax - prec then S754_finite false (Z.to_pos m2) e1
                           else S754_infinity false
                      else if e1 + 1 <=? emax - prec
                           then S754_finite false (Z.to_pos (2 ^ (prec - 1))) (e1 + 1)
                           else S754_infinity false) ->
            Float.is_finite r = true /\ Float.has_sign false r /\
            real_of r = (IZR m2 * powerRZ 2 e1)%R).
  { intros r ->. destruct (Z.eqb_spec m2 0) as [-> | Hne].
    - cbn. repeat split. lra.
    - destruct (Z.ltb_spec m2 (2 ^ prec)) as [Hlt | Hge].
      + replace (e1 <=? emax - prec) with true by (symmetry; apply Z.leb_le; lia).
        cbn [Float.is_finite Float.has_sign real_of]. repeat split.
        rewrite Z2Pos.id by lia. lra.
      + replace (e1 + 1 <=? emax - prec) with true by (symmetry; apply Z.leb_le; lia).
        cbn [Float.is_finite Float.has_sign real_of]. repeat split.
        assert (Hp : 0 < 2 ^ (prec - 1)) by (apply Z.pow_pos_nonneg; lia).
        rewrite Z2Pos.id by lia.
        replace m2 with (2 ^ (prec - 1) * 2) by
          (replace prec with (prec - 1 + 1) in Hge, Hm2le at 1 by lia;
           rewrite Z.pow_add_r in Hge, Hm2le by lia; change (2 ^ 1) with 2 in *; lia).
        rewrite mult_IZR, bpow_add. change (powerRZ 2 1) with (2 * 1)%R. lra. }
  destruct (Hval _ eq_refl) as (Hfin & Hsign & Hreal).
  split; [exact Hfin | ]. split; [exact Hsign | ]. rewrite Hreal.
  assert (He : (powerRZ 2 e1 = powerRZ 2 e * IZR (2 ^ k))%R).
  { replace e1 with (e + k) by (subst k; lia). rewrite bpow_add, (bpow_IZR k) by lia.
    reflexivity. }
  split.
  - rewrite He.
    replace (IZR m2 * (powerRZ 2 e * IZR (2 ^ k)) - IZR m * powerRZ 2 e)%R
      with (powerRZ 2 e * IZR (m2 * 2 ^ k - m))%R
      by (rewrite minus_IZR, mult_IZR; lra).
    pose proof (bpow_pos e) as Hpe.
    rewrite Rabs_mult, (Rabs_pos_eq (powerRZ 2 e)) by lra.
    apply Rle_trans with (powerRZ 2 e * IZR (2 ^ k))%R.
    + apply Rmult_le_compat_l; [lra | ].
      rewrite <- abs_IZR. apply IZR_le. nia.
    + rewrite <- He. apply bpow_le. exact He1.
  - intros Heq. rewrite (Hex eq_refl Heq). replace e1 with e by lia. reflexivity.
Qed.

End RoundedValue.

(** ** Conversions between binary32 and binary64 *)

Section Conversions.

(** The mantissa and exponent of a valid binary32 number: normal, or
    subnormal with the least exponent. *)
Lemma valid_single_cases (m : positive) (e : Z) :
  bounded Single.prec Single.emax m e = true ->
  (2 ^ 23 <= Zpos m < 2 ^ 24 /\ Zpos (digits2_pos m) = 24 /\ -149 <= e <= 104) \/
  (0 < Zpos m < 2 ^ 23 /\ Zpos (digits2_pos m) < 24 /\ e = -149).
Proof.
  unfold bounded, canonical_mantissa, fexp, emin, Single.prec, Single.emax.
  rewrite andb_true_iff, Z.eqb_eq, Z.leb_le. intros [Hc He].
  rewrite digits2_pos_size in *.
  pose proof (Pos.size_gt m) as Hgt. pose proof (Pos.size_le m) as Hle.
  assert (Hlt : Zpos m < 2 ^ Zpos (Pos.size m)).
  { apply Pos2Z.pos_lt_pos in Hgt. rewrite Pos2Z.inj_pow in Hgt. exact Hgt. }
  assert (Hge : 2 ^ Zpos (Pos.size m) <= 2 * Zpos m).
  { apply Pos2Z.pos_le_pos in Hle. rewrite Pos2Z.inj_pow in Hle. exact Hle. }
  destruct (Z_lt_le_dec (Zpos (Pos.size m)) 24) as [Hs | Hs].
  - right. split; [ | lia ]. split; [lia | ].
    apply Z.lt_le_trans with (2 ^ Zpos (Pos.size m)); [exact Hlt | ].
    apply Z.pow_le_mono_r; lia.
  - left. assert (Zpos (Pos.size m) = 24) by lia.
    rewrite H in *. lia.
Qed.

Lemma iter_pos_nat {A : Type} (f : A -> A) (k : positive) :
  forall x, SpecFloat.iter_pos f k x = Nat.iter (Pos.to_nat k) f x.
Proof.
  induction k as [k IH | k IH | ]; intros x; simpl SpecFloat.iter_pos.
  - rewrite !IH, Pos2Nat.inj_xI, <- Nat.iter_succ_r, <- Nat.iter_add.
    f_equal. lia.
  - rewrite !IH, Pos2Nat.inj_xO, <- Nat.iter_add. f_equal. lia.
  - reflexivity.
Qed.

Lemma pos_iter_nat {A : Type} (f : A -> A) (k : positive) (x : A) :
  Pos.iter f x k = Nat.iter (Pos.to_nat k) f x.
Proof. rewrite Pos2Nat.inj_iter. reflexivity. Qed.

Lemma shr_exact (k : nat) :
  forall m, Nat.iter k shr_1 (Build_shr_record (Zpos (Nat.iter k xO m)) false false)
            = Build_shr_record (Zpos m) false false.
Proof.
  induction k as [ | k IH ]; intros m; [reflexivity | ].
  rewrite Nat.iter_succ_r. simpl. apply IH.
Qed.

(** [(float)(double)x] is [x] for every value of the binary32 format: the
    widening is exact and the narrowing finds nothing to round. *)
Lemma single_double_roundtrip (x : spec_float) :
  Single.valid x = true -> Single.of_double (Double.of_single x) = x.
Proof.
  destruct x as [s | s | | s m e]; try reflexivity.
  intros Hv.
  assert (Hcases := valid_single_cases m e Hv).
  pose proof (Zdigits2_log2 (Zpos m) ltac:(lia)) as Hdig.
  change (Zdigits2 (Zpos m)) with (Zpos (digits2_pos m)) in Hdig.
  set (d := Zpos (digits2_pos m)) in *.
  assert (Hd : 1 <= d <= 24 /\ e = Z.max (d + e - 24) (-149) /\ -149 <= e <= 104).
  { pose proof (Z.log2_nonneg (Zpos m)). destruct Hcases as [(? & ? & ?) | (? & ? & ?)]; lia. }
  destruct Hd as (Hd1 & Hcanon & He).
  unfold Double.of_single, Float.round, binary_round.
  fold d. unfold fexp, emin, Double.prec, Double.emax, shl_align.
  replace (Z.max (d + e - 53) (3 - 1024 - 53) - e) with (Zneg (Z.to_pos (53 - d))).
  2:{ rewrite Z.max_l by lia. destruct (53 - d) eqn:E; lia. }
  set (k := Z.to_pos (53 - d)).
  assert (Hk : Zpos k = 53 - d) by (subst k; rewrite Z2Pos.id; lia).
  set (mz := Pos.iter xO m k).
  assert (Hmz : Zpos mz = Zpos m * 2 ^ Zpos k) by apply iter_xO_mul.
  assert (Hdz : Zdigits2 (Zpos mz) = 53).
  { rewrite Zdigits2_log2 by lia. rewrite Hmz, Z.log2_mul_pow2 by lia. lia. }
  unfold binary_round_aux, shr_fexp. rewrite Hdz.
  unfold fexp, emin.
  replace (Z.max (53 + Z.max (d + e - 53) (3 - 1024 - 53) - 53) (3 - 1024 - 53) -
             Z.max (d + e - 53) (3 - 1024 - 53)) with 0 by lia.
  simpl shr. cbv iota beta. simpl shr_m. simpl round_nearest_even.
  rewrite Hdz. unfold fexp, emin.
  replace (Z.max (53 + Z.max (d + e - 53) (3 - 1024 - 53) - 53) (3 - 1024 - 53) -
             Z.max (d + e - 53) (3 - 1024 - 53)) with 0 by lia.
  simpl shr. cbv iota beta. simpl shr_m.
  replace (Z.max (d + e - 53) (3 - 1024 - 53) <=? 1024 - 53) with true
    by (symmetry; apply Z.leb_le; lia).
  (* back to binary32: the shift undoes the alignment exactly *)
  unfold Single.of_double, Float.round, binary_round.
  change (Zpos (digits2_pos mz)) with (Zdigits2 (Zpos mz)). rewrite Hdz.
  unfold fexp, emin, Single.prec, Single.emax, shl_align.
  replace (Z.max (53 + Z.max (d + e - 53) (3 - 1024 - 53) - 24) (3 - 128 - 24) -
             Z.max (d + e - 53) (3 - 1024 - 53)) with (Zpos k) by lia.
  unfold binary_round_aux, shr_fexp. rewrite Hdz. unfold fexp, emin.
  replace (Z.max (53 + Z.max (d + e - 53) (3 - 1024 - 53) - 24) (3 - 128 - 24) -
             Z.max (d + e - 53) (3 - 1024 - 53)) with (Zpos k) by lia.
  simpl shr_record_of_loc. unfold shr.
  rewrite iter_pos_nat. subst mz. rewrite pos_iter_nat, shr_exact.
  simpl shr_m. simpl loc_of_shr_record. simpl round_nearest_even.
  fold d.
  replace (Z.max (d + e - 53) (3 - 1024 - 53) + Zpos k) with e by lia.
  change (Zdigits2 (Zpos m)) with d.
  replace (Z.max (d + e - 24) (3 - 128 - 24) - e) with 0 by lia.
  simpl. replace (e <=? 128 - 24) with true by (symmetry; apply Z.leb_le; lia).
  reflexivity.
Qed.

End Conversions.

(** ** telemetry.c: the derived ratios *)

Section DerivedRatios.

Lemma single_of_Z_finite (z : Z) :
  0 < z < 2 ^ 64 -> exists m e, Single.of_Z z = S754_finite false m e.
Proof. apply of_Z_finite; unfold Single.prec, Single.emax; lia. Qed.

Lemma single_of_Z_sign (z : Z) : 0 <= z -> Float.has_sign false (Single.of_Z z).
Proof. apply of_Z_sign. Qed.

(** A guarded ratio of two counters is a number and is not negative. *)
Lemma ratio_nonneg (a b : Z) :
  is_u64 a -> is_u64 b ->
  Single.leb Single.zero
    (if 0 <? b then Single.div (Single.of_Z a) (Single.of_Z b) else Single.zero) = true.
Proof.
  intros Ha Hb. destruct (0 <? b) eqn:E; [ | reflexivity ].
  apply Z.ltb_lt in E.
  destruct (single_of_Z_finite b) as (m & e & ->); [ unfold is_u64 in Hb; lia | ].
  apply has_sign_false_nonneg.
  apply (SFdiv_sign_finite_r Single.prec Single.emax false false).
  apply single_of_Z_sign. unfold is_u64 in Ha; lia.
Qed.

Lemma ratio_guard (a b : Z) :
  is_u64 b ->
  (if 0 <? b then Single.div (Single.of_Z a) (Single.of_Z b) else Single.zero) =
  (if b =? 0 then Single.zero else Single.div (Single.of_Z a) (Single.of_Z b)).
Proof.
  intros Hb. unfold is_u64 in Hb.
  destruct (0 <? b) eqn:E1; destruct (b =? 0) eqn:E2; try reflexivity; lia.
Qed.
End DerivedRatios.

(** C6.  For every PMU delta reading [r] (six 64-bit counters) the sample
    built by [compute_derived] has
    cache_miss_rate = cache_misses / instructions,
    branch_miss_rate = branch_misses / branch_instructions and
    ipc = instructions / cycles (the [float] quotient of the counters
    converted to [float]), each ratio being exactly zero when its
    denominator is zero, and all three ratios are numbers that are >= 0. *)
Theorem compute_derived_ratios (s : telemetry_sample) (r : Pmu.reading) :
  reading_wf r ->
  let s' := compute_derived s r in
  (cache_miss_rate s' =
     if Pmu.instructions r =? 0 then Single.zero
     else Single.div (Single.of_Z (Pmu.cache_misses r)) (Single.of_Z (Pmu.instructions r))) /\
  (branch_miss_rate s' =
     if Pmu.branch_instructions r =? 0 then Single.zero
     else Single.div (Single.of_Z (Pmu.branch_misses r))
                     (Single.of_Z (Pmu.branch_instructions r))) /\
  (ipc s' =
     if Pmu.cycles r =? 0 then Single.zero
     else Single.div (Single.of_Z (Pmu.instructions r)) (Single.of_Z (Pmu.cycles r))) /\
  Single.leb Single.zero (cache_miss_rate s') = true /\
  Single.leb Single.zero (branch_miss_rate s') = true /\
  Single.leb Single.zero (ipc s') = true.
Proof.
  intros (Hcr & Hcm & Hbi & Hbm & Hin & Hcy). simpl.
  repeat split; auto using ratio_guard, ratio_nonneg.
Qed.

Lemma compute_derived_ratios_witness :
  reading_wf sample_reading /\
  Single.leb Single.zero (ipc (compute_derived zero_sample sample_reading)) = true.
Proof.
  assert (H : reading_wf sample_reading).
  { unfold reading_wf, is_u64, sample_reading; simpl; lia. }
  split; [ exact H | ].
  apply (compute_derived_ratios zero_sample sample_reading H).
Defined.

(** The sample the sampler pushes carries such ratios: a delta of two
    readings is again a reading of six 64-bit counters. *)
Lemma delta_reading_wf (cur prev : Pmu.reading) : reading_wf (delta_reading cur prev).
Proof.
  unfold reading_wf, delta_reading, is_u64, wrap64; simpl.
  repeat split; apply Z.mod_pos_bound; lia.
Qed.

Lemma make_sample_ratios_nonneg (now : Z) (cur prev : Pmu.reading) :
  let s := make_sample now cur prev in
  Single.leb Single.zero (cache_miss_rate s) = true /\
  Single.leb Single.zero (branch_miss_rate s) = true /\
  Single.leb Single.zero (ipc s) = true.
Proof.
  destruct (delta_reading_wf cur prev) as (Hcr & Hcm & Hbi & Hbm & Hin & Hcy).
  unfold make_sample. simpl. auto using ratio_nonneg.
Qed.

(** The sample the sampler pushes holds 64-bit counters and three numbers
    of the binary32 format, none of them NaN. *)
Lemma make_sample_wf (now : Z) (cur prev : Pmu.reading) :
  is_u64 now -> sample_wf (make_sample now cur prev).
Proof.
  intros Hnow. destruct (delta_reading_wf cur prev) as (Hcr & Hcm & Hbi & Hbm & Hin & Hcy).
  assert (Hnum : forall x, Single.leb Single.zero x = true -> Float.is_nan x = false).
  { intros [ | | | ]; try reflexivity. discriminate. }
  destruct (make_sample_ratios_nonneg now cur prev) as (Hn1 & Hn2 & Hn3).
  apply Hnum in Hn1, Hn2, Hn3.
  assert (Hv : forall (c : bool) a b,
             Single.valid (if c then Single.div a b else Single.zero) = true).
  { intros c a b. destruct c; [ | reflexivity ].
    apply SFdiv_valid; unfold Single.prec, Single.emax; lia. }
  unfold sample_wf, make_sample. simpl.
  split; [exact Hnow | ]. split; [exact Hcr | ]. split; [exact Hcm | ].
  split; [exact Hbi | ]. split; [exact Hbm | ]. split; [exact Hcy | ].
  split; [exact Hin | ]. split; [apply Hv | ]. split; [apply Hv | ].
  split; [apply Hv | ]. split; [exact Hn1 | ]. split; [exact Hn2 | exact Hn3].
Qed.

(** ** ringbuffer.c *)

Section PowerOfTwo.

Lemma smeared_start (x : Z) : smeared x x 1.
Proof.
  intros i Hi. split.
  - intros H. exists 0. rewrite Z.add_0_r. split; [lia | exact H].
  - intros (j & Hj & H). replace (i + j) with i in H by lia. exact H.
Qed.

Lemma smeared_step (x y w : Z) :
  0 <= w -> smeared x y w -> smeared x (Z.lor y (Z.shiftr y w)) (2 * w).
Proof.
  intros Hw Hy i Hi. rewrite Z.lor_spec, Z.shiftr_spec by lia.
  rewrite orb_true_iff, (Hy i Hi), (Hy (i + w)) by lia. split.
  - intros [(j & Hj & H) | (j & Hj & H)].
    + exists j. split; [lia | exact H].
    + exists (w + j). split; [lia | ]. rewrite <- H. f_equal. lia.
  - intros (j & Hj & H). destruct (Z_lt_le_dec j w) as [Hlt | Hge].
    + left. exists j. split; [lia | exact H].
    + right. exists (j - w). split; [lia | ]. rewrite <- H. f_equal. lia.
Qed.

Lemma smeared_64_ones (x y : Z) :
  0 < x < 2 ^ 64 -> 0 <= y -> smeared x y 64 -> y = Z.ones (Z.log2 x + 1).
Proof.
  intros Hx Hy0 Hy.
  assert (HL : 0 <= Z.log2 x < 64).
  { split; [apply Z.log2_nonneg | apply Z.log2_lt_pow2; lia]. }
  apply Z.bits_inj'. intros i Hi.
  destruct (Z_lt_le_dec i (Z.log2 x + 1)) as [Hlt | Hge].
  - rewrite Z.ones_spec_low by lia. apply (Hy i Hi).
    exists (Z.log2 x - i). split; [lia | ].
    replace (i + (Z.log2 x - i)) with (Z.log2 x) by lia.
    apply Z.bit_log2. lia.
  - rewrite Z.ones_spec_high by lia.
    destruct (Z.testbit y i) eqn:E; [ | reflexivity ].
    apply (Hy i Hi) in E. destruct E as (j & Hj & H).
    rewrite Z.bits_above_log2 in H by lia. discriminate.
Qed.

Lemma smeared_zero (y w : Z) : 0 <= y -> smeared 0 y w -> y = 0.
Proof.
  intros Hy0 Hy. apply Z.bits_inj'. intros i Hi. rewrite Z.bits_0.
  destruct (Z.testbit y i) eqn:E; [ | reflexivity ].
  apply (Hy i Hi) in E. destruct E as (j & _ & H).
  rewrite Z.bits_0 in H. discriminate.
Qed.

Lemma lor_shiftr_nonneg (y w : Z) : 0 <= y -> 0 <= Z.lor y (Z.shiftr y w).
Proof. intros H. apply Z.lor_nonneg. split; [exact H | apply Z.shiftr_nonneg, H]. Qed.

(** For a request between 1 and 2^63 the bit trick computes
    [2 ^ log2_up v], the least power of two that is at least [v]. *)
Lemma next_power_of_two_log2_up (v : Z) :
  1 <= v <= 2 ^ 63 -> next_power_of_two v = 2 ^ Z.log2_up v.
Proof.
  intros Hv. unfold next_power_of_two.
  assert (Hw : wrap64 (v - 1) = v - 1) by (unfold wrap64; apply Z.mod_small; lia).
  rewrite Hw. set (x := v - 1).
  set (y1 := Z.lor x (Z.shiftr x 1)).
  set (y2 := Z.lor y1 (Z.shiftr y1 2)).
  set (y3 := Z.lor y2 (Z.shiftr y2 4)).
  set (y4 := Z.lor y3 (Z.shiftr y3 8)).
  set (y5 := Z.lor y4 (Z.shiftr y4 16)).
  set (y6 := Z.lor y5 (Z.shiftr y5 32)).
  assert (Hx0 : 0 <= x) by (subst x; lia).
  assert (H1 : smeared x y1 2) by (apply (smeared_step x x 1); [lia | apply smeared_start]).
  assert (H2 : smeared x y2 4) by (apply (smeared_step x y1 2); [lia | exact H1]).
  assert (H3 : smeared x y3 8) by (apply (smeared_step x y2 4); [lia | exact H2]).
  assert (H4 : smeared x y4 16) by (apply (smeared_step x y3 8); [lia | exact H3]).
  assert (H5 : smeared x y5 32) by (apply (smeared_step x y4 16); [lia | exact H4]).
  assert (H6 : smeared x y6 64) by (apply (smeared_step x y5 32); [lia | exact H5]).
  assert (Hy6 : 0 <= y6) by (repeat apply lor_shiftr_nonneg; exact Hx0).
  destruct (Z.eq_dec v 1) as [-> | Hne].
  - assert (Hz : y6 = 0) by (apply (smeared_zero y6 64); [exact Hy6 | exact H6]).
    rewrite Hz. reflexivity.
  - assert (Hy : y6 = Z.ones (Z.log2 x + 1)).
    { apply smeared_64_ones; [subst x; lia | exact Hy6 | exact H6]. }
    rewrite Hy, Z.ones_equiv.
    assert (HL : 0 <= Z.log2 x < 63).
    { split; [apply Z.log2_nonneg | apply Z.log2_lt_pow2; subst x; lia]. }
    replace (Z.pred (2 ^ (Z.log2 x + 1)) + 1) with (2 ^ (Z.log2 x + 1)) by lia.
    assert (Hup : Z.log2_up v = Z.log2 x + 1).
    { unfold Z.log2_up. destruct (1 ?= v) eqn:E.
      - apply Z.compare_eq in E. lia.
      - rewrite <- (Z.sub_1_r v). subst x. lia.
      - apply Z.compare_gt_iff in E. lia. }
    rewrite Hup. unfold wrap64. apply Z.mod_small.
    split; [apply Z.pow_nonneg; lia | ].
    apply Z.pow_lt_mono_r; lia.
Qed.

Lemma log2_up_bound (v : Z) : 1 <= v <= 2 ^ 63 -> 0 <= Z.log2_up v <= 63.
Proof.
  intros Hv. split; [apply Z.log2_up_nonneg | ].
  destruct (Z.eq_dec v 1) as [-> | Hne]; [change (Z.log2_up 1) with 0; lia | ].
  destruct (Z.log2_up_spec v ltac:(lia)) as [Hlo _].
  assert (H : Z.pred (Z.log2_up v) < 63).
  { apply (Z.pow_lt_mono_r_iff 2); lia. }
  lia.
Qed.

(** [2 ^ log2_up v] is the least power of two that is at least [v]. *)
Lemma log2_up_least (v j : Z) : 1 <= v -> 0 <= j -> v <= 2 ^ j -> 2 ^ Z.log2_up v <= 2 ^ j.
Proof.
  intros Hv Hj Hle. apply Z.pow_le_mono_r; [lia | ].
  apply Z.log2_up_le_pow2; lia.
Qed.
End PowerOfTwo.

Section RingBuffer.

Lemma mask_mod (a k : Z) :
  0 <= k <= 63 -> Z.land (wrap64 a) (wrap64 (2 ^ k - 1)) = a mod 2 ^ k.
Proof.
  intros Hk. unfold wrap64.
  assert (Hp : 0 < 2 ^ k <= 2 ^ 63).
  { split; [apply Z.pow_pos_nonneg; lia | apply Z.pow_le_mono_r; lia]. }
  rewrite (Z.mod_small (2 ^ k - 1)) by lia.
  replace (2 ^ k - 1) with (Z.ones k) by (rewrite Z.ones_equiv; lia).
  rewrite Z.land_ones by lia.
  apply Z.mod_mod_divide.
  exists (2 ^ (64 - k)). rewrite <- Z.pow_add_r by lia. f_equal. lia.
Qed.

Lemma mod_succ_cases (h c : Z) :
  0 <= h < c -> (h + 1) mod c = if h + 1 <? c then h + 1 else 0.
Proof.
  intros H. destruct (h + 1 <? c) eqn:E.
  - apply Z.ltb_lt in E. apply Z.mod_small. lia.
  - apply Z.ltb_ge in E. symmetry. apply (Z.mod_unique _ _ 1); lia.
Qed.

Lemma mod_sub_cases (h t c : Z) :
  0 <= h < c -> 0 <= t < c ->
  (h - t) mod c = if t <=? h then h - t else h - t + c.
Proof.
  intros Hh Ht. destruct (t <=? h) eqn:E.
  - apply Z.leb_le in E. apply Z.mod_small. lia.
  - apply Z.leb_gt in E. symmetry. apply (Z.mod_unique _ _ (-1)); lia.
Qed.

Lemma mod_add_cases (a b c : Z) :
  0 <= a < c -> 0 <= b < c ->
  (a + b) mod c = if a + b <? c then a + b else a + b - c.
Proof.
  intros Ha Hb. destruct (a + b <? c) eqn:E.
  - apply Z.ltb_lt in E. apply Z.mod_small. lia.
  - apply Z.ltb_ge in E. symmetry. apply (Z.mod_unique _ _ 1); lia.
Qed.

(** On a well-formed buffer the masked expressions are the usual
    arithmetic modulo the capacity. *)
Lemma next_index (rb : ringbuffer) (i : Z) :
  rb_wf rb -> 0 <= i < capacity rb ->
  Z.land (wrap64 (i + 1)) (wrap64 (capacity rb - 1)) =
  if i + 1 <? capacity rb then i + 1 else 0.
Proof.
  intros ((k & Hk & HC) & _) Hi. rewrite HC in *.
  rewrite mask_mod by lia. apply mod_succ_cases. lia.
Qed.

Lemma count_cases (rb : ringbuffer) :
  rb_wf rb ->
  ringbuffer_count rb =
  if tail rb <=? head rb then head rb - tail rb
  else head rb - tail rb + capacity rb.
Proof.
  intros ((k & Hk & HC) & _ & Hh & Ht). unfold ringbuffer_count.
  rewrite HC in *. rewrite mask_mod by lia. apply mod_sub_cases; lia.
Qed.

Lemma count_range (rb : ringbuffer) :
  rb_wf rb -> 0 <= ringbuffer_count rb <= capacity rb - 1.
Proof.
  intros Hwf. rewrite (count_cases rb Hwf).
  destruct Hwf as (_ & _ & Hh & Ht). destruct (tail rb <=? head rb) eqn:E.
  - apply Z.leb_le in E. lia.
  - apply Z.leb_gt in E. lia.
Qed.

Lemma contents_length (rb : ringbuffer) :
  length (rb_contents rb) = Z.to_nat (ringbuffer_count rb).
Proof. unfold rb_contents. rewrite length_map, length_seq. reflexivity. Qed.

Lemma init_wf (calloc_ok : Z -> bool) (c : Z) (rb : ringbuffer) :
  1 <= c <= 2 ^ 63 -> ringbuffer_init calloc_ok c = Some rb ->
  rb_wf rb /\ capacity rb = 2 ^ Z.log2_up c /\ ringbuffer_count rb = 0.
Proof.
  intros Hc. unfold ringbuffer_init.
  destruct (c =? 0) eqn:E0; [discriminate | ].
  rewrite (next_power_of_two_log2_up c Hc).
  destruct (calloc_ok (2 ^ Z.log2_up c)); [ | discriminate ].
  intros [= <-]. pose proof (log2_up_bound c Hc) as Hk.
  assert (Hp : 0 < 2 ^ Z.log2_up c) by (apply Z.pow_pos_nonneg; lia).
  assert (Hwf : rb_wf {| buffer := replicate (Z.to_nat (2 ^ Z.log2_up c)) zero_sample;
                         capacity := 2 ^ Z.log2_up c; head := 0; tail := 0 |}).
  { unfold rb_wf; simpl. repeat split; try lia.
    - exists (Z.log2_up c). split; [lia | reflexivity].
    - apply length_replicate. }
  split; [exact Hwf | ]. split; [reflexivity | ].
  rewrite (count_cases _ Hwf). reflexivity.
Qed.

(** [ringbuffer_push] on a well-formed buffer: it returns at once, with
    [false] exactly when [capacity - 1] samples are queued, and otherwise
    appends the sample to the queue. *)
Lemma push_spec (rb : ringbuffer) (s : telemetry_sample) :
  rb_wf rb ->
  if ringbuffer_count rb =? capacity rb - 1
  then ringbuffer_push rb s = Some (rb, false)
  else exists rb',
      ringbuffer_push rb s = Some (rb', true) /\ rb_wf rb' /\
      capacity rb' = capacity rb /\
      rb_contents rb' = rb_contents rb ++ [s].
Proof.
  intros Hwf. pose proof (count_cases rb Hwf) as Hcnt.
  pose proof (next_index rb (head rb) Hwf) as Hnext.
  destruct Hwf as (Hpow & Hlen & Hh & Ht).
  specialize (Hnext Hh). unfold ringbuffer_push. rewrite Hnext.
  destruct (ringbuffer_count rb =? capacity rb - 1) eqn:Efull.
  - apply Z.eqb_eq in Efull.
    assert (E : (if head rb + 1 <? capacity rb then head rb + 1 else 0) = tail rb).
    { destruct (head rb + 1 <? capacity rb) eqn:E1;
        destruct (tail rb <=? head rb) eqn:E2; lia. }
    rewrite E, Z.eqb_refl. reflexivity.
  - apply Z.eqb_neq in Efull.
    set (h' := if head rb + 1 <? capacity rb then head rb + 1 else 0) in *.
    assert (Hh' : 0 <= h' < capacity rb) by (subst h'; destruct (head rb + 1 <? capacity rb) eqn:E1; lia).
    assert (E : h' <> tail rb).
    { subst h'. destruct (head rb + 1 <? capacity rb) eqn:E1;
        destruct (tail rb <=? head rb) eqn:E2; lia. }
    apply Z.eqb_neq in E. rewrite E.
    assert (Hin : (Z.to_nat (head rb) < length (buffer rb))%nat) by lia.
    destruct (lookup_lt_is_Some_2 _ _ Hin) as [old Hold]. rewrite Hold.
    eexists. split; [reflexivity | ].
    assert (Hwf' : rb_wf {| buffer := <[Z.to_nat (head rb) := s]> (buffer rb);
                            capacity := capacity rb; head := h'; tail := tail rb |}).
    { unfold rb_wf; simpl. rewrite length_insert. auto. }
    split; [exact Hwf' | ]. split; [reflexivity | ].
    pose proof (count_cases _ Hwf') as Hcnt'. simpl in Hcnt'.
    unfold rb_contents. rewrite Hcnt'. simpl.
    assert (Hc1 : (if tail rb <=? h' then h' - tail rb else h' - tail rb + capacity rb)
                  = ringbuffer_count rb + 1).
    { rewrite Hcnt. subst h'. apply Z.eqb_neq in E.
      destruct (head rb + 1 <? capacity rb) eqn:E1;
        destruct (tail rb <=? head rb) eqn:E2;
        [ destruct (tail rb <=? head rb + 1) eqn:E3
        | destruct (tail rb <=? head rb + 1) eqn:E3
        | destruct (tail rb <=? 0) eqn:E3
        | destruct (tail rb <=? 0) eqn:E3 ]; lia. }
    rewrite Hc1.
    assert (Hc0 : 0 <= ringbuffer_count rb) by (rewrite Hcnt; destruct (tail rb <=? head rb) eqn:E2; lia).
    replace (Z.to_nat (ringbuffer_count rb + 1)) with (Z.to_nat (ringbuffer_count rb) + 1)%nat by lia.
    rewrite seq_app, map_app. simpl. f_equal.
    + apply map_ext_in. intros i Hi. apply in_seq in Hi.
      rewrite list_lookup_insert_ne; [reflexivity | ].
      assert (Hi' : 0 <= Z.of_nat i < ringbuffer_count rb) by lia.
      rewrite Hcnt in Hi'.
      rewrite (mod_add_cases (tail rb) (Z.of_nat i) (capacity rb)) by
        (destruct (tail rb <=? head rb) eqn:E2; lia).
      destruct (tail rb + Z.of_nat i <? capacity rb) eqn:E3;
        destruct (tail rb <=? head rb) eqn:E2; lia.
    + f_equal.
      replace ((tail rb + Z.of_nat (Z.to_nat (ringbuffer_count rb))) mod capacity rb)
        with (head rb).
      * rewrite list_lookup_insert_eq by exact Hin. reflexivity.
      * rewrite Z2Nat.id by lia. rewrite Hcnt.
        destruct (tail rb <=? head rb) eqn:E2.
        -- replace (tail rb + (head rb - tail rb)) with (head rb) by lia.
           symmetry. apply Z.mod_small. lia.
        -- apply (Z.mod_unique _ _ 1); lia.
Qed.

Lemma contents_nil_iff (rb : ringbuffer) :
  rb_wf rb -> (rb_contents rb = [] <-> ringbuffer_count rb = 0).
Proof.
  intros Hwf. pose proof (count_range rb Hwf) as Hr.
  pose proof (contents_length rb) as Hl. split.
  - intros H. rewrite H in Hl. simpl in Hl. lia.
  - intros H. rewrite H in Hl. simpl in Hl.
    destruct (rb_contents rb); [reflexivity | discriminate].
Qed.

(** [ringbuffer_pop] on a well-formed buffer: it returns at once, with
    "empty" exactly when nothing is queued, and otherwise removes the
    oldest sample of the queue. *)
Lemma pop_spec (rb : ringbuffer) :
  rb_wf rb ->
  match rb_contents rb with
  | [] => ringbuffer_pop rb = Some (rb, None)
  | x :: l =>
      exists rb',
        ringbuffer_pop rb = Some (rb', Some x) /\ rb_wf rb' /\
        capacity rb' = capacity rb /\ rb_contents rb' = l
  end.
Proof.
  intros Hwf. pose proof (count_cases rb Hwf) as Hcnt.
  pose proof (next_index rb (tail rb) Hwf) as Hnext.
  pose proof (contents_nil_iff rb Hwf) as Hnil.
  destruct Hwf as (Hpow & Hlen & Hh & Ht). specialize (Hnext Ht).
  unfold ringbuffer_pop. rewrite Hnext.
  destruct (tail rb =? head rb) eqn:E.
  - apply Z.eqb_eq in E.
    assert (H0 : ringbuffer_count rb = 0).
    { rewrite Hcnt. destruct (tail rb <=? head rb) eqn:E2; lia. }
    apply Hnil in H0. rewrite H0. reflexivity.
  - apply Z.eqb_neq in E.
    assert (Hpos : 0 < ringbuffer_count rb).
    { rewrite Hcnt. destruct (tail rb <=? head rb) eqn:E2; lia. }
    set (t' := if tail rb + 1 <? capacity rb then tail rb + 1 else 0) in *.
    assert (Ht' : 0 <= t' < capacity rb).
    { subst t'. destruct (tail rb + 1 <? capacity rb) eqn:E1; lia. }
    assert (Hin : (Z.to_nat (tail rb) < length (buffer rb))%nat) by lia.
    destruct (lookup_lt_is_Some_2 _ _ Hin) as [out Hout]. rewrite Hout.
    assert (Hwf' : rb_wf {| buffer := buffer rb; capacity := capacity rb;
                            head := head rb; tail := t' |}).
    { unfold rb_wf; simpl. auto. }
    pose proof (count_cases _ Hwf') as Hcnt'. simpl in Hcnt'.
    unfold rb_contents at 1.
    replace (Z.to_nat (ringbuffer_count rb))
      with (S (Z.to_nat (ringbuffer_count rb - 1))) by lia.
    rewrite <- cons_seq, <- seq_shift, map_cons, map_map.
    replace ((tail rb + Z.of_nat 0) mod capacity rb) with (tail rb)
      by (rewrite Z.add_0_r; symmetry; apply Z.mod_small; lia).
    rewrite Hout. simpl default.
    eexists. split; [reflexivity | ]. split; [exact Hwf' | ].
    split; [reflexivity | ].
    unfold rb_contents. rewrite Hcnt'. simpl.
    assert (Hc1 : (if t' <=? head rb then head rb - t' else head rb - t' + capacity rb)
                  = ringbuffer_count rb - 1).
    { rewrite Hcnt. subst t'.
      destruct (tail rb + 1 <? capacity rb) eqn:E1;
        destruct (tail rb <=? head rb) eqn:E2;
        [ destruct (tail rb + 1 <=? head rb) eqn:E3
        | destruct (tail rb + 1 <=? head rb) eqn:E3
        | destruct (0 <=? head rb) eqn:E3
        | destruct (0 <=? head rb) eqn:E3 ]; lia. }
    rewrite Hc1. apply map_ext. intros i. do 2 f_equal.
    assert (Et : t' = (tail rb + 1) mod capacity rb).
    { subst t'. symmetry. apply mod_succ_cases. lia. }
    rewrite Et, Zplus_mod_idemp_l. do 2 f_equal. lia.
Qed.

Lemma push_all_app (l1 l2 : list telemetry_sample) :
  forall rb,
    push_all rb (l1 ++ l2) =
    match push_all rb l1 with
    | Some (rb1, bs1) =>
        match push_all rb1 l2 with
        | Some (rb2, bs2) => Some (rb2, bs1 ++ bs2)
        | None => None
        end
    | None => None
    end.
Proof.
  induction l1 as [ | s l1 IH ]; intros rb; simpl.
  - destruct (push_all rb l2) as [[rb2 bs2] | ]; reflexivity.
  - destruct (ringbuffer_push rb s) as [[rb1 b] | ]; [ | reflexivity ].
    rewrite IH. destruct (push_all rb1 l1) as [[rb2 bs] | ]; [ | reflexivity ].
    destruct (push_all rb2 l2) as [[rb3 bs'] | ]; reflexivity.
Qed.

Lemma pop_n_add (a b : nat) :
  forall rb,
    pop_n rb (a + b) =
    match pop_n rb a with
    | Some (rb1, rs1) =>
        match pop_n rb1 b with
        | Some (rb2, rs2) => Some (rb2, rs1 ++ rs2)
        | None => None
        end
    | None => None
    end.
Proof.
  induction a as [ | a IH ]; intros rb; simpl.
  - destruct (pop_n rb b) as [[rb2 rs2] | ]; reflexivity.
  - destruct (ringbuffer_pop rb) as [[rb1 r] | ]; [ | reflexivity ].
    rewrite IH. destruct (pop_n rb1 a) as [[rb2 rs] | ]; [ | reflexivity ].
    destruct (pop_n rb2 b) as [[rb3 rs'] | ]; reflexivity.
Qed.

(** Pushing while there is room appends to the queue. *)
Lemma push_all_room (l : list telemetry_sample) :
  forall rb,
    rb_wf rb ->
    Z.of_nat (length (rb_contents rb) + length l) <= capacity rb - 1 ->
    exists rb',
      push_all rb l = Some (rb', replicate (length l) true) /\ rb_wf rb' /\
      capacity rb' = capacity rb /\ rb_contents rb' = rb_contents rb ++ l.
Proof.
  induction l as [ | s l IH ]; intros rb Hwf Hroom; simpl.
  - exists rb. rewrite app_nil_r. auto.
  - pose proof (push_spec rb s Hwf) as Hp.
    pose proof (count_range rb Hwf) as Hr.
    rewrite contents_length in Hroom. simpl in Hroom.
    destruct (ringbuffer_count rb =? capacity rb - 1) eqn:E;
      [ apply Z.eqb_eq in E; lia | ].
    destruct Hp as (rb1 & Hpush & Hwf1 & Hcap1 & Hcont1). rewrite Hpush.
    destruct (IH rb1 Hwf1) as (rb2 & Hall & Hwf2 & Hcap2 & Hcont2).
    { rewrite Hcont1, length_app, Hcap1, contents_length. simpl. lia. }
    rewrite Hall. exists rb2. split; [reflexivity | ].
    split; [exact Hwf2 | ]. split; [congruence | ].
    rewrite Hcont2, Hcont1, <- app_assoc. reflexivity.
Qed.

(** Popping returns the queue from its oldest element on. *)
Lemma pop_n_prefix (l1 : list telemetry_sample) :
  forall rb l2,
    rb_wf rb -> rb_contents rb = l1 ++ l2 ->
    exists rb',
      pop_n rb (length l1) = Some (rb', map Some l1) /\ rb_wf rb' /\
      capacity rb' = capacity rb /\ rb_contents rb' = l2.
Proof.
  induction l1 as [ | x l1 IH ]; intros rb l2 Hwf Hc; simpl.
  - exists rb. auto.
  - pose proof (pop_spec rb Hwf) as Hp. rewrite Hc in Hp. simpl in Hp.
    destruct Hp as (rb1 & Hpop & Hwf1 & Hcap1 & Hcont1). rewrite Hpop.
    destruct (IH rb1 l2 Hwf1 Hcont1) as (rb2 & Hn & Hwf2 & Hcap2 & Hcont2).
    rewrite Hn. exists rb2. split; [reflexivity | ].
    split; [exact Hwf2 | ]. split; [congruence | exact Hcont2].
Qed.
End RingBuffer.

Section RingBufferFifo.

Lemma push_returns (rb : ringbuffer) (s : telemetry_sample) :
  rb_wf rb ->
  exists rb' b,
    ringbuffer_push rb s = Some (rb', b) /\ rb_wf rb' /\
    capacity rb' = capacity rb /\
    (b = false <-> ringbuffer_count rb = capacity rb - 1).
Proof.
  intros Hwf. pose proof (push_spec rb s Hwf) as Hp.
  destruct (ringbuffer_count rb =? capacity rb - 1) eqn:E.
  - apply Z.eqb_eq in E. exists rb, false. tauto.
  - apply Z.eqb_neq in E. destruct Hp as (rb' & Hpush & Hwf' & Hcap & _).
    exists rb', true. split; [exact Hpush | ]. split; [exact Hwf' | ].
    split; [exact Hcap | ]. split; intros H; [discriminate | contradiction].
Qed.

Lemma pop_returns (rb : ringbuffer) :
  rb_wf rb ->
  exists rb' r,
    ringbuffer_pop rb = Some (rb', r) /\ rb_wf rb' /\
    capacity rb' = capacity rb /\
    (r = None <-> ringbuffer_count rb = 0).
Proof.
  intros Hwf. pose proof (pop_spec rb Hwf) as Hp.
  pose proof (contents_nil_iff rb Hwf) as Hnil.
  destruct (rb_contents rb) as [ | x l ] eqn:E.
  - exists rb, None. intuition.
  - destruct Hp as (rb' & Hpop & Hwf' & Hcap & _).
    exists rb', (Some x). split; [exact Hpop | ]. split; [exact Hwf' | ].
    split; [exact Hcap | ]. split; intros H.
    + discriminate.
    + apply Hnil in H. discriminate.
Qed.

Lemma fifo_below_capacity (rb : ringbuffer) (l : list telemetry_sample) :
  rb_wf rb -> ringbuffer_count rb = 0 ->
  Z.of_nat (length l) <= capacity rb - 1 ->
  exists rb1 rb2,
    push_all rb l = Some (rb1, replicate (length l) true) /\
    pop_n rb1 (length l) = Some (rb2, map Some l) /\
    rb_wf rb1 /\ rb_wf rb2 /\ rb_contents rb1 = l /\ rb_contents rb2 = [] /\
    capacity rb1 = capacity rb.
Proof.
  intros Hwf H0 Hlen.
  apply (contents_nil_iff rb Hwf) in H0.
  destruct (push_all_room l rb Hwf) as (rb1 & Hpush & Hwf1 & Hcap1 & Hcont1).
  { rewrite H0. simpl. lia. }
  rewrite H0 in Hcont1. simpl in Hcont1.
  destruct (pop_n_prefix l rb1 [] Hwf1) as (rb2 & Hpop & Hwf2 & Hcap2 & Hcont2).
  { rewrite app_nil_r. exact Hcont1. }
  exists rb1, rb2. auto 10.
Qed.

Lemma fifo_at_capacity (rb : ringbuffer) (l : list telemetry_sample) :
  rb_wf rb -> ringbuffer_count rb = 0 ->
  Z.of_nat (length l) = capacity rb ->
  exists rb1 rb2,
    push_all rb l = Some (rb1, replicate (length l - 1) true ++ [false]) /\
    pop_n rb1 (length l) = Some (rb2, map Some (take (length l - 1) l) ++ [None]).
Proof.
  intros Hwf H0 Hlen.
  pose proof (count_range rb Hwf) as Hr.
  assert (Hpos : (1 <= length l)%nat) by lia.
  set (l1 := take (length l - 1) l).
  assert (Hl1 : length l1 = (length l - 1)%nat) by (subst l1; rewrite length_take; lia).
  destruct (drop (length l - 1) l) as [ | x l2 ] eqn:Ed.
  { apply (f_equal length) in Ed. rewrite length_drop in Ed. simpl in Ed. lia. }
  assert (Hl2 : l2 = []).
  { apply (f_equal length) in Ed. rewrite length_drop in Ed. simpl in Ed.
    destruct l2; [reflexivity | simpl in Ed; lia]. }
  subst l2.
  assert (Hl : l = l1 ++ [x]) by (subst l1; rewrite <- Ed, take_drop; reflexivity).
  destruct (fifo_below_capacity rb l1 Hwf H0 ltac:(lia))
    as (rb1 & rb2 & Hpush & Hpop & Hwf1 & Hwf2 & Hc1 & Hc2 & Hcap1).
  exists rb1, rb2. split.
  - rewrite Hl at 1. rewrite push_all_app, Hpush. simpl.
    pose proof (push_spec rb1 x Hwf1) as Hp.
    assert (Hfull : ringbuffer_count rb1 = capacity rb1 - 1).
    { pose proof (contents_length rb1) as Hcl. rewrite Hc1 in Hcl.
      pose proof (count_range rb1 Hwf1). lia. }
    apply Z.eqb_eq in Hfull. rewrite Hfull in Hp. rewrite Hp.
    rewrite <- Hl1. reflexivity.
  - replace (length l) with (length l1 + 1)%nat by lia.
    rewrite pop_n_add, Hpop. simpl.
    pose proof (pop_spec rb2 Hwf2) as Hp. rewrite Hc2 in Hp. rewrite Hp.
    reflexivity.
Qed.
End RingBufferFifo.

(** C1 (as the code has it).  [ringbuffer_init] rounds a requested capacity
    between 1 and 2^63 up to the least power of two that is at least the
    request, and leaves an empty well-formed buffer.  On every well-formed
    buffer [ringbuffer_push] and [ringbuffer_pop] return at once (push
    answers "full" exactly when [capacity - 1] samples are queued, pop
    answers "empty" exactly when none is) and keep the buffer well-formed,
    and the element count lies in [0, capacity - 1].  One slot always stays
    free: pushing up to [capacity - 1] samples into the empty buffer and
    popping as many returns exactly the pushed sequence in FIFO order, while
    of [capacity] samples pushed the last is refused, and popping [capacity]
    times returns the first [capacity - 1] samples in order and then
    "empty". *)
Theorem ringbuffer_contract (calloc_ok : Z -> bool) (requested : Z) (rb0 : ringbuffer) :
  1 <= requested <= 2 ^ 63 ->
  ringbuffer_init calloc_ok requested = Some rb0 ->
  (exists k, 0 <= k /\ capacity rb0 = 2 ^ k /\ requested <= capacity rb0 /\
             forall j, 0 <= j -> requested <= 2 ^ j -> capacity rb0 <= 2 ^ j) /\
  rb_wf rb0 /\ ringbuffer_count rb0 = 0 /\
  (forall rb s, rb_wf rb ->
     exists rb' b,
       ringbuffer_push rb s = Some (rb', b) /\ rb_wf rb' /\
       capacity rb' = capacity rb /\
       (b = false <-> ringbuffer_count rb = capacity rb - 1)) /\
  (forall rb, rb_wf rb ->
     exists rb' r,
       ringbuffer_pop rb = Some (rb', r) /\ rb_wf rb' /\
       capacity rb' = capacity rb /\
       (r = None <-> ringbuffer_count rb = 0)) /\
  (forall rb, rb_wf rb -> 0 <= ringbuffer_count rb <= capacity rb - 1) /\
  (forall l, Z.of_nat (length l) <= capacity rb0 - 1 ->
     exists rb1 rb2,
       push_all rb0 l = Some (rb1, replicate (length l) true) /\
       pop_n rb1 (length l) = Some (rb2, map Some l)) /\
  (forall l, Z.of_nat (length l) = capacity rb0 ->
     exists rb1 rb2,
       push_all rb0 l = Some (rb1, replicate (length l - 1) true ++ [false]) /\
       pop_n rb1 (length l) =
         Some (rb2, map Some (take (length l - 1) l) ++ [None])).
Proof.
  intros Hreq Hinit.
  destruct (init_wf calloc_ok requested rb0 Hreq Hinit) as (Hwf & Hcap & Hcnt).
  pose proof (log2_up_bound requested Hreq) as Hk.
  split.
  { exists (Z.log2_up requested). split; [lia | ]. split; [exact Hcap | ]. split.
    - rewrite Hcap. destruct (Z.eq_dec requested 1) as [-> | Hne]; [simpl; lia | ].
      apply Z.log2_up_spec. lia.
    - intros j Hj Hle. rewrite Hcap. apply log2_up_least; lia. }
  split; [exact Hwf | ]. split; [exact Hcnt | ].
  split; [intros rb s; apply push_returns | ].
  split; [intros rb; apply pop_returns | ].
  split; [intros rb; apply count_range | ].
  split.
  - intros l Hl.
    destruct (fifo_below_capacity rb0 l Hwf Hcnt Hl) as (rb1 & rb2 & H1 & H2 & _).
    eauto.
  - intros l Hl. apply fifo_at_capacity; assumption.
Qed.

Lemma ringbuffer_contract_witness :
  1 <= 5 <= 2 ^ 63 /\
  ringbuffer_init always_allocates 5 = Some rb8 /\
  rb_wf rb8 /\ ringbuffer_count rb8 = 0.
Proof.
  assert (H1 : 1 <= 5 <= 2 ^ 63) by lia.
  assert (H2 : ringbuffer_init always_allocates 5 = Some rb8) by reflexivity.
  split; [exact H1 | ]. split; [exact H2 | ].
  split; apply (ringbuffer_contract always_allocates 5 rb8 H1 H2).
Defined.

(** C1 as stated fails: with capacity 4, pushing 4 samples stores only the
    first 3 (the fourth push answers "full"), so popping 4 times does not
    give back the pushed sequence; and a request above 2^63 is not rounded
    up to a power of two (the computation wraps to 0). *)
Lemma ringbuffer_fifo_counterexample :
  ringbuffer_init always_allocates 4 = Some rb4 /\
  capacity rb4 = 4 /\
  push_then_pop rb4 four_samples 4 =
    Some ([true; true; true; false],
          [Some (stamped 1); Some (stamped 2); Some (stamped 3); None]) /\
  [Some (stamped 1); Some (stamped 2); Some (stamped 3); None]
    <> map Some four_samples /\
  next_power_of_two (2 ^ 63 + 1) = 0.
Proof.
  split; [reflexivity | ]. split; [reflexivity | ]. split; [reflexivity | ].
  split; [ | reflexivity ].
  unfold four_samples. simpl. intros H. discriminate H.
Qed.

(** ** anomaly.c: the detection step *)

Section Detection.
Variable eng : anomaly_engine.
Variable s : telemetry_sample.

Let z_cm := compute_z (Double.of_single (cache_miss_rate s))
              (mean_cache_miss_rate (baseline eng)) (std_cache_miss_rate (baseline eng)).
Let z_bm := compute_z (Double.of_single (branch_miss_rate s))
              (mean_branch_miss_rate (baseline eng)) (std_branch_miss_rate (baseline eng)).
Let z_ip := compute_z (Double.of_single (ipc s))
              (mean_ipc (baseline eng)) (std_ipc (baseline eng)).
Let cache_spike := Double.ltb (z_threshold eng) z_cm.
Let branch_spike := Double.ltb (z_threshold eng) z_bm.
Let ipc_collapse := Double.ltb z_ip (Double.opp (z_threshold eng)).
Let anomalous := cache_spike || branch_spike || ipc_collapse.
Let consecutive := if anomalous then wrap32 (consecutive_anomalies eng + 1) else 0.
Let recent := <[Z.to_nat (recent_idx eng) := Single.of_double (Double.of_single (cache_miss_rate s))]>
                (recent_cmr eng).
Let idx := wrap64 (recent_idx eng + 1) mod recent_cap eng.

(** What [anomaly_detect] computes once the baseline is ready. *)
Lemma anomaly_detect_ready :
  ready (baseline eng) = true -> window_ok eng = true ->
  exists eng' r,
    anomaly_detect eng s = Some (eng', r) /\
    z_cache_miss r = z_cm /\ z_branch_miss r = z_bm /\ z_ipc r = z_ip /\
    composite_score r = composite (max_abs_z z_cm z_bm z_ip) (z_threshold eng) /\
    anomaly_flags r =
      flag_word cache_spike branch_spike ipc_collapse
        (anomalous && (burst_window eng <=? consecutive))
        (detect_oscillation recent (recent_cap eng) idx) /\
    sustained_count r = consecutive /\
    consecutive_anomalies eng' = consecutive /\
    recent_cmr eng' = recent /\ recent_idx eng' = idx /\
    recent_cap eng' = recent_cap eng /\ burst_window eng' = burst_window eng /\
    baseline eng' = baseline eng /\ z_threshold eng' = z_threshold eng /\
    n eng' = n eng.
Proof.
  intros Hready Hok. unfold anomaly_detect. rewrite Hready, Hok. simpl negb. cbv iota.
  fold z_cm z_bm z_ip. fold cache_spike branch_spike ipc_collapse.
  fold anomalous. fold recent idx.
  assert (Hc : consecutive = if anomalous then wrap32 (consecutive_anomalies eng + 1) else 0)
    by reflexivity.
  clearbody consecutive z_cm z_bm z_ip recent idx.
  clearbody anomalous. clearbody cache_spike branch_spike ipc_collapse.
  destruct anomalous.
  - rewrite <- Hc.
    eexists. eexists. split; [reflexivity | ]. simpl.
    repeat (split; [reflexivity | ]). split; [ | repeat (split; try reflexivity) ].
    destruct cache_spike, branch_spike, ipc_collapse,
      (burst_window eng <=? consecutive),
      (detect_oscillation recent (recent_cap eng) idx); reflexivity.
  - rewrite Hc.
    eexists. eexists. split; [reflexivity | ]. simpl.
    repeat (split; [reflexivity | ]). split; [ | repeat (split; try reflexivity) ].
    destruct cache_spike, branch_spike, ipc_collapse,
      (detect_oscillation recent (recent_cap eng) idx); reflexivity.
Qed.
End Detection.

Lemma flag_word_primary (c b i burst osc : bool) :
  primary_fired (flag_word c b i burst osc) = c || b || i.
Proof. destruct c, b, i, burst, osc; reflexivity. Qed.

Lemma flag_word_burst (c b i burst osc : bool) :
  has_flag (flag_word c b i burst osc) ANOMALY_BURST_PATTERN = burst.
Proof. destruct c, b, i, burst, osc; reflexivity. Qed.

Lemma flag_word_oscillation (c b i burst osc : bool) :
  has_flag (flag_word c b i burst osc) ANOMALY_OSCILLATION = osc.
Proof. destruct c, b, i, burst, osc; reflexivity. Qed.

Lemma flag_word_cache (c b i burst osc : bool) :
  has_flag (flag_word c b i burst osc) ANOMALY_CACHE_MISS_SPIKE = c.
Proof. destruct c, b, i, burst, osc; reflexivity. Qed.

Lemma wrap32_range (z : Z) : 0 <= wrap32 z < 2 ^ 32.
Proof. unfold wrap32. apply Z.mod_pos_bound. lia. Qed.

Lemma window_ok_spec (eng : anomaly_engine) :
  window_ok eng = true <->
  0 < recent_cap eng /\ Z.of_nat (length (recent_cmr eng)) = recent_cap eng /\
  0 <= recent_idx eng < recent_cap eng.
Proof.
  unfold window_ok. rewrite !andb_true_iff, Z.ltb_lt, Z.ltb_lt, Z.eqb_eq, Z.leb_le. tauto.
Qed.

Lemma anomaly_init_wf (z : spec_float) (bw : Z) :
  1 <= bw < 2 ^ 32 -> engine_wf (anomaly_init z bw).
Proof.
  intros Hbw. unfold engine_wf. split; [ | simpl; lia ].
  apply window_ok_spec. simpl. rewrite length_replicate. lia.
Qed.

Lemma anomaly_learn_wf (eng : anomaly_engine) (s : telemetry_sample) :
  engine_wf eng -> engine_wf (anomaly_learn eng s).
Proof. intros H. exact H. Qed.

Lemma anomaly_finalize_wf (eng : anomaly_engine) :
  engine_wf eng -> engine_wf (anomaly_finalize_baseline eng).
Proof.
  intros H. unfold anomaly_finalize_baseline. destruct (n eng <? 1); exact H.
Qed.

Lemma anomaly_detect_wf (eng : anomaly_engine) (s : telemetry_sample)
    (eng' : anomaly_engine) (r : anomaly_result) :
  engine_wf eng -> anomaly_detect eng s = Some (eng', r) -> engine_wf eng'.
Proof.
  intros Hwf Hd. destruct (ready (baseline eng)) eqn:Hr.
  - destruct Hwf as (Hok & Hbw & Hc & Hcap32).
    destruct (anomaly_detect_ready eng s Hr Hok)
      as (e1 & r1 & Hd1 & _ & _ & _ & _ & _ & _ & Hcons & Hrec & Hidx & Hcap & Hbw1 & _).
    rewrite Hd1 in Hd. injection Hd as <- <-.
    apply window_ok_spec in Hok. destruct Hok as (Hcap0 & Hlen & Hi).
    unfold engine_wf. split; [ | split; [ | split ] ].
    + apply window_ok_spec. rewrite Hrec, Hidx, Hcap, length_insert.
      split; [lia | ]. split; [exact Hlen | ]. apply Z.mod_pos_bound. lia.
    + congruence.
    + rewrite Hcons.
      destruct (_ || _ || _); [apply wrap32_range | lia].
    + rewrite Hcap. exact Hcap32.
  - unfold anomaly_detect in Hd. rewrite Hr in Hd. simpl in Hd.
    injection Hd as <- <-. exact Hwf.
Qed.

(** C10.  If [anomaly_detect] is called while the baseline [ready] flag is
    false, the result is entirely zero (no flags, the three z-scores, the
    composite score and the sustained count all zero) and the engine (window
    contents, window index, consecutive-anomaly counter, learning
    accumulators, everything) is returned unchanged. *)
Theorem detect_before_ready (eng : anomaly_engine) (s : telemetry_sample) :
  ready (baseline eng) = false ->
  exists r,
    anomaly_detect eng s = Some (eng, r) /\
    anomaly_flags r = 0 /\
    z_cache_miss r = Double.zero /\ z_branch_miss r = Double.zero /\
    z_ipc r = Double.zero /\ composite_score r = Double.zero /\
    sustained_count r = 0.
Proof.
  intros Hr. exists zero_result. unfold anomaly_detect. rewrite Hr. simpl.
  repeat split; reflexivity.
Qed.

Lemma detect_before_ready_witness :
  ready (baseline (anomaly_init Double.c3_5 10)) = false /\
  exists r,
    anomaly_detect (anomaly_init Double.c3_5 10) (stamped 7)
      = Some (anomaly_init Double.c3_5 10, r) /\
    anomaly_flags r = 0.
Proof.
  split; [reflexivity | ].
  destruct (detect_before_ready (anomaly_init Double.c3_5 10) (stamped 7) eq_refl)
    as (r & Hd & Hf & _).
  exists r. split; [exact Hd | exact Hf].
Defined.

(** C4.  On every detection-phase sample the call returns.  One of the
    three primary flags (CACHE_MISS_SPIKE, BRANCH_MISS_SPIKE, IPC_COLLAPSE)
    is set in the result exactly when the sample's z-score for
    cache_miss_rate or branch_miss_rate exceeds the threshold or the one
    for ipc is below its negative; in that case the engine's
    [consecutive_anomalies] counter is incremented by one (as a
    [uint32_t]), otherwise it is reset to zero; BURST_PATTERN is set exactly
    when the updated counter is at least [burst_window]; and
    [sustained_count] is the updated counter. *)
Theorem burst_tracking (eng : anomaly_engine) (s : telemetry_sample) :
  engine_wf eng -> ready (baseline eng) = true ->
  exists eng' r,
    anomaly_detect eng s = Some (eng', r) /\
    let b := baseline eng in
    let fired :=
      Double.ltb (z_threshold eng)
        (compute_z (Double.of_single (cache_miss_rate s))
           (mean_cache_miss_rate b) (std_cache_miss_rate b))
      || Double.ltb (z_threshold eng)
           (compute_z (Double.of_single (branch_miss_rate s))
              (mean_branch_miss_rate b) (std_branch_miss_rate b))
      || Double.ltb
           (compute_z (Double.of_single (ipc s)) (mean_ipc b) (std_ipc b))
           (Double.opp (z_threshold eng)) in
    primary_fired (anomaly_flags r) = fired /\
    (primary_fired (anomaly_flags r) = true ->
       consecutive_anomalies eng' = wrap32 (consecutive_anomalies eng + 1) /\
       (consecutive_anomalies eng + 1 < 2 ^ 32 ->
          consecutive_anomalies eng' = consecutive_anomalies eng + 1)) /\
    (primary_fired (anomaly_flags r) = false -> consecutive_anomalies eng' = 0) /\
    (has_flag (anomaly_flags r) ANOMALY_BURST_PATTERN = true <->
       burst_window eng <= consecutive_anomalies eng') /\
    sustained_count r = consecutive_anomalies eng'.
Proof.
  intros (Hok & Hbw & Hc & _) Hready.
  destruct (anomaly_detect_ready eng s Hready Hok)
    as (eng' & r & Hd & _ & _ & _ & _ & Hflags & Hsus & Hcons & _).
  exists eng', r. split; [exact Hd | ]. cbv zeta.
  rewrite Hflags, flag_word_primary, flag_word_burst, Hsus, Hcons.
  apply window_ok_spec in Hok. destruct Hok as (Hcap & _).
  set (a := _ || _ || _).
  split; [reflexivity | ].
  split; [ | split; [ | split; [ | reflexivity ] ] ].
  - intros Ha. rewrite Ha. split; [reflexivity | ].
    intros Hlt. unfold wrap32. apply Z.mod_small. lia.
  - intros Ha. rewrite Ha. reflexivity.
  - destruct a; simpl.
    + apply Z.leb_le.
    + split; [discriminate | lia].
Qed.

(** The tenth sample of a burst: the counter goes from 9 to 10 and, the
    window being 10, BURST_PATTERN is raised. *)
Lemma burst_tracking_witness :
  engine_wf spiking_engine /\ ready (baseline spiking_engine) = true /\
  consecutive_anomalies spiking_engine = 9 /\ burst_window spiking_engine = 10 /\
  exists eng' r,
    anomaly_detect spiking_engine (with_cmr cmr_0_2) = Some (eng', r) /\
    primary_fired (anomaly_flags r) = true /\
    consecutive_anomalies eng' = 10 /\
    has_flag (anomaly_flags r) ANOMALY_BURST_PATTERN = true /\
    sustained_count r = 10.
Proof.
  assert (Hwf : engine_wf spiking_engine).
  { unfold engine_wf. split; [vm_compute; reflexivity | ].
    split; [vm_compute; reflexivity | ]. split; vm_compute; [split | ]; congruence. }
  assert (H9 : consecutive_anomalies spiking_engine = 9) by (vm_compute; reflexivity).
  assert (Hbw : burst_window spiking_engine = 10) by (vm_compute; reflexivity).
  split; [exact Hwf | ]. split; [vm_compute; reflexivity | ].
  split; [exact H9 | ]. split; [exact Hbw | ].
  destruct (burst_tracking spiking_engine (with_cmr cmr_0_2) Hwf ltac:(vm_compute; reflexivity))
    as (eng' & r & Hd & Hfired & Hinc & _ & Hburst & Hs).
  cbv zeta in Hfired.
  assert (Hp : primary_fired (anomaly_flags r) = true).
  { rewrite Hfired. vm_compute. reflexivity. }
  destruct (Hinc Hp) as (_ & Hplus). rewrite H9 in Hplus.
  specialize (Hplus ltac:(lia)).
  exists eng', r. split; [exact Hd | ]. split; [exact Hp | ].
  split; [exact Hplus | ]. split; [apply Hburst; rewrite Hbw, Hplus; lia | ].
  rewrite Hs. exact Hplus.
Defined.

(** ** anomaly.c: the baseline *)

Section BaselineLatch.




Lemma last_cons_default {A : Type} (l : list A) :
  forall x d, List.last (x :: l) d = List.last l x.
Proof.
  induction l as [ | a l IH ]; intros x d; [reflexivity | ].
  change (List.last (x :: a :: l) d) with (List.last (a :: l) d).
  rewrite (IH a d), (IH a x). reflexivity.
Qed.





End BaselineLatch.

Section BaselineStatistics.







End BaselineStatistics.




(** ** anomaly.c: the oscillation detector *)

Section Oscillation.

Lemma adjacent_changes_snoc (l : list Z) (a b : Z) :
  adjacent_changes (l ++ [a; b]) =
  adjacent_changes (l ++ [a]) + (if a =? b then 0 else 1).
Proof.
  induction l as [ | x l IH ]; simpl.
  - lia.
  - destruct l as [ | y l ]; simpl in *; lia.
Qed.

Lemma adjacent_changes_rev (l : list Z) :
  adjacent_changes (rev l) = adjacent_changes l.
Proof.
  induction l as [ | x l IH ]; [reflexivity | ].
  destruct l as [ | y l ]; [reflexivity | ].
  change (rev (x :: y :: l)) with ((rev l ++ [y]) ++ [x]).
  rewrite <- app_assoc. simpl app.
  rewrite adjacent_changes_snoc.
  change (rev l ++ [y]) with (rev (y :: l)). rewrite IH.
  change (adjacent_changes (x :: y :: l))
    with ((if x =? y then 0 else 1) + adjacent_changes (y :: l)).
  rewrite (Z.eqb_sym y x). lia.
Qed.

Lemma sign_changes_from_adjacent (dirs : list Z) :
  forall prev,
    sign_changes_from prev dirs =
    if prev =? 0 then adjacent_changes (List.filter nonzero dirs)
    else adjacent_changes (prev :: List.filter nonzero dirs).
Proof.
  induction dirs as [ | d dirs IH ]; intros prev.
  - simpl. destruct (prev =? 0); reflexivity.
  - cbn [sign_changes_from List.filter].
    assert (Hnz : nonzero d = negb (d =? 0)) by reflexivity. rewrite Hnz.
    destruct (d =? 0) eqn:Ed; cbn [negb].
    + apply IH.
    + rewrite IH, Ed. set (F := List.filter nonzero dirs).
      destruct (prev =? 0) eqn:Ep; cbn [negb andb]; [lia | ].
      change (adjacent_changes (prev :: d :: F))
        with ((if prev =? d then 0 else 1) + adjacent_changes (d :: F)).
      rewrite (Z.eqb_sym d prev). destruct (prev =? d); cbn [negb]; lia.
Qed.

Lemma sign_changes_rev (dirs : list Z) : sign_changes (rev dirs) = sign_changes dirs.
Proof.
  unfold sign_changes. rewrite !sign_changes_from_adjacent. simpl.
  rewrite List.filter_rev. apply adjacent_changes_rev.
Qed.

(** The loop accumulates the sign changes of the directions it meets. *)
Lemma fold_direction_step (dirs : list Z) :
  forall dc prev,
    fst (fold_left direction_step dirs (dc, prev)) = dc + sign_changes_from prev dirs.
Proof.
  induction dirs as [ | d dirs IH ]; intros dc prev; simpl.
  - lia.
  - rewrite IH. destruct (d =? 0) eqn:Ed; simpl; [lia | ].
    destruct (d =? prev), (prev =? 0); simpl; lia.
Qed.

Lemma differences_map (W : nat -> spec_float) (k : nat) :
  forall a,
    differences (W a) (map W (seq (S a) k)) =
    map (fun j => Single.sub (W (S j)) (W j)) (seq a k).
Proof.
  induction k as [ | k IH ]; intros a; simpl; [reflexivity | ].
  rewrite IH. reflexivity.
Qed.

Lemma rev_map_seq {A : Type} (g : nat -> A) (m : nat) :
  rev (map g (seq 0 m)) = map (fun i => g (m - i)%nat) (seq 1 m).
Proof.
  induction m as [ | m IH ]; [reflexivity | ].
  rewrite seq_S, map_app, rev_app_distr. simpl rev. simpl app.
  rewrite IH. change (seq 1 (S m)) with (1%nat :: seq 2 m).
  rewrite <- (seq_shift m 1), map_cons, map_map. f_equal.
  f_equal. lia.
Qed.

(** The directions the loop of [detect_oscillation] meets are those of the
    first difference of the window, newest first. *)
Lemma loop_directions (buf : list spec_float) (cap idx : Z) :
  0 < cap < 2 ^ 32 -> 0 <= idx < cap ->
  map (fun i : nat =>
         direction (Single.sub
           (window_at buf (wrap64 (idx + cap - Z.of_nat i) mod cap))
           (window_at buf (wrap64 (idx + cap - Z.of_nat i - 1) mod cap))))
      (seq 1 (Z.to_nat cap - 1))
  = rev (map direction (first_difference (window_chronological buf cap idx))).
Proof.
  intros Hcap Hidx. unfold window_chronological.
  set (W := fun j : nat => window_at buf ((idx + Z.of_nat j) mod cap)).
  destruct (Z.to_nat cap) as [ | m ] eqn:Em; [lia | ].
  simpl first_difference. rewrite (differences_map W m 0), map_map, rev_map_seq.
  replace (S m - 1)%nat with m by lia.
  apply map_ext_in. intros i Hi. apply in_seq in Hi.
  unfold W. f_equal. f_equal; f_equal.
  - unfold wrap64.
    rewrite (Z.mod_small (idx + cap - Z.of_nat i) (2 ^ 64)) by lia. f_equal. lia.
  - unfold wrap64.
    rewrite (Z.mod_small (idx + cap - Z.of_nat i - 1) (2 ^ 64)) by lia. f_equal. lia.
Qed.

Lemma fold_oscillation_step (buf : list spec_float) (cap idx : Z) (l : list nat) :
  forall st,
    fold_left (oscillation_step buf cap idx) l st =
    fold_left direction_step
      (map (fun i : nat =>
              direction (Single.sub
                (window_at buf (wrap64 (idx + cap - Z.of_nat i) mod cap))
                (window_at buf (wrap64 (idx + cap - Z.of_nat i - 1) mod cap)))) l) st.
Proof.
  induction l as [ | i l IH ]; intros st; [reflexivity | ].
  simpl. rewrite IH. f_equal; destruct st as [dc prev]; reflexivity.
Qed.

(** [detect_oscillation] decides whether the window is at least four
    samples long and the sign changes of its first difference number at
    least half the window size. *)
Lemma detect_oscillation_spec (buf : list spec_float) (cap idx : Z) :
  0 < cap < 2 ^ 32 -> 0 <= idx < cap ->
  detect_oscillation buf cap idx =
  (4 <=? cap) && (cap / 2 <=? window_sign_changes buf cap idx).
Proof.
  intros Hcap Hidx. unfold detect_oscillation.
  destruct (cap <? 4) eqn:E.
  - apply Z.ltb_lt in E. replace (4 <=? cap) with false by (symmetry; apply Z.leb_gt; lia).
    reflexivity.
  - apply Z.ltb_ge in E. replace (4 <=? cap) with true by (symmetry; apply Z.leb_le; lia).
    simpl andb.
    rewrite fold_oscillation_step, (loop_directions buf cap idx Hcap Hidx).
    pose proof (fold_direction_step
      (rev (map direction (first_difference (window_chronological buf cap idx)))) 0 0) as Hf.
    destruct (fold_left direction_step _ (0, 0)) as [dc prev]. simpl in Hf.
    rewrite Hf. fold (sign_changes (rev (map direction
      (first_difference (window_chronological buf cap idx))))).
    rewrite sign_changes_rev. reflexivity.
Qed.
End Oscillation.

(** C5 (as the code has it).  On every detection-phase sample the current
    cache_miss_rate (converted to double and back, which gives the value
    itself for every number of the float format) is written into the
    circular window at the write index, which then advances modulo the
    window size; the OSCILLATION flag is set
    exactly when the window holds at least four samples and the number of
    sign changes in the first difference over the window (zero differences
    neither counting as a change nor resetting the previous direction) is
    at least window_size / 2.  With fewer than four slots the flag is never
    set. *)
Theorem oscillation_flag (eng : anomaly_engine) (s : telemetry_sample) :
  engine_wf eng -> ready (baseline eng) = true ->
  exists eng' r,
    anomaly_detect eng s = Some (eng', r) /\
    recent_cmr eng' =
      <[Z.to_nat (recent_idx eng) :=
          Single.of_double (Double.of_single (cache_miss_rate s))]> (recent_cmr eng) /\
    (Single.valid (cache_miss_rate s) = true ->
     recent_cmr eng' =
       <[Z.to_nat (recent_idx eng) := cache_miss_rate s]> (recent_cmr eng)) /\
    recent_idx eng' = (recent_idx eng + 1) mod recent_cap eng /\
    recent_cap eng' = recent_cap eng /\
    has_flag (anomaly_flags r) ANOMALY_OSCILLATION =
      (4 <=? recent_cap eng) &&
      (recent_cap eng / 2 <=?
         window_sign_changes (recent_cmr eng') (recent_cap eng) (recent_idx eng')) /\
    (recent_cap eng < 4 -> has_flag (anomaly_flags r) ANOMALY_OSCILLATION = false).
Proof.
  intros (Hok & Hbw & Hc & Hcap32) Hready.
  destruct (anomaly_detect_ready eng s Hready Hok)
    as (eng' & r & Hd & _ & _ & _ & _ & Hflags & _ & _ & Hrec & Hidx & Hcap & _).
  apply window_ok_spec in Hok. destruct Hok as (Hcap0 & Hlen & Hi).
  assert (Hw : wrap64 (recent_idx eng + 1) = recent_idx eng + 1).
  { unfold wrap64. apply Z.mod_small. lia. }
  rewrite Hw in Hidx, Hflags.
  assert (Hi' : 0 <= (recent_idx eng + 1) mod recent_cap eng < recent_cap eng)
    by (apply Z.mod_pos_bound; lia).
  assert (Hosc : has_flag (anomaly_flags r) ANOMALY_OSCILLATION =
            (4 <=? recent_cap eng) &&
            (recent_cap eng / 2 <=?
               window_sign_changes (recent_cmr eng') (recent_cap eng) (recent_idx eng'))).
  { rewrite Hflags, flag_word_oscillation, Hrec, Hidx.
    apply detect_oscillation_spec; lia. }
  exists eng', r. split; [exact Hd | ]. split; [exact Hrec | ].
  split; [intros Hv; rewrite Hrec, (single_double_roundtrip _ Hv); reflexivity | ].
  split; [exact Hidx | ]. split; [exact Hcap | ]. split; [exact Hosc | ].
  intros Hlt. rewrite Hosc.
  replace (4 <=? recent_cap eng) with false by (symmetry; apply Z.leb_gt; lia).
  reflexivity.
Qed.

Lemma oscillation_flag_witness :
  engine_wf idle_engine /\ ready (baseline idle_engine) = true /\
  exists eng' r,
    anomaly_detect idle_engine (stamped 2) = Some (eng', r) /\
    recent_idx eng' = (recent_idx idle_engine + 1) mod recent_cap idle_engine.
Proof.
  assert (Hwf : engine_wf idle_engine).
  { unfold engine_wf. split; [reflexivity | ]. split; [reflexivity | ].
    simpl. lia. }
  split; [exact Hwf | ]. split; [reflexivity | ].
  destruct (oscillation_flag idle_engine (stamped 2) Hwf eq_refl)
    as (eng' & r & Hd & _ & _ & Hi & _).
  exists eng', r. split; [exact Hd | exact Hi].
Defined.

(** C5 as stated fails on a window of fewer than four slots: with
    [burst_window = 3] and the window holding 0.01, 0.05, 0.01 the first
    difference changes sign once, which is at least 3 / 2 = 1, yet
    OSCILLATION is not set. *)
Lemma oscillation_small_window_counterexample :
  exists eng' r,
    anomaly_detect narrow_engine (with_cmr cmr_0_01) = Some (eng', r) /\
    recent_cap eng' = 3 /\
    window_chronological (recent_cmr eng') (recent_cap eng') (recent_idx eng')
      = [cmr_0_01; cmr_0_05; cmr_0_01] /\
    window_sign_changes (recent_cmr eng') (recent_cap eng') (recent_idx eng') = 1 /\
    recent_cap eng' / 2 = 1 /\
    has_flag (anomaly_flags r) ANOMALY_OSCILLATION = false.
Proof.
  eexists. eexists. split; [vm_compute; reflexivity | ].
  vm_compute. repeat split; reflexivity.
Qed.

(** ** anomaly.c: z-scores and the composite score *)

Section Scores.

Lemma composite_clamp (m threshold : spec_float) :
  composite m threshold = clamp_unit (severity m threshold).
Proof.
  unfold composite, clamp_unit. fold (severity m threshold).
  destruct (Double.ltb Double.one (severity m threshold)); reflexivity.
Qed.

Lemma clamp_unit_range (x : spec_float) :
  Float.is_nan (clamp_unit x) = Float.is_nan x /\
  (Float.is_nan x = false ->
   Double.leb Double.zero (clamp_unit x) = true /\
   Double.leb (clamp_unit x) Double.one = true).
Proof.
  unfold clamp_unit.
  destruct (Double.ltb Double.one x) eqn:E1.
  - apply SFltb_true_number in E1. destruct E1 as [_ Hx]. rewrite Hx. auto.
  - destruct (Double.ltb x Double.zero) eqn:E2.
    + apply SFltb_true_number in E2. destruct E2 as [Hx _]. rewrite Hx. auto.
    + split; [reflexivity | ]. intros Hx. split.
      * apply SFltb_false_leb; auto.
      * apply SFltb_false_leb; auto.
Qed.

Lemma fabs_sign (z : spec_float) :
  Float.is_nan z = false -> Float.has_sign false (Double.fabs z).
Proof. destruct z; simpl; intros H; congruence || reflexivity. Qed.

Lemma max_abs_z_sign (z1 z2 z3 : spec_float) :
  Float.is_nan z1 = false -> Float.is_nan z2 = false -> Float.is_nan z3 = false ->
  Float.has_sign false (max_abs_z z1 z2 z3).
Proof.
  intros H1 H2 H3. unfold max_abs_z.
  repeat match goal with |- context [if ?c then _ else _] => destruct c end;
    auto using fabs_sign.
Qed.

(** On numbers [max_abs_z] is the greatest of the three absolute values. *)
Lemma max_abs_z_greatest (z1 z2 z3 : spec_float) :
  Float.is_nan z1 = false -> Float.is_nan z2 = false -> Float.is_nan z3 = false ->
  let m := max_abs_z z1 z2 z3 in
  (m = Double.fabs z1 \/ m = Double.fabs z2 \/ m = Double.fabs z3) /\
  Double.leb (Double.fabs z1) m = true /\
  Double.leb (Double.fabs z2) m = true /\
  Double.leb (Double.fabs z3) m = true.
Proof.
  intros H1 H2 H3.
  assert (N1 : Float.is_nan (Double.fabs z1) = false)
    by (eapply has_sign_not_nan, fabs_sign, H1).
  assert (N2 : Float.is_nan (Double.fabs z2) = false)
    by (eapply has_sign_not_nan, fabs_sign, H2).
  assert (N3 : Float.is_nan (Double.fabs z3) = false)
    by (eapply has_sign_not_nan, fabs_sign, H3).
  unfold max_abs_z. set (a1 := Double.fabs z1) in *.
  set (a2 := Double.fabs z2) in *. set (a3 := Double.fabs z3) in *.
  assert (Hrefl : forall a, Float.is_nan a = false -> Double.leb a a = true).
  { intros a Ha. apply SFltb_false_leb; auto.
    unfold SFltb. destruct a as [[]|[]| |[] m e]; simpl in *; try congruence;
      rewrite ?Z.compare_refl, ?Pos.compare_cont_refl; reflexivity. }
  assert (Hlt : forall a b, Double.ltb a b = true -> Double.leb a b = true).
  { intros a b. unfold Double.ltb, Double.leb, SFltb, SFleb.
    destruct (SFcompare a b) as [[ | | ] | ]; congruence. }
  assert (Htrans : forall a b c, Double.leb a b = true -> Double.ltb b c = true ->
                                 Double.leb a c = true).
  { intros a b c Hab Hbc. apply SFltb_false_leb.
    - apply SFltb_true_number in Hbc. tauto.
    - unfold Double.leb, SFleb in Hab. destruct a; simpl in *; congruence.
    - destruct (SFltb c a) eqn:Hca; [ | reflexivity ]. exfalso.
      clear - Hab Hbc Hca. unfold Double.leb, Double.ltb, SFleb, SFltb in *.
      destruct a as [sa | sa | | sa ma ea]; destruct b as [sb | sb | | sb mb eb];
        destruct c as [sc | sc | | sc mc ec]; simpl in *;
        try discriminate; try (destruct sa; discriminate);
        try (destruct sb; discriminate); try (destruct sc; discriminate);
        try (destruct sa, sb; discriminate); try (destruct sb, sc; discriminate);
        try (destruct sa, sc; discriminate);
        try (destruct sa, sb, sc; discriminate).
      destruct sa, sb, sc; simpl in *; try discriminate;
        destruct (ea ?= eb) eqn:E1; destruct (eb ?= ec) eqn:E2;
        destruct (ec ?= ea) eqn:E3; simpl in *; try discriminate;
        rewrite ?Z.compare_eq_iff, ?Z.compare_lt_iff, ?Z.compare_gt_iff in *;
        try lia; subst;
        rewrite ?Pos.compare_cont_spec in *; simpl in *;
        destruct (Pos.compare ma mb) eqn:F1; destruct (Pos.compare mb mc) eqn:F2;
        destruct (Pos.compare mc ma) eqn:F3; simpl in *; try discriminate;
        rewrite ?Pos.compare_eq_iff, ?Pos.compare_lt_iff, ?Pos.compare_gt_iff in *;
        lia. }
  destruct (Double.ltb a1 a2) eqn:E12.
  - destruct (Double.ltb a2 a3) eqn:E23.
    + repeat split; auto. eapply Htrans; [apply Hlt, E12 | exact E23].
    + repeat split; auto. apply SFltb_false_leb; auto.
  - destruct (Double.ltb a1 a3) eqn:E13.
    + repeat split; auto. eapply Htrans; [ | exact E13]. apply SFltb_false_leb; auto.
    + repeat split; auto; apply SFltb_false_leb; auto.
Qed.

Lemma double_one_sign : Float.has_sign false Double.one.
Proof. reflexivity. Qed.

(** With a positive finite threshold and a maximum that is a number, the
    severity is a number. *)
Lemma severity_number (m threshold : spec_float) :
  positive_finite threshold -> Float.has_sign false m ->
  Float.is_nan (severity m threshold) = false.
Proof.
  intros (mt & et & ->) Hm. unfold severity.
  assert (Hq : Float.has_sign false (Double.div m (S754_finite false mt et))).
  { apply (SFdiv_sign_finite_r Double.prec Double.emax false false). exact Hm. }
  assert (Ht : Float.has_sign false
            (Double.add Double.one (Double.div m (S754_finite false mt et)))).
  { apply SFadd_nonneg; [apply double_one_sign | exact Hq]. }
  set (t := Double.add Double.one (Double.div m (S754_finite false mt et))) in *.
  assert (Hu : Float.has_sign false (Double.div Double.one t)).
  { apply (SFdiv_sign_finite_l Double.prec Double.emax false false). exact Ht. }
  apply SFsub_finite_not_nan. eapply has_sign_not_nan, Hu.
Qed.

Lemma fabs_not_positive (z : spec_float) :
  Double.ltb Double.zero (Double.fabs z) = false ->
  Double.fabs z = S754_zero false \/ Double.fabs z = S754_nan.
Proof. destruct z; simpl; intros H; auto; discriminate. Qed.

(** If none of the absolute z-scores is positive the composite score is not
    positive either, whatever the threshold. *)
Lemma composite_not_positive (z1 z2 z3 threshold : spec_float) :
  Double.ltb Double.zero (Double.fabs z1) = false ->
  Double.ltb Double.zero (Double.fabs z2) = false ->
  Double.ltb Double.zero (Double.fabs z3) = false ->
  Double.ltb Double.zero (composite (max_abs_z z1 z2 z3) threshold) = false.
Proof.
  intros H1 H2 H3. unfold max_abs_z.
  destruct (fabs_not_positive z1 H1) as [-> | ->];
    destruct (fabs_not_positive z2 H2) as [-> | ->];
    destruct (fabs_not_positive z3 H3) as [-> | ->]; simpl;
    destruct threshold as [st | st | | st mt et]; try reflexivity;
    destruct st; reflexivity.
Qed.


Lemma compute_z_flat (x mean std : spec_float) :
  Double.ltb std Double.c1e_12 = true -> compute_z x mean std = Double.zero.
Proof. intros H. unfold compute_z. rewrite H. reflexivity. Qed.


End Scores.

(** ** The composite score is positive exactly when 1 + m / Z exceeds 1 *)

Section CompositePositive.

Lemma shl_align_value (m : positive) (e e' : Z) :
  e' <= e -> Zpos (fst (shl_align m e e')) = Zpos m * 2 ^ (e - e').
Proof.
  intros H. unfold shl_align. destruct (e' - e) as [ | d | d ] eqn:Ed; cbn [fst].
  - replace (e - e') with 0 by lia. lia.
  - lia.
  - rewrite iter_xO_mul. f_equal. f_equal. lia.
Qed.

Lemma double_fexp (x : Z) : fexp Double.prec Double.emax x = Z.max (x - 53) (-1074).
Proof. reflexivity. Qed.

Lemma ltb_one_finite (p : positive) (e : Z) :
  Double.ltb Double.one (S754_finite false p e) =
  (-52 <? e) || ((e =? -52) && (2 ^ 52 <? Zpos p)).
Proof.
  unfold Double.ltb, SFltb, Double.one. cbn [SFcompare].
  destruct (Z.compare_spec (-52) e) as [He | He | He].
  - subst e. cbn [Z.ltb Z.compare Z.eqb orb andb].
    rewrite Pos.compare_cont_spec. cbn [Pos.switch_Eq].
    change (2 ^ 52) with (Zpos 4503599627370496).
    unfold Z.ltb. cbn [Z.compare].
    destruct (4503599627370496 ?= p)%positive; reflexivity.
  - replace (-52 <? e) with true by (symmetry; apply Z.ltb_lt; lia). reflexivity.
  - replace (-52 <? e) with false by (symmetry; apply Z.ltb_ge; lia).
    replace (e =? -52) with false by (symmetry; apply Z.eqb_neq; lia). reflexivity.
Qed.

Lemma pow2_split (a b : Z) : 0 <= a -> 0 <= b -> 2 ^ (a + b) = 2 ^ a * 2 ^ b.
Proof. intros Ha Hb. apply Z.pow_add_r; assumption. Qed.

Lemma pow2_pos (a : Z) : 0 <= a -> 0 < 2 ^ a.
Proof. intros Ha. apply Z.pow_pos_nonneg; lia. Qed.

Lemma pow2_le (a b : Z) : 0 <= a <= b -> 2 ^ a <= 2 ^ b.
Proof. intros H. apply Z.pow_le_mono_r; lia. Qed.

Lemma digits_ge (m t : Z) : 0 <= t -> 2 ^ t <= m -> t + 1 <= Zdigits2 m.
Proof.
  intros Ht Hm. assert (0 < m) by (pose proof (pow2_pos t Ht); lia).
  rewrite Zdigits2_log2 by lia. apply Z.log2_le_pow2 in Hm; lia.
Qed.

Lemma digits_le (m t : Z) : 0 <= t -> 0 <= m < 2 ^ t -> Zdigits2 m <= t.
Proof.
  intros Ht Hm. destruct (Z.eq_dec m 0) as [-> | Hne]; [simpl; lia | ].
  rewrite Zdigits2_log2 by lia. assert (Z.log2 m < t) by (apply Z.log2_lt_pow2; lia). lia.
Qed.

Lemma digits_bounds (m : Z) : 0 < m -> 2 ^ (Zdigits2 m - 1) <= m < 2 ^ Zdigits2 m.
Proof.
  intros Hm. rewrite Zdigits2_log2 by lia.
  replace (Z.log2 m + 1 - 1) with (Z.log2 m) by lia.
  pose proof (Z.log2_spec m Hm). unfold Z.succ in *. lia.
Qed.

(** [1 + q] is at least 1 for a positive finite [q]: it is 1, or above 1;
    it is above 1 when [q] is at least 2^-52. *)
Lemma add_one_finite (mq : positive) (eq : Z) :
  let d := Double.add Double.one (S754_finite false mq eq) in
  (d = Double.one \/ Double.ltb Double.one d = true) /\
  (2 ^ 52 <= Zpos mq -> -104 <= eq -> Double.ltb Double.one d = true).
Proof.
  cbv zeta. unfold Double.add, Double.one, SFadd. cbn [cond_Zopp].
  set (ez := Z.min (-52) eq).
  assert (Hez : ez <= -52 /\ ez <= eq) by (subst ez; lia).
  rewrite !shl_align_value by lia.
  set (M := Zpos 4503599627370496 * 2 ^ (-52 - ez) + Zpos mq * 2 ^ (eq - ez)).
  assert (Hone : Zpos 4503599627370496 * 2 ^ (-52 - ez) = 2 ^ (- ez)).
  { change (Zpos 4503599627370496) with (2 ^ 52).
    rewrite <- pow2_split by lia. f_equal. lia. }
  assert (Hq : 0 < Zpos mq * 2 ^ (eq - ez)).
  { apply Z.mul_pos_pos; [lia | apply pow2_pos; lia]. }
  assert (HM : 2 ^ (- ez) < M) by (subst M; lia).
  assert (HMbig : 2 ^ 52 <= Zpos mq -> -104 <= eq -> (2 ^ 52 + 1) * 2 ^ (-52 - ez) <= M).
  { intros H1 H2. subst M. rewrite Hone.
    rewrite Z.mul_add_distr_r, Z.mul_1_l, <- pow2_split by lia.
    replace (52 + (-52 - ez)) with (- ez) by lia.
    apply Z.add_le_mono_l.
    apply Z.le_trans with (2 ^ 52 * 2 ^ (eq - ez)).
    - rewrite <- pow2_split by lia. apply pow2_le. lia.
    - apply Z.mul_le_mono_nonneg_r; [apply Z.lt_le_incl, pow2_pos; lia | exact H1]. }
  clearbody M. clear Hone Hq.
  assert (HMpos : 0 < M) by (pose proof (pow2_pos (- ez) ltac:(lia)); lia).
  destruct M as [ | p | p ]; try lia. cbn [binary_normalize].
  destruct (binary_round_fine Double.prec Double.emax false p ez)
    as (mz & ez' & -> & Hmz & Hez' & Hval & Hdig & Hfine & _).
  destruct (binary_round_aux_fine Double.prec Double.emax ltac:(reflexivity) false mz ez'
              loc_Exact ltac:(lia) Hfine) as (m2 & Hm2 & Hm2le & _ & ->).
  cbv zeta in Hm2.
  assert (HD : 1 <= Zdigits2 mz + ez').
  { rewrite Hdig. pose proof (digits_ge (Zpos p) (- ez) ltac:(lia) ltac:(lia)). lia. }
  set (D := Zdigits2 mz + ez') in *.
  rewrite double_fexp in *.
  set (e1 := Z.max (D - 53) (-1074)) in *.
  assert (He1 : -52 <= e1 <= D - 1) by (subst e1; lia).
  assert (Hmzlow : 2 ^ (- ez') <= mz).
  { rewrite Hval. replace (- ez') with (- ez + (ez - ez')) by lia.
    rewrite pow2_split by lia.
    apply Z.mul_le_mono_nonneg_r; [apply Z.lt_le_incl, pow2_pos; lia | lia]. }
  assert (Hm1 : 1 <= mz / 2 ^ (e1 - ez')).
  { apply Z.div_le_lower_bound; [apply pow2_pos; lia | ]. rewrite Z.mul_1_r.
    pose proof (digits_bounds mz Hmz) as [Hlo _].
    eapply Z.le_trans; [ | exact Hlo]. apply pow2_le. subst D. lia. }
  assert (Hm1' : e1 = -52 -> 2 ^ 52 <= mz / 2 ^ (e1 - ez')).
  { intros He. apply Z.div_le_lower_bound; [apply pow2_pos; lia | ].
    rewrite <- pow2_split by lia. eapply Z.le_trans; [ | exact Hmzlow].
    apply pow2_le. lia. }
  assert (Hm1'' : 2 ^ 52 <= Zpos mq -> -104 <= eq -> e1 = -52 ->
                  2 ^ 52 + 1 <= mz / 2 ^ (e1 - ez')).
  { intros H1 H2 He. apply Z.div_le_lower_bound; [apply pow2_pos; lia | ].
    rewrite Hval. specialize (HMbig H1 H2).
    apply Z.le_trans with ((2 ^ 52 + 1) * 2 ^ (-52 - ez) * 2 ^ (ez - ez')).
    - rewrite <- Z.mul_assoc, <- pow2_split by lia.
      rewrite (Z.mul_comm (2 ^ (e1 - ez'))).
      replace (-52 - ez + (ez - ez')) with (e1 - ez') by lia. lia.
    - apply Z.mul_le_mono_nonneg_r; [apply Z.lt_le_incl, pow2_pos; lia | exact HMbig]. }
  replace (m2 =? 0) with false by (symmetry; apply Z.eqb_neq; lia).
  change (2 ^ Double.prec) with (2 ^ 53) in *.
  change (Double.emax - Double.prec) with 971.
  change (Z.to_pos (2 ^ (Double.prec - 1))) with 4503599627370496%positive.
  assert (Hcase : forall r,
            r = (if m2 <? 2 ^ 53
                 then if e1 <=? 971 then S754_finite false (Z.to_pos m2) e1
                      else S754_infinity false
                 else if e1 + 1 <=? 971 then S754_finite false 4503599627370496 (e1 + 1)
                      else S754_infinity false) ->
            (r = S754_finite false 4503599627370496 (-52) \/ Double.ltb Double.one r = true) /\
            (2 ^ 52 <= Zpos mq -> -104 <= eq -> Double.ltb Double.one r = true)).
  { intros r ->.
    destruct (m2 <? 2 ^ 53) eqn:Elt.
    - destruct (e1 <=? 971); [ | split; [right; reflexivity | reflexivity]].
      rewrite ltb_one_finite. rewrite Z2Pos.id by lia.
      destruct (Z.eq_dec e1 (-52)) as [He | He].
      + rewrite He. cbn [Z.ltb Z.compare Z.eqb orb andb].
        specialize (Hm1' He). split.
        * destruct (Z.eq_dec m2 (2 ^ 52)) as [-> | Hne]; [left; reflexivity | ].
          right. apply Z.ltb_lt. lia.
        * intros H1 H2. specialize (Hm1'' H1 H2 He). apply Z.ltb_lt. lia.
      + replace (-52 <? e1) with true by (symmetry; apply Z.ltb_lt; lia).
        split; [right; reflexivity | reflexivity].
    - destruct (e1 + 1 <=? 971); [ | split; [right; reflexivity | reflexivity]].
      rewrite ltb_one_finite.
      replace (-52 <? e1 + 1) with true by (symmetry; apply Z.ltb_lt; lia).
      split; [right; reflexivity | reflexivity]. }
  apply Hcase. reflexivity.
Qed.

Lemma valid_double_normal (md : positive) (ed : Z) :
  Double.valid (S754_finite false md ed) = true -> -1074 < ed ->
  2 ^ 52 <= Zpos md < 2 ^ 53 /\ ed <= 971.
Proof.
  unfold Double.valid, valid_binary, bounded, canonical_mantissa.
  intros H He. apply andb_true_iff in H. destruct H as [Hc Hb].
  apply Z.eqb_eq in Hc. apply Z.leb_le in Hb.
  change (Zpos (digits2_pos md)) with (Zdigits2 (Zpos md)) in Hc.
  rewrite double_fexp in Hc.
  pose proof (digits_bounds (Zpos md) ltac:(lia)) as Hd.
  assert (Hdig : Zdigits2 (Zpos md) = 53) by lia.
  rewrite Hdig in Hd. change (Double.emax - Double.prec) with 971 in Hb.
  change (53 - 1) with 52 in Hd. lia.
Qed.

(** The quotient [1 / d] for a [double] [d] above 1 is below 1: it is 0 or
    a positive number with an exponent of at most -53. *)
Lemma div_one_above (md : positive) (ed : Z) :
  Double.valid (S754_finite false md ed) = true ->
  Double.ltb Double.one (S754_finite false md ed) = true ->
  let u := Double.div Double.one (S754_finite false md ed) in
  u = S754_zero false \/
  exists mu eu, u = S754_finite false mu eu /\ -1074 <= eu <= -53 /\ Zpos mu < 2 ^ 53.
Proof.
  intros Hv Hlt. cbv zeta. rewrite ltb_one_finite in Hlt.
  assert (Hed : -52 < ed \/ (ed = -52 /\ 2 ^ 52 < Zpos md)).
  { apply orb_true_iff in Hlt. destruct Hlt as [H | H].
    - left. apply Z.ltb_lt in H. exact H.
    - right. apply andb_true_iff in H. destruct H as [H1 H2].
      apply Z.eqb_eq in H1. apply Z.ltb_lt in H2. auto. }
  destruct (valid_double_normal md ed Hv ltac:(lia)) as [Hmd Hed'].
  unfold Double.div, Double.one, SFdiv. cbn [xorb].
  pose proof (SFdiv_core_fine Double.prec Double.emax
                4503599627370496 md (-52) ed) as Hfine.
  unfold SFdiv_core_binary in *.
  assert (Hd2 : Zdigits2 (Zpos md) = 53).
  { pose proof (digits_ge (Zpos md) 52 ltac:(lia) ltac:(lia)).
    pose proof (digits_le (Zpos md) 53 ltac:(lia) ltac:(lia)). lia. }
  rewrite Hd2 in *.
  change (Zdigits2 (Zpos 4503599627370496)) with 53 in *.
  rewrite double_fexp in *.
  set (e' := Z.min (Z.max (53 + -52 - (53 + ed) - 53) (-1074)) (-52 - ed)) in *.
  assert (He' : e' = Z.max (-105 - ed) (-1074)) by (subst e'; lia).
  set (sh := -52 - ed - e') in *.
  assert (Hsh : 0 <= sh) by (subst sh; lia).
  set (m' := match sh with
             | 0 => Zpos 4503599627370496
             | Zpos _ => Z.shiftl (Zpos 4503599627370496) sh
             | Zneg _ => 0
             end) in *.
  assert (Hm' : m' = 2 ^ (52 + sh)).
  { rewrite pow2_split by lia. subst m'. destruct sh as [ | p | p ]; try lia.
    rewrite Z.shiftl_mul_pow2 by lia. reflexivity. }
  assert (Hdiv : fst (Z.div_eucl m' (Zpos md)) = m' / Zpos md) by reflexivity.
  destruct (Z.div_eucl m' (Zpos md)) as [q r]. cbn [fst] in Hdiv.
  destruct Hfine as [Hq0 Hfine].
  destruct (binary_round_aux_fine Double.prec Double.emax ltac:(reflexivity) false q e'
              (new_location (Zpos md) r) Hq0 Hfine) as (m2 & Hm2 & Hm2le & _ & ->).
  cbv zeta in Hm2. rewrite double_fexp in *.
  change (2 ^ Double.prec) with (2 ^ 53) in *.
  change (Double.emax - Double.prec) with 971.
  change (Z.to_pos (2 ^ (Double.prec - 1))) with 4503599627370496%positive.
  set (e1 := Z.max (Zdigits2 q + e' - 53) (-1074)) in *.
  (* the quotient is at most 2^(sh) and its rank is at most -51 - ed *)
  assert (Hqmd : q * Zpos md <= 2 ^ (52 + sh)).
  { rewrite Hdiv, Hm', Z.mul_comm. apply Z.mul_div_le. lia. }
  assert (Hqle : q <= 2 ^ sh).
  { apply Z.mul_le_mono_pos_r with (2 ^ 52); [lia | ].
    rewrite <- pow2_split, (Z.add_comm sh 52) by lia.
    eapply Z.le_trans; [ | exact Hqmd].
    apply Z.mul_le_mono_nonneg_l; lia. }
  destruct (Z.eqb_spec m2 0) as [_ | Hm2ne]; [left; reflexivity | right].
  assert (Hpow1 : 0 < 2 ^ (e1 - e')) by (apply pow2_pos; lia).
  assert (Hm1q : q / 2 ^ (e1 - e') <= q).
  { apply Z.div_le_upper_bound; [exact Hpow1 | ]. nia. }
  assert (Hm2pos : 0 < m2).
  { assert (0 <= q / 2 ^ (e1 - e')) by (apply Z.div_pos; lia). lia. }
  destruct Hed as [Hgt | [Heq Hmdgt]].
  - (* d >= 2 *)
    assert (Hdq : Zdigits2 q <= sh + 1).
    { apply digits_le; [lia | ]. split; [exact Hq0 | ].
      rewrite pow2_split by lia. lia. }
    assert (He1 : e1 <= -53) by (subst e1 sh; lia).
    destruct (Z.ltb_spec m2 (2 ^ 53)) as [Hlt2 | Hge2].
    + replace (e1 <=? 971) with true by (symmetry; apply Z.leb_le; lia).
      eexists. eexists. split; [reflexivity | ]. rewrite Z2Pos.id by lia.
      subst e1. lia.
    + assert (He1' : e1 <= -105 - ed).
      { destruct (Z_le_gt_dec e1 (-105 - ed)) as [H | H]; [exact H | exfalso].
        assert (q / 2 ^ (e1 - e') <= 2 ^ 52).
        { apply Z.div_le_upper_bound; [exact Hpow1 | ].
          rewrite <- pow2_split by lia. eapply Z.le_trans; [exact Hqle | ].
          apply pow2_le. subst sh. lia. }
        lia. }
      replace (e1 + 1 <=? 971) with true by (symmetry; apply Z.leb_le; lia).
      eexists. eexists. split; [reflexivity | ]. subst e1. lia.
  - (* 1 < d < 2 *)
    subst ed. assert (Hsh53 : sh = 53) by (subst sh; lia).
    rewrite Hsh53 in *. change (2 ^ (52 + 53)) with (2 ^ 105) in *.
    assert (Hq53 : q <= 2 ^ 53 - 2) by nia.
    assert (Hdq : Zdigits2 q <= 53) by (apply digits_le; lia).
    assert (He1 : e1 <= -53) by (subst e1; lia).
    replace (m2 <? 2 ^ 53) with true by (symmetry; apply Z.ltb_lt; lia).
    replace (e1 <=? 971) with true by (symmetry; apply Z.leb_le; lia).
    eexists. eexists. split; [reflexivity | ]. rewrite Z2Pos.id by lia.
    subst e1. lia.
Qed.

(** [1 - u] is positive for a [double] [u] below 1. *)
Lemma sub_one_below (mu : positive) (eu : Z) :
  -1074 <= eu <= -53 -> Zpos mu < 2 ^ 53 ->
  exists m e, Double.sub Double.one (S754_finite false mu eu) = S754_finite false m e.
Proof.
  intros Heu Hmu. unfold Double.sub, Double.one, SFsub. cbn [cond_Zopp].
  replace (Z.min (-52) eu) with eu by lia.
  rewrite !shl_align_value by lia. rewrite Z.sub_diag, Z.mul_1_r.
  assert (Hone : Zpos 4503599627370496 * 2 ^ (-52 - eu) = 2 ^ (- eu)).
  { change (Zpos 4503599627370496) with (2 ^ 52).
    rewrite <- pow2_split by lia. f_equal. lia. }
  rewrite Hone.
  assert (Hbig : 2 ^ 53 <= 2 ^ (- eu)) by (apply pow2_le; lia).
  set (M := 2 ^ (- eu) - Zpos mu).
  assert (HM : 0 < M < 2 ^ (- eu)) by (subst M; lia).
  clearbody M. destruct M as [ | p | p ]; try lia. cbn [binary_normalize].
  destruct (binary_round_fine Double.prec Double.emax false p eu)
    as (mz & ez' & -> & Hmz & Hez' & Hval & Hdig & Hfine & Hmin).
  rewrite double_fexp in *.
  pose proof (digits_le (Zpos p) (- eu) ltac:(lia) ltac:(lia)) as Hd.
  pose proof (Zdigits2_nonneg (Zpos p)) as Hd0.
  apply (binary_round_aux_finite Double.prec Double.emax ltac:(reflexivity)
           ltac:(discriminate) ltac:(discriminate) false mz ez' loc_Exact 0);
    try assumption;
    change (emin Double.prec Double.emax) with (-1074);
    change (Double.emax - Double.prec) with 971; change Double.emax with 1024; lia.
Qed.

Lemma ltb_zero_clamp_finite (m : positive) (e : Z) :
  Double.ltb Double.zero (clamp_unit (S754_finite false m e)) = true.
Proof.
  unfold clamp_unit. destruct (Double.ltb Double.one (S754_finite false m e));
    reflexivity.
Qed.

(** With a positive finite threshold and a maximum that is a number, the
    composite score is positive exactly when [1 + m / Z] is above 1. *)
Lemma composite_positive_iff (m threshold : spec_float) :
  positive_finite threshold -> Float.has_sign false m ->
  Double.ltb Double.zero (clamp_unit (severity m threshold)) =
  Double.ltb Double.one (Double.add Double.one (Double.div m threshold)).
Proof.
  intros (mt & et & ->) Hm. unfold severity.
  pose proof (SFdiv_sign_finite_r Double.prec Double.emax false false m mt et Hm) as Hq.
  pose proof (SFdiv_valid Double.prec Double.emax ltac:(reflexivity) m
                (S754_finite false mt et)) as Hqv.
  fold Double.div in Hq, Hqv. cbn [xorb] in Hq.
  destruct (Double.div m (S754_finite false mt et)) as [sq | sq | | sq mq eq];
    cbn [Float.has_sign] in Hq; try tauto; subst sq; try reflexivity.
  destruct (add_one_finite mq eq) as [[Hd | Hd] _]; cbv zeta in Hd.
  { rewrite Hd. reflexivity. }
  rewrite Hd.
  pose proof (SFadd_nonneg Double.prec Double.emax Double.one
                (S754_finite false mq eq) eq_refl eq_refl) as Hds.
  assert (Hdv : Double.valid (Double.add Double.one (S754_finite false mq eq)) = true).
  { apply (binary_normalize_valid Double.prec Double.emax). reflexivity. }
  fold Double.add in Hds.
  destruct (Double.add Double.one (S754_finite false mq eq)) as [sd | sd | | sd md ed];
    cbn [Float.has_sign] in Hds; try tauto; subst sd; try discriminate; try reflexivity.
  destruct (div_one_above md ed Hdv Hd) as [-> | (mu & eu & -> & Heu & Hmu)];
    [reflexivity | ].
  destruct (sub_one_below mu eu Heu Hmu) as (ms & es & ->).
  apply ltb_zero_clamp_finite.
Qed.

End CompositePositive.

(** ** The direction of a rounding *)

Section RoundingDirection.

Lemma shr_1_record (r : shr_record) :
  0 <= shr_m r ->
  shr_1 r = {| shr_m := Z.div2 (shr_m r); shr_r := Z.odd (shr_m r);
               shr_s := shr_r r || shr_s r |}.
Proof.
  destruct r as [m b s]. cbn [shr_m shr_r shr_s]. intros Hm.
  destruct m as [ | p | p ]; [reflexivity | | lia]. destruct p; reflexivity.
Qed.

Lemma mod_pow2_succ (m n : Z) :
  0 <= n ->
  m mod 2 ^ (n + 1) = m mod 2 ^ n + 2 ^ n * Z.b2z (Z.testbit m n).
Proof.
  intros Hn. rewrite Z.pow_add_r, Z.pow_1_r by lia.
  rewrite Z.rem_mul_r by (try apply Z.pow_nonzero; lia).
  rewrite Z.testbit_spec' by lia. reflexivity.
Qed.

(** Shifting a mantissa right by [n + 1] bits leaves its quotient, the
    last bit shifted out and whether any bit below it was set. *)
Lemma iter_shr_1_record (n : nat) (m : Z) :
  0 <= m ->
  Nat.iter (S n) shr_1 (Build_shr_record m false false) =
  {| shr_m := Z.shiftr m (Z.of_nat (S n)); shr_r := Z.testbit m (Z.of_nat n);
     shr_s := negb (m mod 2 ^ Z.of_nat n =? 0) |}.
Proof.
  intros Hm. induction n as [ | n IH ].
  - cbn [Nat.iter]. rewrite shr_1_record by exact Hm. cbn [shr_m shr_r shr_s].
    change (Z.of_nat 0) with 0. change (Z.of_nat 1) with 1.
    rewrite Z.pow_0_r, Z.mod_1_r, Z.div2_spec, Z.bit0_odd. reflexivity.
  - change (Nat.iter (S (S n)) shr_1 (Build_shr_record m false false))
      with (shr_1 (Nat.iter (S n) shr_1 (Build_shr_record m false false))).
    rewrite IH. rewrite shr_1_record by (cbn [shr_m]; apply Z.shiftr_nonneg; exact Hm).
    cbn [shr_m shr_r shr_s].
    assert (H1 : Z.div2 (Z.shiftr m (Z.of_nat (S n))) = Z.shiftr m (Z.of_nat (S (S n)))).
    { rewrite Z.div2_spec, Z.shiftr_shiftr by lia. f_equal. lia. }
    assert (H2 : Z.odd (Z.shiftr m (Z.of_nat (S n))) = Z.testbit m (Z.of_nat (S n))).
    { rewrite <- Z.bit0_odd, Z.shiftr_spec by lia. f_equal. }
    assert (H3 : Z.testbit m (Z.of_nat n) || negb (m mod 2 ^ Z.of_nat n =? 0) =
                 negb (m mod 2 ^ Z.of_nat (S n) =? 0)).
    { replace (Z.of_nat (S n)) with (Z.of_nat n + 1) by lia.
      rewrite mod_pow2_succ by lia.
      pose proof (Z.mod_pos_bound m (2 ^ Z.of_nat n) ltac:(apply Z.pow_pos_nonneg; lia)) as Hb.
      assert (Hp : 0 < 2 ^ Z.of_nat n) by (apply Z.pow_pos_nonneg; lia).
      destruct (Z.testbit m (Z.of_nat n)); cbn [Z.b2z orb].
      - symmetry. apply negb_true_iff, Z.eqb_neq. lia.
      - rewrite Z.mul_0_r, Z.add_0_r. reflexivity. }
    rewrite H1, H2, H3. reflexivity.
Qed.

(** [1 + q] for a positive [double] [q] below 2^-52: the sum is 1 up to
    q = 2^-53 (the tie goes to the even mantissa of 1) and above 1 beyond. *)
Lemma add_one_small (mq : positive) (eq : Z) :
  eq <= -105 -> Zpos mq < 2 ^ 53 ->
  let d := Double.add Double.one (S754_finite false mq eq) in
  (2 ^ (-53 - eq) < Zpos mq -> Double.ltb Double.one d = true) /\
  (Zpos mq <= 2 ^ (-53 - eq) -> d = Double.one).
Proof.
  intros Heq Hmq. cbv zeta. unfold Double.add, Double.one, SFadd. cbn [cond_Zopp].
  replace (Z.min (-52) eq) with eq by lia.
  rewrite !shl_align_value by lia. rewrite Z.sub_diag, Z.mul_1_r.
  assert (Hone : Zpos 4503599627370496 * 2 ^ (-52 - eq) = 2 ^ (- eq)).
  { change (Zpos 4503599627370496) with (2 ^ 52).
    rewrite <- pow2_split by lia. f_equal. lia. }
  rewrite Hone. clear Hone.
  set (k := -52 - eq).
  assert (Hk : 53 <= k) by (subst k; lia).
  assert (Hpk : 2 ^ 53 <= 2 ^ k) by (apply pow2_le; lia).
  assert (Hpk1 : 2 ^ k = 2 * 2 ^ (k - 1)).
  { replace k with (1 + (k - 1)) at 1 by lia. rewrite pow2_split by lia. reflexivity. }
  assert (Hpk1pos : 0 < 2 ^ (k - 1)) by (apply pow2_pos; lia).
  replace (- eq) with (52 + k) by (subst k; lia).
  replace (-53 - eq) with (k - 1) by (subst k; lia).
  set (M := 2 ^ (52 + k) + Zpos mq).
  assert (HMval : M = 2 ^ 52 * 2 ^ k + Zpos mq) by (subst M; rewrite pow2_split by lia; reflexivity).
  assert (HM : 2 ^ (52 + k) <= M < 2 ^ (52 + k + 1)).
  { subst M. rewrite (pow2_split (52 + k) 1), (pow2_split 52 k) by lia.
    change (2 ^ 1) with 2. change (2 ^ 52) with 4503599627370496. lia. }
  assert (HMpos : 0 < M) by (pose proof (pow2_pos (52 + k) ltac:(lia)); lia).
  assert (Hdig : Zdigits2 M = 52 + k + 1).
  { pose proof (digits_ge M (52 + k) ltac:(lia) ltac:(lia)).
    pose proof (digits_le M (52 + k + 1) ltac:(lia) ltac:(lia)). lia. }
  assert (Hshift : Z.shiftr M k = 2 ^ 52).
  { rewrite Z.shiftr_div_pow2 by lia. rewrite HMval.
    rewrite Z.div_add_l by lia. rewrite Z.div_small by lia. lia. }
  assert (Hbit : Z.testbit M (k - 1) = (2 ^ (k - 1) <=? Zpos mq)).
  { rewrite Z.testbit_eqb by lia. rewrite HMval, Hpk1.
    replace (2 ^ 52 * (2 * 2 ^ (k - 1)) + Zpos mq)
      with (Zpos mq + (2 ^ 52 * 2) * 2 ^ (k - 1)) by lia.
    rewrite Z.div_add by lia.
    rewrite Z.add_mod, Z.mod_mul, Z.add_0_r, Z.mod_mod by lia.
    destruct (Z.leb_spec (2 ^ (k - 1)) (Zpos mq)) as [Hle | Hlt].
    - replace (Zpos mq / 2 ^ (k - 1)) with 1; [reflexivity | ].
      apply Z.div_unique with (Zpos mq - 2 ^ (k - 1)); lia.
    - rewrite Z.div_small by lia. reflexivity. }
  assert (Hlow : M mod 2 ^ (k - 1) = Zpos mq mod 2 ^ (k - 1)).
  { rewrite HMval, Hpk1.
    replace (2 ^ 52 * (2 * 2 ^ (k - 1)) + Zpos mq)
      with (Zpos mq + (2 ^ 52 * 2) * 2 ^ (k - 1)) by lia.
    apply Z.mod_add. lia. }
  clearbody M. destruct M as [ | p | p ]; try lia. cbn [binary_normalize].
  unfold binary_round.
  change (Zpos (digits2_pos p)) with (Zdigits2 (Zpos p)). rewrite Hdig.
  rewrite double_fexp.
  replace (Z.max (52 + k + 1 + eq - 53) (-1074)) with (-52) by (subst k; lia).
  unfold shl_align.
  assert (Hkpos : -52 - eq = k) by reflexivity.
  rewrite Hkpos.
  destruct k as [ | kp | kp ] eqn:Ek; try lia.
  unfold binary_round_aux, shr_fexp.
  rewrite Hdig, double_fexp.
  replace (Z.max (52 + Zpos kp + 1 + eq - 53) (-1074) - eq) with (Zpos kp) by lia.
  unfold shr. cbn [shr_record_of_loc].
  rewrite iter_pos_nat.
  destruct (Pos.to_nat kp) as [ | n ] eqn:En; [lia | ].
  rewrite iter_shr_1_record by lia.
  replace (Z.of_nat (S n)) with (Zpos kp) by lia.
  replace (Z.of_nat n) with (Zpos kp - 1) by lia.
  rewrite Hshift, Hbit, Hlow.
  replace (eq + Zpos kp) with (-52) by lia.
  cbn [shr_m].
  destruct (Z.leb_spec (2 ^ (Zpos kp - 1)) (Zpos mq)) as [Hle | Hlt].
  - destruct (Z.eqb_spec (Zpos mq mod 2 ^ (Zpos kp - 1)) 0) as [Hz | Hnz].
    + (* the tie *)
      assert (Hq : Zpos mq = 2 ^ (Zpos kp - 1)).
      { pose proof (Z.div_mod (Zpos mq) (2 ^ (Zpos kp - 1)) ltac:(lia)) as Hdm.
        rewrite Hz, Z.add_0_r in Hdm.
        assert (Hd : Zpos mq / 2 ^ (Zpos kp - 1) = 1).
        { symmetry. apply Z.div_unique with (Zpos mq - 2 ^ (Zpos kp - 1)); lia. }
        rewrite Hd in Hdm. lia. }
      split; [intros H; lia | intros _; reflexivity].
    + split; [intros _; reflexivity | ].
      intros H. assert (Hq : Zpos mq = 2 ^ (Zpos kp - 1)) by lia.
      rewrite Hq, Z.mod_same in Hnz by lia. contradiction.
  - split; [intros H; lia | ].
    intros _. destruct (Zpos mq mod 2 ^ (Zpos kp - 1) =? 0); reflexivity.
Qed.

(** [1 + q] is above 1 exactly when [q] is above 2^-53. *)
Lemma add_one_threshold (mq : positive) (eq : Z) :
  Double.valid (S754_finite false mq eq) = true ->
  Double.ltb Double.one (Double.add Double.one (S754_finite false mq eq)) =
  Double.ltb dbl_half_epsilon (S754_finite false mq eq).
Proof.
  intros Hv.
  assert (Hrhs : Double.ltb dbl_half_epsilon (S754_finite false mq eq) =
                 (-105 <? eq) || ((eq =? -105) && (2 ^ 52 <? Zpos mq))).
  { unfold Double.ltb, SFltb, dbl_half_epsilon. cbn [SFcompare].
    destruct (Z.compare_spec (-105) eq) as [He | He | He].
    - subst eq. cbn [Z.ltb Z.compare Z.eqb orb andb].
      rewrite Pos.compare_cont_spec. cbn [Pos.switch_Eq].
      change (2 ^ 52) with (Zpos 4503599627370496).
      unfold Z.ltb. cbn [Z.compare].
      destruct (4503599627370496 ?= mq)%positive; reflexivity.
    - replace (-105 <? eq) with true by (symmetry; apply Z.ltb_lt; lia). reflexivity.
    - replace (-105 <? eq) with false by (symmetry; apply Z.ltb_ge; lia).
      replace (eq =? -105) with false by (symmetry; apply Z.eqb_neq; lia). reflexivity. }
  rewrite Hrhs.
  destruct (Z_le_gt_dec eq (-105)) as [Hle | Hgt].
  - assert (Hmq : Zpos mq < 2 ^ 53).
    { unfold Double.valid, valid_binary, bounded, canonical_mantissa in Hv.
      apply andb_true_iff in Hv. destruct Hv as [Hc _]. apply Z.eqb_eq in Hc.
      change (Zpos (digits2_pos mq)) with (Zdigits2 (Zpos mq)) in Hc.
      rewrite double_fexp in Hc.
      pose proof (digits_bounds (Zpos mq) ltac:(lia)) as [_ Hhi].
      eapply Z.lt_le_trans; [exact Hhi | ]. apply pow2_le.
      pose proof (Zdigits2_nonneg (Zpos mq)). lia. }
    destruct (add_one_small mq eq Hle Hmq) as [Habove Hbelow]. cbv zeta in *.
    destruct (Z.eq_dec eq (-105)) as [-> | Hne].
    + cbn [Z.ltb Z.compare Z.eqb orb andb]. change (-53 - -105) with 52 in *.
      destruct (Z.ltb_spec (2 ^ 52) (Zpos mq)) as [H | H].
      * apply Habove. exact H.
      * rewrite (Hbelow H). reflexivity.
    + replace (-105 <? eq) with false by (symmetry; apply Z.ltb_ge; lia).
      replace (eq =? -105) with false by (symmetry; apply Z.eqb_neq; lia).
      cbn [orb andb]. rewrite Hbelow; [reflexivity | ].
      apply Z.lt_le_incl. eapply Z.lt_le_trans; [exact Hmq | ]. apply pow2_le. lia.
  - replace (-105 <? eq) with true by (symmetry; apply Z.ltb_lt; lia). cbn [orb].
    apply add_one_finite; [ | lia].
    apply (valid_double_normal mq eq Hv). lia.
Qed.

(** With a positive finite threshold and a maximum that is a number, the
    composite score is positive exactly when [m / Z] is above 2^-53. *)
Lemma composite_positive_threshold (m threshold : spec_float) :
  positive_finite threshold -> Float.has_sign false m ->
  Double.ltb Double.zero (clamp_unit (severity m threshold)) =
  Double.ltb dbl_half_epsilon (Double.div m threshold).
Proof.
  intros Hpos Hm. rewrite (composite_positive_iff m threshold Hpos Hm).
  destruct Hpos as (mt & et & ->).
  pose proof (SFdiv_sign_finite_r Double.prec Double.emax false false m mt et Hm) as Hq.
  pose proof (SFdiv_valid Double.prec Double.emax ltac:(reflexivity) m
                (S754_finite false mt et)) as Hqv.
  fold Double.div in Hq, Hqv. cbn [xorb] in Hq.
  destruct (Double.div m (S754_finite false mt et)) as [sq | sq | | sq mq eq];
    cbn [Float.has_sign] in Hq; try tauto; subst sq; try reflexivity.
  apply add_one_threshold. exact Hqv.
Qed.

End RoundingDirection.




(** C3 (as the code has it).  For every detection result the composite
    score is 1 - 1 / (1 + m / Z) clamped to [0, 1], where m is the running
    maximum of |z_cmr|, |z_bmr|, |z_ipc| (their greatest when they are
    numbers) and Z the configured threshold.  Whenever the score is a
    number it satisfies 0 <= composite <= 1, and it is a number whenever
    the threshold is finite and positive and the z-scores are numbers.  A
    composite score > 0 implies that at least one of the three z-scores has
    a nonzero absolute value.  Conversely, with a finite positive threshold
    and z-scores that are numbers, the composite score is > 0 if and only
    if the [double] sum 1 + m / Z is above 1, that is, if and only if the
    [double] quotient m / Z is above 2^-53. *)
Theorem composite_score_bounds (eng : anomaly_engine) (s : telemetry_sample) :
  engine_wf eng -> ready (baseline eng) = true ->
  exists eng' r,
    anomaly_detect eng s = Some (eng', r) /\
    let m := max_abs_z (z_cache_miss r) (z_branch_miss r) (z_ipc r) in
    let c := composite_score r in
    let numbers :=
      Float.is_nan (z_cache_miss r) = false /\ Float.is_nan (z_branch_miss r) = false /\
      Float.is_nan (z_ipc r) = false in
    c = clamp_unit (severity m (z_threshold eng)) /\
    (numbers ->
       (m = Double.fabs (z_cache_miss r) \/ m = Double.fabs (z_branch_miss r) \/
        m = Double.fabs (z_ipc r)) /\
       Double.leb (Double.fabs (z_cache_miss r)) m = true /\
       Double.leb (Double.fabs (z_branch_miss r)) m = true /\
       Double.leb (Double.fabs (z_ipc r)) m = true) /\
    (Float.is_nan c = false ->
       Double.leb Double.zero c = true /\ Double.leb c Double.one = true) /\
    (positive_finite (z_threshold eng) -> numbers ->
       Double.leb Double.zero c = true /\ Double.leb c Double.one = true) /\
    (Double.ltb Double.zero c = true ->
       Double.ltb Double.zero (Double.fabs (z_cache_miss r)) = true \/
       Double.ltb Double.zero (Double.fabs (z_branch_miss r)) = true \/
       Double.ltb Double.zero (Double.fabs (z_ipc r)) = true) /\
    (positive_finite (z_threshold eng) -> numbers ->
       (Double.ltb Double.zero c = true <->
        Double.ltb Double.one
          (Double.add Double.one (Double.div m (z_threshold eng))) = true) /\
       (Double.ltb Double.zero c = true <->
        Double.ltb dbl_half_epsilon (Double.div m (z_threshold eng)) = true)).
Proof.
  intros (Hok & _) Hready.
  destruct (anomaly_detect_ready eng s Hready Hok)
    as (eng' & r & Hd & Hz1 & Hz2 & Hz3 & Hc & _).
  exists eng', r. split; [exact Hd | ].
  rewrite <- Hz1, <- Hz2, <- Hz3 in Hc. cbv zeta. rewrite Hc, composite_clamp.
  set (m := max_abs_z (z_cache_miss r) (z_branch_miss r) (z_ipc r)).
  set (x := severity m (z_threshold eng)).
  destruct (clamp_unit_range x) as [Hnan Hrange].
  split; [reflexivity | ].
  split; [intros (N1 & N2 & N3); apply max_abs_z_greatest; assumption | ].
  split; [intros Hn; apply Hrange; rewrite <- Hnan; exact Hn | ].
  split.
  - intros Hpos (N1 & N2 & N3). apply Hrange. apply severity_number; [exact Hpos | ].
    apply max_abs_z_sign; assumption.
  - split.
    + intros Hgt.
      destruct (Double.ltb Double.zero (Double.fabs (z_cache_miss r))) eqn:E1; [auto | ].
      destruct (Double.ltb Double.zero (Double.fabs (z_branch_miss r))) eqn:E2; [auto | ].
      destruct (Double.ltb Double.zero (Double.fabs (z_ipc r))) eqn:E3; [auto | ].
      pose proof (composite_not_positive _ _ _ (z_threshold eng) E1 E2 E3) as Hc0.
      rewrite composite_clamp in Hc0. fold m x in Hc0. congruence.
    + intros Hpos (N1 & N2 & N3).
      pose proof (max_abs_z_sign _ _ _ N1 N2 N3) as Hm. fold m in Hm.
      pose proof (composite_positive_iff m (z_threshold eng) Hpos Hm) as Hiff.
      pose proof (composite_positive_threshold m (z_threshold eng) Hpos Hm) as Hthr.
      fold x in Hiff, Hthr. split; [rewrite Hiff; tauto | rewrite Hthr; tauto].
Qed.

Lemma composite_score_bounds_witness :
  engine_wf flat_engine /\ ready (baseline flat_engine) = true /\
  exists eng' r,
    anomaly_detect flat_engine (with_cmr cmr_0_2) = Some (eng', r) /\
    composite_score r =
      clamp_unit (severity (max_abs_z (z_cache_miss r) (z_branch_miss r) (z_ipc r))
                           (z_threshold flat_engine)) /\
    Double.ltb Double.zero (Double.fabs (z_cache_miss r)) = true /\
    Double.ltb Double.zero (composite_score r) = true.
Proof.
  assert (Hwf : engine_wf flat_engine).
  { unfold engine_wf. split; [reflexivity | ]. split; [reflexivity | ].
    vm_compute. repeat split; try reflexivity; discriminate. }
  split; [exact Hwf | ]. split; [reflexivity | ].
  destruct (composite_score_bounds flat_engine (with_cmr cmr_0_2) Hwf eq_refl)
    as (eng' & r & Hd & Hc & _ & _ & _ & _ & Hconv).
  exists eng', r. split; [exact Hd | ]. split; [exact Hc | ].
  assert (Hr : z_cache_miss r = S754_finite false 5095241413945630 (-26) /\
               z_branch_miss r = Double.zero /\ z_ipc r = Double.zero).
  { vm_compute in Hd. injection Hd as _ <-. repeat split. }
  destruct Hr as (Hz1 & Hz2 & Hz3).
  split; [rewrite Hz1; reflexivity | ].
  refine (proj2 (proj2 (Hconv _ _)) _).
  - exists 7881299347898368%positive, (-51). reflexivity.
  - rewrite Hz1, Hz2, Hz3. repeat split.
  - rewrite Hz1, Hz2, Hz3. vm_compute. reflexivity.
Defined.

(** C3 as stated fails.  A detection sample with ipc = 1.0 on the first
    engine has z_ipc = -(2^-52 + 2^-104), a nonzero absolute value, yet
    1 + |z| / 3.5 rounds to 1 and the composite score is exactly 0.  On the
    second engine all z-scores are 0, 0 / 0 is NaN and the composite score
    is NaN, which is not in [0, 1]. *)
Lemma composite_counterexample :
  (exists eng' r,
     anomaly_detect near_one_engine (with_ipc Single.one) = Some (eng', r) /\
     z_ipc r = S754_finite true 4503599627370497 (-104) /\
     Double.ltb Double.zero (Double.fabs (z_ipc r)) = true /\
     composite_score r = Double.zero /\
     Double.ltb Double.zero (composite_score r) = false) /\
  (exists eng' r,
     anomaly_detect zero_threshold_engine (stamped 2) = Some (eng', r) /\
     composite_score r = S754_nan /\
     Double.leb Double.zero (composite_score r) = false /\
     Double.leb (composite_score r) Double.one = false).
Proof.
  split.
  - eexists. eexists. split; [vm_compute; reflexivity | ].
    simpl. repeat split; reflexivity.
  - eexists. eexists. split; [vm_compute; reflexivity | ].
    simpl. repeat split; reflexivity.
Qed.

(** ** correlation.c *)

Section ExactAverage.
Local Open Scope R_scope.

Lemma ema_exact_step (v s : R) : ema_exact v s - v = 7 / 10 * (s - v).
Proof. unfold ema_exact, ema. lra. Qed.

Lemma ema_exact_iter_distance (k : nat) (v s : R) :
  ema_exact_iter k v s - v = (7 / 10) ^ k * (s - v).
Proof.
  induction k as [ | k IH ].
  - unfold ema_exact_iter. simpl. lra.
  - unfold ema_exact_iter in *. simpl ema_iter.
    fold ema_exact. rewrite ema_exact_step, IH. simpl pow. lra.
Qed.

Lemma ema_exact_monotone (k : nat) (v s : R) :
  Rabs (ema_exact_iter (S k) v s - v) <= Rabs (ema_exact_iter k v s - v) /\
  (s <= v -> ema_exact_iter k v s <= ema_exact_iter (S k) v s <= v) /\
  (v <= s -> v <= ema_exact_iter (S k) v s <= ema_exact_iter k v s).
Proof.
  pose proof (ema_exact_iter_distance k v s) as Hk.
  assert (Hs : ema_exact_iter (S k) v s - v = 7 / 10 * (ema_exact_iter k v s - v)).
  { unfold ema_exact_iter. simpl ema_iter. fold ema_exact. apply ema_exact_step. }
  assert (Hp : 0 <= (7 / 10) ^ k) by (apply pow_le; lra).
  split; [ | split ].
  - rewrite Hs, Rabs_mult, (Rabs_pos_eq (7 / 10)) by lra.
    pose proof (Rabs_pos (ema_exact_iter k v s - v)). lra.
  - intros Hle. assert (ema_exact_iter k v s - v <= 0) by (rewrite Hk; nra). lra.
  - intros Hle. assert (0 <= ema_exact_iter k v s - v) by (rewrite Hk; nra). lra.
Qed.

Lemma ema_exact_converges (v s eps : R) :
  0 < eps -> exists K, forall k, (K <= k)%nat -> Rabs (ema_exact_iter k v s - v) < eps.
Proof.
  intros Heps. destruct (Req_dec s v) as [-> | Hne].
  - exists 0%nat. intros k _. rewrite ema_exact_iter_distance.
    replace ((7 / 10) ^ k * (v - v)) with 0 by lra. rewrite Rabs_R0. exact Heps.
  - assert (Hd : 0 < Rabs (s - v)) by (apply Rabs_pos_lt; lra).
    destruct (pow_lt_1_zero (7 / 10)) with (y := eps / Rabs (s - v)) as [K HK].
    + rewrite Rabs_pos_eq; lra.
    + apply Rdiv_lt_0_compat; assumption.
    + exists K. intros k Hk. rewrite ema_exact_iter_distance, Rabs_mult.
      specialize (HK k ltac:(lia)).
      apply (Rmult_lt_compat_r (Rabs (s - v))) in HK; [ | exact Hd ].
      replace (eps / Rabs (s - v) * Rabs (s - v)) with eps in HK by (field; lra).
      exact HK.
Qed.
End ExactAverage.

Section AverageTracking.

Lemma single_fexp (x : Z) : fexp Single.prec Single.emax x = Z.max (x - 24) (-149).
Proof. reflexivity. Qed.

Lemma bpow_neg (k : Z) : 0 <= k -> powerRZ 2 (- k) = (/ IZR (2 ^ k))%R.
Proof. intros Hk. rewrite powerRZ_neg', bpow_IZR by lia. reflexivity. Qed.

Lemma Rabs_bound (x b : R) : (Rabs x <= b)%R <-> (- b <= x <= b)%R.
Proof.
  split.
  - unfold Rabs. destruct (Rcase_abs x); lra.
  - apply Rabs_le.
Qed.

Lemma real_of_nonneg (x : spec_float) : Float.has_sign false x -> (0 <= real_of x)%R.
Proof.
  destruct x as [s | s | | s m e]; cbn; intros H; try lra. subst s.
  pose proof (bpow_pos e). assert (0 < IZR (Zpos m))%R by (apply IZR_lt; lia). nra.
Qed.

Lemma nonneg_single_zero : nonneg_single (S754_zero false).
Proof. repeat split. Qed.

Lemma digits_mul (a b : positive) :
  Zdigits2 (Zpos a) + Zdigits2 (Zpos b) - 1 <= Zdigits2 (Zpos (a * b)).
Proof.
  rewrite !Zdigits2_log2 by lia. rewrite Pos2Z.inj_mul.
  pose proof (Z.log2_mul_below (Zpos a) (Zpos b) ltac:(lia) ltac:(lia)). lia.
Qed.

(** A product of two [float]s below 2^t, t <= 1, is a [float] at most one
    unit of the binade of 2^t away from the exact product. *)
Lemma single_mul_value (x y : spec_float) (t : Z) :
  nonneg_single x -> nonneg_single y -> t <= 1 ->
  (real_of x * real_of y < powerRZ 2 t)%R ->
  nonneg_single (Single.mul x y) /\
  (Rabs (real_of (Single.mul x y) - real_of x * real_of y)
   <= powerRZ 2 (Z.max (t - 24) (-149)))%R.
Proof.
  intros (Hvx & Hfx & Hsx) (Hvy & Hfy & Hsy) Ht Hlt.
  pose proof (bpow_pos (Z.max (t - 24) (-149))) as Hpos.
  destruct x as [sx | sx | | sx mx ex]; try discriminate;
    destruct y as [sy | sy | | sy my ey]; try discriminate;
    cbn [Float.has_sign] in Hsx, Hsy; subst sx sy;
    try (split; [apply nonneg_single_zero | ];
         cbn [Single.mul SFmul xorb real_of]; rewrite Rabs_bound; lra).
  unfold Single.mul, SFmul. cbn [xorb].
  unfold Single.valid, valid_binary in Hvx, Hvy.
  pose proof (digits_mul mx my) as Hdm.
  assert (Hfine : ex + ey <=
            fexp Single.prec Single.emax (Zdigits2 (Zpos (mx * my)) + (ex + ey))).
  { rewrite single_fexp.
    destruct (valid_single_cases mx ex Hvx) as [(_ & Hdx & _) | (_ & Hdx & ->)];
      destruct (valid_single_cases my ey Hvy) as [(_ & Hdy & Hey) | (_ & Hdy & ->)];
      change (Zpos (digits2_pos mx)) with (Zdigits2 (Zpos mx)) in Hdx;
      change (Zpos (digits2_pos my)) with (Zdigits2 (Zpos my)) in Hdy;
      pose proof (Zdigits2_nonneg (Zpos mx)); pose proof (Zdigits2_nonneg (Zpos my));
      assert (0 < Zdigits2 (Zpos mx)) by (rewrite Zdigits2_log2 by lia;
                                          pose proof (Z.log2_nonneg (Zpos mx)); lia);
      assert (0 < Zdigits2 (Zpos my)) by (rewrite Zdigits2_log2 by lia;
                                          pose proof (Z.log2_nonneg (Zpos my)); lia);
      lia. }
  assert (Hval : (IZR (Zpos (mx * my)) * powerRZ 2 (ex + ey) =
                  real_of (S754_finite false mx ex) * real_of (S754_finite false my ey))%R).
  { cbn [real_of]. rewrite Pos2Z.inj_mul, mult_IZR, bpow_add. lra. }
  rewrite <- Hval in *.
  pose proof (digits_of_value (Zpos (mx * my)) (ex + ey) t ltac:(lia) Hlt) as Hdig.
  destruct (binary_round_aux_value Single.prec Single.emax ltac:(reflexivity)
              (Zpos (mx * my)) (ex + ey) t ltac:(lia) Hfine Hdig
              ltac:(rewrite single_fexp; change (Single.emax - Single.prec) with 104; lia))
    as (Hfin & Hsign & Herr & _).
  split; [ | exact Herr].
  split; [ | split; assumption].
  apply binary_round_aux_valid; [reflexivity | lia | exact Hfine].
Qed.

(** The same for a sum. *)
Lemma single_add_value (x y : spec_float) (t : Z) :
  nonneg_single x -> nonneg_single y -> t <= 1 ->
  (real_of x + real_of y < powerRZ 2 t)%R ->
  nonneg_single (Single.add x y) /\
  (Rabs (real_of (Single.add x y) - (real_of x + real_of y))
   <= powerRZ 2 (Z.max (t - 24) (-149)))%R.
Proof.
  intros Hx Hy Ht Hlt.
  pose proof (bpow_pos (Z.max (t - 24) (-149))) as Hpos.
  pose proof Hx as (Hvx & Hfx & Hsx). pose proof Hy as (Hvy & Hfy & Hsy).
  destruct x as [sx | sx | | sx mx ex]; try discriminate;
    destruct y as [sy | sy | | sy my ey]; try discriminate;
    cbn [Float.has_sign] in Hsx, Hsy; subst sx sy;
    try (split; [first [exact Hx | exact Hy] | ];
         cbn [Single.add SFadd real_of]; rewrite Rabs_bound; lra).
  unfold Single.add, SFadd. cbn [cond_Zopp].
  set (ez := Z.min ex ey).
  rewrite !shl_align_value by (subst ez; lia).
  set (M := Zpos mx * 2 ^ (ex - ez) + Zpos my * 2 ^ (ey - ez)).
  assert (HM : 0 < M).
  { subst M. pose proof (Z.pow_pos_nonneg 2 (ex - ez) ltac:(lia) ltac:(subst ez; lia)).
    pose proof (Z.pow_pos_nonneg 2 (ey - ez) ltac:(lia) ltac:(subst ez; lia)). nia. }
  assert (Hval : (IZR M * powerRZ 2 ez =
                  real_of (S754_finite false mx ex) + real_of (S754_finite false my ey))%R).
  { subst M. cbn [real_of]. rewrite plus_IZR, !mult_IZR.
    rewrite <- !bpow_IZR by (subst ez; lia).
    rewrite Rmult_plus_distr_r, !Rmult_assoc, <- !bpow_add.
    replace (ex - ez + ez) with ex by lia. replace (ey - ez + ez) with ey by lia. lra. }
  rewrite <- Hval in *.
  assert (Hvalid : Single.valid (binary_normalize Single.prec Single.emax M ez false) = true).
  { apply (binary_normalize_valid Single.prec Single.emax). reflexivity. }
  clearbody M. destruct M as [ | p | p ]; try lia. cbn [binary_normalize] in *.
  destruct (binary_round_fine Single.prec Single.emax false p ez)
    as (mz & ez' & Hround & Hmz & Hez' & Hmzv & Hdig & Hfine & _).
  rewrite Hround in *.
  assert (Hval' : (IZR mz * powerRZ 2 ez' = IZR (Zpos p) * powerRZ 2 ez)%R).
  { rewrite Hmzv, mult_IZR, <- bpow_IZR by lia.
    rewrite Rmult_assoc, <- bpow_add. replace (ez - ez' + ez') with ez by lia. reflexivity. }
  rewrite <- Hval' in *.
  pose proof (digits_of_value _ _ _ Hmz Hlt) as Hd.
  destruct (binary_round_aux_value Single.prec Single.emax ltac:(reflexivity)
              mz ez' t Hmz Hfine Hd
              ltac:(rewrite single_fexp; change (Single.emax - Single.prec) with 104; lia))
    as (Hfin & Hsign & Herr & _).
  split; [ | exact Herr].
  split; [exact Hvalid | split; assumption].
Qed.

Lemma bpow_numerals :
  powerRZ 2 (-1) = (/ 2)%R /\ powerRZ 2 0 = 1%R /\ powerRZ 2 1 = 2%R /\
  powerRZ 2 (-23) = (/ 8388608)%R /\ powerRZ 2 (-24) = (/ 16777216)%R /\
  powerRZ 2 (-25) = (/ 33554432)%R.
Proof.
  pose proof (bpow_neg 1 ltac:(lia)) as H1. pose proof (bpow_neg 23 ltac:(lia)) as H23.
  pose proof (bpow_neg 24 ltac:(lia)) as H24. pose proof (bpow_neg 25 ltac:(lia)) as H25.
  split; [exact H1 | ]. split; [reflexivity | ]. split; [simpl; lra | ].
  split; [exact H23 | ]. split; [exact H24 | exact H25].
Qed.

Lemma real_of_literals :
  real_of Single.c0_3 = (10066330 / 33554432)%R /\
  real_of single_0_7 = (11744051 / 16777216)%R.
Proof.
  destruct bpow_numerals as (_ & _ & _ & _ & H24 & H25).
  unfold Single.c0_3, single_0_7. cbn [real_of]. rewrite H24, H25. lra.
Qed.

Lemma nonneg_single_literals : nonneg_single Single.c0_3 /\ nonneg_single single_0_7.
Proof. repeat split. Qed.

(** One update in [float] arithmetic is within 2^-22 of the exact
    update. *)
Lemma ema_single_step (v s : spec_float) :
  unit_score v -> nonneg_single s -> (real_of s <= 1 + / 1048576)%R ->
  nonneg_single (ema_single v s) /\
  (Rabs (real_of (ema_single v s) - ema_exact (real_of v) (real_of s)) <= / 4194304)%R.
Proof.
  intros (Hv & Hv1) Hs Hs1.
  change (ema_single v s)
    with (Single.add (Single.mul Single.c0_3 v) (Single.mul single_0_7 s)).
  destruct bpow_numerals as (Hm1 & H0 & H1 & H23 & H24 & H25).
  destruct real_of_literals as (Ha & Hb).
  destruct nonneg_single_literals as (Hna & Hnb).
  pose proof (real_of_nonneg v ltac:(apply Hv)) as Hv0.
  pose proof (real_of_nonneg s ltac:(apply Hs)) as Hs0.
  destruct (single_mul_value Single.c0_3 v (-1) Hna Hv ltac:(lia)) as (Hn1 & He1).
  { rewrite Ha, Hm1. lra. }
  destruct (single_mul_value single_0_7 s 0 Hnb Hs ltac:(lia)) as (Hn2 & He2).
  { rewrite Hb, H0. lra. }
  change (Z.max (-1 - 24) (-149)) with (-25) in He1.
  change (Z.max (0 - 24) (-149)) with (-24) in He2.
  rewrite H25, Ha, Rabs_bound in He1. rewrite H24, Hb, Rabs_bound in He2.
  destruct (single_add_value _ _ 1 Hn1 Hn2 ltac:(lia)) as (Hn3 & He3).
  { rewrite H1. lra. }
  change (Z.max (1 - 24) (-149)) with (-23) in He3.
  rewrite H23, Rabs_bound in He3.
  split; [exact Hn3 | ].
  unfold ema_exact, ema. rewrite Rabs_bound. lra.
Qed.

Lemma ema_exact_unit (k : nat) (v s : R) :
  (0 <= v <= 1)%R -> (0 <= s <= 1)%R -> (0 <= ema_exact_iter k v s <= 1)%R.
Proof.
  intros Hv Hs. induction k as [ | k IH ]; [exact Hs | ].
  unfold ema_exact_iter in *. cbn [ema_iter]. unfold ema. lra.
Qed.

(** Under repeated updates with the same input the [float] score stays
    within 2^-20 of the exact recurrence. *)
Lemma ema_single_tracks (k : nat) (v s : spec_float) :
  unit_score v -> unit_score s ->
  nonneg_single (ema_single_iter k v s) /\
  (Rabs (real_of (ema_single_iter k v s) - ema_exact_iter k (real_of v) (real_of s))
   <= / 1048576)%R.
Proof.
  intros Hv Hs.
  pose proof (real_of_nonneg v ltac:(apply Hv)) as Hv0.
  pose proof (real_of_nonneg s ltac:(apply Hs)) as Hs0.
  destruct Hv as (Hnv & Hv1). destruct Hs as (Hns & Hs1).
  induction k as [ | k (IHn & IHe) ].
  - split; [exact Hns | ]. unfold ema_single_iter, ema_exact_iter. cbn [ema_iter].
    rewrite Rabs_bound. lra.
  - pose proof (ema_exact_unit k (real_of v) (real_of s) ltac:(lra) ltac:(lra)) as Hx.
    rewrite Rabs_bound in IHe.
    destruct (ema_single_step v (ema_single_iter k v s) (conj Hnv Hv1) IHn ltac:(lra))
      as (Hn & He).
    change (ema_single_iter (S k) v s) with (ema_single v (ema_single_iter k v s)).
    change (ema_exact_iter (S k) (real_of v) (real_of s))
      with (ema_exact (real_of v) (ema_exact_iter k (real_of v) (real_of s))).
    split; [exact Hn | ].
    rewrite Rabs_bound in He |- *. unfold ema_exact, ema in *. lra.
Qed.

End AverageTracking.

Section RepeatedUpdates.

Lemma ema_single_iter_shift (k : nat) (v s : spec_float) :
  ema_single_iter (S k) v s = ema_single_iter k v (ema_single v s).
Proof.
  induction k as [ | k IH ]; [reflexivity | ].
  change (ema_single_iter (S (S k)) v s) with (ema_single v (ema_single_iter (S k) v s)).
  rewrite IH. reflexivity.
Qed.

Lemma updated_entry_score (v : spec_float) (tss : list Z) :
  forall entry,
    anomaly_score (updated_entry entry v tss) =
    ema_single_iter (length tss) v (anomaly_score entry).
Proof.
  induction tss as [ | ts tss IH ]; intros entry; [reflexivity | ].
  unfold updated_entry in *. cbn [fold_left length].
  rewrite IH, ema_single_iter_shift. reflexivity.
Qed.

(** The [float] score after [k] identical updates is within 2^-20 of the
    exact recurrence, hence within 0.7^k |s - v| + 2^-20 of the input. *)
Lemma ema_single_converges (k : nat) (v s : spec_float) :
  unit_score v -> unit_score s ->
  nonneg_single (ema_single_iter k v s) /\
  (Rabs (real_of (ema_single_iter k v s) - ema_exact_iter k (real_of v) (real_of s))
   <= / 1048576)%R /\
  (Rabs (real_of (ema_single_iter k v s) - real_of v)
   <= (7 / 10) ^ k * Rabs (real_of s - real_of v) + / 1048576)%R.
Proof.
  intros Hv Hs. destruct (ema_single_tracks k v s Hv Hs) as (Hn & He).
  split; [exact Hn | ]. split; [exact He | ].
  pose proof (ema_exact_iter_distance k (real_of v) (real_of s)) as Hd.
  replace (real_of (ema_single_iter k v s) - real_of v)%R
    with ((real_of (ema_single_iter k v s) - ema_exact_iter k (real_of v) (real_of s))
          + (ema_exact_iter k (real_of v) (real_of s) - real_of v))%R by lra.
  eapply Rle_trans; [apply Rabs_triang | ].
  rewrite Hd, Rabs_mult, (Rabs_pos_eq ((7 / 10) ^ k)) by (apply pow_le; lra).
  lra.
Qed.
End RepeatedUpdates.

Section CorrelationTable.
Variable proc_comm : Z -> option (list Byte.byte).

Lemma find_index_some {A : Type} (f : A -> bool) (l : list A) :
  forall i, find_index f l = Some i -> exists x, l !! i = Some x /\ f x = true.
Proof.
  induction l as [ | a l IH ]; intros i; simpl; [discriminate | ].
  destruct (f a) eqn:E.
  - intros [= <-]. exists a. auto.
  - destruct (find_index f l) as [j | ]; simpl; [ | discriminate ].
    intros [= <-]. apply (IH j eq_refl).
Qed.

Lemma new_entry_fields (p t : Z) :
  pid (new_entry proc_comm p t) = p /\ tid (new_entry proc_comm p t) = t /\
  active (new_entry proc_comm p t) = true /\
  anomaly_score (new_entry proc_comm p t) = Single.zero /\
  total_samples (new_entry proc_comm p t) = 0 /\
  suspicious_samples (new_entry proc_comm p t) = 0.
Proof. unfold new_entry, correlation_resolve_comm. simpl. auto 10. Qed.

(** [find_or_create] designates a slot of the table that is active and
    carries the requested pid; a slot it had to create starts with score 0. *)
Lemma find_or_create_slot (eng : correlation_engine) (p t : Z)
    (eng1 : correlation_engine) (i : nat) :
  corr_wf eng -> find_or_create proc_comm eng p t = Some (eng1, i) ->
  corr_wf eng1 /\
  exists entry,
    entries eng1 !! i = Some entry /\ pid entry = p /\ active entry = true /\
    (eng1 = eng \/ entry = new_entry proc_comm p t).
Proof.
  intros (Hlen & Hcnt) Hf. unfold find_or_create in Hf.
  set (used := take (Z.to_nat (count eng)) (entries eng)) in *.
  destruct (find_index (fun e => (pid e =? p) && active e) used) as [j | ] eqn:E1.
  - injection Hf as <- <-. split; [split; assumption | ].
    destruct (find_index_some _ _ _ E1) as (x & Hx & Hfx).
    apply andb_true_iff in Hfx. destruct Hfx as [Hp Ha]. apply Z.eqb_eq in Hp.
    exists x. subst used. rewrite lookup_take_Some in Hx. destruct Hx as [Hx _].
    auto.
  - destruct (find_index (fun e => negb (active e)) used) as [j | ] eqn:E2.
    + injection Hf as <- <-.
      destruct (find_index_some _ _ _ E2) as (x & Hx & _).
      subst used. rewrite lookup_take_Some in Hx. destruct Hx as [Hx _].
      apply lookup_lt_Some in Hx.
      split; [unfold corr_wf; simpl; rewrite length_insert; auto | ].
      exists (new_entry proc_comm p t). simpl.
      rewrite list_lookup_insert_eq by exact Hx.
      pose proof (new_entry_fields p t). intuition.
    + destruct (CORR_MAX_TRACKED <=? count eng) eqn:E3; [discriminate | ].
      apply Z.leb_gt in E3. injection Hf as <- <-.
      split.
      * unfold corr_wf; simpl. rewrite length_insert. split; [exact Hlen | ].
        unfold wrap64, CORR_MAX_TRACKED in *. rewrite Z.mod_small; lia.
      * exists (new_entry proc_comm p t). simpl.
        rewrite list_lookup_insert_eq by lia.
        pose proof (new_entry_fields p t). intuition.
Qed.

(** [correlation_update] replaces the designated entry by its update and
    touches no other slot; when the table is full and the pid unknown it
    changes nothing. *)
Lemma correlation_update_spec (eng : correlation_engine) (p t : Z)
    (score : spec_float) (ts : Z) :
  corr_wf eng ->
  match find_or_create proc_comm eng p t with
  | None => correlation_update proc_comm eng p t score ts = eng
  | Some (eng1, i) =>
      exists entry,
        entries eng1 !! i = Some entry /\ pid entry = p /\ active entry = true /\
        entries (correlation_update proc_comm eng p t score ts)
          = <[i := update_entry entry score ts]> (entries eng1) /\
        count (correlation_update proc_comm eng p t score ts) = count eng1 /\
        corr_wf (correlation_update proc_comm eng p t score ts)
  end.
Proof.
  intros Hwf. unfold correlation_update.
  destruct (find_or_create proc_comm eng p t) as [[eng1 i] | ] eqn:E; [ | reflexivity ].
  destruct (find_or_create_slot eng p t eng1 i Hwf E)
    as ((Hlen1 & Hcnt1) & entry & Hl & Hp & Ha & _).
  exists entry. rewrite Hl. simpl.
  split; [reflexivity | ]. split; [exact Hp | ]. split; [exact Ha | ].
  split; [reflexivity | ]. split; [reflexivity | ].
  unfold corr_wf; simpl. rewrite length_insert. auto.
Qed.

Lemma ema_single_formula (score old : spec_float) :
  ema_single score old =
  Single.add (Single.mul Single.c0_3 score) (Single.mul single_0_7 old).
Proof. reflexivity. Qed.
End CorrelationTable.

Section Decay.

Lemma decay_entry_cases (window_ns : Z) (factor : spec_float) (now_ns : Z)
    (e : process_risk) :
  let e' := decay_entry window_ns factor now_ns e in
  let age := wrap64 (now_ns - last_seen_ns e) in
  (active e = false -> e' = e) /\
  (active e = true -> window_ns < age ->
     active e' = false /\ e' = deactivate e) /\
  (active e = true -> age <= window_ns ->
     active e' = true /\
     anomaly_score e' =
       (let sc := Single.mul (anomaly_score e) (Single.of_double factor) in
        if Single.ltb sc Single.c0_001 then Single.zero else sc) /\
     e' = set_score e (anomaly_score e')).
Proof.
  unfold decay_entry. cbv zeta. split; [ | split ].
  - intros ->. reflexivity.
  - intros -> Hlt. simpl. apply Z.ltb_lt in Hlt. rewrite Hlt. auto.
  - intros Ha Hle. rewrite Ha. simpl. apply Z.ltb_ge in Hle. rewrite Hle.
    simpl. auto.
Qed.

Lemma correlation_decay_lookup (eng : correlation_engine) (now_ns : Z) (i : nat) :
  corr_wf eng ->
  entries (correlation_decay eng now_ns) !! i =
  if (Z.of_nat i <? count eng)
  then decay_entry (wrap64 (window_sec eng * 1000000000)) (decay_factor eng) now_ns
         <$> entries eng !! i
  else entries eng !! i.
Proof.
  intros (Hlen & Hcnt). unfold correlation_decay. simpl.
  unfold CORR_MAX_TRACKED in *.
  assert (Htake : length (take (Z.to_nat (count eng)) (entries eng)) = Z.to_nat (count eng))
    by (rewrite length_take; lia).
  destruct (Z.of_nat i <? count eng) eqn:E.
  - apply Z.ltb_lt in E.
    rewrite lookup_app_l by (rewrite length_map; lia).
    rewrite list_lookup_fmap, lookup_take_lt by lia. reflexivity.
  - apply Z.ltb_ge in E.
    rewrite lookup_app_r by (rewrite length_map; lia).
    rewrite length_map, Htake, lookup_drop. f_equal. lia.
Qed.
End Decay.

(** C8 (as the code has it).  [correlation_update] replaces the score of
    the entry it selects by the [float] value of
    0.3f * score + 0.7f * score_old (1.0f - 0.3f is exactly 0.7f) and leaves
    the other slots alone.  Read in exact arithmetic this recurrence
    converges monotonically toward v under k identical inputs v: the
    distance to v is multiplied by 0.7 at each update, the score stays on
    its side of v, and it comes arbitrarily close to v.  The [float] score
    of an entry follows it: after k updates with the same score v, for v
    and the initial score in [0, 1], the entry's score is a [float] >= 0
    within 2^-20 of the exact recurrence, hence within
    0.7^k |s - v| + 2^-20 of v.  [correlation_decay]
    deactivates every active entry among the used slots whose age
    now - last_seen (a [uint64_t] difference) exceeds the window, and
    otherwise multiplies its score by the decay factor converted to [float]
    and snaps the product to exactly 0 when it is below 0.001f; inactive
    entries and unused slots are left as they are. *)
Theorem correlation_ema_and_decay (proc_comm : Z -> option (list Byte.byte))
    (eng : correlation_engine) :
  corr_wf eng ->
  (forall p t score ts,
     match find_or_create proc_comm eng p t with
     | None => correlation_update proc_comm eng p t score ts = eng
     | Some (eng1, i) =>
         exists entry,
           entries eng1 !! i = Some entry /\ pid entry = p /\ active entry = true /\
           entries (correlation_update proc_comm eng p t score ts)
             = <[i := update_entry entry score ts]> (entries eng1) /\
           anomaly_score (update_entry entry score ts)
             = Single.add (Single.mul Single.c0_3 score)
                          (Single.mul single_0_7 (anomaly_score entry))
     end) /\
  (forall (v s : R) (k : nat),
     (ema_exact_iter k v s - v = (7 / 10) ^ k * (s - v))%R /\
     (Rabs (ema_exact_iter (S k) v s - v) <= Rabs (ema_exact_iter k v s - v))%R /\
     ((s <= v)%R -> (ema_exact_iter k v s <= ema_exact_iter (S k) v s <= v)%R) /\
     ((v <= s)%R -> (v <= ema_exact_iter (S k) v s <= ema_exact_iter k v s)%R)) /\
  (forall v s eps : R,
     (0 < eps)%R ->
     exists K, forall k, (K <= k)%nat -> (Rabs (ema_exact_iter k v s - v) < eps)%R) /\
  (forall (entry : process_risk) (v : spec_float) (tss : list Z),
     unit_score v -> unit_score (anomaly_score entry) ->
     let k := length tss in
     let s := anomaly_score entry in
     let f := anomaly_score (updated_entry entry v tss) in
     f = ema_single_iter k v s /\
     nonneg_single f /\
     (Rabs (real_of f - ema_exact_iter k (real_of v) (real_of s)) <= / 1048576)%R /\
     (Rabs (real_of f - real_of v)
      <= (7 / 10) ^ k * Rabs (real_of s - real_of v) + / 1048576)%R) /\
  (forall now_ns i e,
     entries eng !! i = Some e -> Z.of_nat i < count eng ->
     exists e',
       entries (correlation_decay eng now_ns) !! i = Some e' /\
       let age := wrap64 (now_ns - last_seen_ns e) in
       let window_ns := wrap64 (window_sec eng * 1000000000) in
       (active e = false -> e' = e) /\
       (active e = true -> window_ns < age -> active e' = false /\ e' = deactivate e) /\
       (active e = true -> age <= window_ns ->
          active e' = true /\
          anomaly_score e' =
            (let sc := Single.mul (anomaly_score e) (Single.of_double (decay_factor eng)) in
             if Single.ltb sc Single.c0_001 then Single.zero else sc) /\
          e' = set_score e (anomaly_score e'))) /\
  (forall now_ns i,
     count eng <= Z.of_nat i ->
     entries (correlation_decay eng now_ns) !! i = entries eng !! i) /\
  (forall now_ns, count (correlation_decay eng now_ns) = count eng) /\
  (0 <= window_sec eng < 2 ^ 32 ->
   wrap64 (window_sec eng * 1000000000) = window_sec eng * 1000000000).
Proof.
  intros Hwf.
  split.
  { intros p t score ts.
    pose proof (correlation_update_spec proc_comm eng p t score ts Hwf) as Hu.
    destruct (find_or_create proc_comm eng p t) as [[eng1 i] | ]; [ | exact Hu ].
    destruct Hu as (entry & Hl & Hp & Ha & He & _).
    exists entry. repeat (split; [assumption | ]). reflexivity. }
  split.
  { intros v s k. split; [apply ema_exact_iter_distance | apply ema_exact_monotone]. }
  split; [exact ema_exact_converges | ].
  split.
  { intros entry v tss Hv Hs. cbv zeta. rewrite updated_entry_score.
    split; [reflexivity | ]. apply ema_single_converges; assumption. }
  split.
  { intros now_ns i e Hl Hi.
    rewrite (correlation_decay_lookup eng now_ns i Hwf).
    apply Z.ltb_lt in Hi. rewrite Hi, Hl. simpl.
    eexists. split; [reflexivity | ]. apply decay_entry_cases. }
  split.
  { intros now_ns i Hi. rewrite (correlation_decay_lookup eng now_ns i Hwf).
    apply Z.ltb_ge in Hi. rewrite Hi. reflexivity. }
  split; [reflexivity | ].
  intros Hw. unfold wrap64. apply Z.mod_small. lia.
Qed.

Lemma correlation_ema_and_decay_witness :
  corr_wf (updated 1) /\
  (forall entry,
     entries (updated 1) !! 0%nat = Some entry ->
     anomaly_score entry = ema_single score_0_9 Single.zero /\
     exists e',
       entries (correlation_decay (updated 1) 2000) !! 0%nat = Some e' /\
       active e' = true /\
       anomaly_score e' =
         Single.mul (anomaly_score entry) (Single.of_double Double.c0_95)) /\
  (Rabs (real_of (ema_single_iter 43 score_0_9 Single.zero) - real_of score_0_9)
   <= (7 / 10) ^ 43 * Rabs (real_of Single.zero - real_of score_0_9) + / 1048576)%R.
Proof.
  assert (H : corr_wf (updated 1)).
  { unfold corr_wf, CORR_MAX_TRACKED. split; [reflexivity | vm_compute; split; discriminate]. }
  split; [exact H | ].
  destruct (correlation_ema_and_decay no_proc (updated 1) H)
    as (_ & _ & _ & Htrack & Hdecay & _).
  split.
  - intros entry He.
    assert (Hentry : anomaly_score entry = ema_single score_0_9 Single.zero /\
                     active entry = true /\ last_seen_ns entry = 1000).
    { vm_compute in He. injection He as <-. repeat split. }
    destruct Hentry as (Hscore & Hactive & Hseen).
    split; [exact Hscore | ].
    destruct (Hdecay 2000 0%nat entry He ltac:(vm_compute; reflexivity))
      as (e' & Hl & _ & _ & Hkeep).
    exists e'. split; [exact Hl | ].
    destruct Hkeep as (Ha & Hs & _); [exact Hactive | rewrite Hseen; vm_compute; discriminate | ].
    split; [exact Ha | ]. rewrite Hs, Hscore. reflexivity.
  - assert (Hnum : powerRZ 2 (-24) = (/ 16777216)%R) by apply bpow_numerals.
    assert (H9 : unit_score score_0_9).
    { split; [repeat split | ]. unfold score_0_9. cbn [real_of]. rewrite Hnum. lra. }
    assert (H0 : unit_score Single.zero).
    { split; [repeat split | ]. cbn [real_of Single.zero]. lra. }
    pose (entry := {| pid := 42; tid := 0; comm := []; anomaly_score := Single.zero;
                      suspicious_samples := 0; total_samples := 0; last_seen_ns := 0;
                      active := true |}).
    destruct (Htrack entry score_0_9 (replicate 43 1000) H9 H0) as (Hf & _ & _ & Hconv).
    cbv zeta in Hf, Hconv. rewrite Hf in Hconv. exact Hconv.
Defined.

(** C8 as stated fails in [float] arithmetic.  A fresh entry updated again
    and again with the score 0.9f stalls after 43 updates at
    0.89999986, two units in the last place below 0.9f, and stays there: it
    never reaches 0.9f.  An entry whose score is exactly 0.95f moves away
    from 0.95f when it is updated with 0.95f. *)
Lemma ema_float_counterexample :
  score_of (updated 43) 0 = Some (S754_finite false 15099492 (-24)) /\
  score_of (updated 44) 0 = Some (S754_finite false 15099492 (-24)) /\
  score_of (updated 100) 0 = Some (S754_finite false 15099492 (-24)) /\
  ema_single score_0_9 (S754_finite false 15099492 (-24)) = S754_finite false 15099492 (-24) /\
  score_0_9 = S754_finite false 15099494 (-24) /\
  Single.ltb (S754_finite false 15099492 (-24)) score_0_9 = true /\
  ema_single score_0_95 score_0_95 <> score_0_95 /\
  Single.ltb (ema_single score_0_95 score_0_95) score_0_95 = true.
Proof.
  repeat split; try (vm_compute; reflexivity).
  vm_compute. discriminate.
Qed.

(** ** ipc_socket.c: the wire record *)

Section WireFormat.

Lemma bits_of_bits_zero_inf_nan :
  (forall s, Single.of_bits (Single.bits (S754_zero s)) = S754_zero s) /\
  (forall s, Single.of_bits (Single.bits (S754_infinity s)) = S754_infinity s) /\
  Single.of_bits (Single.bits S754_nan) = S754_nan.
Proof. repeat split; try intros []; reflexivity. Qed.

Lemma testbit_31 (s : bool) (r : Z) :
  0 <= r < 2 ^ 31 -> Z.testbit (Single.sign_bit s + r) 31 = s.
Proof.
  intros Hr. rewrite Z.testbit_eqb by lia. unfold Single.sign_bit.
  destruct s.
  - replace ((2 ^ 31 + r) / 2 ^ 31) with 1; [reflexivity | ].
    apply (Z.div_unique _ _ 1 r); lia.
  - rewrite Z.add_0_l, Z.div_small by lia. reflexivity.
Qed.

Lemma single_bits_range (x : spec_float) :
  Single.valid x = true -> 0 <= Single.bits x < 2 ^ 32.
Proof.
  destruct x as [s | s | | s m e].
  - intros _. destruct s; simpl; lia.
  - intros _. destruct s; simpl; lia.
  - intros _. simpl. lia.
  - intros Hv. apply valid_single_cases in Hv. unfold Single.bits, Single.prec.
    assert (Hs : 0 <= Single.sign_bit s <= 2 ^ 31) by (destruct s; simpl; lia).
    destruct Hv as [(Hm & Hd & He) | (Hm & Hd & He)].
    + rewrite Hd, Z.eqb_refl. lia.
    + replace (Zpos (digits2_pos m) =? 24) with false by (symmetry; apply Z.eqb_neq; lia).
      lia.
Qed.

(** Decoding the 32-bit word of a [float] gives the [float] back. *)
Lemma single_of_bits_bits (x : spec_float) :
  Single.valid x = true -> Single.of_bits (Single.bits x) = x.
Proof.
  destruct x as [s | s | | s m e]; try (intros _; apply bits_of_bits_zero_inf_nan).
  intros Hv. apply valid_single_cases in Hv. unfold Single.bits, Single.prec.
  destruct Hv as [(Hm & Hd & He) | (Hm & Hd & He)].
  - rewrite Hd, Z.eqb_refl. unfold Single.of_bits.
    set (r := (e + 150) * 2 ^ 23 + (Zpos m - 2 ^ 23)).
    assert (Hr : 0 <= r < 2 ^ 31) by (subst r; lia).
    replace (Single.sign_bit s + (e + 150) * 2 ^ 23 + (Zpos m - 2 ^ 23))
      with (Single.sign_bit s + r) by (subst r; lia).
    rewrite (testbit_31 s r Hr).
    assert (Hdiv : ((Single.sign_bit s + r) / 2 ^ 23) mod 256 = e + 150).
    { replace (Single.sign_bit s + r)
        with ((e + 150 + (if s then 256 else 0)) * 2 ^ 23 + (Zpos m - 2 ^ 23))
        by (subst r; unfold Single.sign_bit; destruct s; lia).
      rewrite Z.div_add_l, (Z.div_small (Zpos m - 2 ^ 23)), Z.add_0_r by lia.
      destruct s.
      - replace (e + 150 + 256) with (e + 150 + 1 * 256) by lia.
        rewrite Z.mod_add by lia. apply Z.mod_small. lia.
      - rewrite Z.add_0_r. apply Z.mod_small. lia. }
    assert (Hmod : (Single.sign_bit s + r) mod 2 ^ 23 = Zpos m - 2 ^ 23).
    { replace (Single.sign_bit s + r)
        with ((Zpos m - 2 ^ 23) + (e + 150 + (if s then 256 else 0)) * 2 ^ 23)
        by (subst r; unfold Single.sign_bit; destruct s; lia).
      rewrite Z.mod_add by lia. apply Z.mod_small. lia. }
    rewrite Hdiv, Hmod.
    replace (e + 150 =? 255) with false by (symmetry; apply Z.eqb_neq; lia).
    replace (e + 150 =? 0) with false by (symmetry; apply Z.eqb_neq; lia).
    replace (Zpos m - 2 ^ 23 + 2 ^ 23) with (Zpos m) by lia.
    f_equal. lia.
  - replace (Zpos (digits2_pos m) =? 24) with false by (symmetry; apply Z.eqb_neq; lia).
    unfold Single.of_bits.
    assert (Hr : 0 <= Zpos m < 2 ^ 31) by lia.
    rewrite (testbit_31 s (Zpos m) Hr).
    assert (Hdiv : ((Single.sign_bit s + Zpos m) / 2 ^ 23) mod 256 = 0).
    { replace (Single.sign_bit s + Zpos m)
        with ((if s then 256 else 0) * 2 ^ 23 + Zpos m)
        by (unfold Single.sign_bit; destruct s; lia).
      rewrite Z.div_add_l, (Z.div_small (Zpos m)), Z.add_0_r by lia.
      destruct s; reflexivity. }
    assert (Hmod : (Single.sign_bit s + Zpos m) mod 2 ^ 23 = Zpos m).
    { replace (Single.sign_bit s + Zpos m)
        with (Zpos m + (if s then 256 else 0) * 2 ^ 23)
        by (unfold Single.sign_bit; destruct s; lia).
      rewrite Z.mod_add by lia. apply Z.mod_small. lia. }
    rewrite Hdiv, Hmod. simpl Z.eqb. cbv iota. subst e. reflexivity.
Qed.

Lemma combine_split_u64 (z : Z) : is_u64 z -> le_combine (le_split 8 z) = z.
Proof.
  intros Hz. rewrite le_combine_split. apply Z.mod_small. exact Hz.
Qed.

Lemma combine_split_single (x : spec_float) :
  Single.valid x = true ->
  Single.of_bits (le_combine (le_split 4 (Single.bits x))) = x.
Proof.
  intros Hv. rewrite le_combine_split, Z.mod_small by (apply single_bits_range, Hv).
  apply single_of_bits_bits, Hv.
Qed.

Lemma wire_bytes_length (w : Wire.ipc_sample_wire) : length (wire_bytes w) = 68%nat.
Proof. unfold wire_bytes. rewrite !length_app, !length_le_split. reflexivity. Qed.

(** The ten fields of the datagram at their offsets. *)
Lemma wire_layout (w : Wire.ipc_sample_wire) :
  field 0 8 (wire_bytes w) = le_split 8 (Wire.timestamp_ns w) /\
  field 8 8 (wire_bytes w) = le_split 8 (Wire.cache_references w) /\
  field 16 8 (wire_bytes w) = le_split 8 (Wire.cache_misses w) /\
  field 24 8 (wire_bytes w) = le_split 8 (Wire.branch_instructions w) /\
  field 32 8 (wire_bytes w) = le_split 8 (Wire.branch_misses w) /\
  field 40 8 (wire_bytes w) = le_split 8 (Wire.cycles w) /\
  field 48 8 (wire_bytes w) = le_split 8 (Wire.instructions w) /\
  field 56 4 (wire_bytes w) = le_split 4 (Single.bits (Wire.cache_miss_rate w)) /\
  field 60 4 (wire_bytes w) = le_split 4 (Single.bits (Wire.branch_miss_rate w)) /\
  field 64 4 (wire_bytes w) = le_split 4 (Single.bits (Wire.ipc w)).
Proof.
  unfold wire_bytes, field. cbv [le_split app firstn skipn].
  repeat split; reflexivity.
Qed.
End WireFormat.

(** C9.  Every sample the sampler builds has 64-bit counters and ratios
    that are binary32 numbers (not NaN).  For such a sample the datagram
    serialized for it is exactly 68 bytes long and holds, without padding and in this order, timestamp_ns,
    cache_references, cache_misses, branch_instructions, branch_misses,
    cycles, instructions as 8-byte little-endian integers (least
    significant byte first) and then cache_miss_rate, branch_miss_rate, ipc
    as the 4-byte little-endian binary32 words of the floats; decoding the
    datagram gives the sample back, so that encoding, decoding and
    re-encoding yields byte-identical output. *)
Theorem wire_record (s : telemetry_sample) :
  sample_wf s ->
  length (encode_sample s) = 68%nat /\
  (field 0 8 (encode_sample s) = le_split 8 (timestamp_ns s) /\
   field 8 8 (encode_sample s) = le_split 8 (cache_references s) /\
   field 16 8 (encode_sample s) = le_split 8 (cache_misses s) /\
   field 24 8 (encode_sample s) = le_split 8 (branch_instructions s) /\
   field 32 8 (encode_sample s) = le_split 8 (branch_misses s) /\
   field 40 8 (encode_sample s) = le_split 8 (cycles s) /\
   field 48 8 (encode_sample s) = le_split 8 (instructions s) /\
   field 56 4 (encode_sample s) = le_split 4 (Single.bits (cache_miss_rate s)) /\
   field 60 4 (encode_sample s) = le_split 4 (Single.bits (branch_miss_rate s)) /\
   field 64 4 (encode_sample s) = le_split 4 (Single.bits (ipc s))) /\
  (forall z,
     le_split 8 z =
       [byte.of_Z z; byte.of_Z (Z.shiftr z 8); byte.of_Z (Z.shiftr (Z.shiftr z 8) 8);
        byte.of_Z (Z.shiftr (Z.shiftr (Z.shiftr z 8) 8) 8);
        byte.of_Z (Z.shiftr (Z.shiftr (Z.shiftr (Z.shiftr z 8) 8) 8) 8);
        byte.of_Z (Z.shiftr (Z.shiftr (Z.shiftr (Z.shiftr (Z.shiftr z 8) 8) 8) 8) 8);
        byte.of_Z (Z.shiftr (Z.shiftr (Z.shiftr (Z.shiftr (Z.shiftr (Z.shiftr z 8) 8) 8) 8) 8) 8);
        byte.of_Z (Z.shiftr (Z.shiftr (Z.shiftr (Z.shiftr (Z.shiftr (Z.shiftr (Z.shiftr z 8) 8) 8) 8) 8) 8) 8)]) /\
  decode_sample (encode_sample s) = Some s /\
  (forall s', decode_sample (encode_sample s) = Some s' ->
              encode_sample s' = encode_sample s) /\
  (forall now cur prev, is_u64 now -> sample_wf (make_sample now cur prev)).
Proof.
  intros (Hts & Hcr & Hcm & Hbi & Hbm & Hcy & Hin & Hv1 & Hv2 & Hv3 & _).
  assert (Hlen : length (encode_sample s) = 68%nat) by apply wire_bytes_length.
  pose proof (wire_layout (wire_of_sample s)) as Hlay.
  fold (encode_sample s) in Hlay.
  assert (Hdec : decode_sample (encode_sample s) = Some s).
  { unfold decode_sample. rewrite Hlen. simpl Nat.eqb. cbv iota.
    destruct Hlay as (L0 & L1 & L2 & L3 & L4 & L5 & L6 & L7 & L8 & L9).
    rewrite L0, L1, L2, L3, L4, L5, L6, L7, L8, L9. simpl.
    rewrite !combine_split_u64, !combine_split_single by assumption.
    destruct s; reflexivity. }
  split; [exact Hlen | ]. split; [exact Hlay | ].
  split; [intros z; reflexivity | ].
  split; [exact Hdec | ].
  split; [ | exact make_sample_wf].
  intros s' Hs'. rewrite Hdec in Hs'. injection Hs' as <-. reflexivity.
Qed.

Lemma wire_record_witness :
  sample_wf wire_sample /\
  length (encode_sample wire_sample) = 68%nat /\
  decode_sample (encode_sample wire_sample) = Some wire_sample.
Proof.
  assert (H : sample_wf wire_sample).
  { unfold sample_wf, is_u64, wire_sample. simpl.
    repeat split; try lia; reflexivity. }
  split; [exact H | ].
  split; apply (wire_record wire_sample H).
Defined.

(* ===================================================================== *)
(** * Part III. Further properties of the code                            *)
(* ===================================================================== *)

(** ** ringbuffer.c: interleaved calls *)

Section RingBufferCalls.

Lemma queue_step_push (rb : ringbuffer) (s : telemetry_sample) :
  rb_wf rb ->
  exists rb' a,
    rb_step rb (CallPush s) = Some (rb', a) /\ rb_wf rb' /\ capacity rb' = capacity rb /\
    (rb_contents rb', a) = queue_step (capacity rb - 1) (rb_contents rb) (CallPush s).
Proof.
  intros Hwf. pose proof (push_spec rb s Hwf) as Hp.
  pose proof (contents_length rb) as Hlen. pose proof (count_range rb Hwf) as Hr.
  unfold rb_step, queue_step. rewrite Hlen, Z2Nat.id by lia.
  destruct (ringbuffer_count rb =? capacity rb - 1) eqn:E.
  - rewrite Hp. apply Z.eqb_eq in E.
    replace (ringbuffer_count rb <? capacity rb - 1) with false
      by (symmetry; apply Z.ltb_ge; lia).
    exists rb, (Pushed false).
    split; [reflexivity | ]. split; [exact Hwf | ]. split; reflexivity.
  - destruct Hp as (rb' & -> & Hwf' & Hcap & Hc). apply Z.eqb_neq in E.
    replace (ringbuffer_count rb <? capacity rb - 1) with true
      by (symmetry; apply Z.ltb_lt; lia).
    exists rb', (Pushed true). rewrite Hc.
    split; [reflexivity | ]. split; [exact Hwf' | ]. split; [exact Hcap | reflexivity].
Qed.

Lemma queue_step_pop (rb : ringbuffer) :
  rb_wf rb ->
  exists rb' a,
    rb_step rb CallPop = Some (rb', a) /\ rb_wf rb' /\ capacity rb' = capacity rb /\
    (rb_contents rb', a) = queue_step (capacity rb - 1) (rb_contents rb) CallPop.
Proof.
  intros Hwf. pose proof (pop_spec rb Hwf) as Hp.
  unfold rb_step, queue_step.
  destruct (rb_contents rb) as [ | x l ] eqn:E.
  - rewrite Hp. exists rb, (Popped None). rewrite E.
    split; [reflexivity | ]. split; [exact Hwf | ]. split; reflexivity.
  - destruct Hp as (rb' & -> & Hwf' & Hcap & Hc).
    exists rb', (Popped (Some x)). rewrite Hc.
    split; [reflexivity | ]. split; [exact Hwf' | ]. split; [exact Hcap | reflexivity].
Qed.

End RingBufferCalls.

(** X1.  Any sequence of [ringbuffer_push] and [ringbuffer_pop] calls on a
    well-formed buffer, in any interleaving, returns and answers exactly as
    a FIFO queue with room for [capacity - 1] samples does: a push is
    refused exactly when the queue is full, a pop returns the oldest sample
    or reports "empty"; [ringbuffer_count] is the length of the queue and
    [ringbuffer_empty] tells whether it is empty. *)
Theorem ringbuffer_is_bounded_queue (cs : list rb_call) :
  forall rb,
    rb_wf rb ->
    exists rb' answers,
      rb_run rb cs = Some (rb', answers) /\
      rb_wf rb' /\ capacity rb' = capacity rb /\
      (rb_contents rb', answers) = queue_run (capacity rb - 1) (rb_contents rb) cs /\
      ringbuffer_count rb' = Z.of_nat (length (rb_contents rb')) /\
      ringbuffer_empty rb' = (match rb_contents rb' with [] => true | _ => false end).
Proof.
  induction cs as [ | c cs IH ]; intros rb Hwf.
  - exists rb, []. simpl. pose proof (contents_length rb) as Hlen.
    pose proof (count_range rb Hwf) as Hr.
    split; [reflexivity | ]. split; [exact Hwf | ]. split; [reflexivity | ].
    split; [reflexivity | ]. split; [rewrite Hlen, Z2Nat.id; lia | ].
    unfold ringbuffer_empty.
    destruct (rb_contents rb) eqn:E; simpl in Hlen.
    + apply Z.eqb_eq. lia.
    + apply Z.eqb_neq. lia.
  - assert (Hstep : exists rb1 a,
               rb_step rb c = Some (rb1, a) /\ rb_wf rb1 /\ capacity rb1 = capacity rb /\
               (rb_contents rb1, a) = queue_step (capacity rb - 1) (rb_contents rb) c).
    { destruct c as [s | ]; [apply queue_step_push | apply queue_step_pop]; exact Hwf. }
    destruct Hstep as (rb1 & a & Hs & Hwf1 & Hcap1 & Hq1).
    destruct (IH rb1 Hwf1) as (rb2 & answers & Hrun & Hwf2 & Hcap2 & Hq2 & Hcnt & Hemp).
    exists rb2, (a :: answers). simpl. rewrite Hs, Hrun.
    split; [reflexivity | ]. split; [exact Hwf2 | ]. split; [congruence | ].
    split; [ | split; assumption ].
    rewrite <- Hq1. rewrite Hcap1 in Hq2. rewrite <- Hq2. reflexivity.
Qed.

Lemma ringbuffer_is_bounded_queue_witness :
  rb_wf rb8 /\
  exists rb' answers,
    rb_run rb8 [CallPush (stamped 1); CallPop; CallPop] = Some (rb', answers) /\
    (rb_contents rb', answers) =
      queue_run (capacity rb8 - 1) (rb_contents rb8) [CallPush (stamped 1); CallPop; CallPop].
Proof.
  assert (H : rb_wf rb8).
  { unfold rb_wf, rb8. simpl. split; [exists 3; lia | ]. split; [reflexivity | lia]. }
  split; [exact H | ].
  destruct (ringbuffer_is_bounded_queue [CallPush (stamped 1); CallPop; CallPop] rb8 H)
    as (rb' & answers & Hr & _ & _ & Hq & _).
  exists rb', answers. split; [exact Hr | exact Hq].
Defined.

Section RingBufferCommute.

Lemma next_index_inj (rb : ringbuffer) (i j : Z) :
  rb_wf rb -> 0 <= i < capacity rb -> 0 <= j < capacity rb ->
  Z.land (wrap64 (i + 1)) (wrap64 (capacity rb - 1)) =
  Z.land (wrap64 (j + 1)) (wrap64 (capacity rb - 1)) -> i = j.
Proof.
  intros Hwf Hi Hj. rewrite !next_index by assumption.
  destruct (i + 1 <? capacity rb) eqn:Ei; destruct (j + 1 <? capacity rb) eqn:Ej;
    try apply Z.ltb_lt in Ei; try apply Z.ltb_ge in Ei;
    try apply Z.ltb_lt in Ej; try apply Z.ltb_ge in Ej; lia.
Qed.

End RingBufferCommute.

(** X2.  On a buffer that is neither empty nor full a push and a pop
    commute: pushing and then popping leaves exactly the same buffer
    (slots, head, tail) and gives the same answers as popping and then
    pushing; the pop returns the oldest sample and the pushed sample ends
    up last in the queue. *)
Theorem push_pop_commute (rb : ringbuffer) (s : telemetry_sample) :
  rb_wf rb ->
  ringbuffer_count rb <> 0 -> ringbuffer_count rb <> capacity rb - 1 ->
  exists rb' x l,
    rb_contents rb = x :: l /\
    push_pop rb s = Some (rb', true, Some x) /\
    pop_push rb s = Some (rb', true, Some x) /\
    rb_wf rb' /\ rb_contents rb' = l ++ [s].
Proof.
  intros Hwf Hne Hnf.
  pose proof (count_cases rb Hwf) as Hcnt.
  pose proof (next_index rb (head rb) Hwf) as Hnh.
  pose proof (next_index rb (tail rb) Hwf) as Hnt.
  pose proof (next_index_inj rb (head rb) (tail rb) Hwf) as Hinj.
  pose proof (pop_spec rb Hwf) as Hpop.
  pose proof (contents_nil_iff rb Hwf) as Hnil.
  destruct (rb_contents rb) as [ | x l ] eqn:Ec; [exfalso; apply Hne, Hnil; reflexivity | ].
  destruct Hpop as (rb1 & Hp1 & Hwf1 & Hcap1 & Hc1).
  pose proof (push_spec rb1 s Hwf1) as Hpush1.
  pose proof (contents_length rb) as Hlen. pose proof (contents_length rb1) as Hlen1.
  pose proof (count_range rb Hwf) as Hr. pose proof (count_range rb1 Hwf1) as Hr1.
  rewrite Ec in Hlen. rewrite Hc1 in Hlen1. simpl in Hlen.
  replace (ringbuffer_count rb1 =? capacity rb1 - 1) with false in Hpush1
    by (symmetry; apply Z.eqb_neq; lia).
  destruct Hpush1 as (rb2 & Hp2 & Hwf2 & Hcap2 & Hc2).
  exists rb2, x, l. split; [reflexivity | ].
  assert (Hpp : pop_push rb s = Some (rb2, true, Some x)).
  { unfold pop_push. rewrite Hp1, Hp2. reflexivity. }
  split; [ | split; [exact Hpp | split; [exact Hwf2 | rewrite Hc2, Hc1; reflexivity]]].
  rewrite <- Hpp. clear Hpp Hwf2 Hcap2 Hc2 Hp2 Hp1 Hwf1 Hcap1 Hc1 Hlen1 Hr1 Hnil.
  destruct Hwf as ((k & Hk & Hcap) & Hbuf & Hh & Ht).
  specialize (Hnh Hh). specialize (Hnt Ht). specialize (Hinj Hh Ht).
  assert (Hht : head rb <> tail rb).
  { intros E. rewrite E in Hcnt. rewrite Z.leb_refl in Hcnt. lia. }
  assert (Hnh_t : Z.land (wrap64 (head rb + 1)) (wrap64 (capacity rb - 1)) <> tail rb).
  { rewrite Hnh. destruct (head rb + 1 <? capacity rb) eqn:E1;
      destruct (tail rb <=? head rb) eqn:E2;
      try apply Z.ltb_lt in E1; try apply Z.ltb_ge in E1;
      try apply Z.leb_le in E2; try apply Z.leb_gt in E2; lia. }
  destruct (lookup_lt_is_Some_2 (buffer rb) (Z.to_nat (head rb))) as [vh Hvh]; [lia | ].
  destruct (lookup_lt_is_Some_2 (buffer rb) (Z.to_nat (tail rb))) as [vt Hvt]; [lia | ].
  unfold push_pop, pop_push, ringbuffer_push, ringbuffer_pop. cbn [head tail buffer capacity].
  rewrite Hvh, Hvt.
  replace (Z.land (wrap64 (head rb + 1)) (wrap64 (capacity rb - 1)) =? tail rb) with false
    by (symmetry; apply Z.eqb_neq; exact Hnh_t).
  replace (tail rb =? head rb) with false by (symmetry; apply Z.eqb_neq; congruence).
  cbn [head tail buffer capacity].
  replace (tail rb =? Z.land (wrap64 (head rb + 1)) (wrap64 (capacity rb - 1))) with false
    by (symmetry; apply Z.eqb_neq; congruence).
  rewrite list_lookup_insert_ne by lia. rewrite Hvt.
  replace (Z.land (wrap64 (head rb + 1)) (wrap64 (capacity rb - 1)) =?
           Z.land (wrap64 (tail rb + 1)) (wrap64 (capacity rb - 1))) with false
    by (symmetry; apply Z.eqb_neq; intros E; apply Hht, Hinj, E).
  rewrite Hvh. reflexivity.
Qed.

Lemma push_pop_commute_witness :
  rb_wf rb8_one /\ ringbuffer_count rb8_one <> 0 /\
  ringbuffer_count rb8_one <> capacity rb8_one - 1 /\
  exists rb' x, push_pop rb8_one (stamped 2) = Some (rb', true, Some x) /\
                pop_push rb8_one (stamped 2) = Some (rb', true, Some x).
Proof.
  assert (Hwf : rb_wf rb8_one).
  { unfold rb_wf, rb8_one. simpl. split; [exists 3; lia | ]. split; [reflexivity | lia]. }
  assert (H1 : ringbuffer_count rb8_one <> 0) by (vm_compute; discriminate).
  assert (H2 : ringbuffer_count rb8_one <> capacity rb8_one - 1) by (vm_compute; discriminate).
  split; [exact Hwf | ]. split; [exact H1 | ]. split; [exact H2 | ].
  destruct (push_pop_commute rb8_one (stamped 2) Hwf H1 H2)
    as (rb' & x & l & _ & Ha & Hb & _).
  exists rb', x. split; [exact Ha | exact Hb].
Defined.

(** ** telemetry.c: the sampling loop *)

Section SamplingLoop.

Lemma sampling_loop_running (ticks : list (option Pmu.reading * Z)) :
  forall p ring,
    sampling_loop {| prev := p; have_prev := true; rb := ring |} ticks =
    match push_all ring (delta_samples p (successful ticks)) with
    | Some (ring', _) =>
        Some {| prev := List.last (map fst (successful ticks)) p;
                have_prev := true; rb := ring' |}
    | None => None
    end.
Proof.
  induction ticks as [ | [[cur | ] now] ticks IH ]; intros p ring.
  - reflexivity.
  - cbn [sampling_loop sampling_iteration have_prev prev rb successful delta_samples push_all].
    destruct (ringbuffer_push ring (make_sample now cur p)) as [[ring1 b] | ]; [ | reflexivity].
    rewrite IH. cbn [map fst]. rewrite last_cons_default.
    destruct (push_all ring1 (delta_samples cur (successful ticks))) as [[ring2 bs] | ];
      reflexivity.
  - cbn [sampling_loop sampling_iteration successful]. apply IH.
Qed.

Lemma push_all_returns (l : list telemetry_sample) :
  forall ring,
    rb_wf ring ->
    exists ring' answers,
      push_all ring l = Some (ring', answers) /\ rb_wf ring' /\
      capacity ring' = capacity ring.
Proof.
  induction l as [ | s l IH ]; intros ring Hwf.
  - exists ring, []. split; [reflexivity | split; [exact Hwf | reflexivity]].
  - destruct (push_returns ring s Hwf) as (ring1 & b & Hp & Hwf1 & Hcap1 & _).
    destruct (IH ring1 Hwf1) as (ring2 & bs & Hq & Hwf2 & Hcap2).
    exists ring2, (b :: bs). simpl. rewrite Hp, Hq.
    split; [reflexivity | split; [exact Hwf2 | congruence]].
Qed.

Lemma delta_samples_length (l : list (Pmu.reading * Z)) :
  forall p, length (delta_samples p l) = length l.
Proof.
  induction l as [ | [r now] l IH ]; intros p; simpl; [reflexivity | ].
  rewrite IH. reflexivity.
Qed.

End SamplingLoop.

(** X3.  The sampling loop pushes exactly the delta series of the
    successful readings: the first successful [pmu_read] only primes the
    previous reading, every later one pushes the sample of the delta to the
    successful reading before it (stamped with the clock of that tick), and
    a failed read is skipped without touching the previous reading.  The
    loop never leaves the buffer ill-formed; with enough room the queue
    grows by the whole series, in order. *)
Theorem sampling_loop_series (ring : ringbuffer) (ticks : list (option Pmu.reading * Z)) :
  rb_wf ring ->
  exists st answers,
    sampling_loop (sampler_start ring) ticks = Some st /\
    push_all ring (delta_series (successful ticks)) = Some (rb st, answers) /\
    rb_wf (rb st) /\
    have_prev st = (match successful ticks with [] => false | _ => true end) /\
    prev st = List.last (map fst (successful ticks)) zero_reading /\
    length (delta_series (successful ticks)) = Nat.pred (length (successful ticks)) /\
    (Z.of_nat (length (rb_contents ring) + length (delta_series (successful ticks)))
       <= capacity ring - 1 ->
     rb_contents (rb st) = rb_contents ring ++ delta_series (successful ticks)).
Proof.
  intros Hwf. unfold sampler_start.
  induction ticks as [ | [[cur | ] now] ticks IH ].
  - exists {| prev := zero_reading; have_prev := false; rb := ring |}, [].
    simpl. split; [reflexivity | ]. split; [reflexivity | ]. split; [exact Hwf | ].
    split; [reflexivity | ]. split; [reflexivity | ]. split; [reflexivity | ].
    intros _. rewrite app_nil_r. reflexivity.
  - clear IH.
    cbn [sampling_loop sampling_iteration have_prev prev rb successful delta_series].
    rewrite sampling_loop_running.
    destruct (push_all_returns (delta_samples cur (successful ticks)) ring Hwf)
      as (ring' & answers & Hp & Hwf' & Hcap).
    rewrite Hp.
    exists {| prev := List.last (map fst (successful ticks)) cur;
              have_prev := true; rb := ring' |}, answers.
    cbn [rb have_prev prev].
    split; [reflexivity | ]. split; [reflexivity | ]. split; [exact Hwf' | ].
    split; [reflexivity | ].
    split; [cbn [map fst]; rewrite last_cons_default; reflexivity | ].
    split; [rewrite delta_samples_length; reflexivity | ].
    intros Hroom.
    destruct (push_all_room (delta_samples cur (successful ticks)) ring Hwf Hroom)
      as (ring2 & Hp2 & _ & _ & Hc).
    rewrite Hp in Hp2. injection Hp2 as <- _. exact Hc.
  - cbn [sampling_loop sampling_iteration successful]. exact IH.
Qed.

Section Telescope.

Lemma delta_sum_telescopes (f : Pmu.reading -> Z) (g : telemetry_sample -> Z) :
  (forall now c p, g (make_sample now c p) = wrap64 (f c - f p)) ->
  forall l p,
    sum_u64 g (delta_samples p l) = wrap64 (f (List.last (map fst l) p) - f p).
Proof.
  intros Hg. induction l as [ | [r now] l IH ]; intros p.
  - unfold sum_u64. simpl. rewrite Z.sub_diag. reflexivity.
  - cbn [delta_samples map fst]. rewrite last_cons_default.
    unfold sum_u64 in *. cbn [fold_right]. rewrite Hg.
    unfold wrap64 in *.
    rewrite Zplus_mod, IH, <- Zplus_mod, Zplus_mod_idemp_l.
    f_equal. lia.
Qed.

End Telescope.

(** X4.  The deltas telescope: over any run of consecutive samples the sum
    of each raw counter, taken as a [uint64_t], is the last cumulative
    reading minus the first one modulo 2^64, for all six counters; it is the
    exact difference when the counter did not wrap. *)
Theorem sampled_deltas_telescope (first : Pmu.reading) (l : list (Pmu.reading * Z)) :
  let samples := delta_samples first l in
  let final := List.last (map fst l) first in
  sum_u64 cache_references samples
    = wrap64 (Pmu.cache_references final - Pmu.cache_references first) /\
  sum_u64 cache_misses samples = wrap64 (Pmu.cache_misses final - Pmu.cache_misses first) /\
  sum_u64 branch_instructions samples
    = wrap64 (Pmu.branch_instructions final - Pmu.branch_instructions first) /\
  sum_u64 branch_misses samples
    = wrap64 (Pmu.branch_misses final - Pmu.branch_misses first) /\
  sum_u64 instructions samples = wrap64 (Pmu.instructions final - Pmu.instructions first) /\
  sum_u64 cycles samples = wrap64 (Pmu.cycles final - Pmu.cycles first) /\
  (reading_wf first -> reading_wf final ->
   Pmu.instructions first <= Pmu.instructions final ->
   sum_u64 instructions samples = Pmu.instructions final - Pmu.instructions first).
Proof.
  intros samples final.
  assert (Hi : sum_u64 instructions samples
               = wrap64 (Pmu.instructions final - Pmu.instructions first))
    by (apply (delta_sum_telescopes Pmu.instructions); reflexivity).
  split; [apply (delta_sum_telescopes Pmu.cache_references); reflexivity | ].
  split; [apply (delta_sum_telescopes Pmu.cache_misses); reflexivity | ].
  split; [apply (delta_sum_telescopes Pmu.branch_instructions); reflexivity | ].
  split; [apply (delta_sum_telescopes Pmu.branch_misses); reflexivity | ].
  split; [exact Hi | ].
  split; [apply (delta_sum_telescopes Pmu.cycles); reflexivity | ].
  intros (_ & _ & _ & _ & H1 & _) (_ & _ & _ & _ & H2 & _) Hle.
  rewrite Hi. unfold wrap64, is_u64 in *. apply Z.mod_small. lia.
Qed.

(** X5.  For clock values that fit 64 bits of nanoseconds, the time stamp is
    seconds * 10^9 + nanoseconds exactly; time stamps are ordered as the
    clock values are, distinct clock values give distinct stamps, and the
    [uint64_t] difference of two stamps is the elapsed time. *)
Theorem timestamps_monotone (s1 n1 s2 n2 : Z) :
  0 <= s1 -> 0 <= n1 < 1000000000 ->
  0 <= s2 -> 0 <= n2 < 1000000000 ->
  s2 * 1000000000 + n2 < 2 ^ 64 ->
  (s1 < s2 \/ (s1 = s2 /\ n1 <= n2)) ->
  get_timestamp_ns s1 n1 = s1 * 1000000000 + n1 /\
  get_timestamp_ns s2 n2 = s2 * 1000000000 + n2 /\
  get_timestamp_ns s1 n1 <= get_timestamp_ns s2 n2 /\
  wrap64 (get_timestamp_ns s2 n2 - get_timestamp_ns s1 n1)
    = (s2 - s1) * 1000000000 + (n2 - n1) /\
  (get_timestamp_ns s1 n1 = get_timestamp_ns s2 n2 -> s1 = s2 /\ n1 = n2).
Proof.
  intros Hs1 Hn1 Hs2 Hn2 Hb Hle.
  assert (E : forall s n, 0 <= s -> 0 <= n < 1000000000 -> s * 1000000000 + n < 2 ^ 64 ->
                get_timestamp_ns s n = s * 1000000000 + n).
  { intros s n Hs Hn Hlt. unfold get_timestamp_ns, wrap64.
    rewrite (Z.mod_small s) by lia. rewrite (Z.mod_small n) by lia.
    rewrite (Z.mod_small (s * 1000000000)) by lia. apply Z.mod_small. lia. }
  assert (H1 : s1 * 1000000000 + n1 <= s2 * 1000000000 + n2) by nia.
  rewrite (E s1 n1), (E s2 n2) by lia.
  split; [reflexivity | ]. split; [reflexivity | ]. split; [exact H1 | ].
  split; [unfold wrap64; rewrite Z.mod_small; lia | nia].
Qed.

Lemma timestamps_monotone_witness :
  get_timestamp_ns 5 999999999 <= get_timestamp_ns 6 0.
Proof.
  apply (timestamps_monotone 5 999999999 6 0); lia.
Defined.

Lemma sampling_loop_series_witness :
  rb_wf rb8 /\
  exists st,
    sampling_loop (sampler_start rb8)
      [(Some zero_reading, 10); (None, 20); (Some sample_reading, 30)] = Some st /\
    rb_contents (rb st) = [make_sample 30 sample_reading zero_reading].
Proof.
  assert (H : rb_wf rb8).
  { unfold rb_wf, rb8. simpl. split; [exists 3; lia | ]. split; [reflexivity | lia]. }
  split; [exact H | ].
  destruct (sampling_loop_series rb8
              [(Some zero_reading, 10); (None, 20); (Some sample_reading, 30)] H)
    as (st & answers & Hs & _ & _ & _ & _ & _ & Hc).
  exists st. split; [exact Hs | ]. apply Hc. vm_compute. discriminate.
Defined.

(** X6.  For every [uint32_t] sampling interval the [sleep_ts] handed to
    [nanosleep] is a valid [timespec] (0 <= tv_nsec < 10^9) of exactly
    [interval_us] microseconds; an interval of 0 gives a zero sleep. *)
Theorem sleep_interval_exact (interval_us : Z) :
  0 <= interval_us < 2 ^ 32 ->
  let '(tv_sec, tv_nsec) := sleep_ts interval_us in
  0 <= tv_sec < 4295 /\ 0 <= tv_nsec < 1000000000 /\
  tv_sec * 1000000000 + tv_nsec = interval_us * 1000 /\
  (interval_us = 0 -> tv_sec = 0 /\ tv_nsec = 0).
Proof.
  intros H. unfold sleep_ts.
  pose proof (Z.div_mod interval_us 1000000 ltac:(lia)) as Hdm.
  pose proof (Z.mod_pos_bound interval_us 1000000 ltac:(lia)) as Hm.
  assert (0 <= interval_us / 1000000 < 4295).
  { split; [apply Z.div_pos; lia | apply Z.div_lt_upper_bound; lia]. }
  split; [assumption | ]. split; [lia | ]. split; [lia | ].
  intros ->. split; reflexivity.
Qed.

Lemma sleep_interval_exact_witness :
  0 <= 1000 < 2 ^ 32 /\
  fst (sleep_ts 1000) * 1000000000 + snd (sleep_ts 1000) = 1000 * 1000.
Proof.
  split; [lia | ].
  pose proof (sleep_interval_exact 1000 ltac:(lia)) as H.
  destruct (sleep_ts 1000) as [a b]. destruct H as (_ & _ & H & _). exact H.
Defined.

(** ** anomaly.c: the names of the flags *)

(** X7.  [anomaly_flags_str] renders the flag word 0 as "none" and any other
    word as the names of its set flags, in the order cache_miss_spike,
    branch_miss_spike, ipc_collapse, burst_pattern, oscillation, separated
    by single spaces and without a trailing space.  The text is at most 73
    bytes long, so the 256-byte buffer never truncates it.  A nonzero word
    with none of the five defined bits renders as the empty string, not as
    "none". *)
Theorem anomaly_flags_str_names (flags : Z) :
  anomaly_flags_str flags =
    (if flags =? 0 then Str.none else join_words (flag_names flags)) /\
  strlen (anomaly_flags_str flags) <= 73 /\
  ~ In Byte.x00 (anomaly_flags_str flags) /\
  List.last (anomaly_flags_str flags) Byte.x00 <> Str.space /\
  (flags <> 0 -> Z.land flags 31 = 0 -> anomaly_flags_str flags = []).
Proof.
  assert (H31 : Z.land flags 31 = 0 ->
                Z.land flags ANOMALY_CACHE_MISS_SPIKE = 0 /\
                Z.land flags ANOMALY_BRANCH_MISS_SPIKE = 0 /\
                Z.land flags ANOMALY_IPC_COLLAPSE = 0 /\
                Z.land flags ANOMALY_BURST_PATTERN = 0 /\
                Z.land flags ANOMALY_OSCILLATION = 0).
  { intros H.
    assert (Hb : forall k, 0 <= k < 5 -> Z.land flags (Z.shiftl 1 k) = 0).
    { intros k Hk. apply Z.bits_inj'. intros i Hi.
      rewrite Z.land_spec, Z.bits_0.
      assert (Ht := f_equal (fun z => Z.testbit z i) H). cbv beta in Ht.
      rewrite Z.land_spec, Z.bits_0 in Ht.
      rewrite Z.shiftl_spec by lia.
      destruct (Z.eq_dec i k) as [-> | Hne].
      - change 31 with (Z.ones 5) in Ht. rewrite Z.ones_spec_low in Ht by lia.
        rewrite andb_true_r in Ht. rewrite Ht. reflexivity.
      - replace (Z.testbit 1 (i - k)) with false; [apply andb_false_r | ].
        symmetry. destruct (Z_lt_le_dec (i - k) 0) as [Hn | Hp].
        + apply Z.testbit_neg_r. lia.
        + change 1 with (2 ^ 0). apply Z.pow2_bits_false. lia. }
    unfold ANOMALY_CACHE_MISS_SPIKE, ANOMALY_BRANCH_MISS_SPIKE, ANOMALY_IPC_COLLAPSE,
      ANOMALY_BURST_PATTERN, ANOMALY_OSCILLATION.
    repeat split; apply Hb; lia. }
  assert (Hin : forall l : list Byte.byte,
             existsb (Byte.eqb Byte.x00) l = false -> ~ In Byte.x00 l).
  { intros l Hl Hi. assert (existsb (Byte.eqb Byte.x00) l = true); [ | congruence].
    apply existsb_exists. exists Byte.x00. split; [exact Hi | reflexivity]. }
  unfold anomaly_flags_str, flag_names, has_flag.
  destruct (flags =? 0) eqn:E0.
  - split; [reflexivity | ]. split; [vm_compute; discriminate | ].
    split; [apply Hin; reflexivity | ].
    split; [vm_compute; discriminate | ].
    intros H. apply Z.eqb_eq in E0. contradiction.
  - split; [ | split; [ | split; [ | split]]].
    5:{ intros _ H. destruct (H31 H) as (-> & -> & -> & -> & ->). reflexivity. }
    3: apply Hin.
    all: generalize (Z.land flags ANOMALY_CACHE_MISS_SPIKE =? 0),
              (Z.land flags ANOMALY_BRANCH_MISS_SPIKE =? 0),
              (Z.land flags ANOMALY_IPC_COLLAPSE =? 0),
              (Z.land flags ANOMALY_BURST_PATTERN =? 0),
              (Z.land flags ANOMALY_OSCILLATION =? 0);
      intros [ | ] [ | ] [ | ] [ | ] [ | ]; vm_compute; try reflexivity; discriminate.
Qed.

Section FlagNames.

Lemma bytes_eqb_eq (a : list Byte.byte) :
  forall b, a = b -> bytes_eqb a b = true.
Proof.
  intros b <-. induction a as [ | x a IH ]; simpl; [reflexivity | ].
  rewrite IH, andb_true_r. destruct x; reflexivity.
Qed.

End FlagNames.

(** X8.  On flag words made of the five defined bits [anomaly_flags_str] is
    injective: the text of an alert's reason determines the flags. *)
Theorem anomaly_flags_str_injective (f1 f2 : Z) :
  0 <= f1 < 32 -> 0 <= f2 < 32 ->
  anomaly_flags_str f1 = anomaly_flags_str f2 -> f1 = f2.
Proof.
  intros H1 H2 E. apply bytes_eqb_eq in E.
  assert (Hall : forallb (fun a : nat =>
                   forallb (fun b : nat =>
                     implb (bytes_eqb (anomaly_flags_str (Z.of_nat a))
                                      (anomaly_flags_str (Z.of_nat b)))
                           (Nat.eqb a b)) (seq 0 32)) (seq 0 32) = true)
    by (vm_compute; reflexivity).
  rewrite forallb_forall in Hall.
  specialize (Hall (Z.to_nat f1)). rewrite forallb_forall in Hall.
  specialize (Hall ltac:(apply in_seq; lia) (Z.to_nat f2) ltac:(apply in_seq; lia)).
  rewrite !Z2Nat.id in Hall by lia. rewrite E in Hall. simpl in Hall.
  apply Nat.eqb_eq in Hall. lia.
Qed.

Lemma anomaly_flags_str_injective_witness :
  0 <= 9 < 32 /\ anomaly_flags_str 9 = anomaly_flags_str 9 /\ 9 = 9.
Proof.
  split; [lia | ]. split; [reflexivity | ].
  apply (anomaly_flags_str_injective 9 9); [lia | lia | reflexivity].
Defined.

(** ** anomaly.c: the detection phase *)

Section DetectionFlags.

Lemma flag_word_branch (c b i burst osc : bool) :
  has_flag (flag_word c b i burst osc) ANOMALY_BRANCH_MISS_SPIKE = b.
Proof. destruct c, b, i, burst, osc; reflexivity. Qed.

Lemma flag_word_collapse (c b i burst osc : bool) :
  has_flag (flag_word c b i burst osc) ANOMALY_IPC_COLLAPSE = i.
Proof. destruct c, b, i, burst, osc; reflexivity. Qed.

Lemma flag_word_range (c b i burst osc : bool) : 0 <= flag_word c b i burst osc < 32.
Proof. destruct c, b, i, burst, osc; vm_compute; split; congruence. Qed.

Lemma flag_word_zero (c b i burst osc : bool) :
  flag_word c b i burst osc = 0 -> c = false /\ b = false /\ i = false.
Proof. destruct c, b, i, burst, osc; vm_compute; intros H; try discriminate; auto. Qed.

(** Everything but the window, its index and the counter is left alone by
    [anomaly_detect]. *)
Lemma anomaly_detect_frame (eng : anomaly_engine) (s : telemetry_sample)
    (eng' : anomaly_engine) (r : anomaly_result) :
  anomaly_detect eng s = Some (eng', r) ->
  baseline eng' = baseline eng /\ z_threshold eng' = z_threshold eng /\
  burst_window eng' = burst_window eng /\ recent_cap eng' = recent_cap eng /\
  n eng' = n eng /\
  sum_cmr eng' = sum_cmr eng /\ sum_cmr2 eng' = sum_cmr2 eng /\
  sum_bmr eng' = sum_bmr eng /\ sum_bmr2 eng' = sum_bmr2 eng /\
  sum_ipc eng' = sum_ipc eng /\ sum_ipc2 eng' = sum_ipc2 eng.
Proof.
  unfold anomaly_detect.
  destruct (negb (ready (baseline eng))).
  - intros H. injection H as <- _. repeat split.
  - destruct (negb (window_ok eng)); [discriminate | ].
    match goal with
    | |- context [let '(_, _) := ?p in _] => destruct p as [c f]
    end.
    intros H. injection H as <- _. repeat split.
Qed.

End DetectionFlags.

(** X9.  In a detection result CACHE_MISS_SPIKE is set exactly when
    z_cache_miss > z_threshold, BRANCH_MISS_SPIKE exactly when
    z_branch_miss > z_threshold and IPC_COLLAPSE exactly when
    z_ipc < -z_threshold (a high IPC never raises a flag); no bit outside
    the five defined ones is ever set; BURST_PATTERN only comes together
    with a primary flag and a sustained count of at least 1; and a result
    without flags carries a sustained count of 0. *)
Theorem detection_flags (eng : anomaly_engine) (s : telemetry_sample) :
  engine_wf eng -> ready (baseline eng) = true ->
  exists eng' r,
    anomaly_detect eng s = Some (eng', r) /\
    has_flag (anomaly_flags r) ANOMALY_CACHE_MISS_SPIKE
      = Double.ltb (z_threshold eng) (z_cache_miss r) /\
    has_flag (anomaly_flags r) ANOMALY_BRANCH_MISS_SPIKE
      = Double.ltb (z_threshold eng) (z_branch_miss r) /\
    has_flag (anomaly_flags r) ANOMALY_IPC_COLLAPSE
      = Double.ltb (z_ipc r) (Double.opp (z_threshold eng)) /\
    0 <= anomaly_flags r < 32 /\
    (has_flag (anomaly_flags r) ANOMALY_BURST_PATTERN = true ->
       primary_fired (anomaly_flags r) = true /\ 1 <= sustained_count r) /\
    (anomaly_flags r = 0 -> sustained_count r = 0 /\ consecutive_anomalies eng' = 0).
Proof.
  intros (Hok & Hbw & Hc & Hcap32) Hready.
  destruct (anomaly_detect_ready eng s Hready Hok)
    as (eng' & r & Hd & Hz1 & Hz2 & Hz3 & _ & Hflags & Hsus & Hcons & _).
  apply window_ok_spec in Hok. destruct Hok as (Hcap0 & _).
  exists eng', r. split; [exact Hd | ].
  rewrite Hflags, Hz1, Hz2, Hz3.
  rewrite flag_word_cache, flag_word_branch, flag_word_collapse, flag_word_burst,
    flag_word_primary.
  split; [reflexivity | ]. split; [reflexivity | ]. split; [reflexivity | ].
  split; [apply flag_word_range | ].
  split.
  - intros Hb. apply andb_true_iff in Hb. destruct Hb as [Ha Hge].
    split; [exact Ha | ]. rewrite Hsus. apply Z.leb_le in Hge. lia.
  - intros H0. apply flag_word_zero in H0. destruct H0 as (E1 & E2 & E3).
    rewrite Hsus, Hcons, E1, E2, E3. split; reflexivity.
Qed.

Section SlidingWindow.

Lemma window_at_insert (buf : list spec_float) (idx k : Z) (v : spec_float) :
  0 <= idx -> 0 <= k ->
  window_at (<[Z.to_nat idx := v]> buf) k =
  if (k =? idx) && (idx <? Z.of_nat (length buf)) then v else window_at buf k.
Proof.
  intros Hi Hk. unfold window_at.
  destruct (k =? idx) eqn:E.
  - apply Z.eqb_eq in E. subst k. simpl.
    destruct (idx <? Z.of_nat (length buf)) eqn:El.
    + apply Z.ltb_lt in El. rewrite list_lookup_insert_eq by lia. reflexivity.
    + apply Z.ltb_ge in El. rewrite list_insert_ge by lia. reflexivity.
  - apply Z.eqb_neq in E. simpl. rewrite list_lookup_insert_ne by lia. reflexivity.
Qed.

(** Writing at the write index and advancing it drops the oldest value of
    the window and appends the new one. *)
Lemma window_slide (buf : list spec_float) (cap idx : Z) (v : spec_float) :
  0 < cap -> Z.of_nat (length buf) = cap -> 0 <= idx < cap ->
  window_chronological (<[Z.to_nat idx := v]> buf) cap ((idx + 1) mod cap) =
  drop 1 (window_chronological buf cap idx) ++ [v].
Proof.
  intros Hcap Hlen Hidx. unfold window_chronological.
  destruct (Z.to_nat cap) as [ | c ] eqn:Ec; [lia | ].
  rewrite seq_S at 1. rewrite map_app. cbn [seq map drop].
  rewrite <- seq_shift, map_map. f_equal.
  - apply map_ext_in. intros j Hj. apply in_seq in Hj.
    rewrite Zplus_mod_idemp_l.
    replace (idx + 1 + Z.of_nat j) with (idx + Z.of_nat (S j)) by lia.
    pose proof (Z.mod_pos_bound (idx + Z.of_nat (S j)) cap Hcap) as Hm.
    rewrite window_at_insert by lia.
    replace ((idx + Z.of_nat (S j)) mod cap =? idx) with false; [reflexivity | ].
    symmetry. apply Z.eqb_neq.
    rewrite (mod_add_cases idx (Z.of_nat (S j)) cap) by lia.
    destruct (idx + Z.of_nat (S j) <? cap); lia.
  - cbn [map]. f_equal. rewrite Zplus_mod_idemp_l.
    replace (idx + 1 + Z.of_nat (0 + c)) with (idx + 1 * cap) by lia.
    rewrite Z.mod_add, Z.mod_small by lia.
    rewrite window_at_insert by lia. rewrite Z.eqb_refl.
    replace (idx <? Z.of_nat (length buf)) with true by (symmetry; apply Z.ltb_lt; lia).
    reflexivity.
Qed.

Lemma window_chronological_length (buf : list spec_float) (cap idx : Z) :
  length (window_chronological buf cap idx) = Z.to_nat cap.
Proof. unfold window_chronological. rewrite length_map, length_seq. reflexivity. Qed.

End SlidingWindow.

Section DetectionPhase.

Lemma anomaly_detect_returns (eng : anomaly_engine) (s : telemetry_sample) :
  engine_wf eng -> exists eng' r, anomaly_detect eng s = Some (eng', r) /\ engine_wf eng'.
Proof.
  intros Hwf. destruct (ready (baseline eng)) eqn:Hr.
  - destruct Hwf as (Hok & Hrest).
    destruct (anomaly_detect_ready eng s Hr Hok) as (eng' & r & Hd & _).
    exists eng', r. split; [exact Hd | ].
    apply (anomaly_detect_wf eng s eng' r); [split; assumption | exact Hd].
  - exists eng, zero_result. unfold anomaly_detect. rewrite Hr. simpl.
    split; [reflexivity | exact Hwf].
Qed.

Lemma finalize_after_detect (eng : anomaly_engine) (s : telemetry_sample)
    (eng' : anomaly_engine) (r : anomaly_result) :
  anomaly_detect eng s = Some (eng', r) ->
  baseline (anomaly_finalize_baseline eng') = baseline (anomaly_finalize_baseline eng).
Proof.
  intros Hd. apply anomaly_detect_frame in Hd.
  destruct Hd as (Hb & _ & _ & _ & Hn & H1 & H2 & H3 & H4 & H5 & H6).
  unfold anomaly_finalize_baseline. rewrite Hn.
  destruct (n eng <? 1); [exact Hb | ].
  unfold set_baseline. cbn [baseline]. rewrite H1, H2, H3, H4, H5, H6. reflexivity.
Qed.

End DetectionPhase.

(** X10.  A detection phase of any length always returns and never touches
    the baseline, the threshold or the learning accumulators: the three
    z-scores and the composite score of every sample are those of that
    sample against the baseline as it was finalized, whatever was analysed
    before, and finalizing again after the phase would give the same
    baseline. *)
Theorem detection_scores_history_free (ss : list telemetry_sample) :
  forall eng,
    engine_wf eng -> ready (baseline eng) = true ->
    exists eng' rs,
      detect_all eng ss = Some (eng', rs) /\
      engine_wf eng' /\
      Forall2 (scores_against (baseline eng) (z_threshold eng)) ss rs /\
      baseline eng' = baseline eng /\ z_threshold eng' = z_threshold eng /\
      n eng' = n eng /\
      baseline (anomaly_finalize_baseline eng') = baseline (anomaly_finalize_baseline eng).
Proof.
  induction ss as [ | s ss IH ]; intros eng Hwf Hready.
  - exists eng, []. simpl. split; [reflexivity | ]. split; [exact Hwf | ].
    split; [constructor | ]. repeat split.
  - destruct Hwf as (Hok & Hrest).
    destruct (anomaly_detect_ready eng s Hready Hok)
      as (eng1 & r & Hd & Hz1 & Hz2 & Hz3 & Hcomp & _ & _ & _ & _ & _ & _ & _ & Hb & Hth & Hn).
    assert (Hwf1 : engine_wf eng1).
    { apply (anomaly_detect_wf eng s eng1 r); [split; assumption | exact Hd]. }
    assert (Hready1 : ready (baseline eng1) = true) by (rewrite Hb; exact Hready).
    destruct (IH eng1 Hwf1 Hready1) as (eng2 & rs & Hrun & Hwf2 & Hall & Hb2 & Hth2 & Hn2 & Hf2).
    exists eng2, (r :: rs). simpl. rewrite Hd, Hrun.
    split; [reflexivity | ]. split; [exact Hwf2 | ].
    split.
    + constructor.
      * unfold scores_against. rewrite Hz1, Hz2, Hz3, Hcomp. repeat split.
      * rewrite Hb, Hth in Hall. exact Hall.
    + split; [congruence | ]. split; [congruence | ]. split; [congruence | ].
      rewrite Hf2. apply (finalize_after_detect eng s eng1 r Hd).
Qed.

Lemma detection_scores_history_free_witness :
  engine_wf idle_engine /\ ready (baseline idle_engine) = true /\
  exists eng' rs,
    detect_all idle_engine [stamped 2; stamped 3] = Some (eng', rs) /\
    baseline eng' = baseline idle_engine.
Proof.
  assert (Hwf : engine_wf idle_engine).
  { unfold engine_wf. split; [reflexivity | ]. split; [reflexivity | ]. simpl. lia. }
  split; [exact Hwf | ]. split; [reflexivity | ].
  destruct (detection_scores_history_free [stamped 2; stamped 3] idle_engine Hwf eq_refl)
    as (eng' & rs & Hd & _ & _ & Hb & _).
  exists eng', rs. split; [exact Hd | exact Hb].
Defined.

(** X11.  The circular buffer is a sliding window: after a detection phase
    the window, read from its oldest slot, is the old window followed by the
    values of the analysed samples, with as many of the oldest values
    dropped as samples were analysed; the write index has advanced by the
    number of samples modulo the window size.  Once at least window-size
    samples of valid [float] rates were analysed, the window holds exactly
    the cache miss rates of the last window-size samples. *)
Theorem detection_window_slides (ss : list telemetry_sample) :
  forall eng,
    engine_wf eng -> ready (baseline eng) = true ->
    exists eng' rs,
      detect_all eng ss = Some (eng', rs) /\
      recent_cap eng' = recent_cap eng /\
      recent_idx eng' = (recent_idx eng + Z.of_nat (length ss)) mod recent_cap eng /\
      window_chronological (recent_cmr eng') (recent_cap eng') (recent_idx eng') =
        drop (length ss)
          (window_chronological (recent_cmr eng) (recent_cap eng) (recent_idx eng)
           ++ map window_value ss) /\
      (Forall (fun s => Single.valid (cache_miss_rate s) = true) ss ->
       recent_cap eng <= Z.of_nat (length ss) ->
       window_chronological (recent_cmr eng') (recent_cap eng') (recent_idx eng') =
         drop (length ss - Z.to_nat (recent_cap eng)) (map cache_miss_rate ss)).
Proof.
  induction ss as [ | s ss IH ]; intros eng Hwf Hready.
  - pose proof Hwf as (Hok & _). apply window_ok_spec in Hok.
    destruct Hok as (Hcap0 & Hlen & Hi).
    exists eng, []. simpl. split; [reflexivity | ]. split; [reflexivity | ].
    split; [rewrite Z.add_0_r, Z.mod_small; lia | ].
    split; [rewrite app_nil_r; reflexivity | ]. intros _ H. lia.
  - pose proof Hwf as (Hok & Hrest).
    destruct (anomaly_detect_ready eng s Hready Hok)
      as (eng1 & r & Hd & _ & _ & _ & _ & _ & _ & _ & Hrec & Hidx & Hcap & _ & Hb & _).
    assert (Hwf1 : engine_wf eng1).
    { apply (anomaly_detect_wf eng s eng1 r); [exact Hwf | exact Hd]. }
    assert (Hready1 : ready (baseline eng1) = true) by (rewrite Hb; exact Hready).
    apply window_ok_spec in Hok. destruct Hok as (Hcap0 & Hlen & Hi).
    destruct Hrest as (_ & _ & Hcap32).
    assert (Hw : wrap64 (recent_idx eng + 1) = recent_idx eng + 1).
    { unfold wrap64. apply Z.mod_small. lia. }
    rewrite Hw in Hidx.
    destruct (IH eng1 Hwf1 Hready1) as (eng2 & rs & Hrun & Hcap2 & Hidx2 & Hwin & _).
    assert (Hslide :
      window_chronological (recent_cmr eng2) (recent_cap eng2) (recent_idx eng2) =
        drop (length (s :: ss))
          (window_chronological (recent_cmr eng) (recent_cap eng) (recent_idx eng)
           ++ map window_value (s :: ss))).
    { rewrite Hwin, Hrec, Hidx, Hcap.
      fold (window_value s). rewrite window_slide by assumption.
      pose proof (window_chronological_length (recent_cmr eng) (recent_cap eng)
                    (recent_idx eng)) as HL.
      destruct (window_chronological (recent_cmr eng) (recent_cap eng) (recent_idx eng))
        as [ | w W ]; [simpl in HL; lia | ].
      cbn [drop length map]. rewrite <- app_assoc. reflexivity. }
    exists eng2, (r :: rs). simpl detect_all. rewrite Hd, Hrun.
    split; [reflexivity | ]. split; [congruence | ].
    split.
    { rewrite Hidx2, Hidx, Hcap. rewrite Zplus_mod_idemp_l. f_equal.
      cbn [length]. lia. }
    split; [exact Hslide | ].
    intros Hvalid Hlong. rewrite Hslide.
    pose proof (window_chronological_length (recent_cmr eng) (recent_cap eng)
                  (recent_idx eng)) as HL.
    replace (map window_value (s :: ss)) with (map cache_miss_rate (s :: ss)).
    2:{ apply map_ext_in_iff. intros x Hx. rewrite List.Forall_forall in Hvalid.
        symmetry. apply single_double_roundtrip, Hvalid, Hx. }
    rewrite drop_app_ge by lia. f_equal. lia.
Qed.

Lemma detection_window_slides_witness :
  engine_wf idle_engine /\ ready (baseline idle_engine) = true /\
  exists eng' rs,
    detect_all idle_engine [stamped 2; stamped 3] = Some (eng', rs) /\
    recent_idx eng' = (recent_idx idle_engine + 2) mod recent_cap idle_engine.
Proof.
  assert (Hwf : engine_wf idle_engine).
  { unfold engine_wf. split; [reflexivity | ]. split; [reflexivity | ]. simpl. lia. }
  split; [exact Hwf | ]. split; [reflexivity | ].
  destruct (detection_window_slides [stamped 2; stamped 3] idle_engine Hwf eq_refl)
    as (eng' & rs & Hd & _ & Hi & _).
  exists eng', rs. split; [exact Hd | exact Hi].
Defined.

(** X12.  With a burst window between 1 and 2^32 - 1, no sequence of
    [anomaly_learn], [anomaly_finalize_baseline] and [anomaly_detect] calls
    on the engine [anomaly_init] returns ever leaves the defined behaviour:
    every call returns, the window keeps its [burst_window] slots and the
    write index stays inside it. *)
Theorem engine_run_never_faults (z : spec_float) (bw : Z) (ops : list engine_op) :
  1 <= bw < 2 ^ 32 ->
  exists trace,
    engine_run (anomaly_init z bw) ops = Some trace /\
    length trace = length ops /\
    Forall engine_wf trace /\
    Forall (fun eng => recent_cap eng = bw /\ Z.of_nat (length (recent_cmr eng)) = bw /\
                       0 <= recent_idx eng < bw) trace.
Proof.
  intros Hbw.
  assert (Hinv : forall ops eng,
             engine_wf eng -> recent_cap eng = bw ->
             exists trace,
               engine_run eng ops = Some trace /\ length trace = length ops /\
               Forall engine_wf trace /\
               Forall (fun eng => recent_cap eng = bw) trace).
  { clear ops. induction ops as [ | op ops IH ]; intros eng Hwf Hcap.
    - exists []. simpl. repeat split; constructor.
    - assert (Hstep : exists eng1, engine_step eng op = Some eng1 /\ engine_wf eng1 /\
                                   recent_cap eng1 = bw).
      { destruct op as [s | | s].
        - exists (anomaly_learn eng s). split; [reflexivity | ].
          split; [apply anomaly_learn_wf; exact Hwf | exact Hcap].
        - exists (anomaly_finalize_baseline eng). split; [reflexivity | ].
          split; [apply anomaly_finalize_wf; exact Hwf | ].
          unfold anomaly_finalize_baseline. destruct (n eng <? 1); exact Hcap.
        - destruct (anomaly_detect_returns eng s Hwf) as (eng1 & r & Hd & Hwf1).
          exists eng1. simpl. rewrite Hd. split; [reflexivity | ].
          split; [exact Hwf1 | ].
          apply anomaly_detect_frame in Hd. destruct Hd as (_ & _ & _ & Hc & _). congruence. }
      destruct Hstep as (eng1 & Hs & Hwf1 & Hcap1).
      destruct (IH eng1 Hwf1 Hcap1) as (trace & Hrun & Hlen & Hall & Hcaps).
      exists (eng1 :: trace). simpl. rewrite Hs, Hrun.
      split; [reflexivity | ]. split; [simpl; congruence | ].
      split; constructor; assumption. }
  destruct (Hinv ops (anomaly_init z bw) (anomaly_init_wf z bw Hbw) eq_refl)
    as (trace & Hrun & Hlen & Hall & Hcaps).
  exists trace. split; [exact Hrun | ]. split; [exact Hlen | ]. split; [exact Hall | ].
  rewrite List.Forall_forall in *. intros eng Hin.
  specialize (Hall eng Hin). specialize (Hcaps eng Hin).
  destruct Hall as (Hok & _). apply window_ok_spec in Hok.
  rewrite Hcaps in Hok. split; [exact Hcaps | ]. tauto.
Qed.

Lemma engine_run_never_faults_witness :
  1 <= 10 < 2 ^ 32 /\
  exists trace,
    engine_run (anomaly_init Double.c3_5 10)
      [OpDetect (stamped 1); OpLearn (stamped 2); OpFinalize; OpDetect (stamped 3)]
      = Some trace /\
    length trace = 4%nat.
Proof.
  split; [lia | ].
  destruct (engine_run_never_faults Double.c3_5 10
              [OpDetect (stamped 1); OpLearn (stamped 2); OpFinalize; OpDetect (stamped 3)]
              ltac:(lia)) as (trace & Hr & Hl & _).
  exists trace. split; [exact Hr | exact Hl].
Defined.

Section ZeroWindow.

Lemma engine_run_learning (ls : list telemetry_sample) (ops : list engine_op) :
  forall eng,
    engine_run (learn_all eng ls) ops = None ->
    engine_run eng (map OpLearn ls ++ ops) = None.
Proof.
  induction ls as [ | s ls IH ]; intros eng H; [exact H | ].
  cbn [map app engine_run engine_step]. rewrite (IH (anomaly_learn eng s) H). reflexivity.
Qed.

Lemma learn_all_fields (ls : list telemetry_sample) :
  forall eng,
    0 <= n eng < 2 ^ 64 ->
    recent_cap (learn_all eng ls) = recent_cap eng /\
    baseline (learn_all eng ls) = baseline eng /\
    n (learn_all eng ls) = wrap64 (n eng + Z.of_nat (length ls)).
Proof.
  induction ls as [ | s ls IH ]; intros eng Hn.
  - cbn [learn_all fold_left length]. split; [reflexivity | ]. split; [reflexivity | ].
    unfold wrap64. rewrite Z.add_0_r, Z.mod_small; [reflexivity | exact Hn].
  - cbn [learn_all fold_left]. fold (learn_all (anomaly_learn eng s) ls).
    assert (Hn1 : 0 <= n (anomaly_learn eng s) < 2 ^ 64).
    { cbn [anomaly_learn n]. unfold wrap64. apply Z.mod_pos_bound. lia. }
    destruct (IH (anomaly_learn eng s) Hn1) as (Hc & Hb & Hnn).
    split; [exact Hc | ]. split; [exact Hb | ].
    rewrite Hnn. cbn [anomaly_learn n length]. unfold wrap64.
    rewrite Zplus_mod_idemp_l. f_equal. lia.
Qed.

End ZeroWindow.

(** X13.  A burst window of 0 is accepted by [anomaly_init], but then the
    first [anomaly_detect] after the baseline is ready is undefined
    behaviour (it stores into a window of no slots and takes the index
    modulo 0): a run of the orchestrator with at least one learned sample
    and one detection sample has no defined outcome. *)
Theorem zero_window_detection_undefined (z : spec_float)
    (learned detected : list telemetry_sample) (s : telemetry_sample) :
  1 <= Z.of_nat (length learned) < 2 ^ 64 ->
  engine_run (anomaly_init z 0) (orchestrator_ops learned (s :: detected)) = None /\
  (forall eng s', recent_cap eng = 0 -> ready (baseline eng) = true ->
                  anomaly_detect eng s' = None).
Proof.
  intros Hlen.
  assert (Hundef : forall eng s', recent_cap eng = 0 -> ready (baseline eng) = true ->
                                  anomaly_detect eng s' = None).
  { intros eng s' Hc Hr. unfold anomaly_detect, window_ok. rewrite Hr, Hc. reflexivity. }
  split; [ | exact Hundef].
  unfold orchestrator_ops. apply engine_run_learning.
  destruct (learn_all_fields learned (anomaly_init z 0)) as (Hc & Hb & Hn);
    [simpl; lia | ].
  cbn [engine_run engine_step].
  set (e := learn_all (anomaly_init z 0) learned) in *.
  assert (Hn1 : 1 <= n e).
  { rewrite Hn. cbn [anomaly_init n]. unfold wrap64. rewrite Z.mod_small; lia. }
  cbn [map engine_run engine_step].
  rewrite Hundef; [reflexivity | | ].
  - unfold anomaly_finalize_baseline.
    replace (n e <? 1) with false by (symmetry; apply Z.ltb_ge; lia).
    exact Hc.
  - unfold anomaly_finalize_baseline.
    replace (n e <? 1) with false by (symmetry; apply Z.ltb_ge; lia).
    reflexivity.
Qed.

Lemma zero_window_detection_undefined_witness :
  1 <= Z.of_nat (length [stamped 1]) < 2 ^ 64 /\
  engine_run (anomaly_init Double.c3_5 0) (orchestrator_ops [stamped 1] [stamped 2]) = None.
Proof.
  split; [simpl; lia | ].
  apply (zero_window_detection_undefined Double.c3_5 [stamped 1] [] (stamped 2)).
  simpl. lia.
Defined.

(** X14.  When the three baseline standard deviations are below 1e-12 and
    the threshold is positive, a detection raises none of the three primary
    flags and no BURST_PATTERN, resets the consecutive-anomaly counter and
    reports a composite score of exactly 0; the only flag such a result can
    carry is OSCILLATION. *)
Theorem flat_baseline_raises_no_spike (eng : anomaly_engine) (s : telemetry_sample) :
  engine_wf eng -> ready (baseline eng) = true ->
  Double.ltb (std_cache_miss_rate (baseline eng)) Double.c1e_12 = true ->
  Double.ltb (std_branch_miss_rate (baseline eng)) Double.c1e_12 = true ->
  Double.ltb (std_ipc (baseline eng)) Double.c1e_12 = true ->
  Double.ltb Double.zero (z_threshold eng) = true ->
  exists eng' r,
    anomaly_detect eng s = Some (eng', r) /\
    primary_fired (anomaly_flags r) = false /\
    has_flag (anomaly_flags r) ANOMALY_BURST_PATTERN = false /\
    (anomaly_flags r = 0 \/ anomaly_flags r = ANOMALY_OSCILLATION) /\
    sustained_count r = 0 /\ consecutive_anomalies eng' = 0 /\
    composite_score r = Double.zero.
Proof.
  intros (Hok & Hrest) Hready H1 H2 H3 Hthr.
  destruct (anomaly_detect_ready eng s Hready Hok)
    as (eng' & r & Hd & _ & _ & _ & Hcomp & Hflags & Hsus & Hcons & _).
  rewrite !compute_z_flat in * by assumption.
  assert (Hc : Double.ltb (z_threshold eng) Double.zero = false /\
               Double.ltb Double.zero (Double.opp (z_threshold eng)) = false /\
               composite (max_abs_z Double.zero Double.zero Double.zero) (z_threshold eng)
                 = Double.zero).
  { destruct (z_threshold eng) as [sg | sg | | sg m e]; try discriminate;
      destruct sg; try discriminate; repeat split; vm_compute; reflexivity. }
  destruct Hc as (Hc1 & Hc2 & Hc3).
  rewrite Hc1, Hc2 in *. cbn [orb andb] in *.
  exists eng', r. split; [exact Hd | ].
  rewrite Hflags, flag_word_primary, flag_word_burst.
  split; [reflexivity | ]. split; [reflexivity | ].
  split; [ | split; [exact Hsus | split; [exact Hcons | rewrite Hcomp; exact Hc3]]].
  match goal with |- context [flag_word _ _ _ _ ?o] => destruct o end;
    [right | left]; reflexivity.
Qed.

Lemma flat_baseline_raises_no_spike_witness :
  engine_wf idle_engine /\ ready (baseline idle_engine) = true /\
  Double.ltb Double.zero (z_threshold idle_engine) = true /\
  exists eng' r,
    anomaly_detect idle_engine (stamped 2) = Some (eng', r) /\
    composite_score r = Double.zero.
Proof.
  assert (Hwf : engine_wf idle_engine).
  { unfold engine_wf. split; [reflexivity | ]. split; [reflexivity | ]. simpl. lia. }
  split; [exact Hwf | ]. split; [reflexivity | ]. split; [reflexivity | ].
  destruct (flat_baseline_raises_no_spike idle_engine (stamped 2) Hwf
              eq_refl eq_refl eq_refl eq_refl eq_refl)
    as (eng' & r & Hd & _ & _ & _ & _ & _ & Hc).
  exists eng', r. split; [exact Hd | exact Hc].
Defined.

Lemma detection_flags_witness :
  engine_wf idle_engine /\ ready (baseline idle_engine) = true /\
  exists eng' r,
    anomaly_detect idle_engine (stamped 2) = Some (eng', r) /\
    0 <= anomaly_flags r < 32.
Proof.
  assert (Hwf : engine_wf idle_engine).
  { unfold engine_wf. split; [reflexivity | ]. split; [reflexivity | ]. simpl. lia. }
  split; [exact Hwf | ]. split; [reflexivity | ].
  destruct (detection_flags idle_engine (stamped 2) Hwf eq_refl)
    as (eng' & r & Hd & _ & _ & _ & Hr & _).
  exists eng', r. split; [exact Hd | exact Hr].
Defined.

(** ** correlation.c: the table of processes *)

Section CorrelationLookup.
Variable proc_comm : Z -> option (list Byte.byte).

Lemma find_index_find {A : Type} (f : A -> bool) (l : list A) :
  List.find f l = match find_index f l with Some i => l !! i | None => None end.
Proof.
  induction l as [ | a l IH ]; simpl; [reflexivity | ].
  destruct (f a); [reflexivity | ]. rewrite IH.
  destruct (find_index f l); reflexivity.
Qed.

Lemma find_index_none {A : Type} (f : A -> bool) (l : list A) :
  find_index f l = None <-> forallb (fun x => negb (f x)) l = true.
Proof.
  induction l as [ | a l IH ]; simpl; [tauto | ].
  destruct (f a); simpl; [split; discriminate | ].
  rewrite <- IH. destruct (find_index f l); simpl; split; congruence.
Qed.

Lemma find_index_first {A : Type} (f : A -> bool) (l : list A) :
  forall i, find_index f l = Some i ->
            forall j x, (j < i)%nat -> l !! j = Some x -> f x = false.
Proof.
  induction l as [ | a l IH ]; intros i; simpl; [discriminate | ].
  destruct (f a) eqn:E.
  - intros [= <-] j x Hj. lia.
  - destruct (find_index f l) as [k | ] eqn:Ek; simpl; [ | discriminate ].
    intros [= <-] j x Hj Hx. destruct j as [ | j ]; simpl in Hx.
    + congruence.
    + apply (IH k eq_refl j x); [lia | exact Hx].
Qed.

(** Replacing an element that does not satisfy [f] by another that does
    not either leaves [find f] alone. *)
Lemma find_insert_irrelevant {A : Type} (f : A -> bool) (l : list A) (i : nat) (x : A) :
  f x = false -> (forall y, l !! i = Some y -> f y = false) ->
  List.find f (<[i := x]> l) = List.find f l.
Proof.
  intros Hx. revert i. induction l as [ | a l IH ]; intros i Hy; [reflexivity | ].
  destruct i as [ | i ]; simpl.
  - rewrite Hx, (Hy a eq_refl). reflexivity.
  - destruct (f a); [reflexivity | ]. apply IH. intros y Hl. apply Hy. exact Hl.
Qed.

Lemma find_app_irrelevant {A : Type} (f : A -> bool) (l : list A) (x : A) :
  f x = false -> List.find f (l ++ [x]) = List.find f l.
Proof.
  intros Hx. induction l as [ | a l IH ]; simpl; [rewrite Hx; reflexivity | ].
  destruct (f a); [reflexivity | exact IH].
Qed.

(** Replacing the first element that satisfies [f]. *)
Lemma find_insert_first {A : Type} (f : A -> bool) (l : list A) (i : nat) (x : A) :
  find_index f l = Some i -> f x = true -> List.find f (<[i := x]> l) = Some x.
Proof.
  revert i. induction l as [ | a l IH ]; intros i; simpl; [discriminate | ].
  destruct (f a) eqn:E.
  - intros [= <-] Hx. simpl. rewrite Hx. reflexivity.
  - destruct (find_index f l) as [k | ] eqn:Ek; simpl; [ | discriminate ].
    intros [= <-] Hx. simpl. rewrite E. apply IH; [reflexivity | exact Hx].
Qed.

Lemma take_insert_used {A : Type} (l : list A) (c i : nat) (x : A) :
  (i < c)%nat -> take c (<[i := x]> l) = <[i := x]> (take c l).
Proof. intros H. rewrite take_insert_lt by exact H. reflexivity. Qed.

Lemma find_insert_none {A : Type} (f : A -> bool) (l : list A) (i : nat) (x : A) :
  find_index f l = None -> (i < length l)%nat -> f x = true ->
  List.find f (<[i := x]> l) = Some x.
Proof.
  revert i. induction l as [ | a l IH ]; intros i; simpl; [lia | ].
  destruct (f a) eqn:E; [discriminate | ].
  destruct (find_index f l) as [k | ] eqn:Ek; simpl; [discriminate | ].
  intros _ Hi Hx. destruct i as [ | i ]; simpl.
  - rewrite Hx. reflexivity.
  - rewrite E. apply IH; [reflexivity | lia | exact Hx].
Qed.

Lemma find_app_none {A : Type} (f : A -> bool) (l : list A) (x : A) :
  find_index f l = None -> f x = true -> List.find f (l ++ [x]) = Some x.
Proof.
  induction l as [ | a l IH ]; simpl; intros Hn Hx; [rewrite Hx; reflexivity | ].
  destruct (f a); [discriminate | ].
  destruct (find_index f l); [discriminate | ]. apply IH; [reflexivity | exact Hx].
Qed.

Lemma update_entry_key (e : process_risk) (score : spec_float) (ts : Z) :
  pid (update_entry e score ts) = pid e /\ active (update_entry e score ts) = active e.
Proof. split; reflexivity. Qed.

(** The three ways [correlation_update] changes the slots in use, and the
    one in which it changes nothing. *)
Lemma correlation_update_used (eng : correlation_engine) (p t : Z)
    (score : spec_float) (ts : Z) :
  corr_wf eng ->
  let eng' := correlation_update proc_comm eng p t score ts in
  let tracked := fun e => (pid e =? p) && active e in
  corr_wf eng' /\
  match find_index tracked (used_entries eng) with
  | Some i =>
      exists e, used_entries eng !! i = Some e /\ tracked e = true /\
                used_entries eng' = <[i := update_entry e score ts]> (used_entries eng) /\
                count eng' = count eng
  | None =>
      match find_index (fun e => negb (active e)) (used_entries eng) with
      | Some i =>
          exists e, used_entries eng !! i = Some e /\ active e = false /\
                    used_entries eng' =
                      <[i := update_entry (new_entry proc_comm p t) score ts]>
                        (used_entries eng) /\
                    count eng' = count eng
      | None =>
          if CORR_MAX_TRACKED <=? count eng then eng' = eng
          else used_entries eng' =
                 used_entries eng ++ [update_entry (new_entry proc_comm p t) score ts] /\
               count eng' = count eng + 1
      end
  end.
Proof.
  intros Hwf. cbv zeta.
  pose proof (correlation_update_spec proc_comm eng p t score ts Hwf) as Hspec.
  pose proof Hwf as (Hlen & Hcnt).
  unfold find_or_create in Hspec. fold (used_entries eng) in Hspec.
  unfold CORR_MAX_TRACKED in *.
  destruct (find_index (fun e => (pid e =? p) && active e) (used_entries eng))
    as [i | ] eqn:E1.
  - destruct Hspec as (entry & Hl & Hp & Ha & He & Hc & Hwf').
    split; [exact Hwf' | ].
    destruct (find_index_some _ _ _ E1) as (x & Hx & Hfx).
    pose proof Hx as Hx'. unfold used_entries in Hx'.
    rewrite lookup_take_Some in Hx'. destruct Hx' as [Hx' Hi].
    assert (x = entry) by congruence. subst x.
    exists entry. split; [exact Hx | ]. split; [exact Hfx | ].
    split; [ | exact Hc].
    unfold used_entries. rewrite He, Hc. apply take_insert_used. exact Hi.
  - destruct (find_index (fun e => negb (active e)) (used_entries eng)) as [i | ] eqn:E2.
    + destruct Hspec as (entry & Hl & Hp & Ha & He & Hc & Hwf').
      split; [exact Hwf' | ].
      destruct (find_index_some _ _ _ E2) as (x & Hx & Hfx).
      pose proof Hx as Hx'. unfold used_entries in Hx'.
      rewrite lookup_take_Some in Hx'. destruct Hx' as [Hx' Hi].
      exists x. split; [exact Hx | ].
      split; [destruct (active x); [discriminate | reflexivity] | ].
      simpl in *. rewrite list_lookup_insert_eq in Hl by (apply lookup_lt_Some in Hx'; exact Hx').
      injection Hl as <-.
      split; [ | exact Hc].
      unfold used_entries. rewrite He, Hc. rewrite list_insert_insert_eq.
      apply take_insert_used. exact Hi.
    + destruct (256 <=? count eng) eqn:E3.
      * cbv beta iota in Hspec. split; [rewrite Hspec; exact Hwf | exact Hspec].
      * apply Z.leb_gt in E3. cbv beta iota in Hspec.
        destruct Hspec as (entry & Hl & Hp & Ha & He & Hc & Hwf').
        split; [exact Hwf' | ].
        simpl in *. rewrite list_lookup_insert_eq in Hl by lia. injection Hl as <-.
        assert (Hw : wrap64 (count eng + 1) = count eng + 1).
        { unfold wrap64. apply Z.mod_small. lia. }
        rewrite Hw in Hc. split; [ | exact Hc].
        unfold used_entries. rewrite He, Hc, list_insert_insert_eq.
        replace (Z.to_nat (count eng + 1)) with (S (Z.to_nat (count eng))) by lia.
        destruct (lookup_lt_is_Some_2 (entries eng) (Z.to_nat (count eng))) as [y Hy]; [lia | ].
        rewrite (take_S_r _ _ (update_entry (new_entry proc_comm p t) score ts)).
        -- rewrite take_insert_ge by lia. reflexivity.
        -- apply list_lookup_insert_eq. lia.
Qed.

End CorrelationLookup.

(** X15.  Update followed by lookup.  After [correlation_update] for a
    process that is tracked, [correlation_lookup] returns that process's
    entry with the update applied; for a process that is not tracked and a
    table with a free or reusable slot it returns a fresh entry (score 0,
    counters 0, name resolved) with the update applied, and the number of
    slots in use grows by at most one; when every slot in use is active and
    the table holds [CORR_MAX_TRACKED] entries the update is dropped and the
    engine is unchanged.  The lookup of every other process is unaffected,
    and the table stays within its bounds. *)
Theorem correlation_update_lookup (proc_comm : Z -> option (list Byte.byte))
    (eng : correlation_engine) (p t : Z) (score : spec_float) (ts : Z) :
  corr_wf eng ->
  let eng' := correlation_update proc_comm eng p t score ts in
  corr_wf eng' /\
  (forall q, q <> p -> correlation_lookup eng' q = correlation_lookup eng q) /\
  match correlation_lookup eng p with
  | Some e =>
      correlation_lookup eng' p = Some (update_entry e score ts) /\
      count eng' = count eng
  | None =>
      if table_full eng then eng' = eng
      else
        correlation_lookup eng' p
          = Some (update_entry (new_entry proc_comm p t) score ts) /\
        count eng <= count eng' <= count eng + 1
  end.
Proof.
  intros Hwf. cbv zeta.
  destruct (correlation_update_used proc_comm eng p t score ts Hwf) as (Hwf' & Hcase).
  split; [exact Hwf' | ].
  unfold correlation_lookup, table_full.
  fold (used_entries eng) (used_entries (correlation_update proc_comm eng p t score ts)).
  rewrite (find_index_find _ (used_entries eng)).
  pose proof (new_entry_fields proc_comm p t) as (Hnp & _ & Hna & _).
  destruct (find_index (fun e => (pid e =? p) && active e) (used_entries eng))
    as [i | ] eqn:E1.
  - destruct Hcase as (e & He & Hte & Hused & Hc).
    apply andb_true_iff in Hte. destruct Hte as [Hpe Hae]. apply Z.eqb_eq in Hpe.
    rewrite He, Hused. split.
    + intros q Hq. apply find_insert_irrelevant.
      * cbn [update_entry pid active]. rewrite Hpe.
        replace (p =? q) with false by (symmetry; apply Z.eqb_neq; lia). reflexivity.
      * intros y Hy. assert (y = e) by congruence. subst y. rewrite Hpe.
        replace (p =? q) with false by (symmetry; apply Z.eqb_neq; lia). reflexivity.
    + split; [ | exact Hc]. apply find_insert_first; [exact E1 | ].
      cbn [update_entry pid active]. rewrite Hpe, Z.eqb_refl, Hae. reflexivity.
  - destruct (find_index (fun e => negb (active e)) (used_entries eng)) as [i | ] eqn:E2.
    + destruct Hcase as (e & He & Hae & Hused & Hc).
      replace (forallb active (used_entries eng)) with false.
      2:{ symmetry. apply not_true_is_false. intros Hall.
          rewrite forallb_forall in Hall.
          assert (active e = true) by (apply Hall; eapply list_elem_of_In, list_elem_of_lookup_2; exact He).
          congruence. }
      cbn [andb]. rewrite Hused. split.
      * intros q Hq. apply find_insert_irrelevant.
        -- cbn [update_entry pid active]. rewrite Hnp.
           replace (p =? q) with false by (symmetry; apply Z.eqb_neq; lia). reflexivity.
        -- intros y Hy. assert (y = e) by congruence. subst y. rewrite Hae.
           apply andb_false_r.
      * split; [ | lia]. apply find_insert_none; [exact E1 | | ].
        -- apply lookup_lt_Some in He. exact He.
        -- cbn [update_entry pid active]. rewrite Hnp, Hna, Z.eqb_refl. reflexivity.
    + replace (forallb active (used_entries eng)) with true.
      2:{ symmetry. apply find_index_none in E2. rewrite <- E2.
          clear. induction (used_entries eng) as [ | x l IH ]; [reflexivity | ].
          simpl. rewrite IH. destruct (active x); reflexivity. }
      cbn [andb]. destruct (CORR_MAX_TRACKED <=? count eng).
      * split; [ | exact Hcase]. intros q _. rewrite Hcase. reflexivity.
      * destruct Hcase as (Hused & Hc). rewrite Hused. split.
        -- intros q Hq. apply find_app_irrelevant.
           cbn [update_entry pid active]. rewrite Hnp.
           replace (p =? q) with false by (symmetry; apply Z.eqb_neq; lia). reflexivity.
        -- split; [ | lia]. apply find_app_none; [exact E1 | ].
           cbn [update_entry pid active]. rewrite Hnp, Hna, Z.eqb_refl. reflexivity.
Qed.

Section UniqueEntries.
Variable proc_comm : Z -> option (list Byte.byte).

Lemma unique_active_insert_same (l : list process_risk) (k : nat) (e u : process_risk) :
  l !! k = Some e -> pid u = pid e -> active u = active e ->
  unique_active l -> unique_active (<[k := u]> l).
Proof.
  intros Hk Hp Ha Hu i j ei ej Hi Hj Hai Haj Hpid.
  assert (Hget : forall n x, <[k := u]> l !! n = Some x ->
            exists x0, l !! n = Some x0 /\ pid x0 = pid x /\ active x0 = active x).
  { intros n x Hx. destruct (Nat.eq_dec n k) as [-> | Hne].
    - rewrite list_lookup_insert_eq in Hx by (apply lookup_lt_Some in Hk; exact Hk).
      injection Hx as <-. exists e. auto.
    - rewrite list_lookup_insert_ne in Hx by congruence. exists x. auto. }
  destruct (Hget i ei Hi) as (xi & Hxi & Hpi & Haxi).
  destruct (Hget j ej Hj) as (xj & Hxj & Hpj & Haxj).
  apply (Hu i j xi xj Hxi Hxj); congruence.
Qed.

Lemma unique_active_insert_new (l : list process_risk) (k : nat) (u : process_risk) :
  (forall j x, j <> k -> l !! j = Some x -> active x = true -> pid x <> pid u) ->
  unique_active l -> unique_active (<[k := u]> l).
Proof.
  intros Hnew Hu i j ei ej Hi Hj Hai Haj Hpid.
  destruct (Nat.eq_dec i k) as [-> | Hik]; destruct (Nat.eq_dec j k) as [-> | Hjk].
  - reflexivity.
  - exfalso. rewrite list_lookup_insert_ne in Hj by congruence.
    destruct (decide (k < length l)%nat) as [Hlt | Hge].
    + rewrite list_lookup_insert_eq in Hi by exact Hlt. injection Hi as <-.
      apply (Hnew j ej Hjk Hj Haj). congruence.
    + rewrite list_insert_ge in Hi by lia.
      apply lookup_lt_Some in Hi. lia.
  - exfalso. rewrite list_lookup_insert_ne in Hi by congruence.
    destruct (decide (k < length l)%nat) as [Hlt | Hge].
    + rewrite list_lookup_insert_eq in Hj by exact Hlt. injection Hj as <-.
      apply (Hnew i ei Hik Hi Hai). congruence.
    + rewrite list_insert_ge in Hj by lia.
      apply lookup_lt_Some in Hj. lia.
  - rewrite list_lookup_insert_ne in Hi, Hj by congruence.
    apply (Hu i j ei ej); assumption.
Qed.

Lemma unique_active_app_new (l : list process_risk) (u : process_risk) :
  (forall j x, l !! j = Some x -> active x = true -> pid x <> pid u) ->
  unique_active l -> unique_active (l ++ [u]).
Proof.
  intros Hnew Hu i j ei ej Hi Hj Hai Haj Hpid.
  assert (Hget : forall n x, (l ++ [u]) !! n = Some x ->
            (l !! n = Some x /\ (n < length l)%nat) \/ (n = length l /\ x = u)).
  { intros n x Hx. destruct (decide (n < length l)%nat) as [Hlt | Hge].
    - rewrite lookup_app_l in Hx by exact Hlt. auto.
    - rewrite lookup_app_r in Hx by lia.
      destruct (n - length l)%nat as [ | m ] eqn:Em; simpl in Hx; [ | discriminate].
      injection Hx as <-. right. split; [lia | reflexivity]. }
  destruct (Hget i ei Hi) as [[Hxi Hli] | [-> ->]];
    destruct (Hget j ej Hj) as [[Hxj Hlj] | [-> ->]].
  - apply (Hu i j ei ej); assumption.
  - exfalso. apply (Hnew i ei Hxi Hai). exact Hpid.
  - exfalso. apply (Hnew j ej Hxj Haj). congruence.
  - reflexivity.
Qed.

Lemma not_tracked (p : Z) (l : list process_risk) :
  find_index (fun e => (pid e =? p) && active e) l = None ->
  forall j x, l !! j = Some x -> active x = true -> pid x <> p.
Proof.
  intros Hn j x Hx Ha Hp. apply find_index_none in Hn.
  rewrite forallb_forall in Hn.
  specialize (Hn x ltac:(eapply list_elem_of_In, list_elem_of_lookup_2; exact Hx)).
  rewrite Hp, Z.eqb_refl, Ha in Hn. discriminate.
Qed.

Lemma correlation_update_unique (eng : correlation_engine) (p t : Z)
    (score : spec_float) (ts : Z) :
  corr_wf eng -> corr_unique eng ->
  corr_unique (correlation_update proc_comm eng p t score ts).
Proof.
  intros Hwf Hu.
  destruct (correlation_update_used proc_comm eng p t score ts Hwf) as (_ & Hcase).
  pose proof (new_entry_fields proc_comm p t) as (Hnp & _ & Hna & _).
  change (unique_active (used_entries (correlation_update proc_comm eng p t score ts))).
  change (unique_active (used_entries eng)) in Hu.
  destruct (find_index (fun e => (pid e =? p) && active e) (used_entries eng))
    as [i | ] eqn:E1.
  - destruct Hcase as (e & He & _ & -> & _).
    apply (unique_active_insert_same _ _ e); [exact He | reflexivity | reflexivity | exact Hu].
  - destruct (find_index (fun e => negb (active e)) (used_entries eng)) as [i | ] eqn:E2.
    + destruct Hcase as (e & He & _ & -> & _).
      apply unique_active_insert_new; [ | exact Hu].
      intros j x _ Hx Ha. cbn [update_entry pid]. rewrite Hnp.
      apply (not_tracked p _ E1 j x Hx Ha).
    + destruct (CORR_MAX_TRACKED <=? count eng).
      * rewrite Hcase. exact Hu.
      * destruct Hcase as (-> & _).
        apply unique_active_app_new; [ | exact Hu].
        intros j x Hx Ha. cbn [update_entry pid]. rewrite Hnp.
        apply (not_tracked p _ E1 j x Hx Ha).
Qed.

Lemma correlation_decay_used (eng : correlation_engine) (now_ns : Z) :
  corr_wf eng ->
  used_entries (correlation_decay eng now_ns) =
  map (decay_entry (wrap64 (window_sec eng * 1000000000)) (decay_factor eng) now_ns)
      (used_entries eng).
Proof.
  intros (Hlen & Hcnt). unfold used_entries, correlation_decay. cbn [entries count].
  unfold CORR_MAX_TRACKED in *.
  rewrite take_app_le by (rewrite length_map, length_take; lia).
  rewrite take_ge by (rewrite length_map, length_take; lia). reflexivity.
Qed.

Lemma decay_entry_key (window_ns : Z) (factor : spec_float) (now_ns : Z) (e : process_risk) :
  pid (decay_entry window_ns factor now_ns e) = pid e /\
  (active (decay_entry window_ns factor now_ns e) = true -> active e = true).
Proof.
  unfold decay_entry. destruct (active e) eqn:Ea; simpl; [ | split; [reflexivity | congruence]].
  destruct (window_ns <? wrap64 (now_ns - last_seen_ns e)); simpl; split; auto.
Qed.

Lemma correlation_decay_wf (eng : correlation_engine) (now_ns : Z) :
  corr_wf eng -> corr_wf (correlation_decay eng now_ns).
Proof.
  intros (Hlen & Hcnt). unfold corr_wf, correlation_decay. cbn [entries count].
  split; [ | exact Hcnt].
  rewrite length_app, length_map, <- length_app, take_drop. exact Hlen.
Qed.

Lemma correlation_decay_unique (eng : correlation_engine) (now_ns : Z) :
  corr_wf eng -> corr_unique eng -> corr_unique (correlation_decay eng now_ns).
Proof.
  intros Hwf Hu i j ei ej Hi Hj Hai Haj Hpid.
  rewrite correlation_decay_used in Hi, Hj by exact Hwf.
  rewrite list_lookup_fmap in Hi, Hj.
  destruct (used_entries eng !! i) as [xi | ] eqn:Exi; [ | discriminate].
  destruct (used_entries eng !! j) as [xj | ] eqn:Exj; [ | discriminate].
  simpl in Hi, Hj. injection Hi as <-. injection Hj as <-.
  destruct (decay_entry_key (wrap64 (window_sec eng * 1000000000)) (decay_factor eng)
              now_ns xi) as (Hpi & Hacti).
  destruct (decay_entry_key (wrap64 (window_sec eng * 1000000000)) (decay_factor eng)
              now_ns xj) as (Hpj & Hactj).
  apply (Hu i j xi xj Exi Exj); [auto | auto | congruence].
Qed.

Lemma correlation_init_unique (decay : spec_float) (window : Z) :
  corr_wf (correlation_init decay window) /\ corr_unique (correlation_init decay window).
Proof.
  split.
  - unfold corr_wf, correlation_init, CORR_MAX_TRACKED. cbn [entries count].
    rewrite length_replicate. lia.
  - intros i j ei ej Hi. unfold used_entries, correlation_init in Hi. cbn in Hi.
    discriminate.
Qed.

End UniqueEntries.

(** X16.  Whatever updates and decays are applied to the engine
    [correlation_init] leaves, the table stays within its
    [CORR_MAX_TRACKED] slots and holds at most one active entry per
    process: the entry [correlation_lookup] returns carries the requested
    pid, is active, and is the only active entry of that process. *)
Theorem correlation_table_invariant (proc_comm : Z -> option (list Byte.byte))
    (decay : spec_float) (window : Z) (cs : list corr_call) :
  let eng := corr_run proc_comm (correlation_init decay window) cs in
  corr_wf eng /\ corr_unique eng /\
  Z.of_nat (length (used_entries eng)) = count eng /\
  (forall p e, correlation_lookup eng p = Some e ->
     pid e = p /\ active e = true /\
     forall i x, used_entries eng !! i = Some x -> active x = true -> pid x = p -> x = e).
Proof.
  cbv zeta.
  assert (Hinv : forall cs eng, corr_wf eng -> corr_unique eng ->
             corr_wf (corr_run proc_comm eng cs) /\ corr_unique (corr_run proc_comm eng cs)).
  { clear cs. induction cs as [ | c cs IH ]; intros eng Hwf Hu; [split; assumption | ].
    cbn [corr_run fold_left]. apply IH.
    - destruct c as [p t score ts | now]; cbn [corr_step].
      + pose proof (correlation_update_spec proc_comm eng p t score ts Hwf) as Hs.
        destruct (find_or_create proc_comm eng p t) as [[eng1 i] | ].
        * destruct Hs as (entry & _ & _ & _ & _ & _ & Hwf'). exact Hwf'.
        * rewrite Hs. exact Hwf.
      + apply correlation_decay_wf. exact Hwf.
    - destruct c as [p t score ts | now]; cbn [corr_step].
      + apply correlation_update_unique; assumption.
      + apply correlation_decay_unique; assumption. }
  destruct (correlation_init_unique decay window) as (Hwf0 & Hu0).
  destruct (Hinv cs _ Hwf0 Hu0) as (Hwf & Hu).
  set (eng := corr_run proc_comm (correlation_init decay window) cs) in *.
  split; [exact Hwf | ]. split; [exact Hu | ].
  destruct Hwf as (Hlen & Hcnt). unfold CORR_MAX_TRACKED in *.
  split; [unfold used_entries; rewrite length_take; lia | ].
  intros p e Hl. unfold correlation_lookup in Hl. fold (used_entries eng) in Hl.
  rewrite find_index_find in Hl.
  destruct (find_index (fun e0 => (pid e0 =? p) && active e0) (used_entries eng))
    as [k | ] eqn:Ek; [ | discriminate].
  destruct (find_index_some _ _ _ Ek) as (x & Hx & Hfx).
  assert (x = e) by congruence. subst x.
  apply andb_true_iff in Hfx. destruct Hfx as [Hp Ha]. apply Z.eqb_eq in Hp.
  split; [exact Hp | ]. split; [exact Ha | ].
  intros i x Hxi Hax Hpx.
  assert (i = k) by (apply (Hu i k x e); congruence). subst i. congruence.
Qed.

Section DecayLookup.

Lemma find_none_iff {A : Type} (f : A -> bool) (l : list A) :
  List.find f l = None <-> forall i x, l !! i = Some x -> f x = false.
Proof.
  induction l as [ | a l IH ]; simpl.
  - split; [intros _ i x H; discriminate | reflexivity].
  - destruct (f a) eqn:E.
    + split; [discriminate | ]. intros H. specialize (H 0%nat a eq_refl). congruence.
    + rewrite IH. split.
      * intros H [ | i] x Hx; simpl in Hx; [congruence | apply (H i x Hx)].
      * intros H i x Hx. apply (H (S i) x Hx).
Qed.

Lemma find_at {A : Type} (f : A -> bool) (l : list A) :
  forall k x, l !! k = Some x -> f x = true ->
              (forall j y, (j < k)%nat -> l !! j = Some y -> f y = false) ->
              List.find f l = Some x.
Proof.
  induction l as [ | a l IH ]; intros k x Hk Hx Hbefore; [discriminate | ].
  simpl. destruct k as [ | k ]; simpl in Hk.
  - injection Hk as ->. rewrite Hx. reflexivity.
  - rewrite (Hbefore 0%nat a ltac:(lia) eq_refl).
    apply (IH k x Hk Hx). intros j y Hj Hy. apply (Hbefore (S j) y); [lia | exact Hy].
Qed.

End DecayLookup.

(** X17.  Decay followed by lookup.  After [correlation_decay] a process is
    found exactly when it was tracked before and its age
    now - last_seen (as a [uint64_t]) does not exceed the window; the entry
    found is the old one with its score decayed.  An expired process is no
    longer found, and an untracked one stays untracked. *)
Theorem decay_expires_lookup (eng : correlation_engine) (now_ns p : Z) :
  corr_wf eng -> corr_unique eng ->
  correlation_lookup (correlation_decay eng now_ns) p =
    match correlation_lookup eng p with
    | Some e =>
        if wrap64 (window_sec eng * 1000000000) <? wrap64 (now_ns - last_seen_ns e)
        then None
        else Some (set_score e (decayed_score (decay_factor eng) (anomaly_score e)))
    | None => None
    end.
Proof.
  intros Hwf Hu. unfold correlation_lookup.
  fold (used_entries eng) (used_entries (correlation_decay eng now_ns)).
  rewrite correlation_decay_used by exact Hwf.
  set (d := decay_entry (wrap64 (window_sec eng * 1000000000)) (decay_factor eng) now_ns).
  set (f := fun e : process_risk => (pid e =? p) && active e).
  assert (Hkeep : forall x, f (d x) = true -> f x = true).
  { intros x Hx. unfold f in *. apply andb_true_iff in Hx. destruct Hx as [Hp Ha].
    destruct (decay_entry_key (wrap64 (window_sec eng * 1000000000)) (decay_factor eng)
                now_ns x) as (Hpid & Hact).
    fold d in Hpid, Hact. rewrite Hpid in Hp. rewrite Hp, (Hact Ha). reflexivity. }
  assert (Hfail : forall x, f x = false -> f (d x) = false).
  { intros x Hx. destruct (f (d x)) eqn:E; [ | reflexivity].
    apply Hkeep in E. congruence. }
  rewrite (find_index_find f (used_entries eng)).
  destruct (find_index f (used_entries eng)) as [k | ] eqn:Ek.
  - destruct (find_index_some _ _ _ Ek) as (e & He & Hfe). rewrite He.
    pose proof Hfe as Hfe'. unfold f in Hfe'. apply andb_true_iff in Hfe'.
    destruct Hfe' as [Hp Ha]. apply Z.eqb_eq in Hp.
    assert (Hde : d e = if wrap64 (window_sec eng * 1000000000)
                             <? wrap64 (now_ns - last_seen_ns e)
                        then deactivate e
                        else set_score e (decayed_score (decay_factor eng) (anomaly_score e))).
    { unfold d, decay_entry. rewrite Ha. reflexivity. }
    destruct (wrap64 (window_sec eng * 1000000000) <? wrap64 (now_ns - last_seen_ns e)).
    + apply find_none_iff. intros i y Hy. rewrite list_lookup_fmap in Hy.
      destruct (used_entries eng !! i) as [x | ] eqn:Ex; [ | discriminate].
      simpl in Hy. injection Hy as <-.
      destruct (f (d x)) eqn:E; [ | reflexivity]. exfalso.
      pose proof (Hkeep x E) as Hfx. unfold f in Hfx. apply andb_true_iff in Hfx.
      destruct Hfx as [Hpx Hax]. apply Z.eqb_eq in Hpx.
      assert (i = k) by (apply (Hu i k x e Ex He Hax Ha); congruence). subst i.
      assert (x = e) by congruence. subst x.
      rewrite Hde in E. unfold f in E. cbn [deactivate active] in E.
      rewrite andb_false_r in E. discriminate.
    + rewrite <- Hde. apply (find_at f _ k).
      * rewrite list_lookup_fmap, He. reflexivity.
      * rewrite Hde. unfold f. cbn [set_score pid active]. rewrite Hp, Z.eqb_refl, Ha.
        reflexivity.
      * intros j y Hj Hy. rewrite list_lookup_fmap in Hy.
        destruct (used_entries eng !! j) as [x | ] eqn:Ex; [ | discriminate].
        simpl in Hy. injection Hy as <-. apply Hfail.
        apply (find_index_first f _ k Ek j x Hj Ex).
  - apply find_none_iff. intros i y Hy. rewrite list_lookup_fmap in Hy.
    destruct (used_entries eng !! i) as [x | ] eqn:Ex; [ | discriminate].
    simpl in Hy. injection Hy as <-. apply Hfail.
    apply find_index_none in Ek. rewrite forallb_forall in Ek.
    specialize (Ek x ltac:(eapply list_elem_of_In, list_elem_of_lookup_2; exact Ex)).
    destruct (f x); [discriminate | reflexivity].
Qed.

Lemma correlation_update_lookup_witness :
  corr_wf (correlation_init Double.c0_95 30) /\
  correlation_lookup
    (correlation_update no_proc (correlation_init Double.c0_95 30) 42 0 score_0_9 1000) 42
  = Some (update_entry (new_entry no_proc 42 0) score_0_9 1000).
Proof.
  destruct (correlation_init_unique Double.c0_95 30) as (Hwf & _).
  split; [exact Hwf | ].
  destruct (correlation_update_lookup no_proc (correlation_init Double.c0_95 30)
              42 0 score_0_9 1000 Hwf) as (_ & _ & H).
  destruct H as (H & _). exact H.
Defined.

Lemma decay_expires_lookup_witness :
  corr_wf (updated 1) /\ corr_unique (updated 1) /\
  correlation_lookup (correlation_decay (updated 1) 40000000000) 42 = None.
Proof.
  destruct (correlation_init_unique Double.c0_95 30) as (Hwf0 & Hu0).
  assert (Hwf : corr_wf (updated 1)).
  { unfold corr_wf. split; [reflexivity | vm_compute; split; discriminate]. }
  assert (Hu : corr_unique (updated 1)).
  { apply (correlation_update_unique no_proc _ 42 0 score_0_9 1000 Hwf0 Hu0). }
  split; [exact Hwf | ]. split; [exact Hu | ].
  rewrite (decay_expires_lookup (updated 1) 40000000000 42 Hwf Hu). reflexivity.
Defined.

(** ** correlation.c: the highest risk *)

Section ComparisonOrder.

Ltac compare_cases :=
  repeat match goal with
    | H : context [Z.compare ?a ?b] |- _ =>
        let E := fresh "E" in
        destruct (Z.compare_spec a b) as [E | E | E]; try subst
    | |- context [Z.compare ?a ?b] =>
        let E := fresh "E" in
        destruct (Z.compare_spec a b) as [E | E | E]; try subst
    | H : context [Pos.compare_cont Eq ?a ?b] |- _ =>
        let E := fresh "E" in
        change (Pos.compare_cont Eq a b) with (Pos.compare a b) in *;
        destruct (Pos.compare_spec a b) as [E | E | E]; try subst
    | |- context [Pos.compare_cont Eq ?a ?b] =>
        let E := fresh "E" in
        change (Pos.compare_cont Eq a b) with (Pos.compare a b) in *;
        destruct (Pos.compare_spec a b) as [E | E | E]; try subst
    end.

(** [<=] followed by [<] gives [<=] (indeed [<]) on numbers. *)
Lemma SFleb_ltb_trans (x y z : spec_float) :
  SFleb x y = true -> SFltb y z = true -> SFltb x z = true.
Proof.
  unfold SFleb, SFltb.
  destruct x as [[ | ] | [ | ] | | [ | ] mx ex]; destruct y as [[ | ] | [ | ] | | [ | ] my ey];
    destruct z as [[ | ] | [ | ] | | [ | ] mz ez];
    simpl; try discriminate; try reflexivity; intros H1 H2;
    compare_cases; simpl in *; try discriminate; try reflexivity; try lia.
Qed.

Lemma SFleb_trans (x y z : spec_float) :
  SFleb x y = true -> SFleb y z = true -> SFleb x z = true.
Proof.
  unfold SFleb.
  destruct x as [[ | ] | [ | ] | | [ | ] mx ex]; destruct y as [[ | ] | [ | ] | | [ | ] my ey];
    destruct z as [[ | ] | [ | ] | | [ | ] mz ez];
    simpl; try discriminate; try reflexivity; intros H1 H2;
    compare_cases; simpl in *; try discriminate; try reflexivity; try lia.
Qed.

Lemma SFltb_leb (x y : spec_float) : SFltb x y = true -> SFleb x y = true.
Proof.
  unfold SFleb, SFltb. destruct (SFcompare x y) as [[ | | ] | ]; congruence.
Qed.

Lemma SFleb_refl (x : spec_float) : Float.is_nan x = false -> SFleb x x = true.
Proof.
  unfold SFleb. destruct x as [[ | ] | [ | ] | | [ | ] m e]; simpl; try discriminate;
    try reflexivity; intros _; rewrite Z.compare_refl;
    change (Pos.compare_cont Eq m m) with (Pos.compare m m);
    rewrite Pos.compare_refl; reflexivity.
Qed.

End ComparisonOrder.

Section TopRisk.

Lemma top_risk_fold_none (l : list process_risk) :
  forall best,
    fold_left top_risk_step l best = None <->
    best = None /\ forall e, In e l -> active e = false.
Proof.
  induction l as [ | a l IH ]; intros best; simpl.
  - split; [intros ->; split; [reflexivity | tauto] | tauto].
  - rewrite IH. unfold top_risk_step. destruct (active a) eqn:Ea; simpl.
    + split.
      * intros [H _]. destruct best as [b | ]; [ | discriminate].
        destruct (Single.ltb (anomaly_score b) (anomaly_score a)); discriminate.
      * intros [_ H]. specialize (H a (or_introl eq_refl)). congruence.
    + split.
      * intros [-> H]. split; [reflexivity | ]. intros e [<- | He]; auto.
      * intros [-> H]. split; [reflexivity | ]. intros e He. apply H. right. exact He.
Qed.

Lemma top_risk_fold_member (l : list process_risk) :
  forall best b,
    fold_left top_risk_step l best = Some b ->
    best = Some b \/ (In b l /\ active b = true).
Proof.
  induction l as [ | a l IH ]; intros best b; simpl.
  - intros ->. left. reflexivity.
  - intros Hf. destruct (IH _ _ Hf) as [Hb | [Hin Hact]]; [ | tauto].
    unfold top_risk_step in Hb. destruct (active a) eqn:Ea; cbn [negb] in Hb; [ | tauto].
    destruct best as [b0 | ].
    + destruct (Single.ltb (anomaly_score b0) (anomaly_score a)); [ | tauto].
      injection Hb as <-. tauto.
    + injection Hb as <-. tauto.
Qed.

Lemma top_risk_fold_greatest (l : list process_risk) :
  forall best b,
    fold_left top_risk_step l best = Some b ->
    scores_are_numbers l ->
    match best with Some b0 => Float.is_nan (anomaly_score b0) = false | None => True end ->
    match best with
    | Some b0 => Single.leb (anomaly_score b0) (anomaly_score b) = true
    | None => True
    end /\
    forall e, In e l -> active e = true ->
              Single.leb (anomaly_score e) (anomaly_score b) = true.
Proof.
  induction l as [ | a l IH ]; intros best b; simpl.
  - intros -> _ Hb. split; [apply SFleb_refl; exact Hb | tauto].
  - intros Hf Hnum Hbest.
    assert (Hnum' : scores_are_numbers l) by (intros e He; apply Hnum; right; exact He).
    specialize (IH _ _ Hf Hnum'). unfold top_risk_step in IH.
    destruct (active a) eqn:Ea; cbn [negb] in IH.
    + assert (Ha : Float.is_nan (anomaly_score a) = false)
        by (apply Hnum; [left; reflexivity | exact Ea]).
      destruct best as [b0 | ].
      * destruct (Single.ltb (anomaly_score b0) (anomaly_score a)) eqn:Elt.
        -- destruct (IH Ha) as (Hab & Hall).
           split; [apply (SFleb_trans _ (anomaly_score a)); [apply SFltb_leb; exact Elt | exact Hab] | ].
           intros e [<- | He] Hact; [exact Hab | apply Hall; assumption].
        -- destruct (IH Hbest) as (H0b & Hall). split; [exact H0b | ].
           intros e [<- | He] Hact; [ | apply Hall; assumption].
           apply (SFleb_trans _ (anomaly_score b0)); [ | exact H0b].
           apply SFltb_false_leb; assumption.
      * destruct (IH Ha) as (Hab & Hall). split; [exact I | ].
        intros e [<- | He] Hact; [exact Hab | apply Hall; assumption].
    + destruct (IH Hbest) as (H0b & Hall). split; [exact H0b | ].
      intros e [<- | He] Hact; [congruence | apply Hall; assumption].
Qed.

End TopRisk.

(** X18.  [correlation_top_risk] returns NULL exactly when no slot in use is
    active; otherwise it returns an active entry of the table, and when the
    scores of the active entries are numbers that entry has the greatest
    score among them. *)
Theorem correlation_top_risk_greatest (eng : correlation_engine) :
  (correlation_top_risk eng = None <->
   forall e, In e (used_entries eng) -> active e = false) /\
  (forall b, correlation_top_risk eng = Some b ->
     In b (used_entries eng) /\ active b = true /\
     (scores_are_numbers (used_entries eng) ->
      forall e, In e (used_entries eng) -> active e = true ->
                Single.leb (anomaly_score e) (anomaly_score b) = true)).
Proof.
  unfold correlation_top_risk. fold (used_entries eng).
  destruct (count eng =? 0) eqn:E0.
  - apply Z.eqb_eq in E0. unfold used_entries. rewrite E0. simpl.
    split; [split; [intros _ e [] | reflexivity] | discriminate].
  - split.
    + rewrite top_risk_fold_none. tauto.
    + intros b Hb. destruct (top_risk_fold_member _ _ _ Hb) as [Hn | [Hin Hact]];
        [discriminate | ].
      split; [exact Hin | ]. split; [exact Hact | ].
      intros Hnum. apply (top_risk_fold_greatest _ _ _ Hb Hnum I).
Qed.

(** ** logger.c: escaping *)

Section JsonEscape.
Variable out_size : Z.
Hypothesis out_size_range : 0 < out_size < 2 ^ 63.

Lemma escape_char_length (c : Byte.byte) :
  strlen (escape_char c) =
  if Byte.eqb c Chr.quote || Byte.eqb c Chr.backslash then 2
  else if byte.unsigned c <? 32 then 6 else 1.
Proof.
  unfold escape_char, strlen.
  destruct (Byte.eqb c Chr.quote || Byte.eqb c Chr.backslash); [reflexivity | ].
  destruct (byte.unsigned c <? 32); reflexivity.
Qed.

Lemma escape_char_bounds (c : Byte.byte) : 1 <= strlen (escape_char c) <= 6.
Proof.
  rewrite escape_char_length.
  destruct (Byte.eqb c Chr.quote || Byte.eqb c Chr.backslash); [lia | ].
  destruct (byte.unsigned c <? 32); lia.
Qed.

Lemma strlen_app (a b : list Byte.byte) : strlen (a ++ b) = strlen a + strlen b.
Proof. unfold strlen. rewrite length_app. lia. Qed.

Lemma strlen_nonneg (a : list Byte.byte) : 0 <= strlen a.
Proof. unfold strlen. lia. Qed.

Lemma escape_string_cons (c : Byte.byte) (s : list Byte.byte) :
  escape_string (c :: s) = escape_char c ++ escape_string s.
Proof. reflexivity. Qed.

Lemma escape_string_app (a b : list Byte.byte) :
  escape_string (a ++ b) = escape_string a ++ escape_string b.
Proof. unfold escape_string. apply flat_map_app. Qed.

(** One step when the whole escape fits before the end of the buffer. *)
Lemma json_escape_step_fits (out : list Byte.byte) (j : Z) (c : Byte.byte) :
  0 <= j -> j + strlen (escape_char c) < out_size ->
  json_escape_step out_size (out, j) c = (out ++ escape_char c, j + strlen (escape_char c)).
Proof.
  intros Hj Hfit. rewrite escape_char_length in *. unfold json_escape_step, escape_char.
  destruct (Byte.eqb c Chr.quote || Byte.eqb c Chr.backslash).
  - f_equal. unfold wrap64. apply Z.mod_small. lia.
  - destruct (byte.unsigned c <? 32).
    + f_equal.
      * f_equal. apply take_ge. unfold wrap64. rewrite Z.mod_small by lia. simpl. lia.
      * unfold wrap64. simpl. apply Z.mod_small. lia.
    + f_equal. unfold wrap64. apply Z.mod_small. lia.
Qed.

(** The index after one step, whether the escape fits or not. *)
Lemma json_escape_step_index (out : list Byte.byte) (j : Z) (c : Byte.byte) :
  0 <= j < out_size ->
  snd (json_escape_step out_size (out, j) c) = j + strlen (escape_char c).
Proof.
  intros Hj. rewrite escape_char_length. unfold json_escape_step.
  destruct (Byte.eqb c Chr.quote || Byte.eqb c Chr.backslash); simpl.
  - unfold wrap64. apply Z.mod_small. lia.
  - destruct (byte.unsigned c <? 32); simpl; unfold wrap64; apply Z.mod_small; lia.
Qed.

(** What the loop has done when it ends inside the buffer. *)
Lemma json_escape_loop_inside (input : list Byte.byte) :
  forall out j,
    0 <= j <= out_size + 3 ->
    let st := json_escape_loop out_size input (out, j) in
    j <= snd st <= out_size + 3 /\
    (snd st < out_size ->
     exists n,
       (n <= length input)%nat /\
       fst st = out ++ escape_string (take n input) /\
       snd st = j + strlen (escape_string (take n input)) /\
       c_string (take n input) /\
       (n = length input \/
        exists c, input !! n = Some c /\ (c = Chr.nul \/ out_size <= snd st + 2))).
Proof.
  induction input as [ | c input IH ]; intros out j Hj; cbn [json_escape_loop snd fst].
  - split; [lia | ]. intros _. exists 0%nat. simpl. rewrite app_nil_r.
    split; [lia | ]. split; [reflexivity | ]. split; [unfold strlen; simpl; lia | ].
    split; [intros [] | left; reflexivity].
  - assert (Hw : wrap64 (j + 2) = j + 2) by (unfold wrap64; apply Z.mod_small; lia).
    rewrite Hw.
    destruct (negb (Byte.eqb c Chr.nul) && (j + 2 <? out_size)) eqn:Eg.
    + apply andb_true_iff in Eg. destruct Eg as [Enul Elt].
      apply Z.ltb_lt in Elt. apply negb_true_iff in Enul.
      pose proof (json_escape_step_index out j c ltac:(lia)) as Hidx.
      pose proof (escape_char_bounds c) as Hb.
      destruct (json_escape_step out_size (out, j) c) as [out1 j1] eqn:Es. cbn [snd] in Hidx.
      specialize (IH out1 j1 ltac:(lia)). cbv zeta in IH. destruct IH as (Hrange & Hin).
      split; [lia | ]. intros Hlt. destruct (Hin Hlt) as (n & Hn & Hout & Hsnd & Hcs & Hstop).
      assert (Hfit : j + strlen (escape_char c) < out_size) by lia.
      rewrite (json_escape_step_fits out j c ltac:(lia) Hfit) in Es.
      injection Es as <- _.
      exists (S n). cbn [take length]. rewrite escape_string_cons, strlen_app.
      split; [lia | ]. split; [rewrite Hout, <- app_assoc; reflexivity | ].
      split; [lia | ].
      split.
      * intros [Hc | Hc]; [ | exact (Hcs Hc)].
        unfold Chr.nul in *. subst c. discriminate.
      * destruct Hstop as [-> | Hstop]; [left; reflexivity | right; exact Hstop].
    + split; [simpl; lia | ]. cbn [snd fst]. intros Hlt. exists 0%nat.
      cbn [take]. unfold escape_string. simpl. rewrite app_nil_r.
      split; [lia | ]. split; [reflexivity | ]. split; [unfold strlen; simpl; lia | ].
      split; [intros [] | ]. right. exists c. split; [reflexivity | ].
      apply andb_false_iff in Eg. destruct Eg as [Eg | Eg].
      * left. apply negb_false_iff in Eg. unfold Chr.nul in *.
        destruct c; try discriminate. reflexivity.
      * right. apply Z.ltb_ge in Eg. lia.
Qed.

(** Without control characters the loop always ends inside the buffer. *)
Lemma json_escape_loop_safe (input : list Byte.byte) :
  forall out j,
    0 <= j < out_size ->
    Forall (fun c => is_control c = false) input ->
    snd (json_escape_loop out_size input (out, j)) < out_size.
Proof.
  induction input as [ | c input IH ]; intros out j Hj Hall; cbn [json_escape_loop snd].
  - lia.
  - assert (Hw : wrap64 (j + 2) = j + 2) by (unfold wrap64; apply Z.mod_small; lia).
    rewrite Hw. inversion Hall as [ | c' l' Hc Hrest ]; subst.
    destruct (negb (Byte.eqb c Chr.nul) && (j + 2 <? out_size)) eqn:Eg; [ | simpl; lia].
    apply andb_true_iff in Eg. destruct Eg as [Enul Elt]. apply Z.ltb_lt in Elt.
    pose proof (json_escape_step_index out j c ltac:(lia)) as Hidx.
    rewrite escape_char_length in Hidx.
    unfold is_control in Hc. rewrite Enul in Hc. cbn [andb] in Hc. rewrite Hc in Hidx.
    destruct (json_escape_step out_size (out, j) c) as [out1 j1]. cbn [snd] in Hidx.
    apply IH; [ | exact Hrest].
    destruct (Byte.eqb c Chr.quote || Byte.eqb c Chr.backslash); lia.
Qed.

(** A prefix whose escape leaves room is escaped completely. *)
Lemma json_escape_loop_app (pre : list Byte.byte) :
  forall tail out j,
    c_string pre -> 0 <= j ->
    j + strlen (escape_string pre) + 2 < out_size ->
    json_escape_loop out_size (pre ++ tail) (out, j) =
    json_escape_loop out_size tail
      (out ++ escape_string pre, j + strlen (escape_string pre)).
Proof.
  induction pre as [ | c pre IH ]; intros tail out j Hcs Hj Hroom.
  - cbn [app escape_string flat_map]. unfold strlen. simpl.
    rewrite app_nil_r, Z.add_0_r. reflexivity.
  - rewrite escape_string_cons, strlen_app in Hroom.
    pose proof (escape_char_bounds c) as Hb.
    pose proof (strlen_nonneg (escape_string pre)) as Hp.
    cbn [app json_escape_loop snd].
    assert (Hw : wrap64 (j + 2) = j + 2) by (unfold wrap64; apply Z.mod_small; lia).
    rewrite Hw.
    replace (Byte.eqb c Chr.nul) with false.
    2:{ symmetry. destruct (Byte.eqb c Chr.nul) eqn:E; [ | reflexivity].
        exfalso. apply Hcs. left. unfold Chr.nul in *.
        destruct c; try discriminate. reflexivity. }
    replace (j + 2 <? out_size) with true by (symmetry; apply Z.ltb_lt; lia).
    cbn [negb andb].
    rewrite json_escape_step_fits by lia.
    rewrite IH; [ | intros Hin; apply Hcs; right; exact Hin | lia | lia].
    rewrite escape_string_cons, strlen_app, <- app_assoc. f_equal. f_equal. lia.
Qed.

End JsonEscape.

(** X19.  Whenever [json_escape] stays inside its buffer, the string it
    leaves is NUL-terminated inside the buffer and is the complete escape of
    a prefix of the input (a quote or backslash preceded by a backslash, a
    control character as [\u00XX], everything else as it is): it never
    stops in the middle of an escape.  It stops only at the end of the
    input or when fewer than three bytes are left.  An input without control
    characters never makes it leave the buffer, and an input whose escape
    leaves at least three bytes free is escaped completely. *)
Theorem json_escape_prefix (input out0 : list Byte.byte) (out_size : Z) :
  0 < out_size < 2 ^ 63 ->
  (forall s, json_escape input out0 out_size = Some s ->
     strlen s < out_size /\
     exists n,
       (n <= length input)%nat /\ c_string (take n input) /\
       s = escape_string (take n input) /\
       (n = length input \/
        exists c, input !! n = Some c /\ (c = Chr.nul \/ out_size <= strlen s + 2))) /\
  (Forall (fun c => is_control c = false) input ->
   exists s, json_escape input out0 out_size = Some s) /\
  (c_string input -> strlen (escape_string input) + 2 < out_size ->
   json_escape input out0 out_size = Some (escape_string input)).
Proof.
  intros Hsize. unfold json_escape.
  replace (out_size =? 0) with false by (symmetry; apply Z.eqb_neq; lia).
  split; [ | split].
  - intros s Hs.
    pose proof (json_escape_loop_inside out_size Hsize input [] 0 ltac:(lia)) as Hloop.
    cbv zeta in Hloop.
    destruct (json_escape_loop out_size input ([], 0)) as [out j]. cbn [fst snd] in Hloop.
    destruct (j <? out_size) eqn:Ej; [ | discriminate]. injection Hs as <-.
    apply Z.ltb_lt in Ej. destruct Hloop as (_ & Hin).
    destruct (Hin Ej) as (n & Hn & Hout & Hj & Hcs & Hstop).
    cbn [app] in Hout. subst out. rewrite Z.add_0_l in Hj. rewrite <- Hj.
    split; [exact Ej | ]. exists n. split; [exact Hn | ]. split; [exact Hcs | ].
    split; [reflexivity | exact Hstop].
  - intros Hall.
    pose proof (json_escape_loop_safe out_size Hsize input [] 0 ltac:(lia) Hall) as Hsafe.
    destruct (json_escape_loop out_size input ([], 0)) as [out j]. cbn [snd] in Hsafe.
    exists out. replace (j <? out_size) with true by (symmetry; apply Z.ltb_lt; lia).
    reflexivity.
  - intros Hcs Hroom.
    pose proof (json_escape_loop_app out_size Hsize input [] [] 0 Hcs ltac:(lia)
                  ltac:(lia)) as Happ.
    rewrite app_nil_r in Happ. rewrite Happ. cbn [json_escape_loop app].
    pose proof (strlen_nonneg (escape_string input)).
    replace (0 + strlen (escape_string input) <? out_size) with true
      by (symmetry; apply Z.ltb_lt; lia).
    reflexivity.
Qed.

Lemma json_escape_prefix_witness :
  0 < 256 < 2 ^ 63 /\
  json_escape Str.none [] 256 = Some (escape_string Str.none).
Proof.
  split; [lia | ].
  apply (json_escape_prefix Str.none [] 256); [lia | | vm_compute; reflexivity].
  vm_compute. intuition discriminate.
Defined.

(** X20.  [json_escape] writes outside its buffer when a control character
    is met within the last six bytes: if the escape of the text before the
    control character ends at an index [j] with
    [out_size - 6 <= j < out_size - 2], the terminating NUL is stored at
    index [j + 6], which is not inside the buffer. *)
Theorem json_escape_overruns (pre rest out0 : list Byte.byte) (c : Byte.byte)
    (out_size : Z) :
  0 < out_size < 2 ^ 63 ->
  c_string pre -> is_control c = true ->
  out_size - 6 <= strlen (escape_string pre) ->
  strlen (escape_string pre) + 2 < out_size ->
  json_escape (pre ++ c :: rest) out0 out_size = None.
Proof.
  intros Hsize Hcs Hc Hlate Hroom. unfold json_escape.
  replace (out_size =? 0) with false by (symmetry; apply Z.eqb_neq; lia).
  pose proof (strlen_nonneg (escape_string pre)) as Hp.
  rewrite (json_escape_loop_app out_size Hsize pre (c :: rest) [] 0 Hcs ltac:(lia)
             ltac:(lia)).
  cbn [app]. set (j := 0 + strlen (escape_string pre)).
  assert (Hj : 0 <= j /\ out_size - 6 <= j /\ j + 2 < out_size) by (subst j; lia).
  clearbody j. cbn [json_escape_loop snd].
  assert (Hw : wrap64 (j + 2) = j + 2) by (unfold wrap64; apply Z.mod_small; lia).
  rewrite Hw. unfold is_control in Hc. apply andb_true_iff in Hc. destruct Hc as [Hn Hctl].
  rewrite Hn. replace (j + 2 <? out_size) with true by (symmetry; apply Z.ltb_lt; lia).
  cbn [andb].
  pose proof (json_escape_step_index out_size Hsize (escape_string pre) j c ltac:(lia))
    as Hidx.
  rewrite escape_char_length, Hctl in Hidx.
  replace (Byte.eqb c Chr.quote || Byte.eqb c Chr.backslash) with false in Hidx.
  2:{ symmetry. apply Z.ltb_lt in Hctl. apply orb_false_iff.
      split; destruct c; try reflexivity; vm_compute in Hctl; discriminate. }
  destruct (json_escape_step out_size (escape_string pre, j) c) as [out1 j1].
  cbn [snd] in Hidx. subst j1.
  assert (Hend : forall l, json_escape_loop out_size l (out1, j + 6) = (out1, j + 6)).
  { intros [ | c' l ]; [reflexivity | ]. cbn [json_escape_loop snd].
    assert (Hw2 : wrap64 (j + 6 + 2) = j + 6 + 2) by (unfold wrap64; apply Z.mod_small; lia).
    rewrite Hw2. replace (j + 6 + 2 <? out_size) with false
      by (symmetry; apply Z.ltb_ge; lia).
    rewrite andb_false_r. reflexivity. }
  rewrite Hend. replace (j + 6 <? out_size) with false by (symmetry; apply Z.ltb_ge; lia).
  reflexivity.
Qed.

Lemma json_escape_overruns_witness :
  0 < 256 < 2 ^ 63 /\ is_control Byte.x01 = true /\
  strlen (escape_string (replicate 42 Byte.x01)) = 252 /\
  json_escape (replicate 42 Byte.x01 ++ [Byte.x01]) [] 256 = None.
Proof.
  split; [lia | ]. split; [reflexivity | ]. split; [reflexivity | ].
  apply (json_escape_overruns (replicate 42 Byte.x01) [] [] Byte.x01 256).
  - lia.
  - intros Hin. apply list_elem_of_In, elem_of_replicate in Hin.
    destruct Hin as [Hin _]. discriminate.
  - reflexivity.
  - vm_compute. discriminate.
  - vm_compute. reflexivity.
Defined.

(** The text [anomaly_flags_str] renders has no character to escape and is
    at most 74 bytes long, so [json_escape] into 512 bytes returns it. *)
Lemma flags_text_plain (flags : Z) (out0 : list Byte.byte) :
  json_escape (anomaly_flags_str flags) out0 512 = Some (anomaly_flags_str flags) /\
  strlen (anomaly_flags_str flags) <= 74.
Proof.
  unfold anomaly_flags_str.
  destruct (flags =? 0); [vm_compute; split; [reflexivity | discriminate] | ].
  generalize (Z.land flags ANOMALY_CACHE_MISS_SPIKE =? 0),
             (Z.land flags ANOMALY_BRANCH_MISS_SPIKE =? 0),
             (Z.land flags ANOMALY_IPC_COLLAPSE =? 0),
             (Z.land flags ANOMALY_BURST_PATTERN =? 0),
             (Z.land flags ANOMALY_OSCILLATION =? 0).
  intros [ | ] [ | ] [ | ] [ | ] [ | ]; vm_compute; (split; [reflexivity | discriminate]).
Qed.

Lemma escape_string_length (s : list Byte.byte) :
  strlen (escape_string s) <= 6 * Z.of_nat (length s).
Proof.
  induction s as [ | c s IH ]; [vm_compute; discriminate | ].
  rewrite escape_string_cons, strlen_app. pose proof (escape_char_bounds c).
  cbn [length]. lia.
Qed.

Lemma json_escape_whole (input out0 : list Byte.byte) (out_size : Z) :
  0 < out_size < 2 ^ 63 ->
  c_string input -> strlen (escape_string input) + 2 < out_size ->
  json_escape input out0 out_size = Some (escape_string input).
Proof.
  intros Hsize Hcs Hroom. unfold json_escape.
  replace (out_size =? 0) with false by (symmetry; apply Z.eqb_neq; lia).
  pose proof (json_escape_loop_app out_size Hsize input [] [] 0 Hcs ltac:(lia)
                ltac:(lia)) as Happ.
  rewrite app_nil_r in Happ. rewrite Happ. cbn [json_escape_loop app].
  pose proof (strlen_nonneg (escape_string input)).
  replace (0 + strlen (escape_string input) <? out_size) with true
    by (symmetry; apply Z.ltb_lt; lia).
  reflexivity.
Qed.

(** ** logger.c: alerts *)

Section Cooldown.
Variable fmt_lu : Z -> list Byte.byte.
Variable fmt_d : Z -> list Byte.byte.
Variable fmt_f4 : spec_float -> list Byte.byte.




End Cooldown.


Section Delivery.
Variable fmt_lu : Z -> list Byte.byte.
Variable fmt_d : Z -> list Byte.byte.
Variable fmt_f4 : spec_float -> list Byte.byte.

Lemma level_str_length (lv : Z) : strlen (Logger.level_str lv) <= 8.
Proof.
  unfold Logger.level_str.
  destruct (lv =? Logger.ALERT_INFO); [vm_compute; discriminate | ].
  destruct (lv =? Logger.ALERT_WARNING); [vm_compute; discriminate | ].
  destruct (lv =? Logger.ALERT_CRITICAL); vm_compute; discriminate.
Qed.

Lemma alert_json_length (lv ts p : Z) (comm_esc : list Byte.byte) (score : spec_float)
    (reason_esc : list Byte.byte) :
  strlen (Logger.alert_json fmt_lu fmt_d fmt_f4 lv ts p comm_esc score reason_esc) =
  72 + strlen (Logger.level_str lv) + strlen (fmt_lu ts) + strlen (fmt_d p) +
  strlen comm_esc + strlen (fmt_f4 score) + strlen reason_esc.
Proof.
  unfold Logger.alert_json, Logger.quoted, strlen.
  repeat (rewrite ?length_app; cbn [length]).
  repeat match goal with |- context [length (Str.lit ?s)] =>
    let n := eval vm_compute in (length (Str.lit s)) in
    change (length (Str.lit s)) with n end.
  lia.
Qed.

End Delivery.

(** X22.  The alerts the detection loop raises are written whole.  For a
    process name of at most 42 bytes, a reason rendered by
    [anomaly_flags_str] and numbers printed in at most 20 ([%lu]), 11
    ([%d]) and 315 ([%.4f]) bytes, a call of [logger_alert] that is past
    the cooldown escapes the name completely, passes the reason through
    unchanged, composes a line below the 1024-byte limit, writes it to
    every enabled sink and records the time of the alert. *)
Theorem alert_written_whole (fmt_lu fmt_d : Z -> list Byte.byte)
    (fmt_f4 : spec_float -> list Byte.byte)
    (log : Logger.logger) (now lv ts p flags : Z) (comm : list Byte.byte)
    (score : spec_float) :
  0 <= Logger.cooldown_sec log < 2 ^ 32 ->
  0 <= Logger.last_alert_ns log <= now -> now < 2 ^ 64 ->
  Logger.last_alert_ns log = 0 \/
  Logger.cooldown_sec log * 1000000000 <= now - Logger.last_alert_ns log ->
  c_string comm -> (length comm <= 42)%nat ->
  strlen (fmt_lu ts) <= 20 -> strlen (fmt_d p) <= 11 -> strlen (fmt_f4 score) <= 315 ->
  let log' := Logger.set_last_alert log now in
  let line := Logger.alert_json fmt_lu fmt_d fmt_f4 lv ts p (escape_string comm) score
                (anomaly_flags_str flags) in
  Logger.logger_alert fmt_lu fmt_d fmt_f4 log now lv ts p (Some comm) score
    (Some (anomaly_flags_str flags)) =
  Some (log', Some (Logger.sinks log' lv, line)) /\
  strlen line < 1024 /\
  (Logger.to_stdout log = true -> In Logger.Stdout (Logger.sinks log' lv)) /\
  (Logger.to_syslog log = true ->
   In (Logger.Syslog (Logger.level_to_syslog_prio lv)) (Logger.sinks log' lv)).
Proof.
  intros Hcd Hlast Hnow Hopen Hcs Hlen Hlu Hd Hf log' line.
  pose proof (escape_string_length comm) as Hesc.
  pose proof (strlen_nonneg (escape_string comm)) as Hesc0.
  destruct (flags_text_plain flags []) as (Hreason & Hrlen).
  pose proof (level_str_length lv) as Hlv.
  assert (Hline : strlen line < 1024).
  { subst line. rewrite alert_json_length. lia. }
  split; [ | split; [exact Hline | split]].
  - unfold Logger.logger_alert.
    assert (Hw1 : wrap64 (now - Logger.last_alert_ns log) = now - Logger.last_alert_ns log).
    { unfold wrap64. apply Z.mod_small. lia. }
    assert (Hw2 : wrap64 (Logger.cooldown_sec log * 1000000000)
                  = Logger.cooldown_sec log * 1000000000).
    { unfold wrap64. apply Z.mod_small. lia. }
    rewrite Hw1, Hw2.
    replace ((0 <? Logger.cooldown_sec log) && (0 <? Logger.last_alert_ns log) &&
             (now - Logger.last_alert_ns log <? Logger.cooldown_sec log * 1000000000))
      with false.
    2:{ symmetry. destruct Hopen as [H0 | Hsp].
        - rewrite H0. rewrite andb_false_r. reflexivity.
        - apply andb_false_iff. right. apply Z.ltb_ge. exact Hsp. }
    unfold default, from_option. change (Datatypes.id comm) with comm.
    change (Datatypes.id (anomaly_flags_str flags)) with (anomaly_flags_str flags).
    fold log'.
    rewrite (json_escape_whole comm [] 256) by (try exact Hcs; lia).
    rewrite Hreason. cbv zeta. fold line.
    replace (1024 <=? strlen line) with false by (symmetry; apply Z.leb_gt; exact Hline).
    reflexivity.
  - intros Hout. unfold Logger.sinks. subst log'. cbn [Logger.to_stdout Logger.set_last_alert].
    rewrite Hout. left. reflexivity.
  - intros Hsys. unfold Logger.sinks. subst log'.
    cbn [Logger.to_stdout Logger.to_file Logger.file_handle Logger.to_syslog
         Logger.set_last_alert].
    rewrite Hsys. apply in_or_app. right. apply in_or_app. right. left. reflexivity.
Qed.


Lemma alert_written_whole_witness :
  0 <= Logger.cooldown_sec logger_5s < 2 ^ 32 /\
  (0 <= Logger.last_alert_ns logger_5s <= 1000000000 /\ 1000000000 < 2 ^ 64) /\
  Logger.last_alert_ns logger_5s = 0 /\
  c_string Str.none /\ (length Str.none <= 42)%nat /\
  Logger.logger_alert one_digit one_digit one_digit logger_5s 1000000000
    Logger.ALERT_WARNING 1000000000 1 (Some Str.none) (S754_zero false)
    (Some (anomaly_flags_str ANOMALY_BURST_PATTERN)) =
  Some (Logger.set_last_alert logger_5s 1000000000,
        Some ([Logger.Stdout; Logger.Syslog Logger.LOG_WARNING],
              Logger.alert_json one_digit one_digit one_digit Logger.ALERT_WARNING
                1000000000 1 Str.none (S754_zero false)
                (anomaly_flags_str ANOMALY_BURST_PATTERN))).
Proof.
  assert (Hcs : c_string Str.none) by (vm_compute; intuition discriminate).
  split; [vm_compute; split; [discriminate | reflexivity] | ].
  split; [vm_compute; repeat split; discriminate | ].
  split; [reflexivity | ]. split; [exact Hcs | ].
  split; [vm_compute; lia | ].
  refine (proj1 (alert_written_whole one_digit one_digit one_digit logger_5s 1000000000
                   Logger.ALERT_WARNING 1000000000 1 ANOMALY_BURST_PATTERN Str.none
                   (S754_zero false) _ _ _ _ Hcs _ _ _ _)).
  - vm_compute. split; [discriminate | reflexivity].
  - vm_compute. split; discriminate.
  - reflexivity.
  - left. reflexivity.
  - vm_compute. lia.
  - vm_compute. discriminate.
  - vm_compute. discriminate.
  - vm_compute. discriminate.
Defined.

(** ** pmu.c: descriptors *)

Section Descriptors.
Variable k : Perf.kernel.
Hypothesis fit : descriptors_fit k.
Variable tr0 : Perf.trace.
Let accounted := accounted_since tr0.

Lemma to_int_fit (z : Z) : 0 <= z < 2 ^ 31 -> to_int z = z.
Proof.
  intros H. unfold to_int. rewrite Z.mod_small by lia.
  replace (z <? 2 ^ 31) with true by (symmetry; apply Z.ltb_lt; lia). reflexivity.
Qed.

Lemma accounted_other (l : list Z) (tr : Perf.trace) (c : Perf.syscall) (a : Perf.answer) :
  match c with
  | Perf.SysPerfEventOpen _ _ _ _ _ => Perf.ret a < 0
  | Perf.SysClose _ => False
  | _ => True
  end ->
  accounted l tr -> accounted l ((c, a) :: tr).
Proof.
  intros Hc (calls & -> & Hp). exists ((c, a) :: calls). split; [reflexivity | ].
  unfold opened, closed in *. cbn [flat_map fst snd].
  destruct c; try contradiction; cbn [app]; try exact Hp.
  replace (Perf.ret a <? 0) with true by (symmetry; apply Z.ltb_lt; exact Hc).
  exact Hp.
Qed.

Lemma accounted_open (l l' : list Z) (tr : Perf.trace) pe p c g f (a : Perf.answer) :
  0 <= Perf.ret a ->
  Permutation (held l') (Perf.ret a :: held l) ->
  accounted l tr -> accounted l' ((Perf.SysPerfEventOpen pe p c g f, a) :: tr).
Proof.
  intros Ha Hl (calls & -> & Hp).
  exists ((Perf.SysPerfEventOpen pe p c g f, a) :: calls). split; [reflexivity | ].
  unfold opened, closed in *. cbn [flat_map fst snd app].
  replace (Perf.ret a <? 0) with false by (symmetry; apply Z.ltb_ge; exact Ha).
  cbn [app]. rewrite Hl. rewrite <- Permutation_middle. constructor. exact Hp.
Qed.

Lemma accounted_close (l l' : list Z) (tr : Perf.trace) (fd : Z) (a : Perf.answer) :
  Permutation (held l) (fd :: held l') ->
  accounted l tr -> accounted l' ((Perf.SysClose fd, a) :: tr).
Proof.
  intros Hl (calls & -> & Hp). exists ((Perf.SysClose fd, a) :: calls).
  split; [reflexivity | ]. unfold opened, closed in *. cbn [flat_map fst snd app].
  rewrite Hp, Hl. rewrite <- Permutation_middle. reflexivity.
Qed.

Lemma held_insert (l : list Z) : forall (i : nat) (fd : Z),
  l !! i = Some (-1) -> 0 <= fd ->
  Permutation (held (<[i := fd]> l)) (fd :: held l).
Proof.
  induction l as [ | x l IH ]; intros [ | i ] fd Hi Hfd; try discriminate.
  - injection Hi as ->. cbn. unfold held. cbn [List.filter].
    replace (0 <=? fd) with true by (symmetry; apply Z.leb_le; exact Hfd).
    reflexivity.
  - cbn in Hi. cbn [insert list_insert]. fold (@insert _ _ _ (@list_insert Z)).
    unfold held in *. cbn [List.filter].
    change (list_insert i fd l) with (<[i := fd]> l).
    destruct (0 <=? x).
    + rewrite (IH i fd Hi Hfd). apply perm_swap.
    + apply (IH i fd Hi Hfd).
Qed.

(** One [open_one]: it fails, or it hands out a descriptor. *)
Lemma open_one_accounted pe p c g (l : list Z) (tr tr' : Perf.trace) (fd : Z) :
  Perf.open_one k pe p c g tr = (fd, tr') ->
  accounted l tr ->
  (fd = -1 /\ accounted l tr') \/
  (0 <= fd /\ forall l', Permutation (held l') (fd :: held l) -> accounted l' tr').
Proof.
  unfold Perf.open_one, Perf.sys. intros H Hacc.
  destruct (Perf.ret (k tr (Perf.SysPerfEventOpen pe p c g 0)) <? 0) eqn:E;
    injection H as <- <-.
  - left. split; [reflexivity | ]. apply accounted_other; [ | exact Hacc].
    apply Z.ltb_lt. exact E.
  - right. apply Z.ltb_ge in E. pose proof (fit tr (Perf.SysPerfEventOpen pe p c g 0)) as Hf.
    rewrite to_int_fit by lia. split; [exact E | ].
    intros l' Hl. apply (accounted_open l l'); assumption.
Qed.

Lemma fallback_accounted p c g (alts : list (Z * Z)) :
  forall (l : list Z) (tr tr' : Perf.trace) (fd : Z),
    Perf.open_event_with_fallback k p c g alts tr = (fd, tr') ->
    accounted l tr ->
    (fd = -1 /\ accounted l tr') \/
    (0 <= fd /\ forall l', Permutation (held l') (fd :: held l) -> accounted l' tr').
Proof.
  induction alts as [ | [ty cf] alts IH ]; intros l tr tr' fd H Hacc.
  - injection H as <- <-. left. split; [reflexivity | exact Hacc].
  - cbn [Perf.open_event_with_fallback] in H.
    destruct (Perf.open_one k (Perf.fill_attr ty cf) p c g tr) as [fd1 tr1] eqn:E1.
    destruct (open_one_accounted _ _ _ _ l _ _ _ E1 Hacc) as [(-> & H1) | (Hfd & H1)].
    + cbn in H. apply (IH l tr1 tr' fd H H1).
    + replace (0 <=? fd1) with true in H by (symmetry; apply Z.leb_le; exact Hfd).
      injection H as <- <-. right. split; [exact Hfd | exact H1].
Qed.

Lemma close_all_accounted (l : list Z) :
  forall (pre : list Z) (tr : Perf.trace) (l' : list Z) (tr' : Perf.trace),
    Perf.close_all k l tr = (l', tr') ->
    accounted (pre ++ l) tr ->
    accounted pre tr' /\ held l' = [] /\ length l' = length l /\
    Perf.count_open l' = 0.
Proof.
  induction l as [ | fd l IH ]; intros pre tr l' tr' H Hacc.
  - injection H as <- <-. rewrite app_nil_r in Hacc. auto.
  - cbn [Perf.close_all] in H. destruct (0 <=? fd) eqn:Efd.
    + unfold Perf.sys in H.
      destruct (Perf.close_all k l ((Perf.SysClose fd, k tr (Perf.SysClose fd)) :: tr))
        as [l2 tr2] eqn:E2.
      injection H as <- <-.
      assert (Hacc2 : accounted (pre ++ l)
                        ((Perf.SysClose fd, k tr (Perf.SysClose fd)) :: tr)).
      { apply (accounted_close (pre ++ fd :: l)); [ | exact Hacc].
        unfold held. rewrite !List.filter_app. cbn [List.filter]. rewrite Efd.
        rewrite <- Permutation_middle. reflexivity. }
      destruct (IH pre _ _ _ E2 Hacc2) as (H1 & H2 & H3 & H4).
      split; [exact H1 | ]. split; [unfold held in *; cbn; exact H2 | ].
      split; [cbn; congruence | ]. cbn [Perf.count_open]. rewrite H4. reflexivity.
    + destruct (Perf.close_all k l tr) as [l2 tr2] eqn:E2. injection H as <- <-.
      assert (Hacc2 : accounted (pre ++ l) tr).
      { destruct Hacc as (calls & Hc & Hp). exists calls. split; [exact Hc | ].
        rewrite Hp. unfold held. rewrite !List.filter_app. cbn [List.filter].
        rewrite Efd. reflexivity. }
      destruct (IH pre _ _ _ E2 Hacc2) as (H1 & H2 & H3 & H4).
      split; [exact H1 | ]. split; [unfold held in *; cbn [List.filter]; rewrite Efd; exact H2 | ].
      split; [cbn; congruence | ]. cbn [Perf.count_open]. rewrite Efd, H4. reflexivity.
Qed.

Lemma pmu_close_accounted (ctx ctx' : Perf.pmu_context) (tr tr' : Perf.trace) :
  Perf.pmu_close k ctx tr = (ctx', tr') ->
  accounted (Perf.fds ctx) tr ->
  accounted [] tr' /\ held (Perf.fds ctx') = [] /\
  length (Perf.fds ctx') = length (Perf.fds ctx) /\
  Perf.pmu_count_open ctx' = 0 /\ Perf.group_fd ctx' = -1.
Proof.
  unfold Perf.pmu_close. intros H Hacc.
  destruct (Perf.close_all k (Perf.fds ctx) tr) as [l2 tr2] eqn:E. injection H as <- <-.
  destruct (close_all_accounted (Perf.fds ctx) [] tr l2 tr2 E Hacc) as (H1 & H2 & H3 & H4).
  cbn. unfold Perf.pmu_count_open. cbn. auto.
Qed.

Lemma probe_accounted (ctx ctx' : Perf.pmu_context) (tr tr' : Perf.trace) :
  Perf.probe_any_cpu k ctx tr = (ctx', tr') ->
  accounted (Perf.fds ctx) tr ->
  accounted (Perf.fds ctx') tr' /\ Perf.fds ctx' = Perf.fds ctx /\
  Perf.group_fd ctx' = Perf.group_fd ctx /\ Perf.pid ctx' = Perf.pid ctx.
Proof.
  unfold Perf.probe_any_cpu, Perf.sys. intros H Hacc.
  destruct (Perf.cpu ctx =? -1); [ | injection H as <- <-; auto].
  set (c := Perf.SysPerfEventOpen _ _ _ _ _) in H.
  pose proof (fit tr c) as Hf.
  destruct ((Perf.ret (k tr c) <? 0) && (Perf.errno (k tr c) =? Perf.ENOENT)) eqn:E1.
  - injection H as <- <-. cbn. split; [ | auto].
    apply andb_true_iff in E1. destruct E1 as [E1 _]. apply Z.ltb_lt in E1.
    apply accounted_other; [exact E1 | exact Hacc].
  - destruct (0 <=? Perf.ret (k tr c)) eqn:E2; injection H as <- <-.
    + split; [ | auto]. apply Z.leb_le in E2. rewrite to_int_fit by lia.
      cbn [snd].
      apply (accounted_close (Perf.ret (k tr c) :: Perf.fds ctx)).
      { unfold held. cbn [List.filter].
        replace (0 <=? Perf.ret (k tr c)) with true by (symmetry; apply Z.leb_le; exact E2).
        reflexivity. }
      apply (accounted_open (Perf.fds ctx)); [exact E2 | | exact Hacc].
      unfold held. cbn [List.filter].
      replace (0 <=? Perf.ret (k tr c)) with true by (symmetry; apply Z.leb_le; exact E2).
      reflexivity.
    + split; [ | auto]. apply Z.leb_gt in E2.
      apply accounted_other; [exact E2 | exact Hacc].
Qed.

End Descriptors.

Section Opening.

Lemma count_open_nonneg (l : list Z) : 0 <= Perf.count_open l.
Proof. induction l as [ | x l IH ]; cbn; [lia | destruct (0 <=? x); lia]. Qed.

Lemma count_open_held (l : list Z) : Perf.count_open l = Z.of_nat (length (held l)).
Proof.
  induction l as [ | x l IH ]; [reflexivity | ].
  unfold held in *. cbn [Perf.count_open List.filter].
  destruct (0 <=? x); cbn [length]; lia.
Qed.

(** The optional slots: whatever the outcome of the open, the context stays
    accounted, and the two leading descriptors stay where they are. *)
Lemma store_accounted (tr0 : Perf.trace) (ctx : Perf.pmu_context) (i : nat) (fd : Z)
    (tr' : Perf.trace) :
  Perf.fds ctx !! i = Some (-1) ->
  (fd = -1 /\ accounted_since tr0 (Perf.fds ctx) tr') \/
  (0 <= fd /\ forall l', Permutation (held l') (fd :: held (Perf.fds ctx)) ->
                         accounted_since tr0 l' tr') ->
  accounted_since tr0 (Perf.fds (Perf.store_if_open ctx i fd)) tr' /\
  (forall j, j <> i -> Perf.fds (Perf.store_if_open ctx i fd) !! j = Perf.fds ctx !! j) /\
  Perf.group_fd (Perf.store_if_open ctx i fd) = Perf.group_fd ctx /\
  Perf.cpu (Perf.store_if_open ctx i fd) = Perf.cpu ctx /\
  length (Perf.fds (Perf.store_if_open ctx i fd)) = length (Perf.fds ctx).
Proof.
  intros Hi [(-> & H) | (Hfd & H)]; unfold Perf.store_if_open.
  - cbn. auto.
  - replace (0 <=? fd) with true by (symmetry; apply Z.leb_le; exact Hfd).
    cbn. split; [apply H, held_insert; assumption | ].
    split; [intros j Hj; apply list_lookup_insert_ne; congruence | ].
    split; [reflexivity | ]. split; [reflexivity | apply length_insert].
Qed.

End Opening.

(** X23.  [pmu_open] accounts for every descriptor.  For any behaviour of
    the kernel (whose descriptors fit in an [int]), the descriptors handed
    out during the call are, as a multiset, the ones it closed together with
    the ones left in [ctx->fds]: none is lost and none is closed twice.  On
    success the cycles and instructions counters are open, the cycles
    counter leads the group, at least two counters are open and the last
    call made is the group's [PERF_EVENT_IOC_ENABLE], answered 0.  On any
    failure the context holds no descriptor and [group_fd] is -1.  The
    "insufficient counters" exit is never taken. *)
Theorem pmu_open_accounts (k : Perf.kernel) (cpu0 pid0 : Z) (tr0 : Perf.trace)
    (st : Perf.open_status) (ctx : Perf.pmu_context) (tr : Perf.trace) :
  descriptors_fit k ->
  Perf.pmu_open k cpu0 pid0 tr0 = (st, ctx, tr) ->
  accounted_since tr0 (Perf.fds ctx) tr /\
  length (Perf.fds ctx) = Perf.PMU_NUM_COUNTERS /\
  st <> Perf.InsufficientCounters /\
  (st = Perf.Opened ->
   exists fd0 fd1 a rest,
     Perf.fds ctx !! Perf.PMU_IDX_CYCLES = Some fd0 /\
     Perf.fds ctx !! Perf.PMU_IDX_INSTRUCTIONS = Some fd1 /\
     0 <= fd0 /\ 0 <= fd1 /\ Perf.group_fd ctx = fd0 /\
     2 <= Perf.pmu_count_open ctx /\
     tr = (Perf.SysIoctl fd0 Perf.PERF_EVENT_IOC_ENABLE Perf.PERF_IOC_FLAG_GROUP, a) :: rest /\
     Perf.ret a = 0) /\
  (st <> Perf.Opened ->
   held (Perf.fds ctx) = [] /\ Perf.pmu_count_open ctx = 0 /\ Perf.group_fd ctx = -1).
Proof.
  intros fit. unfold Perf.pmu_open.
  set (pc := if (pid0 =? -1) && (cpu0 =? -1) then (0, -1) else (pid0, cpu0)).
  destruct pc as [pid1 cpu1]. cbv zeta.
  set (ctx0 := {| Perf.fds := replicate Perf.PMU_NUM_COUNTERS (-1); Perf.cpu := cpu1;
                  Perf.pid := pid1; Perf.group_fd := -1 |}).
  assert (Hacc0 : accounted_since tr0 (Perf.fds ctx0) tr0).
  { exists []. split; [reflexivity | ]. reflexivity. }
  destruct (Perf.probe_any_cpu k ctx0 tr0) as [ctx1 tr1] eqn:Eprobe.
  destruct (probe_accounted k fit tr0 ctx0 ctx1 tr0 tr1 Eprobe Hacc0)
    as (Hacc1 & Hfds1 & Hg1 & _).
  (* cycles *)
  destruct (Perf.open_one k _ pid1 (Perf.cpu ctx1) (-1) tr1) as [fd0 tr2] eqn:E0.
  destruct (open_one_accounted k fit tr0 _ _ _ _ _ _ _ _ E0 Hacc1) as [(-> & Hacc2) | (Hfd0 & Hacc2)].
  { cbn [Z.ltb Z.compare]. destruct (Perf.pmu_close k ctx1 tr2) as [ctxc trc] eqn:Ec.
    intros [= <- <- <-].
    destruct (pmu_close_accounted k tr0 ctx1 ctxc tr2 trc Ec Hacc2) as (H1 & H2 & H3 & H4 & H5).
    split; [unfold accounted_since in *; rewrite H2; exact H1 | ].
    split; [rewrite H3, Hfds1; reflexivity | ].
    split; [discriminate | ]. split; [discriminate | auto]. }
  replace (fd0 <? 0) with false by (symmetry; apply Z.ltb_ge; exact Hfd0).
  set (ctx2 := Perf.set_group_fd (Perf.set_fd ctx1 Perf.PMU_IDX_CYCLES fd0) fd0).
  assert (Hl2 : Perf.fds ctx2 = [fd0; -1; -1; -1; -1; -1]).
  { subst ctx2. cbn. rewrite Hfds1. reflexivity. }
  assert (Hacc2' : accounted_since tr0 (Perf.fds ctx2) tr2).
  { rewrite Hl2. apply Hacc2. rewrite Hfds1. unfold held. cbn [List.filter replicate Perf.PMU_NUM_COUNTERS].
    replace (0 <=? fd0) with true by (symmetry; apply Z.leb_le; exact Hfd0). reflexivity. }
  (* instructions *)
  change (Perf.group_fd ctx2) with fd0.
  destruct (Perf.open_one k _ pid1 (Perf.cpu ctx1) fd0 tr2) as [fd1 tr3] eqn:E1.
  destruct (open_one_accounted k fit tr0 _ _ _ _ _ _ _ _ E1 Hacc2') as [(-> & Hacc3) | (Hfd1 & Hacc3)].
  { cbn [Z.ltb Z.compare]. destruct (Perf.pmu_close k ctx2 tr3) as [ctxc trc] eqn:Ec.
    intros [= <- <- <-].
    destruct (pmu_close_accounted k tr0 ctx2 ctxc tr3 trc Ec Hacc3) as (H1 & H2 & H3 & H4 & H5).
    split; [unfold accounted_since in *; rewrite H2; exact H1 | ].
    split; [rewrite H3, Hl2; reflexivity | ].
    split; [discriminate | ]. split; [discriminate | auto]. }
  replace (fd1 <? 0) with false by (symmetry; apply Z.ltb_ge; exact Hfd1).
  set (ctx3 := Perf.set_fd ctx2 Perf.PMU_IDX_INSTRUCTIONS fd1).
  assert (Hl3 : Perf.fds ctx3 = [fd0; fd1; -1; -1; -1; -1]).
  { subst ctx3. unfold Perf.set_fd. cbn [Perf.fds]. rewrite Hl2. reflexivity. }
  assert (Hacc3' : accounted_since tr0 (Perf.fds ctx3) tr3).
  { rewrite Hl3. apply Hacc3. rewrite Hl2. unfold held. cbn [List.filter].
    replace (0 <=? fd0) with true by (symmetry; apply Z.leb_le; exact Hfd0).
    replace (0 <=? fd1) with true by (symmetry; apply Z.leb_le; exact Hfd1).
    cbn. apply perm_swap. }
  change (Perf.group_fd ctx3) with fd0.
  (* the four optional slots *)
  destruct (Perf.open_event_with_fallback k pid1 (Perf.cpu ctx1) fd0 _ tr3)
    as [fd2 tr4] eqn:E2.
  pose proof (fallback_accounted k fit tr0 _ _ _ _ _ _ _ _ E2 Hacc3') as Hs4.
  apply (store_accounted tr0 ctx3 Perf.PMU_IDX_CACHE_MISS) in Hs4;
    [ | rewrite Hl3; reflexivity].
  set (ctx4 := Perf.store_if_open ctx3 Perf.PMU_IDX_CACHE_MISS fd2) in *.
  destruct Hs4 as (Hacc4 & Hsame4 & Hg4 & _ & Hlen4).
  rewrite Hg4. change (Perf.group_fd ctx3) with fd0.
  destruct (Perf.open_one k _ pid1 (Perf.cpu ctx1) fd0 tr4) as [fd3 tr5] eqn:E3.
  pose proof (open_one_accounted k fit tr0 _ _ _ _ _ _ _ _ E3 Hacc4) as Hs5.
  apply (store_accounted tr0 ctx4 Perf.PMU_IDX_BRANCH_MISS) in Hs5;
    [ | rewrite Hsame4 by discriminate; rewrite Hl3; reflexivity].
  set (ctx5 := Perf.store_if_open ctx4 Perf.PMU_IDX_BRANCH_MISS fd3) in *.
  destruct Hs5 as (Hacc5 & Hsame5 & Hg5 & _ & Hlen5).
  rewrite Hg5, Hg4. change (Perf.group_fd ctx3) with fd0.
  destruct (Perf.open_one k _ pid1 (Perf.cpu ctx1) fd0 tr5) as [fd4 tr6] eqn:E4.
  pose proof (open_one_accounted k fit tr0 _ _ _ _ _ _ _ _ E4 Hacc5) as Hs6.
  apply (store_accounted tr0 ctx5 Perf.PMU_IDX_BRANCH_INST) in Hs6;
    [ | rewrite Hsame5, Hsame4 by discriminate; rewrite Hl3; reflexivity].
  set (ctx6 := Perf.store_if_open ctx5 Perf.PMU_IDX_BRANCH_INST fd4) in *.
  destruct Hs6 as (Hacc6 & Hsame6 & Hg6 & _ & Hlen6).
  rewrite Hg6, Hg5, Hg4. change (Perf.group_fd ctx3) with fd0.
  destruct (Perf.open_one k _ pid1 (Perf.cpu ctx1) fd0 tr6) as [fd5 tr7] eqn:E5.
  pose proof (open_one_accounted k fit tr0 _ _ _ _ _ _ _ _ E5 Hacc6) as Hs7.
  apply (store_accounted tr0 ctx6 Perf.PMU_IDX_CACHE_REF) in Hs7;
    [ | rewrite Hsame6, Hsame5, Hsame4 by discriminate; rewrite Hl3; reflexivity].
  set (ctx7 := Perf.store_if_open ctx6 Perf.PMU_IDX_CACHE_REF fd5) in *.
  destruct Hs7 as (Hacc7 & Hsame7 & Hg7 & _ & Hlen7).
  assert (H0 : Perf.fds ctx7 !! Perf.PMU_IDX_CYCLES = Some fd0).
  { rewrite Hsame7, Hsame6, Hsame5, Hsame4 by discriminate. rewrite Hl3. reflexivity. }
  assert (H1 : Perf.fds ctx7 !! Perf.PMU_IDX_INSTRUCTIONS = Some fd1).
  { rewrite Hsame7, Hsame6, Hsame5, Hsame4 by discriminate. rewrite Hl3. reflexivity. }
  assert (Hg : Perf.group_fd ctx7 = fd0).
  { rewrite Hg7, Hg6, Hg5, Hg4. reflexivity. }
  assert (Hlen : length (Perf.fds ctx7) = Perf.PMU_NUM_COUNTERS).
  { rewrite Hlen7, Hlen6, Hlen5, Hlen4, Hl3. reflexivity. }
  assert (Hcount : 2 <= Perf.pmu_count_open ctx7).
  { unfold Perf.pmu_count_open.
    destruct (Perf.fds ctx7) as [ | a [ | b l ]]; try discriminate.
    cbn in H0, H1. injection H0 as ->. injection H1 as ->.
    cbn [Perf.count_open].
    replace (0 <=? fd0) with true by (symmetry; apply Z.leb_le; exact Hfd0).
    replace (0 <=? fd1) with true by (symmetry; apply Z.leb_le; exact Hfd1).
    pose proof (count_open_nonneg l). lia. }
  replace (Perf.pmu_count_open ctx7 <? Perf.PMU_CRITICAL_MIN) with false
    by (symmetry; apply Z.ltb_ge; exact Hcount).
  rewrite Hg. replace (0 <=? fd0) with true by (symmetry; apply Z.leb_le; exact Hfd0).
  unfold Perf.sys.
  set (tr8 := (Perf.SysIoctl fd0 Perf.PERF_EVENT_IOC_RESET Perf.PERF_IOC_FLAG_GROUP, _) :: tr7).
  set (en := Perf.SysIoctl fd0 Perf.PERF_EVENT_IOC_ENABLE Perf.PERF_IOC_FLAG_GROUP).
  assert (Hacc9 : accounted_since tr0 (Perf.fds ctx7) ((en, k tr8 en) :: tr8)).
  { apply accounted_other; [exact I | ]. apply accounted_other; [exact I | exact Hacc7]. }
  destruct (Perf.ret (k tr8 en) =? 0) eqn:Een; cbn [negb].
  - intros [= <- <- <-]. split; [exact Hacc9 | ]. split; [exact Hlen | ].
    split; [discriminate | ]. split; [ | intros Hne; contradiction Hne; reflexivity].
    intros _. exists fd0, fd1, (k tr8 en), tr8. apply Z.eqb_eq in Een.
    repeat (split; [assumption || reflexivity | ]). exact Een.
  - destruct (Perf.pmu_close k ctx7 ((en, k tr8 en) :: tr8)) as [ctxc trc] eqn:Ec.
    intros [= <- <- <-].
    destruct (pmu_close_accounted k tr0 ctx7 ctxc _ trc Ec Hacc9) as (Hc1 & Hc2 & Hc3 & Hc4 & Hc5).
    split; [unfold accounted_since in *; rewrite Hc2; exact Hc1 | ].
    split; [rewrite Hc3; exact Hlen | ].
    split; [discriminate | ]. split; [discriminate | auto].
Qed.


Section ClosedContext.
Variable k : Perf.kernel.

Lemma close_all_negative (l : list Z) :
  forall tr l' tr', Perf.close_all k l tr = (l', tr') -> Forall (fun fd => fd < 0) l'.
Proof.
  induction l as [ | fd l IH ]; intros tr l' tr' H.
  - injection H as <- <-. constructor.
  - cbn [Perf.close_all] in H. destruct (0 <=? fd) eqn:E.
    + unfold Perf.sys in H. destruct (Perf.close_all k l _) as [l2 tr2] eqn:E2.
      injection H as <- <-. constructor; [lia | apply (IH _ _ _ E2)].
    + destruct (Perf.close_all k l tr) as [l2 tr2] eqn:E2. injection H as <- <-.
      apply Z.leb_gt in E. constructor; [exact E | apply (IH _ _ _ E2)].
Qed.

Lemma close_all_closed (l : list Z) (tr : Perf.trace) :
  Forall (fun fd => fd < 0) l -> Perf.close_all k l tr = (l, tr).
Proof.
  induction 1 as [ | fd l Hfd _ IH ]; [reflexivity | ].
  cbn [Perf.close_all]. replace (0 <=? fd) with false by (symmetry; apply Z.leb_gt; exact Hfd).
  rewrite IH. reflexivity.
Qed.

Lemma read_all_closed (l : list Z) :
  forall vals tr, Forall (fun fd => fd < 0) l ->
    Perf.read_all k l vals tr = (Some (Some (vals ++ replicate (length l) 0)), tr).
Proof.
  induction l as [ | fd l IH ]; intros vals tr Hall.
  - cbn. rewrite app_nil_r. reflexivity.
  - inversion Hall as [ | ? ? Hfd Hrest ]; subst. cbn [Perf.read_all].
    replace (0 <=? fd) with false by (symmetry; apply Z.leb_gt; exact Hfd).
    rewrite IH by exact Hrest. cbn [length replicate]. rewrite <- app_assoc. reflexivity.
Qed.

Lemma count_open_closed (l : list Z) :
  Forall (fun fd => fd < 0) l -> Perf.count_open l = 0.
Proof.
  induction 1 as [ | fd l Hfd _ IH ]; [reflexivity | ].
  cbn [Perf.count_open]. replace (0 <=? fd) with false by (symmetry; apply Z.leb_gt; exact Hfd).
  rewrite IH. reflexivity.
Qed.

Lemma nth_zeros (n i : nat) : nth i (replicate n 0) 0 = 0.
Proof.
  revert i. induction n as [ | n IH ]; intros [ | i ]; cbn; try reflexivity. apply IH.
Qed.

End ClosedContext.

(** X24.  A closed context is inert.  After [pmu_close], whatever the
    context was, no counter counts as open, and further calls do not reach
    the kernel: a second [pmu_close] closes nothing again and leaves the
    context as it is, [pmu_read] succeeds with an all-zero reading, and
    [pmu_reset], [pmu_enable] and [pmu_disable] return -1. *)
Theorem closed_context_inert (k : Perf.kernel) (ctx ctx' : Perf.pmu_context)
    (tr tr' : Perf.trace) :
  Perf.pmu_close k ctx tr = (ctx', tr') ->
  Perf.pmu_count_open ctx' = 0 /\
  Perf.pmu_close k ctx' tr' = (ctx', tr') /\
  Perf.pmu_read k ctx' tr' = (Some (0, zero_reading), tr') /\
  Perf.pmu_reset k ctx' tr' = (-1, tr') /\
  Perf.pmu_enable k ctx' tr' = (-1, tr') /\
  Perf.pmu_disable k ctx' tr' = (-1, tr').
Proof.
  unfold Perf.pmu_close. intros H.
  destruct (Perf.close_all k (Perf.fds ctx) tr) as [l tr1] eqn:E. injection H as <- <-.
  pose proof (close_all_negative k _ _ _ _ E) as Hneg.
  cbn [Perf.fds Perf.cpu Perf.pid Perf.group_fd].
  split; [apply count_open_closed; exact Hneg | ].
  split; [rewrite close_all_closed by exact Hneg; reflexivity | ].
  split.
  - unfold Perf.pmu_read. cbn [Perf.fds]. rewrite read_all_closed by exact Hneg.
    cbn [app]. unfold Perf.reading_of, zero_reading. rewrite !nth_zeros. reflexivity.
  - unfold Perf.pmu_reset, Perf.pmu_enable, Perf.pmu_disable, Perf.group_ioctl.
    cbn [Perf.group_fd]. auto.
Qed.

Lemma pmu_open_accounts_witness :
  descriptors_fit granting_kernel /\
  fst (fst (Perf.pmu_open granting_kernel (-1) (-1) [])) = Perf.Opened /\
  accounted_since [] (Perf.fds (snd (fst (Perf.pmu_open granting_kernel (-1) (-1) []))))
    (snd (Perf.pmu_open granting_kernel (-1) (-1) [])) /\
  Perf.pmu_count_open (snd (fst (Perf.pmu_open granting_kernel (-1) (-1) []))) = 6.
Proof.
  assert (Hfit : descriptors_fit granting_kernel).
  { intros tr c. unfold granting_kernel. cbn [Perf.ret]. destruct c; lia. }
  split; [exact Hfit | ]. split; [vm_compute; reflexivity | ].
  split; [ | vm_compute; reflexivity].
  destruct (Perf.pmu_open granting_kernel (-1) (-1) []) as [[st ctx] tr] eqn:E.
  exact (proj1 (pmu_open_accounts granting_kernel (-1) (-1) [] st ctx tr Hfit E)).
Defined.

Lemma closed_context_inert_witness :
  Perf.pmu_close granting_kernel
    {| Perf.fds := [3; 4; -1; 5; -1; -1]; Perf.cpu := 0; Perf.pid := 0;
       Perf.group_fd := 3 |} [] =
  ({| Perf.fds := [-1; -1; -1; -1; -1; -1]; Perf.cpu := 0; Perf.pid := 0;
      Perf.group_fd := -1 |},
   [(Perf.SysClose 5, granting_kernel [] (Perf.SysClose 5));
    (Perf.SysClose 4, granting_kernel [] (Perf.SysClose 4));
    (Perf.SysClose 3, granting_kernel [] (Perf.SysClose 3))]) /\
  Perf.pmu_read granting_kernel
    {| Perf.fds := [-1; -1; -1; -1; -1; -1]; Perf.cpu := 0; Perf.pid := 0;
       Perf.group_fd := -1 |}
    [(Perf.SysClose 5, granting_kernel [] (Perf.SysClose 5));
     (Perf.SysClose 4, granting_kernel [] (Perf.SysClose 4));
     (Perf.SysClose 3, granting_kernel [] (Perf.SysClose 3))] =
  (Some (0, zero_reading),
   [(Perf.SysClose 5, granting_kernel [] (Perf.SysClose 5));
    (Perf.SysClose 4, granting_kernel [] (Perf.SysClose 4));
    (Perf.SysClose 3, granting_kernel [] (Perf.SysClose 3))]).
Proof.
  assert (H : Perf.pmu_close granting_kernel
    {| Perf.fds := [3; 4; -1; 5; -1; -1]; Perf.cpu := 0; Perf.pid := 0;
       Perf.group_fd := 3 |} [] =
  ({| Perf.fds := [-1; -1; -1; -1; -1; -1]; Perf.cpu := 0; Perf.pid := 0;
      Perf.group_fd := -1 |},
   [(Perf.SysClose 5, granting_kernel [] (Perf.SysClose 5));
    (Perf.SysClose 4, granting_kernel [] (Perf.SysClose 4));
    (Perf.SysClose 3, granting_kernel [] (Perf.SysClose 3))])) by reflexivity.
  split; [exact H | ].
  exact (proj1 (proj2 (proj2 (closed_context_inert granting_kernel _ _ _ _ H)))).
Defined.

Section Requests.
Variable k : Perf.kernel.
Hypothesis fit : descriptors_fit k.







End Requests.

Section RequestsOfOpen.
Variable tr0 : Perf.trace.
Variables p c leader : Z.






End RequestsOfOpen.



(** ** config.c: lines *)

Section Trim.

Lemma until_nul_c_string (s : list Byte.byte) : c_string s -> until_nul s = s.
Proof.
  unfold c_string, Chr.nul. induction s as [ | c s IH ]; intros H; [reflexivity | ].
  cbn [until_nul]. destruct (Byte.eqb c Byte.x00) eqn:E.
  - exfalso. apply H. left. destruct c; try discriminate. reflexivity.
  - rewrite IH; [reflexivity | ]. intros Hin. apply H. right. exact Hin.
Qed.

Lemma until_nul_is_c_string (s : list Byte.byte) : c_string (until_nul s).
Proof.
  unfold c_string, Chr.nul. induction s as [ | c s IH ]; [intros [] | ].
  cbn [until_nul]. destruct (Byte.eqb c Byte.x00) eqn:E; [intros [] | ].
  intros [-> | Hin]; [discriminate | exact (IH Hin)].
Qed.

Lemma blank_c_string (ws : list Byte.byte) : blank ws -> c_string ws.
Proof.
  unfold blank, c_string, Chr.nul. intros H Hin.
  rewrite List.Forall_forall in H. specialize (H _ Hin). discriminate.
Qed.

Lemma c_string_app (a b : list Byte.byte) : c_string (a ++ b) <-> c_string a /\ c_string b.
Proof.
  unfold c_string. split.
  - intros H. split; intros Hin; apply H, in_or_app; [left | right]; exact Hin.
  - intros [Ha Hb] Hin. apply in_app_or in Hin. destruct Hin; auto.
Qed.

Lemma skip_space_blank (ws rest : list Byte.byte) :
  blank ws -> Config.skip_space (ws ++ rest) = Config.skip_space rest.
Proof.
  induction 1 as [ | c ws Hc _ IH ]; [reflexivity | ].
  cbn [app Config.skip_space]. rewrite Hc. exact IH.
Qed.

Lemma skip_space_all (ws : list Byte.byte) : blank ws -> Config.skip_space ws = [].
Proof.
  intros H. rewrite <- (app_nil_r ws). rewrite skip_space_blank by exact H. reflexivity.
Qed.

Lemma skip_space_split (s : list Byte.byte) :
  exists ws, blank ws /\ s = ws ++ Config.skip_space s /\
             forall c, hd_error (Config.skip_space s) = Some c -> isspace c = false.
Proof.
  induction s as [ | c s (ws & Hws & Hs & Hh) ].
  - exists []. split; [constructor | ]. split; [reflexivity | ]. intros c H. discriminate.
  - cbn [Config.skip_space]. destruct (isspace c) eqn:E.
    + exists (c :: ws). split; [constructor; assumption | ].
      split; [cbn; congruence | exact Hh].
    + exists []. split; [constructor | ]. split; [reflexivity | ].
      intros c' [= <-]. exact E.
Qed.

Lemma trim_end_le (s : list Byte.byte) (e : nat) : (Config.trim_end s e <= e)%nat.
Proof.
  induction e as [ | e IH ]; cbn [Config.trim_end]; [lia | ].
  destruct (isspace (nth (S e) s Byte.x00)); lia.
Qed.

Lemma trim_end_blank_above (s : list Byte.byte) (e : nat) :
  forall i, (Config.trim_end s e < i <= e)%nat -> isspace (nth i s Byte.x00) = true.
Proof.
  induction e as [ | e IH ]; cbn [Config.trim_end]; intros i Hi; [lia | ].
  destruct (isspace (nth (S e) s Byte.x00)) eqn:E; [ | lia].
  destruct (Nat.eq_dec i (S e)) as [-> | Hne]; [exact E | apply IH; lia].
Qed.

Lemma trim_end_stop (s : list Byte.byte) (e : nat) :
  Config.trim_end s e = O \/ isspace (nth (Config.trim_end s e) s Byte.x00) = false.
Proof.
  induction e as [ | e IH ]; cbn [Config.trim_end]; [left; reflexivity | ].
  destruct (isspace (nth (S e) s Byte.x00)) eqn:E; [exact IH | right; exact E].
Qed.

(** The loop stops at the last byte of [t] when only white space follows. *)
Lemma trim_end_blank (t ws : list Byte.byte) (c : Byte.byte) :
  blank ws -> last t = Some c -> isspace c = false ->
  Config.trim_end (t ++ ws) (length t + length ws - 1) = (length t - 1)%nat.
Proof.
  intros Hws Hlast Hc.
  assert (Ht : (0 < length t)%nat) by (destruct t; [discriminate | cbn; lia]).
  assert (Hnth : nth (length t - 1) (t ++ ws) Byte.x00 = c).
  { rewrite app_nth1 by lia. rewrite last_lookup in Hlast.
    replace (pred (length t)) with (length t - 1)%nat in Hlast by lia.
    apply nth_lookup_Some with (d := Byte.x00) in Hlast. exact Hlast. }
  pose proof (trim_end_le (t ++ ws) (length t + length ws - 1)) as Hle.
  pose proof (trim_end_blank_above (t ++ ws) (length t + length ws - 1)) as Habove.
  pose proof (trim_end_stop (t ++ ws) (length t + length ws - 1)) as Hstop.
  set (r := Config.trim_end (t ++ ws) (length t + length ws - 1)) in *.
  destruct (Nat.lt_trichotomy r (length t - 1)) as [Hlt | [Heq | Hgt]]; [ | exact Heq | ].
  - specialize (Habove (length t - 1)%nat ltac:(lia)). rewrite Hnth in Habove. congruence.
  - exfalso. destruct Hstop as [H0 | Hns]; [lia | ].
    rewrite app_nth2 in Hns by lia.
    unfold blank in Hws. rewrite List.Forall_forall in Hws.
    rewrite (Hws (nth (r - length t) ws Byte.x00)) in Hns; [discriminate | ].
    apply nth_In. lia.
Qed.

Lemma trim_blank_ends (ws1 t ws2 : list Byte.byte) :
  blank ws1 -> blank ws2 -> trimmed t -> Config.trim (ws1 ++ t ++ ws2) = t.
Proof.
  intros H1 H2 (Hcs & Hhead & Hlast). unfold Config.trim.
  rewrite skip_space_blank by exact H1.
  destruct t as [ | c t ].
  - cbn [app]. rewrite skip_space_all by exact H2. reflexivity.
  - assert (Hs : Config.skip_space ((c :: t) ++ ws2) = (c :: t) ++ ws2).
    { cbn [app Config.skip_space]. rewrite (Hhead c eq_refl). reflexivity. }
    rewrite Hs. rewrite until_nul_c_string
      by (apply c_string_app; split; [exact Hcs | apply blank_c_string; exact H2]).
    destruct (last (c :: t)) as [d | ] eqn:El.
    2:{ rewrite last_None in El. discriminate. }
    pose proof (trim_end_blank (c :: t) ws2 d H2 El (Hlast d eq_refl)) as He.
    rewrite length_app. cbn [length] in *.
    replace (S (length t) + length ws2 - 1)%nat with (length t + length ws2)%nat in He by lia.
    cbn [Nat.add]. rewrite He.
    replace (S (S (length t) - 1)) with (length (c :: t)) by (cbn; lia).
    rewrite take_app_length. reflexivity.
Qed.

Lemma trim_decompose (s : list Byte.byte) :
  exists ws1 ws2, blank ws1 /\ blank ws2 /\
                  until_nul (Config.skip_space s) = Config.trim s ++ ws2 /\
                  s = ws1 ++ Config.skip_space s /\ trimmed (Config.trim s).
Proof.
  destruct (skip_space_split s) as (ws1 & H1 & Hs & Hh).
  unfold Config.trim. set (u := until_nul (Config.skip_space s)).
  assert (Hu : c_string u) by apply until_nul_is_c_string.
  assert (Hhu : forall c, hd_error u = Some c -> isspace c = false).
  { subst u. destruct (Config.skip_space s) as [ | c r ]; [intros c H; discriminate | ].
    cbn [until_nul]. destruct (Byte.eqb c Byte.x00); [intros c' H; discriminate | ].
    intros c' [= <-]. apply Hh. reflexivity. }
  clearbody u. exists ws1.
  destruct (length u) as [ | n ] eqn:En.
  - exists []. destruct u; [ | discriminate].
    split; [exact H1 | ]. split; [constructor | ]. split; [reflexivity | ].
    split; [exact Hs | ]. split; [exact Hu | ]. split; intros c H; discriminate.
  - set (r := Config.trim_end u n).
    pose proof (trim_end_le u n) as Hle. fold r in Hle.
    exists (drop (S r) u).
    split; [exact H1 | ]. split.
    { unfold blank. rewrite List.Forall_forall. intros c Hin.
      apply list_elem_of_In, list_elem_of_lookup_1 in Hin. destruct Hin as (i & Hi).
      rewrite lookup_drop in Hi.
      assert (Hlt : (S r + i < length u)%nat) by (apply lookup_lt_Some in Hi; exact Hi).
      apply nth_lookup_Some with (d := Byte.x00) in Hi. rewrite <- Hi.
      apply (trim_end_blank_above u n). fold r. lia. }
    split; [symmetry; apply take_drop | ]. split; [exact Hs | ].
    split; [ | split].
    + intros Hin. apply Hu. rewrite <- (take_drop (S r) u). apply in_or_app.
      left. exact Hin.
    + intros c Hc. apply Hhu. destruct u; [discriminate | ]. exact Hc.
    + intros c Hc. rewrite last_lookup in Hc. rewrite length_take in Hc.
      replace (pred (S r `min` length u)) with r in Hc by lia.
      rewrite lookup_take_lt in Hc by lia.
      apply nth_lookup_Some with (d := Byte.x00) in Hc.
      destruct (trim_end_stop u n) as [H0 | Hns]; fold r in H0 || fold r in Hns.
      * rewrite H0 in Hc. apply Hhu. destruct u; [discriminate | ].
        cbn in Hc. cbn. congruence.
      * rewrite Hc in Hns. exact Hns.
Qed.

Lemma trim_split (s : list Byte.byte) :
  c_string s ->
  exists ws1 ws2, blank ws1 /\ blank ws2 /\ s = ws1 ++ Config.trim s ++ ws2.
Proof.
  intros Hcs. destruct (trim_decompose s) as (ws1 & ws2 & H1 & H2 & Hu & Hs & Ht).
  exists ws1, ws2. split; [exact H1 | ]. split; [exact H2 | ].
  rewrite <- Hu. rewrite until_nul_c_string; [exact Hs | ].
  rewrite Hs in Hcs. apply c_string_app in Hcs. apply Hcs.
Qed.

End Trim.

(** X26.  [trim] returns the text between the white space: for a C string
    [s], [s] is white space, then [trim s], then white space, and [trim s]
    has no white space at either end; so a text without white space at its
    ends comes back unchanged from any white-space padding of it. *)
Theorem trim_strips (s : list Byte.byte) :
  c_string s ->
  (exists ws1 ws2, blank ws1 /\ blank ws2 /\ s = ws1 ++ Config.trim s ++ ws2) /\
  trimmed (Config.trim s) /\
  (forall ws1 t ws2, blank ws1 -> blank ws2 -> trimmed t -> s = ws1 ++ t ++ ws2 ->
                     Config.trim s = t).
Proof.
  intros Hcs. split; [apply trim_split; exact Hcs | ].
  split.
  - destruct (trim_decompose s) as (ws1 & ws2 & _ & _ & _ & _ & Ht). exact Ht.
  - intros w1 t w2 Hw1 Hw2 Htr ->. apply trim_blank_ends; assumption.
Qed.

Section Lines.
Variable strtoul : list Byte.byte -> Z.
Variable strtol : list Byte.byte -> Z.
Variable strtod : list Byte.byte -> spec_float.

Let config_line := Config.config_line strtoul strtol strtod.
Let parse_kv := Config.parse_kv strtoul strtol strtod.

Lemma byte_eqb_eq (a b : Byte.byte) : Byte.eqb a b = true <-> a = b.
Proof. split; [apply Byte.byte_dec_bl | apply Byte.byte_dec_lb]. Qed.

Lemma byte_eqb_neq (a b : Byte.byte) : Byte.eqb a b = false <-> a <> b.
Proof.
  split.
  - intros H ->. rewrite (Byte.byte_dec_lb eq_refl) in H. discriminate.
  - intros H. destruct (Byte.eqb a b) eqn:E; [ | reflexivity].
    apply Byte.byte_dec_bl in E. contradiction.
Qed.

Lemma strchr_first (a b : list Byte.byte) (c : Byte.byte) :
  ~ In c a -> strchr (a ++ c :: b) c = Some (length a).
Proof.
  induction a as [ | x a IH ]; intros H; cbn [app strchr length].
  - rewrite (Byte.byte_dec_lb eq_refl). reflexivity.
  - replace (Byte.eqb x c) with false
      by (symmetry; apply byte_eqb_neq; intros ->; apply H; left; reflexivity).
    rewrite IH; [reflexivity | ]. intros Hin. apply H. right. exact Hin.
Qed.

Lemma strchr_none (s : list Byte.byte) (c : Byte.byte) : ~ In c s -> strchr s c = None.
Proof.
  induction s as [ | x s IH ]; intros H; [reflexivity | ]. cbn [strchr].
  replace (Byte.eqb x c) with false
    by (symmetry; apply byte_eqb_neq; intros ->; apply H; left; reflexivity).
  rewrite IH; [reflexivity | ]. intros Hin. apply H. right. exact Hin.
Qed.

Lemma blank_not_in (ws : list Byte.byte) (c : Byte.byte) :
  blank ws -> isspace c = false -> ~ In c ws.
Proof.
  unfold blank. rewrite List.Forall_forall. intros H Hc Hin. rewrite (H c Hin) in Hc.
  discriminate.
Qed.

Lemma blank_app (a b : list Byte.byte) : blank a -> blank b -> blank (a ++ b).
Proof. unfold blank. intros Ha Hb. apply Forall_app. split; assumption. Qed.

Lemma last_app_cons (a b : list Byte.byte) (c : Byte.byte) :
  last (a ++ c :: b) = last (c :: b).
Proof.
  induction a as [ | x a IH ]; [reflexivity | ].
  cbn [app]. rewrite <- IH. destruct (a ++ c :: b) eqn:E; [ | reflexivity].
  destruct a; discriminate.
Qed.

(** A line [key = value]: what [trim] leaves of it is split at the first
    [=] into the key and the value. *)
Lemma config_line_split (cfg : Config.guardian_config)
    (ws1 k ws2 ws3 v ws4 : list Byte.byte) :
  blank ws1 -> blank ws2 -> blank ws3 -> blank ws4 ->
  trimmed k -> trimmed v -> k <> [] ->
  ~ In Byte.x3d k -> hd_error k <> Some Byte.x23 ->
  config_line cfg (ws1 ++ k ++ ws2 ++ [Byte.x3d] ++ ws3 ++ v ++ ws4) =
  (snd (parse_kv cfg k v), negb (fst (parse_kv cfg k v) =? 0)).
Proof.
  intros H1 H2 H3 H4 Hk Hv Hne Heq Hhash.
  destruct k as [ | c k' ]; [contradiction | ]. set (k := c :: k') in *.
  destruct Hk as (Hkc & Hkh & Hkl). destruct Hv as (Hvc & Hvh & Hvl).
  (* what follows the sign, and what is trimmed away *)
  set (r := match v with [] => [] | _ => ws3 ++ v end).
  set (w := match v with [] => ws3 ++ ws4 | _ => ws4 end).
  assert (Hrw : ws3 ++ v ++ ws4 = r ++ w).
  { subst r w. destruct v; [reflexivity | rewrite app_assoc; reflexivity]. }
  assert (Hw : blank w) by (subst w; destruct v; [apply blank_app | ]; assumption).
  assert (Hr : Config.trim r = v).
  { subst r. destruct v as [ | d v' ]; [reflexivity | ].
    rewrite <- (app_nil_r (ws3 ++ d :: v')), <- app_assoc.
    apply trim_blank_ends; [exact H3 | constructor | ]. split; [ | split]; assumption. }
  assert (Hrc : c_string r).
  { subst r. destruct v; [intros [] | ].
    apply c_string_app. split; [apply blank_c_string; exact H3 | exact Hvc]. }
  set (t := k ++ ws2 ++ [Byte.x3d] ++ r).
  assert (Ht : trimmed t).
  { split; [ | split].
    - subst t. apply c_string_app. split; [exact Hkc | ].
      apply c_string_app. split; [apply blank_c_string; exact H2 | ].
      apply c_string_app. split; [ | exact Hrc].
      intros [Hin | []]. discriminate.
    - intros c0 Hc0. apply Hkh. exact Hc0.
    - intros c0 Hc0. subst t. rewrite app_assoc in Hc0.
      change ([Byte.x3d] ++ r) with (Byte.x3d :: r) in Hc0. rewrite last_app_cons in Hc0.
      subst r. destruct v as [ | d v' ].
      + injection Hc0 as <-. reflexivity.
      + apply Hvl. rewrite <- Hc0. symmetry.
        change (Byte.x3d :: ws3 ++ d :: v') with ((Byte.x3d :: ws3) ++ d :: v').
        apply last_app_cons. }
  assert (Hline : ws1 ++ k ++ ws2 ++ [Byte.x3d] ++ ws3 ++ v ++ ws4 = ws1 ++ t ++ w).
  { subst t. rewrite Hrw. rewrite <- !app_assoc. reflexivity. }
  unfold config_line, Config.config_line. rewrite Hline.
  rewrite (trim_blank_ends ws1 t w H1 Hw Ht).
  assert (Hsplit : strchr t Byte.x3d = Some (length (k ++ ws2))).
  { subst t. rewrite app_assoc. apply strchr_first. intros Hin.
    apply in_app_or in Hin. destruct Hin as [Hin | Hin]; [exact (Heq Hin) | ].
    revert Hin. apply blank_not_in; [exact H2 | reflexivity]. }
  assert (Hshape : t = c :: k' ++ ws2 ++ [Byte.x3d] ++ r) by reflexivity.
  rewrite Hshape at 1.
  replace (Byte.eqb c Byte.x23) with false
    by (symmetry; apply byte_eqb_neq; intros ->; apply Hhash; reflexivity).
  rewrite Hsplit.
  assert (Htk : take (length (k ++ ws2)) t = k ++ ws2).
  { subst t. rewrite app_assoc. apply take_app_length. }
  assert (Htd : drop (S (length (k ++ ws2))) t = r).
  { subst t. rewrite app_assoc. rewrite <- (Nat.add_1_r (length (k ++ ws2))).
    rewrite <- drop_drop. rewrite drop_app_length. reflexivity. }
  rewrite Htk, Htd, Hr.
  replace (Config.trim (k ++ ws2)) with k.
  2:{ symmetry. apply (trim_blank_ends [] k ws2); [constructor | exact H2 | ].
      split; [ | split]; assumption. }
  fold parse_kv. destruct (parse_kv cfg k v) as [rv cfg']. reflexivity.
Qed.

Lemma trim_blank (ws : list Byte.byte) : blank ws -> Config.trim ws = [].
Proof.
  intros H. unfold Config.trim. rewrite skip_space_all by exact H. reflexivity.
Qed.

Lemma trim_head (s : list Byte.byte) (c : Byte.byte) :
  hd_error (Config.skip_space s) = Some c -> c <> Byte.x00 ->
  hd_error (Config.trim s) = Some c.
Proof.
  unfold Config.trim. destruct (Config.skip_space s) as [ | x r ]; [discriminate | ].
  intros [= ->] Hc. cbn [until_nul].
  replace (Byte.eqb c Byte.x00) with false by (symmetry; apply byte_eqb_neq; exact Hc).
  reflexivity.
Qed.

End Lines.

(** X27.  How [config_load_file] reads one line.  White space around the
    line, the key and the value is ignored and the line is split at its
    first [=], so that [key = value] amounts to [parse_kv] on the key and
    the value (the value may contain [=] and inner white space, and may be
    empty); the line counts as an error exactly when [parse_kv] rejects the
    key.  A blank line and a line whose first character after the white
    space is [#] change nothing and are no error; any other line without
    [=] is an error and changes nothing. *)
Theorem config_line_reads (strtoul strtol : list Byte.byte -> Z)
    (strtod : list Byte.byte -> spec_float) (cfg : Config.guardian_config) :
  (forall ws1 k ws2 ws3 v ws4,
     blank ws1 -> blank ws2 -> blank ws3 -> blank ws4 ->
     trimmed k -> trimmed v -> k <> [] ->
     ~ In Byte.x3d k -> hd_error k <> Some Byte.x23 ->
     Config.config_line strtoul strtol strtod cfg
       (ws1 ++ k ++ ws2 ++ [Byte.x3d] ++ ws3 ++ v ++ ws4) =
     (snd (Config.parse_kv strtoul strtol strtod cfg k v),
      negb (fst (Config.parse_kv strtoul strtol strtod cfg k v) =? 0))) /\
  (forall ws, blank ws -> Config.config_line strtoul strtol strtod cfg ws = (cfg, false)) /\
  (forall ws rest, blank ws ->
     Config.config_line strtoul strtol strtod cfg (ws ++ Byte.x23 :: rest) = (cfg, false)) /\
  (forall s c, c_string s -> ~ In Byte.x3d s ->
     hd_error (Config.skip_space s) = Some c -> c <> Byte.x23 ->
     Config.config_line strtoul strtol strtod cfg s = (cfg, true)).
Proof.
  split; [ | split; [ | split]].
  - intros. apply config_line_split; assumption.
  - intros ws Hws. unfold Config.config_line. rewrite trim_blank by exact Hws. reflexivity.
  - intros ws rest Hws. unfold Config.config_line.
    assert (Hh : hd_error (Config.trim (ws ++ Byte.x23 :: rest)) = Some Byte.x23).
    { apply trim_head; [ | discriminate]. rewrite skip_space_blank by exact Hws. reflexivity. }
    destruct (Config.trim (ws ++ Byte.x23 :: rest)) as [ | x r ]; [discriminate | ].
    injection Hh as ->. reflexivity.
  - intros s c Hcs Hno Hh Hc. unfold Config.config_line.
    assert (Hc0 : c <> Byte.x00).
    { intros ->. apply Hcs. destruct (skip_space_split s) as (ws & _ & Hs & _).
      rewrite Hs. apply in_or_app. right.
      destruct (Config.skip_space s); [discriminate | ]. injection Hh as ->. left. reflexivity. }
    pose proof (trim_head s c Hh Hc0) as Ht.
    destruct (trim_split s Hcs) as (w1 & w2 & _ & _ & Hs).
    assert (Hnt : ~ In Byte.x3d (Config.trim s)).
    { intros Hin. apply Hno. rewrite Hs. apply in_or_app. right. apply in_or_app. left.
      exact Hin. }
    destruct (Config.trim s) as [ | x r ] eqn:E; [discriminate | ].
    injection Ht as ->.
    replace (Byte.eqb c Byte.x23) with false by (symmetry; apply byte_eqb_neq; exact Hc).
    rewrite strchr_none by exact Hnt. reflexivity.
Qed.

(** ** config.c: the file and the options *)

Section Loading.
Variable strtoul : list Byte.byte -> Z.
Variable strtol : list Byte.byte -> Z.
Variable strtod : list Byte.byte -> spec_float.

Let load_lines := Config.load_lines strtoul strtol strtod.
Let parse_options := Config.parse_options strtoul strtol strtod.

Lemma fgets_all_newline (pre : list Byte.byte) :
  forall room cur rest,
    Config.fgets_all room cur (pre ++ [Byte.x0a] ++ rest) =
    Config.fgets_all room cur (pre ++ [Byte.x0a]) ++ Config.fgets_all 511 [] rest.
Proof.
  induction pre as [ | c pre IH ]; intros room cur rest.
  - reflexivity.
  - cbn [app Config.fgets_all]. destruct (Byte.eqb c Byte.x0a).
    + cbn [app]. f_equal. apply IH.
    + destruct room as [ | [ | room ]]; try apply IH.
      cbn [app]. f_equal. apply IH.
Qed.

Lemma fgets_all_one (body : list Byte.byte) :
  forall room cur eol,
    ~ In Byte.x0a body -> eol = [] \/ eol = [Byte.x0a] ->
    (length (body ++ eol) <= room)%nat -> cur ++ body ++ eol <> [] ->
    Config.fgets_all room cur (body ++ eol) = [cur ++ body ++ eol].
Proof.
  induction body as [ | c body IH ]; intros room cur eol Hnl Heol Hlen Hne.
  - cbn [app] in *. destruct Heol as [-> | ->].
    + rewrite app_nil_r in *. cbn. destruct cur; [contradiction | reflexivity].
    + reflexivity.
  - cbn [app Config.fgets_all].
    replace (Byte.eqb c Byte.x0a) with false
      by (symmetry; apply byte_eqb_neq; intros ->; apply Hnl; left; reflexivity).
    assert (Hnl' : ~ In Byte.x0a body) by (intros Hin; apply Hnl; right; exact Hin).
    cbn [app length] in Hlen.
    destruct room as [ | [ | room ]]; [lia | | ].
    + assert (Hempty : body ++ eol = []) by (destruct (body ++ eol); [reflexivity | cbn in Hlen; lia]).
      rewrite Hempty. cbn. reflexivity.
    + change (S (S room) - 1)%nat with (S room).
      rewrite (IH (S room) (cur ++ [c]) eol Hnl' Heol).
      * rewrite <- app_assoc. reflexivity.
      * lia.
      * destruct cur; discriminate.
Qed.

Lemma fgets_all_length (s : list Byte.byte) :
  forall room cur, (length (Config.fgets_all room cur s) <= length s + 1)%nat.
Proof.
  induction s as [ | c s IH ]; intros room cur.
  - cbn. destruct cur; cbn; lia.
  - cbn [Config.fgets_all length]. destruct (Byte.eqb c Byte.x0a).
    + cbn [length]. specialize (IH (Config.CONFIG_MAX_LINE - 1)%nat []). lia.
    + destruct room as [ | [ | room ]].
      * specialize (IH (0 - 1)%nat (cur ++ [c])). lia.
      * cbn [length]. specialize (IH (Config.CONFIG_MAX_LINE - 1)%nat []). lia.
      * specialize (IH (S (S room) - 1)%nat (cur ++ [c])). lia.
Qed.

Lemma load_lines_app (l1 l2 : list (list Byte.byte)) :
  forall cfg n e,
    load_lines cfg (l1 ++ l2) n e =
    match load_lines cfg l1 n e with
    | Some (cfg1, e1) => load_lines cfg1 l2 (n + Z.of_nat (length l1)) e1
    | None => None
    end.
Proof.
  induction l1 as [ | line l1 IH ]; intros cfg n e.
  - cbn. rewrite Z.add_0_r. reflexivity.
  - cbn [app]. unfold load_lines in *. cbn [Config.load_lines].
    destruct (n =? Config.INT_MAX); [reflexivity | ].
    destruct (Config.config_line strtoul strtol strtod cfg line) as [cfg' err].
    rewrite IH. cbn [length].
    replace (n + 1 + Z.of_nat (length l1)) with (n + Z.of_nat (S (length l1))) by lia.
    reflexivity.
Qed.

Lemma load_lines_returns (lines : list (list Byte.byte)) :
  forall cfg n e,
    0 <= n -> n + Z.of_nat (length lines) <= Config.INT_MAX ->
    exists cfg' e', load_lines cfg lines n e = Some (cfg', e').
Proof.
  induction lines as [ | line lines IH ]; intros cfg n e Hn Hlen.
  - eexists. eexists. reflexivity.
  - unfold load_lines in *. cbn [Config.load_lines]. cbn [length] in Hlen.
    replace (n =? Config.INT_MAX) with false by (symmetry; apply Z.eqb_neq; lia).
    destruct (Config.config_line strtoul strtol strtod cfg line) as [cfg' err].
    apply IH; lia.
Qed.

Lemma parse_options_accepted (opts : list (Byte.byte * list Byte.byte)) :
  Forall accepted opts ->
  forall cfg cp, exists cfg1,
    parse_options cfg cp opts =
    inl (cfg1, match last_config_path opts with Some p => Some p | None => cp end).
Proof.
  induction 1 as [ | [o a] opts Hacc _ IH ]; intros cfg cp.
  - exists cfg. reflexivity.
  - unfold accepted, option_letters in Hacc. cbn [fst] in Hacc.
    unfold parse_options in *. cbn [last_config_path].
    repeat (destruct Hacc as [<- | Hacc];
            [cbn [Config.parse_options Byte.eqb];
             match goal with
             | |- context [Config.parse_options _ _ _ ?c ?p opts] =>
                 destruct (IH c p) as (cfg1 & ->)
             end;
             exists cfg1; cbn; destruct (last_config_path opts); reflexivity | ]).
    destruct Hacc.
Qed.

(** The options leave in [sampling_interval_us] the argument of the last
    [-i], or the value there was. *)
Lemma parse_options_interval (opts : list (Byte.byte * list Byte.byte)) :
  Forall accepted opts ->
  forall cfg cp cfg1 p,
    parse_options cfg cp opts = inl (cfg1, p) ->
    Config.sampling_interval_us cfg1 =
    match last_interval opts with
    | Some a => wrap32 (strtoul a)
    | None => Config.sampling_interval_us cfg
    end.
Proof.
  induction 1 as [ | [o a] opts Hacc _ IH ]; intros cfg cp cfg1 p Hp.
  - injection Hp as <- _. reflexivity.
  - unfold accepted, option_letters in Hacc. cbn [fst] in Hacc.
    unfold parse_options in *. cbn [last_interval].
    repeat (destruct Hacc as [<- | Hacc];
            [cbn [Config.parse_options] in Hp; apply IH in Hp; rewrite Hp;
             destruct (last_interval opts); reflexivity | ]).
    destruct Hacc.
Qed.

End Loading.

(** X28.  The configuration file is applied after the command line.
    Whatever the order of the options, the file named by the last [-c] is
    loaded once all of them have been applied: [parse_options] runs through
    every option and gives [cfg1], in which [sampling_interval_us] is the
    argument of the last [-i]; the lines of the file before the last one
    are loaded into [cfg1] and give [mid]; the last line, when it is an
    assignment [key = value], is the last setting made, so that the result
    is [parse_kv] of that key and value on [mid].  [config_parse_args]
    returns 0 even when lines of the file were rejected.  In particular a
    [sampling_interval_us] line there wins over any [-i] option. *)
Theorem file_overrides_options (strtoul strtol : list Byte.byte -> Z)
    (strtod : list Byte.byte -> spec_float)
    (read_file : list Byte.byte -> option (list Byte.byte))
    (cfg : Config.guardian_config) (opts : list (Byte.byte * list Byte.byte))
    (path pre ws1 k ws2 ws3 v ws4 eol : list Byte.byte) :
  Forall accepted opts ->
  last_config_path opts = Some path ->
  read_file path = Some (pre ++ (ws1 ++ k ++ ws2 ++ [Byte.x3d] ++ ws3 ++ v ++ ws4) ++ eol) ->
  pre = [] \/ last pre = Some Byte.x0a ->
  eol = [] \/ eol = [Byte.x0a] ->
  ~ In Byte.x0a (ws1 ++ k ++ ws2 ++ [Byte.x3d] ++ ws3 ++ v ++ ws4) ->
  (length ((ws1 ++ k ++ ws2 ++ [Byte.x3d] ++ ws3 ++ v ++ ws4) ++ eol) <= 511)%nat ->
  Z.of_nat (length pre) + 2 < Config.INT_MAX ->
  blank ws1 -> blank ws2 -> blank ws3 -> blank ws4 ->
  trimmed k -> trimmed v -> k <> [] ->
  ~ In Byte.x3d k -> hd_error k <> Some Byte.x23 ->
  exists cfg1 mid rejected final,
    Config.parse_options strtoul strtol strtod cfg None opts = inl (cfg1, Some path) /\
    Config.load_lines strtoul strtol strtod cfg1
      (Config.fgets_all (Config.CONFIG_MAX_LINE - 1) [] pre) 0 0 = Some (mid, rejected) /\
    Config.config_parse_args strtoul strtol strtod read_file cfg opts = Some (0, final) /\
    final = snd (Config.parse_kv strtoul strtol strtod mid k v) /\
    (k = Key.sampling_interval_us ->
     Config.sampling_interval_us final = wrap32 (strtoul v)) /\
    Config.sampling_interval_us cfg1 =
      match last_interval opts with
      | Some a => wrap32 (strtoul a)
      | None => Config.sampling_interval_us cfg
      end.
Proof.
  intros Hopts Hpath Hfile Hpre Heol Hnl Hlen Hsize H1 H2 H3 H4 Hk Hv Hne Heq Hhash.
  set (body := ws1 ++ k ++ ws2 ++ [Byte.x3d] ++ ws3 ++ v ++ ws4) in *.
  destruct (parse_options_accepted strtoul strtol strtod opts Hopts cfg None)
    as (cfg1 & Hparse).
  rewrite Hpath in Hparse.
  unfold Config.config_parse_args. rewrite Hparse, Hfile.
  unfold Config.config_load_file.
  assert (Hbody : body <> []).
  { subst body. destruct ws1; [ | discriminate]. destruct k; [contradiction | discriminate]. }
  assert (Hone : Config.fgets_all 511 [] (body ++ eol) = [body ++ eol]).
  { apply (fgets_all_one body 511 [] eol Hnl Heol Hlen). cbn [app].
    destruct body; [contradiction | discriminate]. }
  set (L := Config.fgets_all (Config.CONFIG_MAX_LINE - 1) [] pre).
  assert (Hlines : Config.fgets_all (Config.CONFIG_MAX_LINE - 1) [] (pre ++ body ++ eol)
                   = L ++ [body ++ eol] /\ (length L <= length pre + 1)%nat).
  { subst L. change (Config.CONFIG_MAX_LINE - 1)%nat with 511%nat.
    destruct Hpre as [-> | Hlast].
    - split; [exact Hone | cbn; lia].
    - apply last_Some in Hlast. destruct Hlast as (p & ->). split.
      + rewrite <- app_assoc. rewrite fgets_all_newline, Hone. reflexivity.
      + pose proof (fgets_all_length (p ++ [Byte.x0a]) 511 []). lia. }
  destruct Hlines as (HLeq & HL). rewrite HLeq.
  pose proof (load_lines_app strtoul strtol strtod L [body ++ eol] cfg1 0 0) as Happ.
  cbv zeta in Happ. rewrite Happ.
  destruct (load_lines_returns strtoul strtol strtod L cfg1 0 0 ltac:(lia)
              ltac:(unfold Config.INT_MAX in *; lia)) as (mid & e1 & Hmid).
  rewrite Hmid.
  cbn [Config.load_lines].
  replace (0 + Z.of_nat (length L) =? Config.INT_MAX) with false
    by (symmetry; apply Z.eqb_neq; unfold Config.INT_MAX in *; lia).
  assert (Hline : Config.config_line strtoul strtol strtod mid (body ++ eol) =
                  (snd (Config.parse_kv strtoul strtol strtod mid k v),
                   negb (fst (Config.parse_kv strtoul strtol strtod mid k v) =? 0))).
  { subst body. rewrite <- !app_assoc.
    apply config_line_split; try assumption.
    apply blank_app; [exact H4 | ]. destruct Heol as [-> | ->]; repeat constructor. }
  rewrite Hline. exists cfg1, mid, e1. eexists.
  split; [reflexivity | ]. split; [exact Hmid | ].
  split; [reflexivity | ]. split; [reflexivity | ].
  split; [intros ->; reflexivity | ].
  apply (parse_options_interval strtoul strtol strtod opts Hopts cfg None cfg1 (Some path)).
  exact Hparse.
Qed.

Lemma trim_strips_witness :
  c_string [Byte.x20; Byte.x61; Byte.x20; Byte.x62; Byte.x20; Byte.x0a] /\
  Config.trim [Byte.x20; Byte.x61; Byte.x20; Byte.x62; Byte.x20; Byte.x0a] =
  [Byte.x61; Byte.x20; Byte.x62].
Proof.
  assert (Hcs : c_string [Byte.x20; Byte.x61; Byte.x20; Byte.x62; Byte.x20; Byte.x0a]).
  { vm_compute. intuition discriminate. }
  split; [exact Hcs | ].
  apply (proj2 (proj2 (trim_strips _ Hcs)) [Byte.x20] [Byte.x61; Byte.x20; Byte.x62]
           [Byte.x20; Byte.x0a]).
  - repeat constructor.
  - repeat constructor.
  - split; [vm_compute; intuition discriminate | ].
    split; intros c [= <-]; reflexivity.
  - reflexivity.
Defined.

Lemma config_line_reads_witness :
  blank [Byte.x20] /\ trimmed Key.verbose /\ trimmed [Byte.x31] /\
  Config.config_line decimal decimal no_double Config.config_set_defaults
    ([Byte.x20] ++ Key.verbose ++ [Byte.x20] ++ [Byte.x3d] ++ [] ++ [Byte.x31] ++ [Byte.x0a]) =
  (Config.set_verbose Config.config_set_defaults true, false).
Proof.
  assert (Hk : trimmed Key.verbose).
  { split; [vm_compute; intuition discriminate | ].
    split; intros c H; vm_compute in H; injection H as <-; reflexivity. }
  assert (Hv : trimmed [Byte.x31]).
  { split; [vm_compute; intuition discriminate | ].
    split; intros c [= <-]; reflexivity. }
  split; [repeat constructor | ]. split; [exact Hk | ]. split; [exact Hv | ].
  refine (proj1 (config_line_reads decimal decimal no_double Config.config_set_defaults)
            [Byte.x20] Key.verbose [Byte.x20] [] [Byte.x31] [Byte.x0a]
            _ _ _ _ Hk Hv _ _ _).
  - repeat constructor.
  - repeat constructor.
  - constructor.
  - repeat constructor.
  - discriminate.
  - vm_compute. intuition discriminate.
  - discriminate.
Defined.

Lemma file_overrides_options_witness :
  Forall accepted options_around_file /\
  last_config_path options_around_file = Some [Byte.x66] /\
  Config.config_parse_args decimal decimal no_double file_250
    Config.config_set_defaults options_around_file =
  Some (0, Config.set_sampling_interval_us
             (Config.set_verbose
                (Config.set_log_to_syslog Config.config_set_defaults true) true) 250).
Proof.
  assert (Hacc : Forall accepted options_around_file).
  { repeat constructor; unfold accepted, option_letters; cbn; tauto. }
  split; [exact Hacc | ]. split; [reflexivity | ].
  assert (Hk : trimmed Key.sampling_interval_us).
  { split; [vm_compute; intuition discriminate | ].
    split; intros c H; vm_compute in H; injection H as <-; reflexivity. }
  assert (Hv : trimmed [Byte.x32; Byte.x35; Byte.x30]).
  { split; [vm_compute; intuition discriminate | ].
    split; intros c H; vm_compute in H; injection H as <-; reflexivity. }
  destruct (file_overrides_options decimal decimal no_double file_250
              Config.config_set_defaults options_around_file [Byte.x66]
              (Key.verbose ++ [Byte.x3d; Byte.x31; Byte.x0a]) [] Key.sampling_interval_us
              [Byte.x20] [Byte.x20] [Byte.x32; Byte.x35; Byte.x30] [] [Byte.x0a])
    as (cfg1 & mid & rejected & final & Hopts & Hpre & Hargs & Hfinal & _);
    [exact Hacc | reflexivity | reflexivity | right; reflexivity | right; reflexivity
    | vm_compute; intuition discriminate | vm_compute; lia | vm_compute; reflexivity
    | constructor | repeat constructor | repeat constructor | constructor
    | exact Hk | exact Hv | discriminate | vm_compute; intuition discriminate
    | discriminate | ].
  vm_compute in Hopts. injection Hopts as <-.
  vm_compute in Hpre. injection Hpre as <- _.
  rewrite Hargs, Hfinal. vm_compute. reflexivity.
Defined.
